(** * Storyteller: playback orchestration, prefetch cache and Gemini audio
      services

    A shallow embedding of [src/App.tsx] (the narration scheduler, its
    [AudioLRUCache] and the React closures around them) and of
    [services/gemini.ts] ([detectEmotion], [generateGeminiSpeech],
    [decodeGeminiAudio]), followed by the properties established about them.

    Conventions.
    - A JavaScript string is the list of its UTF-16 code units ([JS.t]).
    - A JavaScript number used as an index is a [Z]; PCM samples divided by
      32768 are dyadic rationals, exactly representable both as doubles and as
      [Float32Array] elements, so they are modelled in [Q] without rounding.
    - A promise is modelled by the value it settles with ([JS.Settled]); the
      scheduler keeps an explicit store of pending tasks and of the
      continuations ([await]) parked on them.
    - A React callback reads the values of the render that created it; every
      callback therefore takes that render ([App.Render]) as an argument. *)

From Stdlib Require Import ZArith QArith String Ascii Strings.Byte List Bool Lia.
From stdpp Require Import base option list.
Import ListNotations.

Local Open Scope Z_scope.

(* ===================================================================== *)
(** ** JavaScript values                                                  *)
(* ===================================================================== *)

Module JS.

(** A string: its UTF-16 code units. *)
Definition t := list Z.

(** A string literal of the source, read code unit by code unit. *)
Definition lit (s : string) : t :=
  map (fun a => Z.of_N (N_of_ascii a)) (list_ascii_of_string s).

(** The double-quote character, U+0022. *)
Definition dquote : Z := 34.
(** The apostrophe, U+0027. *)
Definition squote : Z := 39.

(** ECMAScript [WhiteSpace] and [LineTerminator] code points, the
    characters [String.prototype.trim] strips. All lie in the BMP. *)
Definition is_space (c : Z) : bool :=
  (c =? 9) || (c =? 10) || (c =? 11) || (c =? 12) || (c =? 13) ||
  (c =? 32) || (c =? 160) || (c =? 5760) ||
  ((8192 <=? c) && (c <=? 8202)) ||
  (c =? 8232) || (c =? 8233) || (c =? 8239) || (c =? 8287) ||
  (c =? 12288) || (c =? 65279).

Fixpoint trimStart (s : t) : t :=
  match s with
  | c :: s' => if is_space c then trimStart s' else s
  | [] => []
  end.

Definition trimEnd (s : t) : t := rev (trimStart (rev s)).

(** [s.trim()] *)
Definition trim (s : t) : t := trimEnd (trimStart s).

(** Truthiness of a string: the empty string is falsy. *)
Definition truthy (s : t) : bool :=
  match s with [] => false | _ :: _ => true end.

(** [!text.trim()] *)
Definition blank (s : t) : bool := negb (truthy (trim s)).

(** [s.replace] of every double quote by an apostrophe (the source's
    global regular expression over U+0022). *)
Definition replaceQuotes (s : t) : t :=
  map (fun c => if c =? dquote then squote else c) s.

(** [xs.join(' ')] *)
Fixpoint join (sep : t) (xs : list t) : t :=
  match xs with
  | [] => []
  | [x] => x
  | x :: rest => x ++ sep ++ join sep rest
  end.

(** [xs.slice(from, to)] for [0 <= from <= to]. *)
Definition slice {A} (xs : list A) (from to : Z) : list A :=
  take (Z.to_nat (to - from)) (drop (Z.to_nat from) xs).

(** [xs[i]]: [None] stands for [undefined] (negative or past the end). *)
Definition index {A} (xs : list A) (i : Z) : option A :=
  if i <? 0 then None else xs !! Z.to_nat i.

(** What a promise settles with. *)
Inductive Settled (A : Type) : Type :=
| Fulfilled (value : A)
| Rejected (reason : t).
Arguments Fulfilled {A} value.
Arguments Rejected {A} reason.

End JS.

Abbreviation Fulfilled := JS.Fulfilled.
Abbreviation Rejected := JS.Rejected.

(* ===================================================================== *)
(** ** services/gemini.ts                                                 *)
(* ===================================================================== *)

Module Gemini.

(** An [AudioBuffer]: the sampling rate, the channel count and the
    samples of channel 0 (the only channel this program creates). *)
Record AudioBuffer := {
  sampleRate : Z;
  numberOfChannels : Z;
  channelData : list Q
}.

(** The [AudioContext] handed to [decodeGeminiAudio]. [createBuffer]
    may refuse its arguments ([None], a [NotSupportedError]). *)
Record AudioContext := {
  createBuffer : Z -> Z -> Z -> option AudioBuffer
}.

(** The Web Audio contract of [createBuffer]: a zero-filled buffer of the
    requested shape, refused when the frame count is not positive. *)
Definition webAudio : AudioContext :=
  {| createBuffer := fun numChannels len rate =>
       if (1 <=? len) && (1 <=? numChannels) then
         Some {| sampleRate := rate;
                 numberOfChannels := numChannels;
                 channelData := replicate (Z.to_nat len) 0%Q |}
       else None |}.

(** The remote model and the platform's base64 decoder.
    [generateText model prompt] is [response.text] of a text call;
    [generateAudio voice prompt] is
    [response.candidates?.[0]?.content?.parts?.[0]?.inlineData?.data]
    of a TTS call; either call may reject. [atob] fails on input that is
    not base64. *)
Record Backend := {
  generateText : JS.t -> JS.t -> JS.Settled (option JS.t);
  generateAudio : JS.t -> JS.t -> JS.Settled (option JS.t);
  atob : JS.t -> option (list byte)
}.

Definition Neutral : JS.t := JS.lit "Neutral".

(** The prompt template of [detectEmotion]. *)
Definition emotionPrompt (safePrevious safeText safeUpcoming : JS.t) : JS.t :=
  JS.lit "You are a professional audiobook narrator. Your task is to determine the single best emotional tone for the "
  ++ [JS.dquote] ++ JS.lit "Target Sentence" ++ [JS.dquote] ++ JS.lit " below."
  ++ [10] ++ JS.lit "        " ++ [10]
  ++ JS.lit "Context:" ++ [10]
  ++ (if JS.truthy safePrevious
      then JS.lit "Previous sentence: " ++ [JS.dquote] ++ safePrevious ++ [JS.dquote]
      else [])
  ++ [10]
  ++ JS.lit "Target Sentence: " ++ [JS.dquote] ++ safeText ++ [JS.dquote] ++ [10]
  ++ (if JS.truthy safeUpcoming
      then JS.lit "Upcoming Context (next 5 lines): " ++ [JS.dquote] ++ safeUpcoming ++ [JS.dquote]
      else [])
  ++ [10] ++ [10]
  ++ JS.lit "Based on the target sentence and the upcoming context, choose one adjective that best describes how to read the target sentence (e.g., Cheerful, Angry, Sad, Suspicious, Neutral, Excited, Funny, Serious, Fearful, Whispering, Shouting)."
  ++ [10]
  ++ JS.lit "Return ONLY the adjective.".

(** The prompt [detectEmotion] builds from its arguments. *)
Definition detectEmotionPrompt
    (text : JS.t) (previousText : option JS.t) (upcomingContext : list JS.t)
    : JS.t :=
  (* Escape quotes to prevent prompt injection/confusion *)
  let safeText := JS.replaceQuotes text in
  let safePrevious :=
    match previousText with
    | Some p => if JS.truthy p then JS.replaceQuotes p else []
    | None => []
    end in
  let safeUpcoming := JS.join [32] (map JS.replaceQuotes upcomingContext) in
  emotionPrompt safePrevious safeText safeUpcoming.

Definition emotionModel : JS.t := JS.lit "gemini-2.5-flash".

(** [detectEmotion(text, previousText, upcomingContext)].
    The whole body is inside [try]; the [catch] returns ['Neutral']. *)
Definition detectEmotion (ai : Backend)
    (text : JS.t) (previousText : option JS.t) (upcomingContext : list JS.t)
    : JS.Settled JS.t :=
  let prompt := detectEmotionPrompt text previousText upcomingContext in
  match generateText ai emotionModel prompt with
  | Fulfilled responseText =>
      (* response.text?.trim() || 'Neutral' *)
      match responseText with
      | Some txt =>
          if JS.truthy (JS.trim txt) then Fulfilled (JS.trim txt)
          else Fulfilled Neutral
      | None => Fulfilled Neutral
      end
  | Rejected _ => Fulfilled Neutral
  end.

(** [generateGeminiSpeech(text, voiceName, emotion)]: the decoded bytes,
    [None] for [null], a rejection when the call or [atob] throws. *)
Definition generateGeminiSpeech (ai : Backend)
    (text voiceName emotion : JS.t) : JS.Settled (option (list byte)) :=
  let ttsPrompt :=
    JS.lit "Speak the following text with a " ++ emotion
    ++ JS.lit " tone: " ++ [JS.dquote] ++ text ++ [JS.dquote] in
  let voice := if JS.truthy voiceName then voiceName else JS.lit "Puck" in
  match generateAudio ai voice ttsPrompt with
  | Fulfilled base64Audio =>
      match base64Audio with
      | Some b64 =>
          if JS.truthy b64 then
            match atob ai b64 with
            | Some bytes => Fulfilled (Some bytes)
            | None => Rejected (JS.lit "InvalidCharacterError")
            end
          else Fulfilled None
      | None => Fulfilled None
      end
  | Rejected e => Rejected e
  end.

(** [dataView.getInt16(offset, true)]: little-endian, two's complement;
    [None] is the [RangeError] of a read past the end. *)
Definition getInt16 (audioData : list byte) (offset : nat) : option Z :=
  match audioData !! offset, audioData !! S offset with
  | Some lo, Some hi =>
      let u := Z.lor (Z.of_N (Byte.to_N lo))
                     (Z.shiftl (Z.of_N (Byte.to_N hi)) 8) in
      Some (if 32768 <=? u then u - 65536 else u)
  | _, _ => None
  end.

Definition byteLength (audioData : list byte) : Z :=
  Z.of_nat (length audioData).

(** The little-endian signed 16-bit integer made of a low and a high
    byte, in arithmetic form: the unsigned value [lo + 256 * hi], read in
    two's complement. *)
Definition int16le (lo hi : byte) : Z :=
  let u := Z.of_N (Byte.to_N lo) + 256 * Z.of_N (Byte.to_N hi) in
  if u <? 32768 then u else u - 65536.

(** Sample [i] in words: the little-endian signed 16-bit
    integer at byte offset [2 * i], divided by 32768. *)
Definition sampleAt (audioData : list byte) (i : nat) : Q :=
  match audioData !! (2 * i)%nat, audioData !! S (2 * i) with
  | Some lo, Some hi => (int16le lo hi # 32768)%Q
  | _, _ => 0%Q
  end.

(** The context hands out the zero-filled mono buffer of [n] frames at
    24000 Hz that [decodeGeminiAudio] asks for. *)
Definition allocates (ctx : AudioContext) (n : Z) : Prop :=
  createBuffer ctx 1 n 24000 =
    Some {| sampleRate := 24000; numberOfChannels := 1;
            channelData := replicate (Z.to_nat n) 0%Q |}.

(** One iteration of the [for] loop of [decodeGeminiAudio]; [None] is a
    thrown [RangeError]. *)
Definition decodeStep (audioData : list byte)
    (acc : option (list Q)) (i : nat) : option (list Q) :=
  match acc with
  | None => None
  | Some data =>
      let offset := (i * 2)%nat in
      if Z.of_nat offset + 1 <? byteLength audioData then
        match getInt16 audioData offset with
        | Some sample => Some (<[i := (sample # 32768)%Q]> data)
        | None => None
        end
      else Some data
  end.

(** [decodeGeminiAudio(audioData, audioContext)] *)
Definition decodeGeminiAudio (audioData : list byte) (audioContext : AudioContext)
    : JS.Settled AudioBuffer :=
  let sampleRate := 24000 in
  let numChannels := 1 in
  let numSamples := byteLength audioData / 2 in
  match createBuffer audioContext numChannels numSamples sampleRate with
  | None => Rejected (JS.lit "NotSupportedError")
  | Some audioBuffer =>
      match foldl (decodeStep audioData) (Some (channelData audioBuffer))
                  (seq 0 (Z.to_nat numSamples)) with
      | Some data =>
          Fulfilled {| sampleRate := Gemini.sampleRate audioBuffer;
                       numberOfChannels := numberOfChannels audioBuffer;
                       channelData := data |}
      | None => Rejected (JS.lit "RangeError")
      end
  end.

End Gemini.

(* ===================================================================== *)
(** ** App.tsx: class AudioLRUCache                                       *)
(* ===================================================================== *)

(** A JavaScript [Map<number, V>]: its entries in insertion order. A key
    occurs at most once; [Map.set] on a present key keeps its position,
    [Map.delete] followed by [Map.set] moves it to the end. *)
Module JSMap.
Section WithValues.
Context {V : Type}.

Definition t := list (Z * V).

Fixpoint get (m : t) (key : Z) : option V :=
  match m with
  | [] => None
  | (k, v) :: m' => if k =? key then Some v else get m' key
  end.

Definition has (m : t) (key : Z) : bool :=
  match get m key with Some _ => true | None => false end.

Fixpoint delete (m : t) (key : Z) : t :=
  match m with
  | [] => []
  | (k, v) :: m' => if k =? key then m' else (k, v) :: delete m' key
  end.

Fixpoint set (m : t) (key : Z) (value : V) : t :=
  match m with
  | [] => [(key, value)]
  | (k, v) :: m' =>
      if k =? key then (k, value) :: m' else (k, v) :: set m' key value
  end.

Definition size (m : t) : Z := Z.of_nat (length m).

(** [m.keys().next().value] *)
Definition firstKey (m : t) : option Z :=
  match m with
  | [] => None
  | (k, _) :: _ => Some k
  end.

Definition keys (m : t) : list Z := map fst m.

End WithValues.
Arguments t : clear implicits.
End JSMap.

Module AudioLRUCache.
Section WithValues.
Context {V : Type}.

Record t := {
  cache : JSMap.t V;
  capacity : Z
}.

(** [new AudioLRUCache(capacity)]; the constructor's default is 50. *)
Definition new (capacity : Z) : t :=
  {| cache := []; capacity := capacity |}.

Definition get (c : t) (key : Z) : option V * t :=
  if negb (JSMap.has (cache c) key) then (None, c)
  else
    match JSMap.get (cache c) key with
    | Some val =>
        (* Refresh: delete and re-set to mark as recently used *)
        let m := JSMap.delete (cache c) key in
        (Some val, {| cache := JSMap.set m key val; capacity := capacity c |})
    | None => (None, c)
    end.

Definition set (c : t) (key : Z) (value : V) : t :=
  let m :=
    if JSMap.has (cache c) key then JSMap.delete (cache c) key
    else if JSMap.size (cache c) >=? capacity c then
      (* Evict oldest (first item in Map) *)
      match JSMap.firstKey (cache c) with
      | Some firstKey => JSMap.delete (cache c) firstKey
      | None => cache c
      end
    else cache c in
  {| cache := JSMap.set m key value; capacity := capacity c |}.

Definition has (c : t) (key : Z) : bool := JSMap.has (cache c) key.

Definition delete (c : t) (key : Z) : t :=
  {| cache := JSMap.delete (cache c) key; capacity := capacity c |}.

Definition clear (c : t) : t :=
  {| cache := []; capacity := capacity c |}.

(** Reading an entry without touching recency (what [get] returns). *)
Definition peek (c : t) (key : Z) : option V := JSMap.get (cache c) key.

Definition keys (c : t) : list Z := JSMap.keys (cache c).

Definition size (c : t) : Z := JSMap.size (cache c).

(** The operations of the class, as a command language, to speak about
    every sequence of calls. *)
Inductive op :=
| Get (key : Z)
| Set_ (key : Z) (value : V)
| Has (key : Z)
| Delete (key : Z)
| Clear.

Definition exec (c : t) (o : op) : t :=
  match o with
  | Get key => snd (get c key)
  | Set_ key value => set c key value
  | Has _ => c
  | Delete key => delete c key
  | Clear => clear c
  end.

Definition run (c : t) (ops : list op) : t := foldl exec c ops.

(** The keys an operation marks as used: [set] always, [get] on a hit. *)
Definition touches (c : t) (o : op) : option Z :=
  match o with
  | Get key => if has c key then Some key else None
  | Set_ key _ => Some key
  | _ => None
  end.

(** The log of uses along a run, oldest first. *)
Fixpoint uses (c : t) (ops : list op) : list Z :=
  match ops with
  | [] => []
  | o :: ops' =>
      match touches c o with
      | Some k => k :: uses (exec c o) ops'
      | None => uses (exec c o) ops'
      end
  end.

End WithValues.
Arguments t : clear implicits.
Arguments op : clear implicits.

(** A list of keys with [key] taken out. *)
Definition without (key : Z) (ks : list Z) : list Z :=
  List.filter (fun k => negb (k =? key)) ks.

(** The distinct keys of a log of uses, ordered by their last use: the
    least recently used first. *)
Fixpoint recency (log : list Z) : list Z :=
  match log with
  | [] => []
  | k :: log' =>
      if existsb (Z.eqb k) log' then recency log' else k :: recency log'
  end.

(** The invariant of the cache along a run whose uses so far are [log]:
    keys are distinct, at most [capacity] of them, and they are kept in
    the order of their last use. *)
Definition ordered {V} (c : t V) (log : list Z) : Prop :=
  List.NoDup (keys c)
  /\ size c <= capacity c
  /\ sublist (keys c) (recency log).

(** [set] called for each pair in turn. *)
Definition inserts {V} (kvs : list (Z * V)) : list (op V) :=
  map (fun kv => Set_ (fst kv) (snd kv)) kvs.

End AudioLRUCache.

(* ===================================================================== *)
(** ** App.tsx: the component                                             *)
(* ===================================================================== *)

Module App.

Import Gemini.

(** types.ts *)
Inductive VoiceEngine := browser | openai | google.

Record AppSettings := {
  engine : VoiceEngine;
  browserVoice : option JS.t;
  openaiKey : JS.t;
  openaiVoice : JS.t;
  googleVoice : JS.t;
  rate : Q;
  pitch : Q;
  darkMode : bool;
  sourceLanguage : JS.t;
  targetLanguage : JS.t
}.

Record PlaybackState := {
  isPlaying : bool;
  isLoading : bool;
  currentIndex : Z;
  detectedEmotion : option JS.t
}.

Record AudioCacheItem := {
  buffer : AudioBuffer;
  emotion : JS.t
}.

(** What the callbacks of one render close over. *)
Record Render := {
  r_playback : PlaybackState;
  r_settings : AppSettings;
  r_settingsId : nat;
  r_textSegments : list JS.t;
  r_pdfDataId : nat
}.

(** A [playSentence(index)] call of render [w_render], suspended at its
    [await]. *)
Record Waiter := {
  w_render : Render;
  w_index : Z
}.

(** A promise stored in the cache: the one returned by
    [processGeminiSentence(task_index)], called by render [task_render],
    or, when [task_guarded], the one [.catch] made of it in
    [prefetchGeminiSentence]. [task_outcome] is [None] while the stored
    promise is pending; [task_waiters] are the [playSentence] calls
    parked on it. *)
Record Task := {
  task_index : Z;
  task_render : Render;
  task_guarded : bool;
  task_outcome : option (JS.Settled AudioCacheItem);
  task_waiters : list Waiter
}.

(** A [fetchOpenAIAudio] call and the [playSentence] awaiting it. *)
Record Fetch := {
  fetch_waiter : Waiter;
  fetch_settled : bool
}.

Inductive Request :=
| DetectEmotionRequest (text : JS.t) (previousText : option JS.t)
                       (upcomingContext : list JS.t)
| OpenAISpeechRequest (text key voice : JS.t) (speed : Q).

(** A [SpeechSynthesisUtterance] made by [speakBrowser]; its [onend] is
    the [playNext] of [utt_render]. *)
Record Utterance := {
  utt_text : JS.t;
  utt_render : Render
}.

Inductive AudioState := AudioLoading | AudioPlaying | AudioPaused | AudioEnded.

(** An [Audio] element made by [playSentence(audio_index)] of render
    [audio_render]; its [onended] is the [playNext] of that render. *)
Record AudioElement := {
  audio_src : JS.t;
  audio_state : AudioState;
  audio_render : Render;
  audio_index : Z
}.

Inductive NodeState := Unstarted | Started | Finished.

(** An [AudioBufferSourceNode]; its [onended] is the [playNext] of
    [node_render]. *)
Record SourceNode := {
  node_buffer : AudioBuffer;
  node_state : NodeState;
  node_render : Render
}.

(** The mutable world of the component: React state, refs, the audio
    devices and the outstanding asynchronous work.
    - [playback]: the playback record held by useState;
    - [settings]: the settings object held by useState;
    - [settingsId]: the identity of the settings object (setSettings makes a new one);
    - [textSegments]: pdfData.textSegments;
    - [pdfDataId]: the identity of the textSegments array (setPdfData makes a new one);
    - [audioCache]: audioCache.current, from segment index to promise (a task id);
    - [activeIndexRef]: activeIndexRef.current;
    - [audioRef]: audioRef.current, a pointer into audios;
    - [sourceNodeRef]: sourceNodeRef.current, a pointer into nodes;
    - [synth]: window.speechSynthesis, the utterances speaking or queued;
    - [audios]: every Audio element created so far;
    - [nodes]: every AudioBufferSourceNode created so far;
    - [tasks]: every promise processGeminiSentence returned;
    - [fetches]: every fetchOpenAIAudio call;
    - [requests]: the network requests issued, oldest first;
    - [timer]: the armed 10 ms timer of the playback effect, with its closure;
    - [alerts]: the messages shown by alert, oldest first;
    - [committed]: the render whose effects ran last. *)
Record State := {
  playback : PlaybackState;
  settings : AppSettings;
  settingsId : nat;
  textSegments : list JS.t;
  pdfDataId : nat;
  audioCache : AudioLRUCache.t nat;
  activeIndexRef : Z;
  audioRef : option nat;
  sourceNodeRef : option nat;
  synth : list Utterance;
  audios : list AudioElement;
  nodes : list SourceNode;
  tasks : list Task;
  fetches : list Fetch;
  requests : list Request;
  timer : option Render;
  alerts : list JS.t;
  committed : Render
}.

Definition set_playback (v : PlaybackState) (st : State) : State :=
  {| playback := v; settings := settings st; settingsId := settingsId st;
     textSegments := textSegments st; pdfDataId := pdfDataId st;
     audioCache := audioCache st; activeIndexRef := activeIndexRef st;
     audioRef := audioRef st; sourceNodeRef := sourceNodeRef st;
     synth := synth st; audios := audios st; nodes := nodes st;
     tasks := tasks st; fetches := fetches st; requests := requests st;
     timer := timer st; alerts := alerts st; committed := committed st |}.

Definition set_settings (v : AppSettings) (st : State) : State :=
  {| playback := playback st; settings := v; settingsId := settingsId st;
     textSegments := textSegments st; pdfDataId := pdfDataId st;
     audioCache := audioCache st; activeIndexRef := activeIndexRef st;
     audioRef := audioRef st; sourceNodeRef := sourceNodeRef st;
     synth := synth st; audios := audios st; nodes := nodes st;
     tasks := tasks st; fetches := fetches st; requests := requests st;
     timer := timer st; alerts := alerts st; committed := committed st |}.

Definition set_settingsId (v : nat) (st : State) : State :=
  {| playback := playback st; settings := settings st; settingsId := v;
     textSegments := textSegments st; pdfDataId := pdfDataId st;
     audioCache := audioCache st; activeIndexRef := activeIndexRef st;
     audioRef := audioRef st; sourceNodeRef := sourceNodeRef st;
     synth := synth st; audios := audios st; nodes := nodes st;
     tasks := tasks st; fetches := fetches st; requests := requests st;
     timer := timer st; alerts := alerts st; committed := committed st |}.

Definition set_textSegments (v : list JS.t) (st : State) : State :=
  {| playback := playback st; settings := settings st;
     settingsId := settingsId st; textSegments := v;
     pdfDataId := pdfDataId st; audioCache := audioCache st;
     activeIndexRef := activeIndexRef st; audioRef := audioRef st;
     sourceNodeRef := sourceNodeRef st; synth := synth st;
     audios := audios st; nodes := nodes st; tasks := tasks st;
     fetches := fetches st; requests := requests st; timer := timer st;
     alerts := alerts st; committed := committed st |}.

Definition set_pdfDataId (v : nat) (st : State) : State :=
  {| playback := playback st; settings := settings st;
     settingsId := settingsId st; textSegments := textSegments st;
     pdfDataId := v; audioCache := audioCache st;
     activeIndexRef := activeIndexRef st; audioRef := audioRef st;
     sourceNodeRef := sourceNodeRef st; synth := synth st;
     audios := audios st; nodes := nodes st; tasks := tasks st;
     fetches := fetches st; requests := requests st; timer := timer st;
     alerts := alerts st; committed := committed st |}.

Definition set_audioCache (v : AudioLRUCache.t nat) (st : State) : State :=
  {| playback := playback st; settings := settings st;
     settingsId := settingsId st; textSegments := textSegments st;
     pdfDataId := pdfDataId st; audioCache := v;
     activeIndexRef := activeIndexRef st; audioRef := audioRef st;
     sourceNodeRef := sourceNodeRef st; synth := synth st;
     audios := audios st; nodes := nodes st; tasks := tasks st;
     fetches := fetches st; requests := requests st; timer := timer st;
     alerts := alerts st; committed := committed st |}.

Definition set_activeIndexRef (v : Z) (st : State) : State :=
  {| playback := playback st; settings := settings st;
     settingsId := settingsId st; textSegments := textSegments st;
     pdfDataId := pdfDataId st; audioCache := audioCache st;
     activeIndexRef := v; audioRef := audioRef st;
     sourceNodeRef := sourceNodeRef st; synth := synth st;
     audios := audios st; nodes := nodes st; tasks := tasks st;
     fetches := fetches st; requests := requests st; timer := timer st;
     alerts := alerts st; committed := committed st |}.

Definition set_audioRef (v : option nat) (st : State) : State :=
  {| playback := playback st; settings := settings st;
     settingsId := settingsId st; textSegments := textSegments st;
     pdfDataId := pdfDataId st; audioCache := audioCache st;
     activeIndexRef := activeIndexRef st; audioRef := v;
     sourceNodeRef := sourceNodeRef st; synth := synth st;
     audios := audios st; nodes := nodes st; tasks := tasks st;
     fetches := fetches st; requests := requests st; timer := timer st;
     alerts := alerts st; committed := committed st |}.

Definition set_sourceNodeRef (v : option nat) (st : State) : State :=
  {| playback := playback st; settings := settings st;
     settingsId := settingsId st; textSegments := textSegments st;
     pdfDataId := pdfDataId st; audioCache := audioCache st;
     activeIndexRef := activeIndexRef st; audioRef := audioRef st;
     sourceNodeRef := v; synth := synth st; audios := audios st;
     nodes := nodes st; tasks := tasks st; fetches := fetches st;
     requests := requests st; timer := timer st; alerts := alerts st;
     committed := committed st |}.

Definition set_synth (v : list Utterance) (st : State) : State :=
  {| playback := playback st; settings := settings st;
     settingsId := settingsId st; textSegments := textSegments st;
     pdfDataId := pdfDataId st; audioCache := audioCache st;
     activeIndexRef := activeIndexRef st; audioRef := audioRef st;
     sourceNodeRef := sourceNodeRef st; synth := v; audios := audios st;
     nodes := nodes st; tasks := tasks st; fetches := fetches st;
     requests := requests st; timer := timer st; alerts := alerts st;
     committed := committed st |}.

Definition set_audios (v : list AudioElement) (st : State) : State :=
  {| playback := playback st; settings := settings st;
     settingsId := settingsId st; textSegments := textSegments st;
     pdfDataId := pdfDataId st; audioCache := audioCache st;
     activeIndexRef := activeIndexRef st; audioRef := audioRef st;
     sourceNodeRef := sourceNodeRef st; synth := synth st; audios := v;
     nodes := nodes st; tasks := tasks st; fetches := fetches st;
     requests := requests st; timer := timer st; alerts := alerts st;
     committed := committed st |}.

Definition set_nodes (v : list SourceNode) (st : State) : State :=
  {| playback := playback st; settings := settings st;
     settingsId := settingsId st; textSegments := textSegments st;
     pdfDataId := pdfDataId st; audioCache := audioCache st;
     activeIndexRef := activeIndexRef st; audioRef := audioRef st;
     sourceNodeRef := sourceNodeRef st; synth := synth st;
     audios := audios st; nodes := v; tasks := tasks st;
     fetches := fetches st; requests := requests st; timer := timer st;
     alerts := alerts st; committed := committed st |}.

Definition set_tasks (v : list Task) (st : State) : State :=
  {| playback := playback st; settings := settings st;
     settingsId := settingsId st; textSegments := textSegments st;
     pdfDataId := pdfDataId st; audioCache := audioCache st;
     activeIndexRef := activeIndexRef st; audioRef := audioRef st;
     sourceNodeRef := sourceNodeRef st; synth := synth st;
     audios := audios st; nodes := nodes st; tasks := v;
     fetches := fetches st; requests := requests st; timer := timer st;
     alerts := alerts st; committed := committed st |}.

Definition set_fetches (v : list Fetch) (st : State) : State :=
  {| playback := playback st; settings := settings st;
     settingsId := settingsId st; textSegments := textSegments st;
     pdfDataId := pdfDataId st; audioCache := audioCache st;
     activeIndexRef := activeIndexRef st; audioRef := audioRef st;
     sourceNodeRef := sourceNodeRef st; synth := synth st;
     audios := audios st; nodes := nodes st; tasks := tasks st;
     fetches := v; requests := requests st; timer := timer st;
     alerts := alerts st; committed := committed st |}.

Definition set_requests (v : list Request) (st : State) : State :=
  {| playback := playback st; settings := settings st;
     settingsId := settingsId st; textSegments := textSegments st;
     pdfDataId := pdfDataId st; audioCache := audioCache st;
     activeIndexRef := activeIndexRef st; audioRef := audioRef st;
     sourceNodeRef := sourceNodeRef st; synth := synth st;
     audios := audios st; nodes := nodes st; tasks := tasks st;
     fetches := fetches st; requests := v; timer := timer st;
     alerts := alerts st; committed := committed st |}.

Definition set_timer (v : option Render) (st : State) : State :=
  {| playback := playback st; settings := settings st;
     settingsId := settingsId st; textSegments := textSegments st;
     pdfDataId := pdfDataId st; audioCache := audioCache st;
     activeIndexRef := activeIndexRef st; audioRef := audioRef st;
     sourceNodeRef := sourceNodeRef st; synth := synth st;
     audios := audios st; nodes := nodes st; tasks := tasks st;
     fetches := fetches st; requests := requests st; timer := v;
     alerts := alerts st; committed := committed st |}.

Definition set_alerts (v : list JS.t) (st : State) : State :=
  {| playback := playback st; settings := settings st;
     settingsId := settingsId st; textSegments := textSegments st;
     pdfDataId := pdfDataId st; audioCache := audioCache st;
     activeIndexRef := activeIndexRef st; audioRef := audioRef st;
     sourceNodeRef := sourceNodeRef st; synth := synth st;
     audios := audios st; nodes := nodes st; tasks := tasks st;
     fetches := fetches st; requests := requests st; timer := timer st;
     alerts := v; committed := committed st |}.

Definition set_committed (v : Render) (st : State) : State :=
  {| playback := playback st; settings := settings st;
     settingsId := settingsId st; textSegments := textSegments st;
     pdfDataId := pdfDataId st; audioCache := audioCache st;
     activeIndexRef := activeIndexRef st; audioRef := audioRef st;
     sourceNodeRef := sourceNodeRef st; synth := synth st;
     audios := audios st; nodes := nodes st; tasks := tasks st;
     fetches := fetches st; requests := requests st; timer := timer st;
     alerts := alerts st; committed := v |}.

(** The render React produces from the current state. *)
Definition render (st : State) : Render :=
  {| r_playback := playback st;
     r_settings := settings st;
     r_settingsId := settingsId st;
     r_textSegments := textSegments st;
     r_pdfDataId := pdfDataId st |}.

(** [setPlayback(prev => ...)] *)
Definition setPlayback (f : PlaybackState -> PlaybackState) (st : State) : State :=
  set_playback (f (playback st)) st.

(** [setSettings(prev => ...)]: a new settings object. *)
Definition setSettings (f : AppSettings -> AppSettings) (st : State) : State :=
  set_settingsId (S (settingsId st)) (set_settings (f (settings st)) st).

Definition segmentsLength (segs : list JS.t) : Z := Z.of_nat (length segs).

(** *** The audio devices *)

(** [audio.pause()] *)
Definition pauseAudio (a : AudioElement) : AudioElement :=
  match audio_state a with
  | AudioLoading | AudioPlaying =>
      {| audio_src := audio_src a; audio_state := AudioPaused;
         audio_render := audio_render a; audio_index := audio_index a |}
  | AudioPaused | AudioEnded => a
  end.

(** [try { node.stop() } catch (e) {}]: [stop] throws on a node that
    was never started; the exception is swallowed. *)
Definition stopNode (n : SourceNode) : SourceNode :=
  match node_state n with
  | Started =>
      {| node_buffer := node_buffer n; node_state := Finished;
         node_render := node_render n |}
  | Unstarted | Finished => n
  end.

Definition pauseAt (i : nat) (st : State) : State :=
  set_audios (alter pauseAudio i (audios st)) st.

Definition stopAt (i : nat) (st : State) : State :=
  set_nodes (alter stopNode i (nodes st)) st.

Definition audioSounding (a : AudioElement) : bool :=
  match audio_state a with
  | AudioLoading | AudioPlaying => true
  | AudioPaused | AudioEnded => false
  end.

Definition nodeSounding (n : SourceNode) : bool :=
  match node_state n with Started => true | _ => false end.

(** Some output is active on one of the three devices. *)
Definition sounding (st : State) : bool :=
  match synth st with [] => false | _ :: _ => true end
  || existsb audioSounding (audios st)
  || existsb nodeSounding (nodes st).

(** Every active element or node is the one its ref points to. *)
Definition tracked (st : State) : Prop :=
  (forall i el, audios st !! i = Some el -> audioSounding el = true ->
                audioRef st = Some i)
  /\ (forall i nd, nodes st !! i = Some nd -> nodeSounding nd = true ->
                   sourceNodeRef st = Some i).

(** *** Audio control logic *)

Definition stopAudio (st : State) : State :=
  (* Stop Browser TTS *)
  let st := set_synth [] st in
  (* Stop OpenAI Audio *)
  let st :=
    match audioRef st with
    | Some a => set_audioRef None (pauseAt a st)
    | None => st
    end in
  (* Stop Gemini Audio *)
  let st :=
    match sourceNodeRef st with
    | Some n => set_sourceNodeRef None (stopAt n st)
    | None => st
    end in
  setPlayback (fun prev =>
    {| isPlaying := false; isLoading := false;
       currentIndex := currentIndex prev; detectedEmotion := None |}) st.

Definition advance (len : Z) (prev : PlaybackState) : PlaybackState :=
  let nextIndex := currentIndex prev + 1 in
  if nextIndex <? len then
    {| isPlaying := isPlaying prev; isLoading := isLoading prev;
       currentIndex := nextIndex; detectedEmotion := detectedEmotion prev |}
  else
    {| isPlaying := false; isLoading := isLoading prev;
       currentIndex := 0; detectedEmotion := detectedEmotion prev |}.

(** [playNext], with [pdfData.textSegments.length] of its render. *)
Definition playNext (r : Render) (st : State) : State :=
  setPlayback (advance (segmentsLength (r_textSegments r))) st.

(** *** Gemini processing logic (buffering) *)

(** What [processGeminiSentence(index)] of render [r] throws before its
    first [await]: [text.trim()] on a segment that is [undefined], or the
    error for a blank one. *)
Definition thrown (r : Render) (index : Z) : option JS.t :=
  match JS.index (r_textSegments r) index with
  | None => Some (JS.lit "TypeError")
  | Some text => if JS.blank text then Some (JS.lit "Empty text") else None
  end.

(** [processGeminiSentence(index)] up to its first [await]: a promise is
    allocated; for a segment that is not blank the tone request leaves
    and the promise is pending; otherwise the function has thrown and the
    promise it returns is rejected already. *)
Definition processGeminiSentence (r : Render) (index : Z) (st : State)
    : nat * State :=
  let text := JS.index (r_textSegments r) index in
  let previousText :=
    if index >? 0 then JS.index (r_textSegments r) (index - 1) else None in
  (* Grab next 5 sentences for context *)
  let upcomingContext := JS.slice (r_textSegments r) (index + 1) (index + 6) in
  let itemPromise := length (tasks st) in
  let st :=
    set_tasks (tasks st ++ [{| task_index := index; task_render := r;
                               task_guarded := false;
                               task_outcome :=
                                 match thrown r index with
                                 | Some e => Some (Rejected e)
                                 | None => None
                                 end;
                               task_waiters := [] |}]) st in
  match text with
  | Some text =>
      if JS.blank text then (itemPromise, st)
      else (itemPromise,
            set_requests (requests st ++
              [DetectEmotionRequest text previousText upcomingContext]) st)
  | None => (itemPromise, st)
  end.

(** What the promise of task [t] settles with, given what the three
    awaited steps (tone, speech, decoding) would produce: a segment that
    is [undefined] or blank throws before any of them. *)
Definition settlement (t : Task) (reply : JS.Settled AudioCacheItem)
    : JS.Settled AudioCacheItem :=
  match JS.index (r_textSegments (task_render t)) (task_index t) with
  | None => Rejected (JS.lit "TypeError")
  | Some text =>
      if JS.blank text then Rejected (JS.lit "Empty text") else reply
  end.

(** The three awaited steps of [processGeminiSentence], against a given
    backend and audio context. *)
Definition synthesize (ai : Backend) (ctx : AudioContext) (r : Render)
    (index : Z) (text : JS.t) : JS.Settled AudioCacheItem :=
  let previousText :=
    if index >? 0 then JS.index (r_textSegments r) (index - 1) else None in
  let upcomingContext := JS.slice (r_textSegments r) (index + 1) (index + 6) in
  (* 1. Detect Emotion with expanded context *)
  match detectEmotion ai text previousText upcomingContext with
  | Rejected e => Rejected e
  | Fulfilled emotion =>
      (* 2. Generate Audio *)
      match generateGeminiSpeech ai text (googleVoice (r_settings r)) emotion with
      | Rejected e => Rejected e
      | Fulfilled None => Rejected (JS.lit "No audio returned from Gemini")
      | Fulfilled (Some audioData) =>
          (* 3. Decode *)
          match decodeGeminiAudio audioData ctx with
          | Rejected e => Rejected e
          | Fulfilled buffer =>
              Fulfilled {| buffer := buffer; emotion := emotion |}
          end
      end
  end.

(** [.catch(err => { audioCache.current.delete(index); throw err })]:
    the promise that is stored is the one [.catch] returns. It is
    pending, also when the promise of [processGeminiSentence] is rejected
    already: the handler then runs among the microtasks of the turn (see
    [flush]). *)
Definition guard (itemPromise : nat) (st : State) : State :=
  set_tasks (alter (fun t =>
    {| task_index := task_index t; task_render := task_render t;
       task_guarded := true; task_outcome := None;
       task_waiters := task_waiters t |}) itemPromise (tasks st)) st.

(** Helper to ensure a specific index is being fetched *)
Definition prefetchGeminiSentence (r : Render) (index : Z) (st : State) : State :=
  if index >=? segmentsLength (r_textSegments r) then st
  else if AudioLRUCache.has (audioCache st) index then st
  else
    (* Start fetching and store the promise *)
    let '(promise, st) := processGeminiSentence r index st in
    let st := guard promise st in
    set_audioCache (AudioLRUCache.set (audioCache st) index promise) st.

(** [await itemPromise] inside [playSentence]: the rest of the call is
    parked on the promise. When the promise is settled already, the call
    resumes among the microtasks of the turn (see [flush]). *)
Definition await (itemPromise : nat) (w : Waiter) (st : State) : State :=
  set_tasks (alter (fun t =>
    {| task_index := task_index t; task_render := task_render t;
       task_guarded := task_guarded t; task_outcome := task_outcome t;
       task_waiters := task_waiters t ++ [w] |}) itemPromise (tasks st)) st.

Definition alert (message : JS.t) (st : State) : State :=
  set_alerts (alerts st ++ [message]) st.

(** [speakBrowser(text, settings, playNext, onError)] *)
Definition speakBrowser (r : Render) (text : JS.t) (st : State) : State :=
  set_synth (synth st ++ [{| utt_text := text; utt_render := r |}]) st.

(** The block [Stop previous audio sources] of [playSentence]: unlike
    [stopAudio] it leaves the refs in place. *)
Definition stopPrevious (st : State) : State :=
  let st := set_synth [] st in
  let st := match audioRef st with
            | Some a => pauseAt a st
            | None => st
            end in
  match sourceNodeRef st with
  | Some n => stopAt n st
  | None => st
  end.

(** The cache lookup of the Gemini branch of [playSentence]: the promise
    for [index], taken from the cache or started now and stored. *)
Definition lookupOrStart (r : Render) (index : Z) (st : State) : nat * State :=
  (* Check cache first *)
  let '(itemPromise, cache) := AudioLRUCache.get (audioCache st) index in
  let st := set_audioCache cache st in
  (* If not in cache, start it now *)
  match itemPromise with
  | Some p => (p, st)
  | None =>
      let st := setPlayback (fun prev =>
        {| isPlaying := isPlaying prev; isLoading := true;
           currentIndex := currentIndex prev;
           detectedEmotion := detectedEmotion prev |}) st in
      let '(p, st) := processGeminiSentence r index st in
      (p, set_audioCache (AudioLRUCache.set (audioCache st) index p) st)
  end.

(** [playSentence(index)] of render [r], up to its first [await]. *)
Definition playSentence (r : Render) (index : Z) (st : State) : State :=
  if (index <? 0) || (index >=? segmentsLength (r_textSegments r)) then st
  else
    match JS.index (r_textSegments r) index with
    | None => st
    | Some text =>
        if JS.blank text then playNext r st
        else
          (* Stop previous audio sources *)
          let st := stopPrevious st in
          match engine (r_settings r) with
          | google =>
              let '(itemPromise, st) := lookupOrStart r index st in
              (* Prefetch next 2 sentences immediately (Fire and forget) *)
              let st := prefetchGeminiSentence r (index + 1) st in
              let st := prefetchGeminiSentence r (index + 2) st in
              (* Wait for current item *)
              await itemPromise {| w_render := r; w_index := index |} st
          | openai =>
              if negb (JS.truthy (openaiKey (r_settings r))) then
                let st := alert (JS.lit "Please add your OpenAI API Key in Settings.") st in
                setSettings (fun prev =>
                  {| engine := browser; browserVoice := browserVoice prev;
                     openaiKey := openaiKey prev; openaiVoice := openaiVoice prev;
                     googleVoice := googleVoice prev; rate := rate prev;
                     pitch := pitch prev; darkMode := darkMode prev;
                     sourceLanguage := sourceLanguage prev;
                     targetLanguage := targetLanguage prev |}) st
              else
                let st := setPlayback (fun prev =>
                  {| isPlaying := isPlaying prev; isLoading := true;
                     currentIndex := currentIndex prev;
                     detectedEmotion := None |}) st in
                let st := set_requests (requests st ++
                  [OpenAISpeechRequest text (openaiKey (r_settings r))
                     (openaiVoice (r_settings r)) (rate (r_settings r))]) st in
                set_fetches (fetches st ++
                  [{| fetch_waiter := {| w_render := r; w_index := index |};
                      fetch_settled := false |}]) st
          | browser =>
              let st := setPlayback (fun prev =>
                {| isPlaying := isPlaying prev; isLoading := isLoading prev;
                   currentIndex := currentIndex prev;
                   detectedEmotion := None |}) st in
              speakBrowser r text st
          end
    end.

Definition startNode (n : SourceNode) : SourceNode :=
  {| node_buffer := node_buffer n; node_state := Started;
     node_render := node_render n |}.

Definition stopped (prev : PlaybackState) : PlaybackState :=
  {| isPlaying := false; isLoading := false;
     currentIndex := currentIndex prev;
     detectedEmotion := detectedEmotion prev |}.

(** The Gemini branch of [playSentence] after [await itemPromise]: the
    rest of the [try] block on fulfilment, the [catch] block on
    rejection. [playback.isPlaying] is the one of the render [w_render]
    that created the callback. *)
Definition resumeGemini (w : Waiter) (outcome : JS.Settled AudioCacheItem)
    (st : State) : State :=
  let index := w_index w in
  match outcome with
  | Fulfilled item =>
      (* Critical: Check if user skipped to another sentence while we were waiting *)
      if negb (activeIndexRef st =? index) then st
      (* If user paused while waiting *)
      else if negb (isPlaying (r_playback (w_render w))) then st
      else
        let st := setPlayback (fun prev =>
          {| isPlaying := isPlaying prev; isLoading := false;
             currentIndex := currentIndex prev;
             detectedEmotion := Some (emotion item) |}) st in
        let source := length (nodes st) in
        let st := set_nodes (nodes st ++
          [{| node_buffer := buffer item; node_state := Unstarted;
              node_render := w_render w |}]) st in
        let st := set_sourceNodeRef (Some source) st in
        (* source.start() *)
        set_nodes (alter startNode source (nodes st)) st
  | Rejected _ =>
      (* If the current request failed but we are still on this index, stop. *)
      if activeIndexRef st =? index then setPlayback stopped st else st
  end.

Definition isRejected {A} (o : JS.Settled A) : bool :=
  match o with Rejected _ => true | Fulfilled _ => false end.

(** The promise of task [itemPromise] settles (or, if it already has,
    the calls parked on it since are resumed): first the [.catch] of the
    prefetch path, then every parked [playSentence], oldest first. *)
Definition settle (itemPromise : nat) (reply : JS.Settled AudioCacheItem)
    (st : State) : State :=
  match tasks st !! itemPromise with
  | None => st
  | Some t =>
      let outcome :=
        match task_outcome t with
        | Some o => o
        | None => settlement t reply
        end in
      let st := set_tasks (<[itemPromise :=
        {| task_index := task_index t; task_render := task_render t;
           task_guarded := task_guarded t; task_outcome := Some outcome;
           task_waiters := [] |}]> (tasks st)) st in
      let st :=
        match task_outcome t with
        | None =>
            if task_guarded t && isRejected outcome
            then set_audioCache (AudioLRUCache.delete (audioCache st) (task_index t)) st
            else st
        | Some _ => st
        end in
      foldl (fun st w => resumeGemini w outcome st) st (task_waiters t)
  end.

(** *** OpenAI engine *)

(** The OpenAI branch of [playSentence] after [await fetchOpenAIAudio],
    up to [await audio.play()]. *)
Definition resumeOpenAI (w : Waiter) (outcome : JS.Settled JS.t)
    (st : State) : State :=
  let index := w_index w in
  match outcome with
  | Fulfilled url =>
      (* Verify index consistency *)
      if negb (activeIndexRef st =? index) then st
      else if negb (isPlaying (r_playback (w_render w))) then st
      else
        let audio := length (audios st) in
        let st := set_audios (audios st ++
          [{| audio_src := url; audio_state := AudioLoading;
              audio_render := w_render w; audio_index := index |}]) st in
        set_audioRef (Some audio) st
  | Rejected message =>
      if activeIndexRef st =? index then
        let st := alert (JS.lit "OpenAI Error: " ++ message) st in
        setPlayback stopped st
      else st
  end.

Definition settleFetch (id : nat) (reply : JS.Settled JS.t) (st : State) : State :=
  match fetches st !! id with
  | None => st
  | Some f =>
      if fetch_settled f then st
      else
        let st := set_fetches (<[id := {| fetch_waiter := fetch_waiter f;
                                          fetch_settled := true |}]> (fetches st)) st in
        resumeOpenAI (fetch_waiter f) reply st
  end.

Definition withAudioState (s : AudioState) (a : AudioElement) : AudioElement :=
  {| audio_src := audio_src a; audio_state := s;
     audio_render := audio_render a; audio_index := audio_index a |}.

(** [await audio.play()] fulfils: playback has begun. *)
Definition playResolved (audio : nat) (st : State) : State :=
  match audios st !! audio with
  | None => st
  | Some a =>
      let st :=
        match audio_state a with
        | AudioLoading => set_audios (alter (withAudioState AudioPlaying) audio (audios st)) st
        | _ => st
        end in
      setPlayback (fun prev =>
        {| isPlaying := isPlaying prev; isLoading := false;
           currentIndex := currentIndex prev;
           detectedEmotion := detectedEmotion prev |}) st
  end.

(** [await audio.play()] rejects: the [catch] block of the OpenAI branch. *)
Definition playRejected (audio : nat) (message : JS.t) (st : State) : State :=
  match audios st !! audio with
  | None => st
  | Some a =>
      let st := set_audios (alter (withAudioState AudioPaused) audio (audios st)) st in
      if activeIndexRef st =? audio_index a then
        let st := alert (JS.lit "OpenAI Error: " ++ message) st in
        setPlayback stopped st
      else st
  end.

(** *** Completion and error notifications of the devices *)

(** [audio.onended] *)
Definition audioEnded (audio : nat) (st : State) : State :=
  match audios st !! audio with
  | None => st
  | Some a =>
      playNext (audio_render a)
        (set_audios (alter (withAudioState AudioEnded) audio (audios st)) st)
  end.

(** [audio.onerror] *)
Definition audioError (audio : nat) (st : State) : State :=
  match audios st !! audio with
  | None => st
  | Some a =>
      setPlayback stopped
        (set_audios (alter (withAudioState AudioPaused) audio (audios st)) st)
  end.

(** [source.onended] *)
Definition sourceEnded (source : nat) (st : State) : State :=
  match nodes st !! source with
  | None => st
  | Some n => playNext (node_render n) (stopAt source st)
  end.

(** [utterance.onend]: the utterance at the head of the queue is done. *)
Definition utteranceEnded (st : State) : State :=
  match synth st with
  | [] => st
  | u :: rest => playNext (utt_render u) (set_synth rest st)
  end.

(** [utterance.onerror] with an error other than [interrupted] and
    [canceled]. *)
Definition utteranceError (st : State) : State :=
  match synth st with
  | [] => st
  | u :: rest =>
      setPlayback (fun prev =>
        {| isPlaying := false; isLoading := isLoading prev;
           currentIndex := currentIndex prev;
           detectedEmotion := detectedEmotion prev |}) (set_synth rest st)
  end.

(** *** Effects *)

#[global] Instance VoiceEngine_eq_dec : EqDecision VoiceEngine.
Proof. solve_decision. Defined.

(** The dependency list [[settings.googleVoice, settings.engine]]. *)
Definition cacheDepsChanged (prev next : Render) : bool :=
  negb (bool_decide (googleVoice (r_settings prev) = googleVoice (r_settings next))
        && bool_decide (engine (r_settings prev) = engine (r_settings next))).

(** [playSentence] is re-created when one of [pdfData.textSegments],
    [settings], [playNext] (that is, the segment count) and
    [playback.isPlaying] changes. *)
Definition playSentenceChanged (prev next : Render) : bool :=
  negb (Nat.eqb (r_pdfDataId prev) (r_pdfDataId next)
        && Nat.eqb (r_settingsId prev) (r_settingsId next)
        && (segmentsLength (r_textSegments prev) =? segmentsLength (r_textSegments next))
        && Bool.eqb (isPlaying (r_playback prev)) (isPlaying (r_playback next))).

(** The dependency list [[playback.currentIndex, playback.isPlaying,
    playSentence]]. *)
Definition playbackDepsChanged (prev next : Render) : bool :=
  negb (currentIndex (r_playback prev) =? currentIndex (r_playback next))
  || negb (Bool.eqb (isPlaying (r_playback prev)) (isPlaying (r_playback next)))
  || playSentenceChanged prev next.

(** Watch for playback state changes to trigger audio *)
Definition playbackEffect (r : Render) (st : State) : State :=
  if isPlaying (r_playback r) then
    (* Update active index ref immediately for race-condition checks *)
    let st := set_activeIndexRef (currentIndex (r_playback r)) st in
    set_timer (Some r) st
  else st.

(** The 10 ms timer of the playback effect fires. *)
Definition timerFired (st : State) : State :=
  match timer st with
  | None => st
  | Some r =>
      let st := set_timer None st in
      (* Double check if we are still on the same index after delay *)
      if activeIndexRef st =? currentIndex (r_playback r)
      then playSentence r (currentIndex (r_playback r)) st
      else st
  end.

(** React renders the current state and runs, in the order of their
    declaration, the effects whose dependencies changed since the last
    committed render (the cleanup of the playback effect clears its
    timer first). *)
Definition commit (st : State) : State :=
  let prev := committed st in
  let next := render st in
  (* Clear cache when critical settings change *)
  let st :=
    if cacheDepsChanged prev next
    then set_audioCache (AudioLRUCache.clear (audioCache st)) st
    else st in
  let st :=
    if playbackDepsChanged prev next
    then playbackEffect next (set_timer None st)
    else st in
  set_committed next st.

(** *** Handlers *)

Definition togglePlay (r : Render) (st : State) : State :=
  if segmentsLength (r_textSegments r) =? 0 then st
  else if isPlaying (r_playback r) then stopAudio st
  else
    setPlayback (fun prev =>
      let idx := if currentIndex prev =? -1 then 0 else currentIndex prev in
      {| isPlaying := true; isLoading := isLoading prev;
         currentIndex := idx; detectedEmotion := detectedEmotion prev |}) st.

(** [handleSentenceClick(index)]: [stopAudio()] now ... *)
Definition handleSentenceClick (st : State) : State := stopAudio st.

(** ... and, 50 ms later, the new playback record. *)
Definition seekTimeout (index : Z) (st : State) : State :=
  set_playback {| isPlaying := true; isLoading := false;
                  currentIndex := index; detectedEmotion := None |} st.

(** [handleFileUpload(file)] (not silent) up to [await parsePdf]. *)
Definition handleFileUpload (st : State) : State :=
  let st := stopAudio st in
  let st := set_audioCache (AudioLRUCache.clear (audioCache st)) st in
  set_playback {| isPlaying := false; isLoading := false;
                  currentIndex := -1; detectedEmotion := None |} st.

(** [handleFileUpload] after [parsePdf] resolved with [data]. *)
Definition pdfParsed (data : list JS.t) (st : State) : State :=
  let st := set_pdfDataId (S (pdfDataId st)) (set_textSegments data st) in
  setPlayback (fun prev =>
    {| isPlaying := isPlaying prev; isLoading := isLoading prev;
       currentIndex := 0; detectedEmotion := detectedEmotion prev |}) st.

(** *** The component as a transition system *)

Inductive Event :=
| TogglePlay
| StopButton
| SentenceClick
| SeekTimeout (index : Z)
| FileUpload
| PdfParsed (data : list JS.t)
| SettingsChange (f : AppSettings -> AppSettings)
| TimerFired
| Settle (itemPromise : nat) (reply : JS.Settled AudioCacheItem)
| SettleFetch (id : nat) (reply : JS.Settled JS.t)
| PlayResolved (audio : nat)
| PlayRejected (audio : nat) (message : JS.t)
| AudioEnded_ (audio : nat)
| AudioError (audio : nat)
| SourceEnded (source : nat)
| UtteranceEnded
| UtteranceError.

Definition handle (e : Event) (st : State) : State :=
  match e with
  | TogglePlay => togglePlay (committed st) st
  | StopButton => stopAudio st
  | SentenceClick => handleSentenceClick st
  | SeekTimeout index => seekTimeout index st
  | FileUpload => handleFileUpload st
  | PdfParsed data => pdfParsed data st
  | SettingsChange f => setSettings f st
  | TimerFired => timerFired st
  | Settle p reply => settle p reply st
  | SettleFetch id reply => settleFetch id reply st
  | PlayResolved a => playResolved a st
  | PlayRejected a message => playRejected a message st
  | AudioEnded_ a => audioEnded a st
  | AudioError a => audioError a st
  | SourceEnded s => sourceEnded s st
  | UtteranceEnded => utteranceEnded st
  | UtteranceError => utteranceError st
  end.

(** *** Microtasks *)

(** The [.catch] of a stored promise whose [processGeminiSentence] threw
    has a handler to run. *)
Definition rejectedAtBirth (t : Task) : bool :=
  match task_outcome t, thrown (task_render t) (task_index t) with
  | None, Some _ => true
  | _, _ => false
  end.

(** A settled promise has a [playSentence] call to resume. *)
Definition awaitedSettled (t : Task) : bool :=
  match task_outcome t, task_waiters t with
  | Some _, _ :: _ => true
  | _, _ => false
  end.

(** The reactions of the promises that [select] picks run, oldest
    promise first. What such a promise settles with does not depend on
    any reply. *)
Definition react (select : Task -> bool) (st : State) : State :=
  foldl (fun st p =>
           match tasks st !! p with
           | Some t =>
               if select t then settle p (Rejected (JS.lit "Empty text")) st
               else st
           | None => st
           end)
        st (seq 0 (length (tasks st))).

(** The microtasks that end a turn: the [.catch] handlers of the
    promises that were rejected when they were made, then the
    [playSentence] calls that await a settled promise, in the order in
    which the handler of the turn queued them. *)
Definition flush (st : State) : State :=
  react awaitedSettled (react rejectedAtBirth st).

(** One turn of the event loop: a handler or callback runs, then the
    microtasks it queued, then React commits. *)
Definition step (st : State) (e : Event) : State :=
  commit (flush (handle e st)).

Definition run (st : State) (es : list Event) : State := foldl step st es.

(** The component right after it mounted, with the key found in
    [localStorage] and the system's colour scheme. *)
Definition initialSettings (savedKey : JS.t) (prefersDark : bool) : AppSettings :=
  {| engine := browser; browserVoice := None; openaiKey := savedKey;
     openaiVoice := JS.lit "alloy"; googleVoice := JS.lit "Puck";
     rate := 1; pitch := 1; darkMode := prefersDark;
     sourceLanguage := JS.lit "en"; targetLanguage := JS.lit "es" |}.

Definition initialPlayback : PlaybackState :=
  {| isPlaying := false; isLoading := false; currentIndex := -1;
     detectedEmotion := None |}.

Definition mounted (savedKey : JS.t) (prefersDark : bool) : State :=
  let r := {| r_playback := initialPlayback;
              r_settings := initialSettings savedKey prefersDark;
              r_settingsId := 0; r_textSegments := []; r_pdfDataId := 0 |} in
  {| playback := initialPlayback;
     settings := initialSettings savedKey prefersDark;
     settingsId := 0; textSegments := []; pdfDataId := 0;
     audioCache := AudioLRUCache.new 50;
     activeIndexRef := -1; audioRef := None; sourceNodeRef := None;
     synth := []; audios := []; nodes := []; tasks := []; fetches := [];
     requests := []; timer := None; alerts := []; committed := r |}.

(** *** Observations used in the statements *)

(** How many times [processGeminiSentence] was called for [index]. *)
Definition producerCalls (st : State) (index : Z) : nat :=
  length (List.filter (fun t => task_index t =? index) (tasks st)).

(** The promise the cache holds for [index], recency untouched. *)
Definition cached (st : State) (index : Z) : option nat :=
  AudioLRUCache.peek (audioCache st) index.

(** A request that makes sure the synthesis of a segment is under way:
    through the prefetch helper, or through the cache lookup of
    [playSentence]. *)
Inductive Ensure :=
| ByPrefetch (r : Render)
| ByPlay (r : Render).

Definition ensure (index : Z) (st : State) (e : Ensure) : State :=
  match e with
  | ByPrefetch r => prefetchGeminiSentence r index st
  | ByPlay r => playSentence r index st
  end.

(** The request does reach the cache for [index]: the prefetch helper is
    not past the end of the document; [playSentence] runs the Gemini
    engine on a segment that is not blank. *)
Definition reachesCache (index : Z) (e : Ensure) : Prop :=
  match e with
  | ByPrefetch r => index < segmentsLength (r_textSegments r)
  | ByPlay r =>
      engine (r_settings r) = google
      /\ exists text, JS.index (r_textSegments r) index = Some text
                      /\ JS.blank text = false
  end.

(** The entry of [key] holds [p] and at most [n] entries are more recent. *)
Definition recent (n : nat) (c : AudioLRUCache.t nat) (key : Z) (p : nat) : Prop :=
  exists pre post,
    AudioLRUCache.cache c = pre ++ (key, p) :: post /\ (length post <= n)%nat.

(** Every cached promise was produced under the voice now configured. *)
Definition cacheMatchesVoice (st : State) : Prop :=
  forall index p t,
    cached st index = Some p ->
    tasks st !! p = Some t ->
    googleVoice (r_settings (task_render t)) = googleVoice (settings st).


(** *** Invariants of the component *)

(** [st'] differs from [st] at most in the playback record, the devices,
    the document, the requests sent and the messages shown: the cache, the
    promises, the timer, the settings and the committed render are the
    same. *)
Definition sameBookkeeping (st st' : State) : Prop :=
  audioCache st' = audioCache st
  /\ tasks st' = tasks st
  /\ timer st' = timer st
  /\ committed st' = committed st
  /\ settings st' = settings st
  /\ settingsId st' = settingsId st.

(** Every [playSentence] call parked on a promise was made by a render
    that was playing. *)
Definition playingWaiters (ts : list Task) : Prop :=
  Forall (fun t =>
            Forall (fun w => isPlaying (r_playback (w_render w)) = true)
                   (task_waiters t)) ts.

(** What holds of the bookkeeping at every moment, also between a handler
    and React's commit: the cache has distinct keys, capacity 50 and at
    most 50 entries; parked
    calls and the armed timer belong to renders that were playing; the
    timer's render carries the committed settings; every cached promise
    was produced under the committed Gemini voice; the settings object is
    the committed one unless its identity is newer. *)
Record Coherent (st : State) : Prop := {
  coh_nodup : List.NoDup (AudioLRUCache.keys (audioCache st));
  coh_capacity : AudioLRUCache.capacity (audioCache st) = 50;
  coh_size : AudioLRUCache.size (audioCache st) <= 50;
  coh_waiters : playingWaiters (tasks st);
  coh_timer : forall r, timer st = Some r ->
                isPlaying (r_playback r) = true
                /\ r_settings r = r_settings (committed st);
  coh_voice : forall index p t,
                cached st index = Some p ->
                tasks st !! p = Some t ->
                googleVoice (r_settings (task_render t))
                = googleVoice (r_settings (committed st));
  coh_settings : (settingsId st = r_settingsId (committed st)
                  /\ settings st = r_settings (committed st))
                 \/ (r_settingsId (committed st) < settingsId st)%nat
}.

(** No microtask is left: the handler of every promise that was rejected
    when it was made has run, and no call is parked on a settled
    promise. *)
Definition quiet (st : State) : Prop :=
  Forall (fun t => rejectedAtBirth t = false /\ awaitedSettled t = false)
         (tasks st).

(** The states the component can be in: those reached from the mounted
    component by turns of the event loop. *)
Definition reachable (st : State) : Prop :=
  exists savedKey prefersDark es, st = run (mounted savedKey prefersDark) es.

End App.

(* ===================================================================== *)
(** ** Regular expressions                                                *)
(* ===================================================================== *)

(** The fragment of ECMAScript regular expressions the sources use, with
    the backtracking semantics of the language: a pattern is run against
    the rest of the input with a continuation that tells whether what
    follows the pattern can be matched. *)
Module RegExp.

Inductive t :=
| Class (p : Z -> bool)
| Seq (r1 r2 : t)
| Alt (r1 r2 : t)
| Plus (r : t)
| Opt (r : t)
| Dollar.

(** Given the rest of the input, the input left after the whole match. *)
Definition Continuation := JS.t -> option JS.t.

(** Greedy repetition, zero or more times: one more iteration is tried
    first, and an iteration that consumes nothing is refused. *)
Fixpoint star (fuel : nat) (m : JS.t -> Continuation -> option JS.t)
    (s : JS.t) (k : Continuation) : option JS.t :=
  match fuel with
  | O => k s
  | S fuel' =>
      match m s (fun s' =>
                   if (length s' =? length s)%nat then None
                   else star fuel' m s' k) with
      | Some e => Some e
      | None => k s
      end
  end.

Fixpoint matcher (r : t) (s : JS.t) (k : Continuation) : option JS.t :=
  match r with
  | Class p =>
      match s with
      | c :: s' => if p c then k s' else None
      | [] => None
      end
  | Seq r1 r2 => matcher r1 s (fun s' => matcher r2 s' k)
  | Alt r1 r2 =>
      match matcher r1 s k with
      | Some e => Some e
      | None => matcher r2 s k
      end
  | Plus r' => matcher r' s (fun s' => star (length s') (matcher r') s' k)
  | Opt r' =>
      match matcher r' s (fun s' =>
                            if (length s' =? length s)%nat then None
                            else k s') with
      | Some e => Some e
      | None => k s
      end
  | Dollar =>
      match s with
      | [] => k []
      | _ :: _ => None
      end
  end.

(** One search from the current position: the text skipped before the
    leftmost match, the match, and the rest of the input. *)
Fixpoint exec (r : t) (s : JS.t) : option (JS.t * JS.t * JS.t) :=
  match matcher r s Some with
  | Some rest => Some ([], take (length s - length rest) s, rest)
  | None =>
      match s with
      | [] => None
      | c :: s' =>
          match exec r s' with
          | Some (skipped, m, rest) => Some (c :: skipped, m, rest)
          | None => None
          end
      end
  end.

(** The matches of a global search, in order; after an empty match the
    search resumes one code unit further. *)
Fixpoint matches (fuel : nat) (r : t) (s : JS.t) : list JS.t :=
  match fuel with
  | O => []
  | S fuel' =>
      match exec r s with
      | None => []
      | Some (_, m, rest) =>
          m :: match m, rest with
               | [], [] => []
               | [], _ :: rest' => matches fuel' r rest'
               | _ :: _, _ => matches fuel' r rest
               end
      end
  end.

(** [s.match(r)] for a pattern with the flag [g]: [None] is [null]. *)
Definition match_g (r : t) (s : JS.t) : option (list JS.t) :=
  match matches (S (length s)) r s with
  | [] => None
  | ms => Some ms
  end.

Fixpoint replacing (fuel : nat) (r : t) (s : JS.t) (by_ : JS.t) : JS.t :=
  match fuel with
  | O => s
  | S fuel' =>
      match exec r s with
      | None => s
      | Some (skipped, m, rest) =>
          skipped ++ by_ ++
            match m, rest with
            | [], [] => []
            | [], c :: rest' => c :: replacing fuel' r rest' by_
            | _ :: _, _ => replacing fuel' r rest by_
            end
      end
  end.

(** [s.replace(r, by)] for a pattern with the flag [g] and a replacement
    text without [$]. *)
Definition replace_g (r : t) (s : JS.t) (by_ : JS.t) : JS.t :=
  replacing (S (length s)) r s by_.

(** *** Observations used in the statements *)

(** The longest prefix of [s] whose characters all satisfy [p]. *)
Fixpoint prefixOf (p : Z -> bool) (s : JS.t) : JS.t :=
  match s with
  | c :: s' => if p c then c :: prefixOf p s' else []
  | [] => []
  end.

(** What follows that prefix. *)
Fixpoint afterPrefix (p : Z -> bool) (s : JS.t) : JS.t :=
  match s with
  | c :: s' => if p c then afterPrefix p s' else s
  | [] => []
  end.

(** A matcher that consumes one character of the class [p]. *)
Definition consumes (p : Z -> bool)
    (m : JS.t -> Continuation -> option JS.t) : Prop :=
  forall s k, m s k = match s with
                      | c :: s' => if p c then k s' else None
                      | [] => None
                      end.

End RegExp.

(* ===================================================================== *)
(** ** services/pdfUtils.ts                                               *)
(* ===================================================================== *)

Module PdfUtils.

(** types.ts *)
#[warnings="-register-all"]
Inductive TocItem :=
| mkTocItem (title : JS.t) (pageIndex : Z) (items : list TocItem).

Record PdfData := {
  textSegments : list JS.t;
  pageMapping : list Z;
  toc : list TocItem
}.

(** The [dest] of an outline item of pdf.js: the name of a destination,
    an explicit destination (an array whose first element is a page
    reference), or anything else. *)
Inductive Dest :=
| NamedDest (name : JS.t)
| ExplicitDest (dest : list nat)
| NoDest.

(** An outline item of pdf.js; [items] is empty when the item has no
    [items] property. *)
#[warnings="-register-all"]
Inductive OutlineItem :=
| mkOutlineItem (title : JS.t) (dest : Dest) (items : list OutlineItem).

(** The document proxy of pdf.js. [getPageText i] is [getPage(i)]
    followed by [getTextContent()], giving the [str] of every text item;
    [getPageIndex] takes [dest[0]], which is [undefined] ([None]) for an
    empty array. Every call may reject. *)
Record Pdf := {
  numPages : nat;
  getPageText : nat -> JS.Settled (list JS.t);
  getOutline : JS.Settled (option (list OutlineItem));
  getDestination : JS.t -> JS.Settled (option (list nat));
  getPageIndex : option nat -> JS.Settled Z
}.

(** The [try] block of [resolveOutline] for one item: the page index, or
    -1 when the destination is not resolved. *)
Definition resolveDest (pdf : Pdf) (d : Dest) : Z :=
  let pageIndex := -1 in
  match d with
  | NamedDest name =>
      match getDestination pdf name with
      | Fulfilled (Some dest) =>
          match getPageIndex pdf (head dest) with
          | Fulfilled i => i
          | Rejected _ => pageIndex
          end
      | Fulfilled None => pageIndex
      | Rejected _ => pageIndex
      end
  | ExplicitDest dest =>
      match getPageIndex pdf (head dest) with
      | Fulfilled i => i
      | Rejected _ => pageIndex
      end
  | NoDest => pageIndex
  end.

Fixpoint resolveItem (pdf : Pdf) (item : OutlineItem) : TocItem :=
  match item with
  | mkOutlineItem title dest items =>
      mkTocItem title (resolveDest pdf dest) (map (resolveItem pdf) items)
  end.

(** [resolveOutline(pdf, items)] *)
Definition resolveOutline (pdf : Pdf) (items : list OutlineItem) : list TocItem :=
  map (resolveItem pdf) items.

(** The characters [.], [!] and [?]. *)
Definition terminator (c : Z) : bool := (c =? 46) || (c =? 33) || (c =? 63).

(** The characters U+0022 and U+0027. *)
Definition quote (c : Z) : bool := (c =? JS.dquote) || (c =? JS.squote).

(** The pattern of the fallback segmentation: a run of characters other
    than terminators, a run of terminators and an optional quote; or a
    run of characters other than terminators up to the end of the text. *)
Definition sentencePattern : RegExp.t :=
  RegExp.Alt
    (RegExp.Seq
       (RegExp.Seq (RegExp.Plus (RegExp.Class (fun c => negb (terminator c))))
                   (RegExp.Plus (RegExp.Class terminator)))
       (RegExp.Opt (RegExp.Class quote)))
    (RegExp.Seq (RegExp.Plus (RegExp.Class (fun c => negb (terminator c))))
                RegExp.Dollar).

(** The pattern [\s+]. *)
Definition whitespacePattern : RegExp.t := RegExp.Plus (RegExp.Class JS.is_space).

(** Sanitize: collapse multiple spaces into one *)
Definition cleanText (pageText : JS.t) : JS.t :=
  RegExp.replace_g whitespacePattern pageText [32].

(** One turn of the loop over the segments of [Intl.Segmenter]. *)
Definition pushTrimmed (sentences : list JS.t) (segment : JS.t) : list JS.t :=
  let trimmed := JS.trim segment in
  if (0 <? length trimmed)%nat then sentences ++ [trimmed] else sentences.

(** The sentences of one page. [segmenter] is the sentence segmenter of
    [Intl] when the platform has one. *)
Definition pageSentences (segmenter : option (JS.t -> list JS.t))
    (clean : JS.t) : list JS.t :=
  match segmenter with
  | Some segment =>
      (* Robust segmentation *)
      foldl pushTrimmed [] (segment clean)
  | None =>
      (* Fallback Regex for older environments *)
      match RegExp.match_g sentencePattern clean with
      | Some raw =>
          List.filter (fun s => (0 <? length s)%nat) (map JS.trim raw)
      | None => []
      end
  end.

(** The sentences [parsePdf] extracts from the text items of a page. *)
Definition sentencesOfItems (segmenter : option (JS.t -> list JS.t))
    (items : list JS.t) : list JS.t :=
  (* Basic text extraction *)
  let pageText := JS.join [32] items in
  pageSentences segmenter (cleanText pageText).

(** One turn of the loop over the pages. *)
Definition pageStep (pdf : Pdf) (segmenter : option (JS.t -> list JS.t))
    (acc : JS.Settled (list JS.t * list Z)) (i : nat)
    : JS.Settled (list JS.t * list Z) :=
  match acc with
  | Rejected e => Rejected e
  | Fulfilled (extractedSentences, pageMapping) =>
      let pageMapping := pageMapping ++ [Z.of_nat (length extractedSentences)] in
      match getPageText pdf i with
      | Rejected e => Rejected e
      | Fulfilled items =>
          let sentences := sentencesOfItems segmenter items in
          if (0 <? length sentences)%nat
          then Fulfilled (extractedSentences ++ sentences, pageMapping)
          else Fulfilled (extractedSentences, pageMapping)
      end
  end.

(** [parsePdf(file)], from the document pdf.js loaded (or failed to load)
    for the file. *)
Definition parsePdf (document : JS.Settled Pdf)
    (segmenter : option (JS.t -> list JS.t)) : JS.Settled PdfData :=
  match document with
  | Rejected e => Rejected e
  | Fulfilled pdf =>
      match foldl (pageStep pdf segmenter) (Fulfilled ([], []))
                  (seq 1 (numPages pdf)) with
      | Rejected e => Rejected e
      | Fulfilled (extractedSentences, pageMapping) =>
          let toc :=
            match getOutline pdf with
            | Fulfilled (Some outline) => resolveOutline pdf outline
            | Fulfilled None => []
            | Rejected _ => []
            end in
          Fulfilled {| textSegments := extractedSentences;
                       pageMapping := pageMapping;
                       toc := toc |}
      end
  end.

(** *** Observations used in the statements *)

(** A character other than [.], [!] and [?]. *)
Definition plain (c : Z) : bool := negb (terminator c).

(** The input left after an optional quote. *)
Definition afterQuote (s : JS.t) : JS.t :=
  match s with
  | c :: s' => if quote c then s' else s
  | [] => []
  end.

(** The input left after one sentence that begins at the head of [s]. *)
Definition sentenceEnd (s : JS.t) : JS.t :=
  afterQuote (RegExp.afterPrefix terminator (RegExp.afterPrefix plain s)).

(** The shape of a match of [sentencePattern]: characters other than
    terminators, at least one; then terminators; then at most one quote. *)
Definition sentenceShaped (m : JS.t) : Prop :=
  exists body stops q,
    m = body ++ stops ++ q
    /\ body <> []
    /\ forallb plain body = true
    /\ forallb terminator stops = true
    /\ forallb quote q = true
    /\ (length q <= 1)%nat.

(** A character that is not white space. *)
Definition solid (c : Z) : bool := negb (JS.is_space c).

(** A text in which every run of white space is a single U+0020. *)
Fixpoint singleSpaced (s : JS.t) : Prop :=
  match s with
  | [] => True
  | c :: s' =>
      (JS.is_space c = true ->
         c = 32 /\ match s' with
                   | [] => True
                   | c' :: _ => JS.is_space c' = false
                   end)
      /\ singleSpaced s'
  end.

(** The sentences of page [i] (numbered from 1) of a document. *)
Definition sentencesOfPage (pdf : Pdf) (segmenter : option (JS.t -> list JS.t))
    (i : nat) : list JS.t :=
  match getPageText pdf i with
  | Fulfilled items => sentencesOfItems segmenter items
  | Rejected _ => []
  end.

(** The sentences of pages 1 to [n]. *)
Definition sentencesUpTo (pdf : Pdf) (segmenter : option (JS.t -> list JS.t))
    (n : nat) : list JS.t :=
  concat (map (sentencesOfPage pdf segmenter) (seq 1 n)).

End PdfUtils.

(* ===================================================================== *)
(** ** App.tsx: the document handlers                                     *)
(* ===================================================================== *)

(** The handlers of the component that load, translate, extend and
    navigate the document, with the state they use besides the one of the
    playback logic. *)
Module Library.

Import Gemini PdfUtils.

Inductive Tab := settingsTab | chaptersTab.

(** - [app]: the state the playback logic works on;
    - [pageMapping], [toc]: the rest of [pdfData];
    - [currentFile]: the file last uploaded (its identity);
    - [isProcessing], [isTranslating], [activeTab], [isMobileMenuOpen]:
      the flags held by useState. *)
Record State := {
  app : App.State;
  pageMapping : list Z;
  toc : list TocItem;
  currentFile : option nat;
  isProcessing : bool;
  isTranslating : bool;
  activeTab : Tab;
  isMobileMenuOpen : bool
}.

Definition with_app (f : App.State -> App.State) (d : State) : State :=
  {| app := f (app d); pageMapping := pageMapping d; toc := toc d;
     currentFile := currentFile d; isProcessing := isProcessing d;
     isTranslating := isTranslating d; activeTab := activeTab d;
     isMobileMenuOpen := isMobileMenuOpen d |}.

Definition setIsProcessing (v : bool) (d : State) : State :=
  {| app := app d; pageMapping := pageMapping d; toc := toc d;
     currentFile := currentFile d; isProcessing := v;
     isTranslating := isTranslating d; activeTab := activeTab d;
     isMobileMenuOpen := isMobileMenuOpen d |}.

Definition setIsTranslating (v : bool) (d : State) : State :=
  {| app := app d; pageMapping := pageMapping d; toc := toc d;
     currentFile := currentFile d; isProcessing := isProcessing d;
     isTranslating := v; activeTab := activeTab d;
     isMobileMenuOpen := isMobileMenuOpen d |}.

Definition setCurrentFile (file : nat) (d : State) : State :=
  {| app := app d; pageMapping := pageMapping d; toc := toc d;
     currentFile := Some file; isProcessing := isProcessing d;
     isTranslating := isTranslating d; activeTab := activeTab d;
     isMobileMenuOpen := isMobileMenuOpen d |}.

Definition setActiveTab (tab : Tab) (d : State) : State :=
  {| app := app d; pageMapping := pageMapping d; toc := toc d;
     currentFile := currentFile d; isProcessing := isProcessing d;
     isTranslating := isTranslating d; activeTab := tab;
     isMobileMenuOpen := isMobileMenuOpen d |}.

Definition setIsMobileMenuOpen (v : bool) (d : State) : State :=
  {| app := app d; pageMapping := pageMapping d; toc := toc d;
     currentFile := currentFile d; isProcessing := isProcessing d;
     isTranslating := isTranslating d; activeTab := activeTab d;
     isMobileMenuOpen := v |}.

(** [setPdfData(...)] with new text segments: a new array. *)
Definition setTextSegments (segments : list JS.t) (st : App.State) : App.State :=
  App.set_pdfDataId (S (App.pdfDataId st)) (App.set_textSegments segments st).

(** [setPdfData(data)] *)
Definition setPdfData (data : PdfData) (d : State) : State :=
  {| app := setTextSegments (textSegments data) (app d);
     pageMapping := PdfUtils.pageMapping data; toc := PdfUtils.toc data;
     currentFile := currentFile d; isProcessing := isProcessing d;
     isTranslating := isTranslating d; activeTab := activeTab d;
     isMobileMenuOpen := isMobileMenuOpen d |}.

(** *** handleFileUpload *)

(** [handleFileUpload(file, isSilent)] up to [await parsePdf]. *)
Definition handleFileUpload (file : nat) (isSilent : bool) (d : State) : State :=
  let d := setIsProcessing true d in
  if isSilent then d
  else setCurrentFile file (with_app App.handleFileUpload d).

(** [handleFileUpload(file, isSilent)] after [parsePdf] settled. *)
Definition fileParsed (isSilent : bool) (outcome : JS.Settled PdfData)
    (d : State) : State :=
  let d :=
    match outcome with
    | Fulfilled data =>
        let d := setPdfData data d in
        if isSilent then d
        else
          let d := with_app (App.setPlayback (fun prev =>
            {| App.isPlaying := App.isPlaying prev;
               App.isLoading := App.isLoading prev;
               App.currentIndex := 0;
               App.detectedEmotion := App.detectedEmotion prev |})) d in
          if (0 <? length (PdfUtils.toc data))%nat
          then setActiveTab chaptersTab d else d
    | Rejected _ =>
        with_app (App.alert (JS.lit "Failed to parse PDF.")) d
    end in
  setIsProcessing false d.

(** *** handleNavigate *)

(** [handleNavigate(pageIndex)], in a window [innerWidth] pixels wide:
    the new state and the sentence the 50 ms timeout will seek to, if a
    timeout was set. *)
Definition handleNavigate (pageIndex : Z) (innerWidth : Z) (d : State)
    : option Z * State :=
  match JS.index (pageMapping d) pageIndex with
  | Some sentenceIndex =>
      let d := with_app App.stopAudio d in
      (Some sentenceIndex,
       if innerWidth <? 768 then setIsMobileMenuOpen false d else d)
  | None => (None, d)
  end.

(** *** handleTranslate *)

Definition BATCH_SIZE : nat := 40.

Record Chunk := {
  start : nat;
  texts : list JS.t
}.

(** The loop that cuts the segments into chunks, from index [i] on. *)
Fixpoint chunksFrom (fuel : nat) (i : nat) (newSegments : list JS.t) : list Chunk :=
  match fuel with
  | O => []
  | S fuel' =>
      if (i <? length newSegments)%nat then
        {| start := i;
           texts := JS.slice newSegments (Z.of_nat i) (Z.of_nat (i + BATCH_SIZE)) |}
        :: chunksFrom fuel' (i + BATCH_SIZE) newSegments
      else []
  end.

Definition chunksOf (newSegments : list JS.t) : list Chunk :=
  chunksFrom (length newSegments) 0 newSegments.

(** The inner loop: [translated[j]] is written at [chunk.start + j] as
    long as that index exists. *)
Fixpoint writeBack (start j : nat) (translated : list JS.t)
    (newSegments : list JS.t) : list JS.t :=
  match translated with
  | [] => newSegments
  | t :: rest =>
      writeBack start (S j) rest
        (if (start + j <? length newSegments)%nat
         then <[(start + j)%nat := t]> newSegments
         else newSegments)
  end.

(** The loop over the chunks, one [translateBatch] call after the other;
    the first call that rejects ends it. *)
Fixpoint translateChunks (translateBatch : list JS.t -> JS.Settled (list JS.t))
    (chunks : list Chunk) (newSegments : list JS.t)
    : JS.Settled (list JS.t) :=
  match chunks with
  | [] => Fulfilled newSegments
  | chunk :: chunks' =>
      match translateBatch (texts chunk) with
      | Rejected e => Rejected e
      | Fulfilled translated =>
          translateChunks translateBatch chunks'
            (writeBack (start chunk) 0 translated newSegments)
      end
  end.

(** The segments [handleTranslate] computes from those of its render. *)
Definition translateSegments
    (translateBatch : list JS.t -> JS.Settled (list JS.t))
    (segments : list JS.t) : JS.Settled (list JS.t) :=
  let newSegments := segments in
  translateChunks translateBatch (chunksOf newSegments) newSegments.

(** [handleTranslate()] of render [r], up to its first [await]; [None]
    when it returns at once. *)
Definition handleTranslate (r : App.Render) (d : State) : option State :=
  if (length (App.r_textSegments r) =? 0)%nat then None
  else Some (with_app App.stopAudio (setIsTranslating true d)).

(** [handleTranslate()] of render [r] after the loop over the chunks;
    [translateBatch] answers for the target language of that render. *)
Definition translated (r : App.Render)
    (translateBatch : list JS.t -> JS.Settled (list JS.t)) (d : State) : State :=
  let d :=
    match translateSegments translateBatch (App.r_textSegments r) with
    | Fulfilled newSegments =>
        let d := with_app (setTextSegments newSegments) d in
        (* Reset playback to start to avoid confusion *)
        let d := with_app (App.setPlayback (fun prev =>
          {| App.isPlaying := App.isPlaying prev;
             App.isLoading := App.isLoading prev;
             App.currentIndex := 0;
             App.detectedEmotion := App.detectedEmotion prev |})) d in
        with_app (fun st =>
          App.set_audioCache (AudioLRUCache.clear (App.audioCache st)) st) d
    | Rejected _ =>
        with_app (App.alert (JS.lit "Translation failed. Please try again.")) d
    end in
  setIsTranslating false d.

(** *** Recording *)

(** The sentences [reader.onloadend] makes of a transcript that is not
    empty; [segmenter] is the sentence segmenter of [Intl] for the source
    language, when the platform has one. *)
Definition transcriptSentences (segmenter : option (JS.t -> list JS.t))
    (transcribedText : JS.t) : list JS.t :=
  match segmenter with
  | Some segment => foldl pushTrimmed [] (segment transcribedText)
  | None =>
      match RegExp.match_g sentencePattern transcribedText with
      | Some raw => List.filter (fun s => (0 <? length s)%nat) (map JS.trim raw)
      | None => [JS.trim transcribedText]
      end
  end.

(** [reader.onloadend] of the recorder started by render [r], from the
    moment [transcribeAudio] settled. A rejection leaves the callback
    uncaught: the [try] block around it has ended by then. *)
Definition transcribed (r : App.Render) (segmenter : option (JS.t -> list JS.t))
    (outcome : JS.Settled JS.t) (d : State) : State :=
  match outcome with
  | Rejected _ => d
  | Fulfilled transcribedText =>
      let d :=
        if JS.truthy transcribedText then
          let newSentences := transcriptSentences segmenter transcribedText in
          if (0 <? length newSentences)%nat then
            let d :=
              {| app := setTextSegments
                          (App.textSegments (app d) ++ newSentences) (app d);
                 pageMapping := if (length (pageMapping d) =? 0)%nat then [0]
                                else pageMapping d;
                 toc := toc d;
                 currentFile := currentFile d; isProcessing := isProcessing d;
                 isTranslating := isTranslating d; activeTab := activeTab d;
                 isMobileMenuOpen := isMobileMenuOpen d |} in
            (* If this is the first content, set index to 0 *)
            if App.currentIndex (App.r_playback r) =? -1 then
              with_app (App.setPlayback (fun prev =>
                {| App.isPlaying := App.isPlaying prev;
                   App.isLoading := App.isLoading prev;
                   App.currentIndex := 0;
                   App.detectedEmotion := App.detectedEmotion prev |})) d
            else d
          else d
        else d in
      setIsProcessing false d
  end.

(** The component right after it mounted (see [App.mounted]). *)
Definition mounted (savedKey : JS.t) (prefersDark : bool) : State :=
  {| app := App.mounted savedKey prefersDark;
     pageMapping := []; toc := []; currentFile := None;
     isProcessing := false; isTranslating := false;
     activeTab := settingsTab; isMobileMenuOpen := false |}.

(** *** Observations used in the statements *)

(** Chunks in increasing order whose ranges do not overlap. *)
Fixpoint apart (cs : list Chunk) : Prop :=
  match cs with
  | [] => True
  | c :: cs' =>
      Forall (fun c' => (start c + length (texts c) <= start c')%nat) cs'
      /\ apart cs'
  end.

End Library.

(* ===================================================================== *)
(** ** Observations on the cache and on the prompts                       *)
(* ===================================================================== *)

Module Observe.

(** The entry of [key] holds [value] and at most [n] entries are more
    recent than it. *)
Definition heldBehind {V} (n : nat) (c : AudioLRUCache.t V) (key : Z) (value : V)
    : Prop :=
  exists pre post,
    AudioLRUCache.cache c = pre ++ (key, value) :: post /\ (length post <= n)%nat.

(** An operation that neither removes [key] nor is about it. *)
Definition spares {V} (key : Z) (o : AudioLRUCache.op V) : Prop :=
  match o with
  | AudioLRUCache.Get k | AudioLRUCache.Set_ k _
  | AudioLRUCache.Has k | AudioLRUCache.Delete k => k <> key
  | AudioLRUCache.Clear => False
  end.

(** The number of double quotes in a string. *)
Definition quotes (s : JS.t) : nat :=
  length (List.filter (fun c => c =? JS.dquote) s).

End Observe.

(* ===================================================================== *)
(** ** App.tsx: what holds along every session                            *)
(* ===================================================================== *)

Module Session.

Import App.

(** Two renders agree on what the playback effect and [playSentence]
    read. *)
Definition agree (r r' : Render) : Prop :=
  currentIndex (r_playback r) = currentIndex (r_playback r')
  /\ isPlaying (r_playback r) = isPlaying (r_playback r')
  /\ r_textSegments r = r_textSegments r'
  /\ r_settings r = r_settings r'
  /\ r_pdfDataId r = r_pdfDataId r'
  /\ r_settingsId r = r_settingsId r'.

(** What a handler or callback may do to the refs, the timer, the speech
    queue and the identities of the document and of the settings: it
    leaves the active index and the committed render alone; it clears the
    timer or leaves it; it does not bring the speech queue beyond one
    utterance; it leaves the document or makes a new one; it leaves the
    settings or makes new ones. *)
Definition follows (st st' : State) : Prop :=
  activeIndexRef st' = activeIndexRef st
  /\ committed st' = committed st
  /\ (timer st' = timer st \/ timer st' = None)
  /\ ((length (synth st) <= 1)%nat -> (length (synth st') <= 1)%nat)
  /\ ((pdfDataId st' = pdfDataId st /\ textSegments st' = textSegments st)
      \/ (pdfDataId st < pdfDataId st')%nat)
  /\ ((settingsId st' = settingsId st /\ settings st' = settings st)
      \/ (settingsId st < settingsId st')%nat).

(** What holds at every moment of a session, also between a handler and
    React's commit: the speech queue holds at most one utterance; an
    armed timer belongs to a render that was playing and that agrees with
    the committed one, and the active index is its index; while the
    committed render is playing, the active index is its index; the
    document and the settings are the committed ones unless their
    identity is newer. *)
Record Steady (st : State) : Prop := {
  steady_synth : (length (synth st) <= 1)%nat;
  steady_timer : forall r, timer st = Some r ->
                   agree r (committed st)
                   /\ isPlaying (r_playback r) = true
                   /\ activeIndexRef st = currentIndex (r_playback r);
  steady_active : isPlaying (r_playback (committed st)) = true ->
                  activeIndexRef st = currentIndex (r_playback (committed st));
  steady_document : (pdfDataId st = r_pdfDataId (committed st)
                     /\ textSegments st = r_textSegments (committed st))
                    \/ (r_pdfDataId (committed st) < pdfDataId st)%nat;
  steady_settings : (settingsId st = r_settingsId (committed st)
                     /\ settings st = r_settings (committed st))
                    \/ (r_settingsId (committed st) < settingsId st)%nat
}.

(** A result that settles for another sentence than the active one: a
    synthesis no parked [playSentence] call of the active index waits
    for, or a pending speech request made for another index. *)
Definition stale (st : State) (e : Event) : Prop :=
  match e with
  | Settle p _ =>
      forall t, tasks st !! p = Some t ->
                Forall (fun w => w_index w <> activeIndexRef st) (task_waiters t)
  | SettleFetch id _ =>
      forall f, fetches st !! id = Some f ->
                w_index (fetch_waiter f) <> activeIndexRef st
  | _ => False
  end.

End Session.

(* ===================================================================== *)
(** ** Concrete inputs                                                    *)
(* ===================================================================== *)

Module Sample.

Import Gemini.

(** A backend whose text model always answers with [reply]. *)
Definition answering (reply : JS.Settled (option JS.t)) : Backend :=
  {| generateText := fun _ _ => reply;
     generateAudio := fun _ _ => Rejected (JS.lit "unavailable");
     atob := fun _ => None |}.

(** Three bytes: the sample 0x0001 followed by a trailing byte. *)
Definition oddPcm : list byte := [x01; x00; xff].

(** Four bytes: the samples 0x8000 (the minimum) and 0x7fff. *)
Definition extremePcm : list byte := [x00; x80; xff; x7f].

(** Scenario C of the specification: capacity 2, then indices 0, 1, 2
    are stored (the promises are numbered 10, 11, 12). *)
Definition scenarioC : list (Z * nat) := [(0, 10%nat); (1, 11%nat); (2, 12%nat)].

End Sample.

(* ===================================================================== *)
(** ** Concrete sessions                                                  *)
(* ===================================================================== *)

Module Scenario.

Import Gemini App.

(** The settings form of the sidebar: choosing an engine. *)
Definition useEngine (e : VoiceEngine) (prev : AppSettings) : AppSettings :=
  {| engine := e; browserVoice := browserVoice prev;
     openaiKey := openaiKey prev; openaiVoice := openaiVoice prev;
     googleVoice := googleVoice prev; rate := rate prev; pitch := pitch prev;
     darkMode := darkMode prev; sourceLanguage := sourceLanguage prev;
     targetLanguage := targetLanguage prev |}.


(** Toggling the dark mode. *)
Definition toggleDarkMode (prev : AppSettings) : AppSettings :=
  {| engine := engine prev; browserVoice := browserVoice prev;
     openaiKey := openaiKey prev; openaiVoice := openaiVoice prev;
     googleVoice := googleVoice prev; rate := rate prev; pitch := pitch prev;
     darkMode := negb (darkMode prev); sourceLanguage := sourceLanguage prev;
     targetLanguage := targetLanguage prev |}.


(** A synthesized sentence: one sample, read in a calm tone. *)
Definition calm : AudioCacheItem :=
  {| buffer := {| sampleRate := 24000; numberOfChannels := 1;
                  channelData := [(1 # 32768)%Q] |};
     emotion := JS.lit "Calm" |}.

(** A document of one sentence is loaded and the Gemini engine chosen. *)
Definition ready : State :=
  run (mounted [] false)
      [FileUpload; PdfParsed [JS.lit "Hello."]; SettingsChange (useEngine google)].

(** Play is pressed and the timer of the playback effect fires:
    [playSentence(0)] runs and waits for its synthesis. *)
Definition loading : State := run ready [TogglePlay; TimerFired].

(** The synthesis of index 0 resolves while playback is on. *)
Definition playing : State := run loading [Settle 0%nat (Fulfilled calm)].

(** Scenario D of the specification: stop while index 0 is loading ... *)
Definition stoppedWhileLoading : State := run loading [StopButton].

(** ... and then the pending synthesis resolves. *)
Definition resolvedAfterStop : State :=
  run stoppedWhileLoading [Settle 0%nat (Fulfilled calm)].

(** The synthesis of index 0, started by the play path, fails. *)
Definition failedWhileLoading : State :=
  run loading [Settle 0%nat (Rejected (JS.lit "quota exceeded"))].

(** Play is pressed again after that failure ... *)
Definition retrying : State := run failedWhileLoading [TogglePlay].

(** ... and the timer fires: [playSentence(0)] runs once more. *)
Definition retried : State := run retrying [TimerFired].

(** While index 0 is loading the dark mode is toggled: the settings object
    is new, [playSentence] is re-created, the playback effect runs again
    and its timer fires, so a second [playSentence(0)] waits on the same
    promise. *)
Definition loadingTwice : State :=
  run loading [SettingsChange toggleDarkMode; TimerFired].

(** The promise resolves and both calls resume. *)
Definition resumedTwice : State :=
  run loadingTwice [Settle 0%nat (Fulfilled calm)].

(** Stop is pressed. *)
Definition stoppedAfterTwo : State := run resumedTwice [StopButton].

(** A document of two sentences, the Gemini engine, play pressed and the
    timer fired: [playSentence(0)] waits for index 0 and has prefetched
    index 1. *)
Definition loadingTwo : State :=
  run (mounted [] false)
      [FileUpload; PdfParsed [JS.lit "Hello."; JS.lit "World."];
       SettingsChange (useEngine google); TogglePlay; TimerFired].

(** A document of two sentences is open with the browser engine. A second
    file is chosen, and play is pressed while it is being parsed: the
    timer fires and the first sentence of the open document is spoken. *)
Definition speakingOld : State :=
  run (mounted [] false)
      [FileUpload; PdfParsed [JS.lit "One."; JS.lit "Two."];
       FileUpload; TogglePlay; TimerFired].

(** The second document, of one sentence, is parsed ... *)
Definition parsedNew : State := run speakingOld [PdfParsed [JS.lit "Hello."]].

(** ... and the utterance of the old sentence ends: its [onend] is the
    [playNext] of the render that spoke it. *)
Definition endedOld : State := run parsedNew [UtteranceEnded].

(** The same with the Gemini engine: the second file is chosen while the
    first sentence is loading, it is parsed, then the synthesis of the
    old sentence resolves (and starts, see [resolvedAfterStop]) ... *)
Definition soundingOld : State :=
  run (mounted [] false)
      [FileUpload; PdfParsed [JS.lit "One."; JS.lit "Two."];
       SettingsChange (useEngine google); TogglePlay; TimerFired;
       FileUpload; PdfParsed [JS.lit "Hello."];
       Settle 0%nat (Fulfilled calm)].

(** ... and its source node plays to the end. *)
Definition endedOldNode : State := run soundingOld [SourceEnded 0%nat].



End Scenario.

(* ===================================================================== *)
(** ** Concrete documents                                                 *)
(* ===================================================================== *)

Module Book.

Import PdfUtils.

(** A document of three pages without outline: two sentences on the
    first page, in two text items, the first with a run of spaces; no
    text on the second page; a sentence without full stop on the third. *)
Definition threePages : Pdf :=
  {| numPages := 3;
     getPageText := fun i =>
       match i with
       | 1%nat => Fulfilled [JS.lit "Hello   world."; JS.lit "How are you?"]
       | 2%nat => Fulfilled []
       | 3%nat => Fulfilled [JS.lit "The end"]
       | _ => Rejected (JS.lit "Invalid page request")
       end;
     getOutline := Fulfilled None;
     getDestination := fun _ => Fulfilled None;
     getPageIndex := fun _ => Rejected (JS.lit "Invalid page reference") |}.

(** What [parsePdf] makes of it without [Intl.Segmenter]. *)
Definition parsed : PdfData :=
  {| textSegments := [JS.lit "Hello world."; JS.lit "How are you?"; JS.lit "The end"];
     pageMapping := [0; 2; 2];
     toc := [] |}.

(** A translation service that answers for the first sentence of a chunk
    only, with the sentence between brackets. *)
Definition firstOnly (texts : list JS.t) : JS.Settled (list JS.t) :=
  Fulfilled (map (fun t => JS.lit "[" ++ t ++ JS.lit "]") (take 1 texts)).

End Book.

(* ===================================================================== *)
(** ** Concrete listening sessions                                        *)
(* ===================================================================== *)

Module Listening.

Import App.

Definition threeSentences : list JS.t :=
  [JS.lit "Hello."; JS.lit "World."; JS.lit "Bye."].

(** A document of three sentences is loaded and play is pressed, with
    the browser engine: the timer of the playback effect is armed. *)
Definition armed : State :=
  run (mounted [] false) [FileUpload; PdfParsed threeSentences; TogglePlay].

(** The timer fired: the first sentence is being spoken. *)
Definition speaking : State :=
  run (mounted [] false)
      [FileUpload; PdfParsed threeSentences; TogglePlay; TimerFired].

(** The same document with the OpenAI engine chosen and no key saved. *)
Definition keyless : State :=
  run (mounted [] false)
      [FileUpload; PdfParsed threeSentences;
       SettingsChange (Scenario.useEngine openai); TogglePlay].

(** The same document with the Gemini engine chosen. *)
Definition geminiArmed : State :=
  run (mounted [] false)
      [FileUpload; PdfParsed threeSentences;
       SettingsChange (Scenario.useEngine google); TogglePlay].

(** A document whose second segment is blank, with the Gemini engine
    chosen and play pressed. *)
Definition gappyArmed : State :=
  run (mounted [] false)
      [FileUpload; PdfParsed [JS.lit "Hello."; JS.lit " "; JS.lit "Bye."];
       SettingsChange (Scenario.useEngine google); TogglePlay].

(** The timer fired: [playSentence(0)] waits on promise 0 and has
    prefetched the sentences 1 and 2, as promises 1 and 2. *)
Definition geminiLoading : State :=
  run (mounted [] false)
      [FileUpload; PdfParsed threeSentences;
       SettingsChange (Scenario.useEngine google); TogglePlay; TimerFired].

(** The promise of the prefetch of sentence 1. *)
Definition prefetchOfSecond : Task :=
  {| task_index := 1; task_render := render geminiArmed; task_guarded := true;
     task_outcome := None; task_waiters := [] |}.

(** The first sentence is loading with the Gemini engine when the second
    one is clicked: the active index is 1, and the [playSentence] call
    for index 0 still waits on promise 0. *)
Definition skipped : State :=
  run (mounted [] false)
      [FileUpload; PdfParsed threeSentences;
       SettingsChange (Scenario.useEngine google); TogglePlay; TimerFired;
       SentenceClick; SeekTimeout 1].

End Listening.

(* ===================================================================== *)
(** ** Proof automation                                                   *)
(* ===================================================================== *)

(** Case analysis on every test a handler makes, down to record updates
    that leave the bookkeeping fields alone. *)
Ltac bookkeeping :=
  unfold App.sameBookkeeping;
  repeat match goal with
         | |- context [match ?x with _ => _ end] => destruct x
         end;
  cbn; repeat split; reflexivity.

(** Case analysis on every test a handler makes, down to record updates
    that satisfy [Session.follows]. *)
Ltac following :=
  unfold Session.follows;
  repeat match goal with
         | |- context [match ?x with _ => _ end] => destruct x
         end;
  cbn; repeat split; auto.

(* ===================================================================== *)
(** * Properties                                                          *)
(* ===================================================================== *)

(** ** Strings *)

Section TrimFacts.

Lemma trimStart_nil (s : JS.t) :
  JS.trimStart s = [] <-> forallb JS.is_space s = true.
Proof.
  induction s as [|c s IH]; simpl; [tauto|].
  destruct (JS.is_space c); simpl; [exact IH|].
  split; discriminate.
Qed.

Lemma forallb_rev {A} (f : A -> bool) (l : list A) :
  forallb f (rev l) = forallb f l.
Proof.
  induction l as [|a l IH]; simpl; [reflexivity|].
  rewrite forallb_app, IH. simpl. rewrite andb_true_r. apply andb_comm.
Qed.

Lemma trimStart_head (s : JS.t) :
  match JS.trimStart s with
  | [] => True
  | c :: _ => JS.is_space c = false
  end.
Proof.
  induction s as [|c s IH]; simpl; [exact I|].
  destruct (JS.is_space c) eqn:E; [exact IH | exact E].
Qed.

Lemma trim_nil (s : JS.t) :
  JS.trim s = [] <-> forallb JS.is_space s = true.
Proof.
  unfold JS.trim, JS.trimEnd. split.
  - intros H. apply (f_equal (@rev Z)) in H. rewrite rev_involutive in H.
    simpl in H. apply trimStart_nil in H. rewrite forallb_rev in H.
    pose proof (trimStart_head s) as Hh.
    destruct (JS.trimStart s) as [|c t] eqn:E.
    + now apply trimStart_nil.
    + simpl in H. rewrite Hh in H. discriminate.
  - intros H. apply trimStart_nil in H. rewrite H. reflexivity.
Qed.

(** [!text.trim()] holds exactly for the strings made of white space
    only (the empty one included). *)
Lemma blank_spec (s : JS.t) :
  JS.blank s = true <-> forallb JS.is_space s = true.
Proof.
  unfold JS.blank. rewrite <- trim_nil.
  destruct (JS.trim s); simpl; split; congruence.
Qed.

Lemma truthy_trim (s : JS.t) :
  JS.truthy (JS.trim s) = negb (JS.blank s).
Proof. unfold JS.blank. now rewrite negb_involutive. Qed.

End TrimFacts.

(** ** services/gemini.ts *)

Section GeminiFacts.

Import Gemini.

(** *** detectEmotion *)

(** C9. [detectEmotion] always resolves and never rejects. It resolves
    with 'Neutral' when the model call fails, when the response has no
    text, and when the response text is empty, which the code decides on
    the trimmed text (so a text of white space only is empty too);
    otherwise it resolves with the response text trimmed of surrounding
    white space. *)
Theorem detectEmotion_always_resolves
    (ai : Backend) (text : JS.t) (previousText : option JS.t)
    (upcomingContext : list JS.t) :
  let reply :=
    generateText ai emotionModel
      (detectEmotionPrompt text previousText upcomingContext) in
  let result := detectEmotion ai text previousText upcomingContext in
  (exists label, result = Fulfilled label)
  /\ (forall e, reply = Rejected e -> result = Fulfilled Neutral)
  /\ (reply = Fulfilled None -> result = Fulfilled Neutral)
  /\ (forall txt, reply = Fulfilled (Some txt) ->
        forallb JS.is_space txt = true -> result = Fulfilled Neutral)
  /\ (forall txt, reply = Fulfilled (Some txt) ->
        forallb JS.is_space txt = false ->
        result = Fulfilled (JS.trim txt) /\ JS.trim txt <> []).
Proof.
  cbv zeta. unfold detectEmotion.
  destruct (generateText ai emotionModel _) as [[txt|]|e] eqn:E.
  - rewrite truthy_trim.
    destruct (JS.blank txt) eqn:B; simpl.
    + apply blank_spec in B.
      split; [eauto|]. split; [discriminate|]. split; [discriminate|].
      split; [reflexivity|].
      intros t' [= <-] Hsp. congruence.
    + assert (forallb JS.is_space txt = false) as Hns.
      { destruct (forallb JS.is_space txt) eqn:F; [|reflexivity].
        apply blank_spec in F. congruence. }
      split; [eauto|]. split; [discriminate|]. split; [discriminate|].
      split.
      * intros t' [= <-] Hsp. congruence.
      * intros t' [= <-] _. split; [reflexivity|].
        intros Hnil. apply trim_nil in Hnil. congruence.
  - split; [eauto|]. split; [reflexivity|]. split; [reflexivity|].
    split; discriminate.
  - split; [eauto|]. split; [reflexivity|]. split; [discriminate|].
    split; discriminate.
Qed.

(** The statement above at a model that answers Calm between a space and
    a line feed. *)
Lemma detectEmotion_always_resolves_witness :
  detectEmotion (Sample.answering (Fulfilled (Some (32 :: JS.lit "Calm" ++ [10]))))
                (JS.lit "Hello.") None []
  = Fulfilled (JS.lit "Calm").
Proof.
  pose proof (detectEmotion_always_resolves
                (Sample.answering (Fulfilled (Some (32 :: JS.lit "Calm" ++ [10]))))
                (JS.lit "Hello.") None []) as H.
  cbv zeta in H.
  destruct H as (_ & _ & _ & _ & H).
  destruct (H (32 :: JS.lit "Calm" ++ [10]) eq_refl eq_refl) as [-> _].
  reflexivity.
Defined.

(** A response of white space only counts as an empty one: two spaces
    give 'Neutral', not the empty string that trimming them leaves. *)
Lemma detectEmotion_whitespace_reply_is_neutral :
  let txt := JS.lit "  " in
  let ai := Sample.answering (Fulfilled (Some txt)) in
  txt <> []
  /\ detectEmotion ai (JS.lit "Hello.") None [] = Fulfilled Neutral
  /\ detectEmotion ai (JS.lit "Hello.") None [] <> Fulfilled (JS.trim txt).
Proof. cbv zeta. repeat split; [discriminate | discriminate]. Qed.

End GeminiFacts.

(** *** decodeGeminiAudio *)

Section DecodeFacts.

Import Gemini.

Lemma byte_range (b : byte) : 0 <= Z.of_N (Byte.to_N b) < 256.
Proof. pose proof (Byte.to_N_bounded b). lia. Qed.

Lemma land_low_high (lo hi : Z) :
  0 <= lo < 256 -> Z.land lo (Z.shiftl hi 8) = 0.
Proof.
  intros Hlo. apply Z.bits_inj'. intros n Hn.
  rewrite Z.land_spec, Z.bits_0.
  destruct (Z.lt_ge_cases n 8) as [Hlt|Hge].
  - rewrite (Z.shiftl_spec_low hi 8 n Hlt). apply andb_false_r.
  - assert (Z.testbit lo n = false) as ->; [|reflexivity].
    destruct (Z.eq_dec lo 0) as [->|Hnz]; [apply Z.bits_0|].
    apply Z.bits_above_log2; [lia|].
    assert (Z.log2 lo < 8); [|lia].
    apply Z.log2_lt_pow2; lia.
Qed.

(** The bit-level read of the source is the arithmetic little-endian
    two's-complement value. *)
Lemma getInt16_int16le (audioData : list byte) (offset : nat) (lo hi : byte) :
  audioData !! offset = Some lo ->
  audioData !! S offset = Some hi ->
  getInt16 audioData offset = Some (int16le lo hi).
Proof.
  intros Hlo Hhi. unfold getInt16, int16le. rewrite Hlo, Hhi. f_equal.
  pose proof (byte_range lo) as Rlo. pose proof (byte_range hi) as Rhi.
  rewrite <- Z.add_nocarry_lor by (apply land_low_high; exact Rlo).
  rewrite Z.shiftl_mul_pow2 by lia. change (2 ^ 8) with 256.
  destruct (32768 <=? _) eqn:E1; destruct (_ <? 32768) eqn:E2; lia.
Qed.

Lemma int16le_range (lo hi : byte) : -32768 <= int16le lo hi < 32768.
Proof.
  unfold int16le.
  pose proof (byte_range lo). pose proof (byte_range hi).
  destruct (_ <? 32768) eqn:E; lia.
Qed.

(** A sample divided by 32768 lies in [-1, 1). *)
Lemma sample_unit_interval (lo hi : byte) :
  (-1 <= int16le lo hi # 32768)%Q /\ (int16le lo hi # 32768 < 1)%Q.
Proof.
  pose proof (int16le_range lo hi).
  unfold Qle, Qlt; simpl; lia.
Qed.

(** After [n] iterations the first [n] samples are written and the rest
    of the channel is untouched; no read fails. *)
Lemma decode_loop (audioData : list byte) (data : list Q) (n : nat) :
  (2 * n <= length audioData)%nat ->
  (n <= length data)%nat ->
  foldl (decodeStep audioData) (Some data) (seq 0 n)
  = Some (map (sampleAt audioData) (seq 0 n) ++ drop n data).
Proof.
  induction n as [|n IH]; intros Hbytes Hdata.
  - simpl. now rewrite drop_0.
  - rewrite seq_S, foldl_snoc, IH by lia. simpl.
    unfold decodeStep, byteLength.
    replace (Z.of_nat (n * 2) + 1 <? Z.of_nat (length audioData)) with true
      by (symmetry; apply Z.ltb_lt; lia).
    destruct (lookup_lt_is_Some_2 audioData (n * 2)) as [lo Hlo]; [lia|].
    destruct (lookup_lt_is_Some_2 audioData (S (n * 2))) as [hi Hhi]; [lia|].
    rewrite (getInt16_int16le _ _ lo hi Hlo Hhi).
    destruct (lookup_lt_is_Some_2 data n) as [old Hold]; [lia|].
    f_equal.
    rewrite insert_app_r_alt by (rewrite length_map, length_seq; lia).
    rewrite length_map, length_seq, Nat.sub_diag.
    rewrite (drop_S data old n Hold). simpl.
    rewrite map_app. simpl. rewrite <- app_assoc. simpl.
    do 2 f_equal. unfold sampleAt.
    replace (2 * n)%nat with (n * 2)%nat by lia.
    now rewrite Hlo, Hhi.
Qed.

(** C10, as the code has it. Given the zero-filled buffer the context
    allocates, [decodeGeminiAudio] fulfils with a mono buffer at 24000 Hz
    of exactly floor(L / 2) samples; every one of them is written: sample
    [i] is the little-endian signed 16-bit integer at byte offset [2 * i]
    divided by 32768, and lies in [-1, 1). An odd trailing byte is never
    read, and no read is out of bounds. *)
Theorem decodeGeminiAudio_samples (audioData : list byte) (ctx : AudioContext) :
  let L := byteLength audioData in
  allocates ctx (L / 2) ->
  exists buf,
    decodeGeminiAudio audioData ctx = Fulfilled buf
    /\ sampleRate buf = 24000
    /\ numberOfChannels buf = 1
    /\ Z.of_nat (length (channelData buf)) = L / 2
    /\ forall i : nat, Z.of_nat i < L / 2 ->
         exists lo hi,
           audioData !! (2 * i)%nat = Some lo
           /\ audioData !! (2 * i + 1)%nat = Some hi
           /\ channelData buf !! i = Some (int16le lo hi # 32768)%Q
           /\ (-1 <= int16le lo hi # 32768)%Q
           /\ (int16le lo hi # 32768 < 1)%Q.
Proof.
  cbv zeta. unfold allocates, decodeGeminiAudio, byteLength. intros Halloc.
  rewrite Halloc. cbn [channelData sampleRate numberOfChannels].
  set (n := Z.to_nat (Z.of_nat (length audioData) / 2)).
  assert (Z.of_nat n = Z.of_nat (length audioData) / 2) as Hn.
  { subst n. rewrite Z2Nat.id; [reflexivity|].
    apply Z.div_pos; lia. }
  assert (2 * n <= length audioData)%nat as Hbytes.
  { pose proof (Z.mul_div_le (Z.of_nat (length audioData)) 2). lia. }
  rewrite decode_loop by (rewrite ?length_replicate; lia).
  rewrite drop_replicate, Nat.sub_diag, app_nil_r.
  eexists. split; [reflexivity|]. cbn [channelData sampleRate numberOfChannels].
  split; [reflexivity|]. split; [reflexivity|].
  split; [rewrite length_map, length_seq; exact Hn|].
  intros i Hi.
  destruct (lookup_lt_is_Some_2 audioData (2 * i)) as [lo Hlo]; [lia|].
  destruct (lookup_lt_is_Some_2 audioData (2 * i + 1)) as [hi Hhi]; [lia|].
  exists lo, hi. split; [exact Hlo|]. split; [exact Hhi|].
  split; [|apply sample_unit_interval].
  rewrite list_lookup_fmap, lookup_seq_lt by lia.
  cbn [fmap option_fmap option_map Nat.add]. unfold sampleAt.
  replace (S (2 * i)) with (2 * i + 1)%nat by lia.
  now rewrite Hlo, Hhi.
Qed.

(** The statement above at the Web Audio context and the four bytes
    00 80 ff 7f. *)
Lemma decodeGeminiAudio_samples_witness :
  exists buf,
    decodeGeminiAudio Sample.extremePcm webAudio = Fulfilled buf
    /\ sampleRate buf = 24000
    /\ numberOfChannels buf = 1
    /\ Z.of_nat (length (channelData buf)) = 2
    /\ forall i : nat, Z.of_nat i < 2 ->
         exists lo hi,
           Sample.extremePcm !! (2 * i)%nat = Some lo
           /\ Sample.extremePcm !! (2 * i + 1)%nat = Some hi
           /\ channelData buf !! i = Some (int16le lo hi # 32768)%Q
           /\ (-1 <= int16le lo hi # 32768)%Q
           /\ (int16le lo hi # 32768 < 1)%Q.
Proof.
  apply (decodeGeminiAudio_samples Sample.extremePcm webAudio).
  reflexivity.
Defined.

(** C10 as worded fails on its parenthesis: with three bytes, an odd
    length, the buffer has one sample and that last sample does not stay
    0: it is 1/32768, read from the first two bytes. *)
Lemma decodeGeminiAudio_odd_length_last_sample_written :
  byteLength Sample.oddPcm = 3
  /\ decodeGeminiAudio Sample.oddPcm webAudio
     = Fulfilled {| sampleRate := 24000; numberOfChannels := 1;
                    channelData := [(1 # 32768)%Q] |}
  /\ ~ (1 # 32768 == 0)%Q.
Proof. split; [reflexivity|]. split; [reflexivity|]. discriminate. Qed.

End DecodeFacts.

(** ** class AudioLRUCache *)

Section MapFacts.
Context {V : Type}.
Implicit Types (m : JSMap.t V) (k key : Z) (v value : V).

Lemma has_keys m key : JSMap.has m key = true <-> In key (JSMap.keys m).
Proof.
  unfold JSMap.has. induction m as [|[k v] m IH]; simpl.
  - split; [discriminate | tauto].
  - destruct (Z.eqb_spec k key) as [->|Hne].
    + split; auto.
    + rewrite IH. split; [auto | intros [?|?]; [contradiction | assumption]].
Qed.

Lemma has_false_keys m key : JSMap.has m key = false <-> ~ In key (JSMap.keys m).
Proof.
  rewrite <- has_keys. destruct (JSMap.has m key); split; congruence.
Qed.

Lemma without_absent key (ks : list Z) :
  ~ In key ks -> AudioLRUCache.without key ks = ks.
Proof.
  unfold AudioLRUCache.without. induction ks as [|k ks IH]; simpl; [reflexivity|].
  intros Hn. destruct (Z.eqb_spec k key) as [->|Hne]; simpl.
  - exfalso. apply Hn. now left.
  - f_equal. apply IH. tauto.
Qed.

Lemma in_without key k (ks : list Z) :
  In k (AudioLRUCache.without key ks) <-> In k ks /\ k <> key.
Proof.
  unfold AudioLRUCache.without. rewrite List.filter_In, negb_true_iff, Z.eqb_neq.
  reflexivity.
Qed.

Lemma keys_delete m key :
  List.NoDup (JSMap.keys m) ->
  JSMap.keys (JSMap.delete m key) = AudioLRUCache.without key (JSMap.keys m).
Proof.
  induction m as [|[k v] m IH]; simpl; [reflexivity|].
  intros Hnd. apply List.NoDup_cons_iff in Hnd as [Hk Hnd].
  destruct (Z.eqb_spec k key) as [->|Hne]; simpl.
  - symmetry. now apply without_absent.
  - f_equal. now apply IH.
Qed.

Lemma keys_set_absent m key value :
  ~ In key (JSMap.keys m) ->
  JSMap.keys (JSMap.set m key value) = JSMap.keys m ++ [key].
Proof.
  induction m as [|[k v] m IH]; simpl; [reflexivity|].
  intros Hn. destruct (Z.eqb_spec k key) as [->|Hne]; [tauto|].
  simpl. f_equal. apply IH. tauto.
Qed.

Lemma get_set_absent m key value :
  ~ In key (JSMap.keys m) -> JSMap.get (JSMap.set m key value) key = Some value.
Proof.
  induction m as [|[k v] m IH]; simpl.
  - now rewrite Z.eqb_refl.
  - intros Hn. destruct (Z.eqb_spec k key) as [->|Hne]; [tauto|].
    simpl. destruct (Z.eqb_spec k key); [contradiction|]. apply IH. tauto.
Qed.

Lemma get_set_other m key value k :
  k <> key -> JSMap.get (JSMap.set m key value) k = JSMap.get m k.
Proof.
  intros Hne. induction m as [|[k' v'] m IH]; simpl.
  - destruct (Z.eqb_spec key k); [congruence | reflexivity].
  - destruct (Z.eqb_spec k' key) as [->|Hne'].
    + simpl. destruct (Z.eqb_spec key k); [congruence | reflexivity].
    + simpl. destruct (Z.eqb_spec k' k); [reflexivity | exact IH].
Qed.

Lemma get_delete_other m key k :
  k <> key -> JSMap.get (JSMap.delete m key) k = JSMap.get m k.
Proof.
  intros Hne. induction m as [|[k' v'] m IH]; simpl; [reflexivity|].
  destruct (Z.eqb_spec k' key) as [->|Hne'].
  - destruct (Z.eqb_spec key k); [congruence | reflexivity].
  - simpl. destruct (Z.eqb_spec k' k); [reflexivity | exact IH].
Qed.

Lemma NoDup_without key (ks : list Z) :
  List.NoDup ks -> List.NoDup (AudioLRUCache.without key ks).
Proof. apply List.NoDup_filter. Qed.

Lemma NoDup_snoc (ks : list Z) key :
  List.NoDup ks -> ~ In key ks -> List.NoDup (ks ++ [key]).
Proof.
  intros Hnd Hn. apply List.NoDup_app; [exact Hnd | repeat constructor; auto |].
  intros a Ha [<-|[]]. contradiction.
Qed.

Lemma length_without_present key (ks : list Z) :
  List.NoDup ks -> In key ks ->
  S (length (AudioLRUCache.without key ks)) = length ks.
Proof.
  induction ks as [|k ks IH]; simpl; [tauto|].
  intros Hnd Hin. apply List.NoDup_cons_iff in Hnd as [Hk Hnd].
  destruct (Z.eqb_spec k key) as [->|Hne]; simpl.
  - fold (AudioLRUCache.without key ks). now rewrite without_absent.
  - fold (AudioLRUCache.without key ks). f_equal. apply IH; [assumption|].
    destruct Hin; [contradiction | assumption].
Qed.

Lemma length_without_le key (ks : list Z) :
  (length (AudioLRUCache.without key ks) <= length ks)%nat.
Proof. apply List.filter_length_le. Qed.

End MapFacts.

Section RecencyFacts.

Import AudioLRUCache.

Lemma without_app key (l1 l2 : list Z) :
  without key (l1 ++ l2) = without key l1 ++ without key l2.
Proof. apply List.filter_app. Qed.

Lemma without_without key (ks : list Z) :
  without key (without key ks) = without key ks.
Proof.
  apply without_absent. rewrite in_without. tauto.
Qed.

(** Using [key] once more moves it to the most recent end. *)
Lemma recency_snoc (log : list Z) key :
  recency (log ++ [key]) = without key (recency log) ++ [key].
Proof.
  induction log as [|a log IH]; simpl; [reflexivity|].
  rewrite existsb_app. simpl. rewrite orb_false_r.
  destruct (Z.eqb_spec a key) as [->|Hne].
  - rewrite orb_true_r, IH.
    destruct (existsb (Z.eqb key) log); [reflexivity|].
    unfold without at 2. simpl. now rewrite Z.eqb_refl.
  - rewrite orb_false_r.
    destruct (existsb (Z.eqb a) log); [exact IH|].
    rewrite IH. unfold without at 2. simpl.
    destruct (Z.eqb_spec a key); [contradiction | reflexivity].
Qed.

Lemma sublist_without key (l1 l2 : list Z) :
  sublist l1 l2 -> sublist (without key l1) (without key l2).
Proof.
  unfold without. induction 1 as [|x l1 l2 _ IH|x l1 l2 _ IH]; simpl.
  - constructor.
  - destruct (negb (x =? key)); [now constructor | exact IH].
  - destruct (negb (x =? key)); [now constructor | exact IH].
Qed.

Lemma sublist_without_self key (ks : list Z) : sublist (without key ks) ks.
Proof.
  unfold without. induction ks as [|k ks IH]; simpl; [constructor|].
  destruct (negb (k =? key)); now constructor.
Qed.

Lemma sublist_tail (l1 l2 : list Z) :
  sublist l1 l2 -> sublist (tail l1) l2.
Proof.
  intros H. destruct l1 as [|x l1]; [exact H|]. simpl.
  eapply sublist_cons_l in H as (k1 & k2 & -> & H).
  apply sublist_inserts_l, sublist_cons, H.
Qed.

End RecencyFacts.

Section CacheFacts.
Context {V : Type}.
Import AudioLRUCache.
Implicit Types (c : AudioLRUCache.t V) (o : op V).

Lemma size_length c : size c = Z.of_nat (length (keys c)).
Proof. unfold size, JSMap.size, keys, JSMap.keys. now rewrite length_map. Qed.

Lemma has_iff c key : has c key = true <-> In key (keys c).
Proof. apply has_keys. Qed.

(** What [set] does to the key order, case by case. *)
Lemma keys_set c key value :
  List.NoDup (keys c) ->
  keys (set c key value) =
    (if has c key then without key (keys c)
     else if size c >=? capacity c then tail (keys c)
     else keys c) ++ [key].
Proof.
  intros Hnd. unfold set, keys, has, size. cbn [cache].
  destruct (JSMap.has (cache c) key) eqn:Hhas.
  - rewrite keys_set_absent.
    + now rewrite keys_delete.
    + rewrite keys_delete by exact Hnd. rewrite in_without. tauto.
  - apply has_false_keys in Hhas.
    destruct (JSMap.size (cache c) >=? capacity c).
    + destruct (cache c) as [|[k v] m] eqn:Hm; simpl.
      * reflexivity.
      * rewrite Z.eqb_refl. apply keys_set_absent. simpl in Hhas. tauto.
    + now apply keys_set_absent.
Qed.

Lemma capacity_set c key value : capacity (set c key value) = capacity c.
Proof. reflexivity. Qed.

Lemma keys_get_hit c key :
  List.NoDup (keys c) -> has c key = true ->
  keys (snd (get c key)) = without key (keys c) ++ [key].
Proof.
  intros Hnd Hhas. unfold get. unfold has in Hhas. rewrite Hhas. simpl.
  unfold JSMap.has in Hhas.
  destruct (JSMap.get (cache c) key) as [val|]; [|discriminate]. simpl.
  unfold keys. cbn [cache]. rewrite keys_set_absent.
  - now rewrite keys_delete.
  - rewrite keys_delete by exact Hnd. rewrite in_without. tauto.
Qed.

Lemma get_miss c key : has c key = false -> get c key = (None, c).
Proof. intros H. unfold get. unfold has in H. now rewrite H. Qed.

Lemma capacity_exec c o : capacity (exec c o) = capacity c.
Proof.
  destruct o; simpl; try reflexivity.
  unfold get. destruct (negb _); [reflexivity|].
  destruct (JSMap.get _ _); reflexivity.
Qed.

Lemma ordered_touch c log key (ks : list Z) :
  1 <= capacity c ->
  ordered c log ->
  ks = (if has c key then without key (keys c)
        else if size c >=? capacity c then tail (keys c)
        else keys c) ->
  List.NoDup (ks ++ [key])
  /\ Z.of_nat (length (ks ++ [key])) <= capacity c
  /\ sublist (ks ++ [key]) (recency (log ++ [key])).
Proof.
  intros Hcap (Hnd & Hsz & Hsub) ->. rewrite size_length in *.
  rewrite recency_snoc, length_app. simpl.
  destruct (has c key) eqn:Hhas.
  - apply has_iff in Hhas.
    pose proof (length_without_present key (keys c) Hnd Hhas).
    split; [|split].
    + apply NoDup_snoc; [now apply NoDup_without|]. rewrite in_without. tauto.
    + lia.
    + apply sublist_app; [now apply sublist_without | reflexivity].
  - assert (~ In key (keys c)) as Hn.
    { rewrite <- has_iff. congruence. }
    destruct (Z.geb_spec (Z.of_nat (length (keys c))) (capacity c)) as [Hfull|Hroom].
    + destruct (keys c) as [|k0 rest] eqn:Hk; simpl in *; [lia|].
      apply List.NoDup_cons_iff in Hnd as [_ Hnd].
      split; [|split].
      * apply NoDup_snoc; tauto.
      * lia.
      * apply sublist_app; [|reflexivity].
        rewrite <- (without_absent key rest) by tauto.
        apply sublist_without.
        change rest with (tail (k0 :: rest)). now apply sublist_tail.
    + split; [|split].
      * now apply NoDup_snoc.
      * lia.
      * apply sublist_app; [|reflexivity].
        rewrite <- (without_absent key (keys c)) by exact Hn.
        now apply sublist_without.
Qed.

(** One operation keeps the invariant, with its use appended to the log. *)
Lemma ordered_exec c log o :
  1 <= capacity c ->
  ordered c log ->
  ordered (exec c o)
          (log ++ match touches c o with Some k => [k] | None => [] end).
Proof.
  intros Hcap Hord. pose proof Hord as (Hnd & Hsz & Hsub).
  unfold ordered. rewrite capacity_exec.
  destruct o as [key|key value|key|key|]; simpl.
  - destruct (has c key) eqn:Hhas.
    + rewrite size_length, keys_get_hit by assumption.
      apply (ordered_touch c log key _ Hcap Hord). now rewrite Hhas.
    + rewrite get_miss, app_nil_r by exact Hhas. exact Hord.
  - rewrite size_length, keys_set by assumption.
    now apply (ordered_touch c log key _ Hcap Hord).
  - rewrite app_nil_r. exact Hord.
  - rewrite app_nil_r, size_length. unfold delete, keys. cbn [cache].
    rewrite keys_delete by exact Hnd. fold (keys c).
    rewrite size_length in Hsz.
    pose proof (length_without_le key (keys c)).
    split; [now apply NoDup_without|]. split; [lia|].
    etransitivity; [apply sublist_without_self | exact Hsub].
  - rewrite app_nil_r. split; [constructor|].
    split; [unfold size, clear, JSMap.size; simpl; lia|].
    apply sublist_nil_l.
Qed.

Lemma ordered_run c log (ops : list (op V)) :
  1 <= capacity c ->
  ordered c log ->
  ordered (run c ops) (log ++ uses c ops).
Proof.
  revert c log. induction ops as [|o ops IH]; intros c log Hcap Hord; simpl.
  - now rewrite app_nil_r.
  - pose proof (ordered_exec c log o Hcap Hord) as Hstep.
    destruct (touches c o) as [k|].
    + replace (log ++ k :: uses (exec c o) ops)
        with ((log ++ [k]) ++ uses (exec c o) ops)
        by (now rewrite <- app_assoc).
      apply IH; [now rewrite capacity_exec | exact Hstep].
    + rewrite app_nil_r in Hstep.
      apply IH; [now rewrite capacity_exec | exact Hstep].
Qed.

Lemma ordered_new (cap : Z) : 0 <= cap -> ordered (new cap : AudioLRUCache.t V) [].
Proof.
  intros H. split; [constructor|]. split; [simpl; exact H|]. constructor.
Qed.

End CacheFacts.

Section BoundedCache.
Context {V : Type}.
Import AudioLRUCache.
Implicit Types (c : AudioLRUCache.t V).

Lemma NoDup_app_cons_drop (ks rest : list Z) k0 :
  List.NoDup ((k0 :: ks) ++ rest) -> List.NoDup (ks ++ rest).
Proof. simpl. intros H. now apply List.NoDup_cons_iff in H as [_ H]. Qed.

Lemma List_NoDup_drop (l : list Z) (d : nat) :
  List.NoDup l -> List.NoDup (drop d l).
Proof.
  revert d. induction l as [|a l IH]; intros [|d] Hl; simpl; try assumption.
  apply IH. now apply List.NoDup_cons_iff in Hl as [_ Hl].
Qed.

Lemma run_cons c (o : op V) (ops : list (op V)) :
  run c (o :: ops) = run (exec c o) ops.
Proof. reflexivity. Qed.

Lemma capacity_run c (ops : list (op V)) : capacity (run c ops) = capacity c.
Proof.
  revert c. induction ops as [|o ops IH]; intros c; [reflexivity|].
  rewrite run_cons, IH. apply capacity_exec.
Qed.

(** Storing a key that is absent: the first key goes when the cache is
    full. *)
Lemma keys_set_fresh c key value :
  List.NoDup (keys c) -> ~ In key (keys c) ->
  keys (set c key value)
  = drop (length (keys c) + 1 - Z.to_nat (capacity c)) (keys c) ++ [key]
    \/ (size c > capacity c).
Proof.
  intros Hnd Hk. rewrite (keys_set c key value Hnd).
  assert (has c key = false) as ->.
  { destruct (has c key) eqn:E; [|reflexivity]. apply has_iff in E. tauto. }
  rewrite size_length.
  destruct (Z.geb_spec (Z.of_nat (length (keys c))) (capacity c)) as [Hfull|Hroom].
  - destruct (Z.eq_dec (Z.of_nat (length (keys c))) (capacity c)) as [He|Hne].
    + left. replace (_ + 1 - _)%nat with 1%nat by lia.
      now destruct (keys c).
    + right. lia.
  - left. replace (_ + 1 - _)%nat with 0%nat by lia. reflexivity.
Qed.

(** Storing fresh, distinct keys one after the other keeps the most
    recent [capacity] of all the keys. *)
Lemma keys_inserts c (kvs : list (Z * V)) :
  1 <= capacity c ->
  size c <= capacity c ->
  List.NoDup (keys c ++ map fst kvs) ->
  keys (run c (inserts kvs))
  = drop (length (keys c) + length kvs - Z.to_nat (capacity c))
         (keys c ++ map fst kvs).
Proof.
  revert c. induction kvs as [|[k v] rest IH]; intros c Hcap Hsz Hnd.
  - cbn [inserts map run foldl length]. rewrite app_nil_r.
    rewrite size_length in Hsz.
    replace (_ - _)%nat with 0%nat by lia. reflexivity.
  - cbn [map fst] in Hnd.
    assert (List.NoDup (keys c)) as Hndc by (eapply List.NoDup_app_remove_r, Hnd).
    assert (~ In k (keys c)) as Hk.
    { intros Hin. apply List.NoDup_remove_2 in Hnd. apply Hnd.
      apply in_or_app. now left. }
    rewrite size_length in Hsz.
    destruct (keys_set_fresh c k v Hndc Hk) as [Hkeys|Hover];
      [|rewrite size_length in Hover; lia].
    change (inserts ((k, v) :: rest)) with (Set_ k v :: inserts rest).
    rewrite run_cons. cbn [exec].
    assert (length (keys (set c k v))
            = (length (keys c) + 1
               - (length (keys c) + 1 - Z.to_nat (capacity c)))%nat) as Hlen.
    { rewrite Hkeys, length_app, length_drop. simpl. lia. }
    rewrite IH.
    + rewrite capacity_set, Hlen, Hkeys. cbn [length map fst].
      rewrite <- app_assoc. cbn [app].
      set (d := (length (keys c) + 1 - Z.to_nat (capacity c))%nat).
      assert (d <= length (keys c))%nat as Hd by (subst d; lia).
      rewrite <- (drop_app_le (keys c) (k :: map fst rest) d Hd).
      rewrite drop_drop. f_equal. subst d. lia.
    + now rewrite capacity_set.
    + rewrite capacity_set, size_length, Hlen. lia.
    + rewrite Hkeys, <- app_assoc. cbn [app].
      set (d := (length (keys c) + 1 - Z.to_nat (capacity c))%nat).
      assert (d <= length (keys c))%nat as Hd by (subst d; lia).
      rewrite <- (drop_app_le (keys c) (k :: map fst rest) d Hd).
      now apply List_NoDup_drop.
Qed.

(** The class with a capacity of at least 1. Along every sequence of
    operations on a new cache the size never exceeds the capacity and the
    keys are kept in the order of their last use; storing a key that is
    not in a full cache evicts the first key, the least recently used one,
    and the size stays at the capacity; after storing N distinct keys the
    cache holds the last [capacity] of them. *)
Lemma cache_bounded (cap : Z) :
  1 <= cap ->
  (forall ops : list (op V),
      let c := run (new cap) ops in
      size c <= cap
      /\ List.NoDup (keys c)
      /\ sublist (keys c) (recency (uses (new cap) ops)))
  /\ (forall (ops : list (op V)) key value,
        let c := run (new cap) ops in
        has c key = false -> cap <= size c ->
        keys (set c key value) = tail (keys c) ++ [key]
        /\ size (set c key value) = cap)
  /\ (forall kvs : list (Z * V),
        List.NoDup (map fst kvs) ->
        let c := run (new cap) (inserts kvs) in
        keys c = drop (length kvs - Z.to_nat cap) (map fst kvs)
        /\ (cap < Z.of_nat (length kvs) -> size c = cap)).
Proof.
  intros Hcap.
  assert (forall ops : list (op V),
             ordered (run (new cap) ops) (uses (new cap) ops)
             /\ capacity (run (new cap) ops) = cap) as Hinv.
  { intros ops. split.
    - apply (ordered_run (new cap) [] ops); [exact Hcap|].
      apply ordered_new. lia.
    - apply capacity_run. }
  split; [|split].
  - intros ops. cbv zeta. destruct (Hinv ops) as [(Hnd & Hsz & Hsub) Hc].
    rewrite Hc in Hsz. auto.
  - intros ops key value. cbv zeta. intros Hhas Hfull.
    destruct (Hinv ops) as [(Hnd & Hsz & Hsub) Hc].
    set (c := run (new cap) ops) in *.
    pose proof (keys_set c key value Hnd) as Hkeys.
    rewrite Hhas, Hc in Hkeys.
    replace (size c >=? cap) with true in Hkeys
      by (symmetry; apply Z.geb_le; exact Hfull).
    split; [exact Hkeys|].
    rewrite size_length, Hkeys, length_app. rewrite size_length in *.
    destruct (keys c); simpl in *; lia.
  - intros kvs Hnd. cbv zeta.
    pose proof (keys_inserts (new cap) kvs) as H. simpl in H.
    specialize (H Hcap ltac:(unfold size, JSMap.size; simpl; lia) Hnd).
    split; [exact H|].
    intros HN. rewrite size_length, H, length_drop, length_map. lia.
Qed.

(** Along every sequence of operations the cache of the component, made
    with capacity 50, holds at most 50 entries. *)
Lemma component_cache_at_most_50 (ops : list (op V)) :
  size (run (new 50) ops) <= 50.
Proof.
  pose proof (ordered_run (new 50) [] ops ltac:(simpl; lia)
                (ordered_new 50 ltac:(lia))) as (_ & Hsz & _).
  now rewrite capacity_run in Hsz.
Qed.

End BoundedCache.


(** ** App.tsx: playback *)

Section PlaybackFacts.

Import App.

Lemma state_eta (st : State) :
  {| playback := playback st; settings := settings st;
     settingsId := settingsId st; textSegments := textSegments st;
     pdfDataId := pdfDataId st; audioCache := audioCache st;
     activeIndexRef := activeIndexRef st; audioRef := audioRef st;
     sourceNodeRef := sourceNodeRef st; synth := synth st;
     audios := audios st; nodes := nodes st; tasks := tasks st;
     fetches := fetches st; requests := requests st; timer := timer st;
     alerts := alerts st; committed := committed st |} = st.
Proof. now destruct st. Qed.

(** [playNext] against the document of the render that made it. At the
    last valid index of that document it stops playback and moves the
    index to 0, which is in range; nothing restarts by itself, since the
    playback effect of the resulting render arms no timer. When the next
    index is in range of that document, [playNext] only increments the
    index. In both cases nothing but the playback record changes. *)
Theorem playNext_end_of_sequence (r : Render) (st : State) :
  let len := segmentsLength (r_textSegments r) in
  let st' := playNext r st in
  (1 <= len -> currentIndex (playback st) = len - 1 ->
     isPlaying (playback st') = false
     /\ currentIndex (playback st') = 0
     /\ 0 <= currentIndex (playback st') < len
     /\ isLoading (playback st') = isLoading (playback st)
     /\ detectedEmotion (playback st') = detectedEmotion (playback st)
     /\ forall s, playbackEffect (render st') s = s)
  /\ (currentIndex (playback st) + 1 < len ->
        playback st' =
          {| isPlaying := isPlaying (playback st);
             isLoading := isLoading (playback st);
             currentIndex := currentIndex (playback st) + 1;
             detectedEmotion := detectedEmotion (playback st) |})
  /\ set_playback (playback st) st' = st.
Proof.
  cbv zeta. unfold playNext, setPlayback, advance.
  split; [|split].
  - intros Hlen Hlast.
    replace (currentIndex (playback st) + 1 <? _) with false
      by (symmetry; apply Z.ltb_ge; lia).
    cbn. repeat split; try lia.
  - intros Hnext.
    replace (currentIndex (playback st) + 1 <? _) with true
      by (symmetry; apply Z.ltb_lt; lia).
    reflexivity.
  - unfold set_playback. cbn. apply state_eta.
Qed.

(** The statement above on two segments: from index 1, the last one, and
    from index 0. *)
Lemma playNext_end_of_sequence_witness :
  let st := run (mounted [] false)
                [PdfParsed [JS.lit "Hello."; JS.lit "World."]; SeekTimeout 1] in
  let r := render st in
  (isPlaying (playback st) = true /\ currentIndex (playback st) = 1)
  /\ isPlaying (playback (playNext r st)) = false
  /\ currentIndex (playback (playNext r st)) = 0
  /\ playback (playNext r (seekTimeout 0 st))
     = {| isPlaying := true; isLoading := false; currentIndex := 1;
          detectedEmotion := None |}.
Proof.
  cbv zeta.
  set (st := run (mounted [] false)
                 [PdfParsed [JS.lit "Hello."; JS.lit "World."]; SeekTimeout 1]).
  split; [split; reflexivity|].
  destruct (playNext_end_of_sequence (render st) st) as (Hlast & _ & _).
  destruct (Hlast ltac:(vm_compute; discriminate) eq_refl) as (H1 & H2 & _).
  split; [exact H1|]. split; [exact H2|].
  destruct (playNext_end_of_sequence (render st) (seekTimeout 0 st)) as (_ & Hnext & _).
  rewrite (Hnext eq_refl). reflexivity.
Defined.

(** C5 on sessions where the code departs from it. The [playNext] that
    [utterance.onend] and [source.onended] call is the one of the render
    that started the audio, with the length of the document of that
    render. A document of two sentences is replaced by one of a single
    sentence while the first old sentence is still to end: the index is
    0, the last valid one. When the old sentence ends, [playNext] compares
    with the old length 2 and moves the index to 1, where the document
    has no segment, with [isPlaying] left as it was. With the browser
    engine playback stays on: the timer fires, [playSentence(1)] returns
    at once, nothing sounds and no timer is armed. *)
Theorem stale_playNext_passes_the_end :
  (textSegments Scenario.parsedNew = [JS.lit "Hello."]
   /\ currentIndex (playback Scenario.parsedNew) = 0
   /\ map utt_text (synth Scenario.parsedNew) = [JS.lit "One."]
   /\ map (fun u => segmentsLength (r_textSegments (utt_render u)))
          (synth Scenario.parsedNew) = [2])
  /\ (textSegments Scenario.endedOld = [JS.lit "Hello."]
      /\ currentIndex (playback Scenario.endedOld) = 1
      /\ isPlaying (playback Scenario.endedOld) = true
      /\ JS.index (textSegments Scenario.endedOld)
                  (currentIndex (playback Scenario.endedOld)) = None)
  /\ (let st := run Scenario.endedOld [TimerFired] in
      isPlaying (playback st) = true
      /\ currentIndex (playback st) = 1
      /\ sounding st = false
      /\ timer st = None)
  /\ (textSegments Scenario.soundingOld = [JS.lit "Hello."]
      /\ currentIndex (playback Scenario.soundingOld) = 0
      /\ map (fun n => segmentsLength (r_textSegments (node_render n)))
             (nodes Scenario.soundingOld) = [2]
      /\ textSegments Scenario.endedOldNode = [JS.lit "Hello."]
      /\ currentIndex (playback Scenario.endedOldNode) = 1).
Proof. vm_compute. repeat split. Qed.

Lemma processGeminiSentence_tasks (r : Render) (index : Z) (st : State) :
  tasks (snd (processGeminiSentence r index st))
  = tasks st ++ [{| task_index := index; task_render := r;
                    task_guarded := false;
                    task_outcome := match thrown r index with
                                    | Some e => Some (Rejected e)
                                    | None => None
                                    end;
                    task_waiters := [] |}]
  /\ fst (processGeminiSentence r index st) = length (tasks st).
Proof.
  unfold processGeminiSentence.
  destruct (JS.index (r_textSegments r) index) as [text|]; [|split; reflexivity].
  destruct (JS.blank text); split; reflexivity.
Qed.

(** C6. [playSentence] with an index outside [0, length) changes nothing.
    On a segment that is empty or made of white space only it does exactly
    what [playNext] does, in the same call: the playback record advances
    and nothing else moves, so no producer is called, no request leaves and
    no device is touched. The producer itself, were it reached for such a
    segment, sends no request and can only reject. *)
Theorem playSentence_skips_blank_segment (r : Render) (index : Z) (st : State) :
  let len := segmentsLength (r_textSegments r) in
  ((index < 0 \/ len <= index) -> playSentence r index st = st)
  /\ (forall text,
        JS.index (r_textSegments r) index = Some text ->
        forallb JS.is_space text = true ->
        let st' := playSentence r index st in
        st' = playNext r st
        /\ playback st' = advance len (playback st)
        /\ tasks st' = tasks st
        /\ requests st' = requests st
        /\ fetches st' = fetches st
        /\ audioCache st' = audioCache st
        /\ (synth st' = synth st /\ audios st' = audios st /\ nodes st' = nodes st)
        /\ requests (snd (processGeminiSentence r index st)) = requests st
        /\ forall t reply,
             task_render t = r -> task_index t = index ->
             settlement t reply = Rejected (JS.lit "Empty text")).
Proof.
  cbv zeta. split.
  - intros Hout. unfold playSentence.
    replace ((index <? 0) || (index >=? segmentsLength (r_textSegments r)))
      with true; [reflexivity|].
    symmetry. apply orb_true_iff. rewrite Z.ltb_lt, Z.geb_le. exact Hout.
  - intros text Htext Hspace. apply blank_spec in Hspace.
    assert (playSentence r index st = playNext r st) as ->.
    { unfold playSentence. rewrite Htext, Hspace.
      destruct ((index <? 0) || _) eqn:E; [|reflexivity].
      exfalso. unfold JS.index in Htext. apply orb_true_iff in E as [E|E].
      - now rewrite E in Htext.
      - destruct (index <? 0) eqn:E0; [discriminate|].
        apply lookup_lt_Some in Htext. apply Z.geb_le in E.
        unfold segmentsLength in E. apply Z.ltb_ge in E0. lia. }
    do 6 (split; [reflexivity|]). split; [now repeat split|]. split.
    + unfold processGeminiSentence. now rewrite Htext, Hspace.
    + intros t reply Hr Hi. unfold settlement. now rewrite Hr, Hi, Htext, Hspace.
Qed.

(** The statement above on the two segments of Scenario B, an empty one
    followed by [Real text.],
    at index 0 and, out of range, at index 2. *)
Lemma playSentence_skips_blank_segment_witness :
  let st := run (mounted [] false)
                [PdfParsed [[]; JS.lit "Real text."]; TogglePlay] in
  playSentence (render st) 2 st = st
  /\ playSentence (render st) 0 st = playNext (render st) st
  /\ currentIndex (playback (playSentence (render st) 0 st)) = 1
  /\ requests (playSentence (render st) 0 st) = [].
Proof.
  cbv zeta.
  set (st := run (mounted [] false)
                 [PdfParsed [[]; JS.lit "Real text."]; TogglePlay]).
  destruct (playSentence_skips_blank_segment (render st) 2 st) as [Hout _].
  destruct (playSentence_skips_blank_segment (render st) 0 st) as [_ Hblank].
  destruct (Hblank [] eq_refl eq_refl) as (H1 & H2 & _ & H4 & _).
  split; [apply Hout; right; vm_compute; discriminate|].
  split; [exact H1|]. split; [rewrite H2; reflexivity|].
  rewrite H4. reflexivity.
Defined.

End PlaybackFacts.

(** ** App.tsx: stopAudio *)

Section StopFacts.

Import App.

Lemma alter_fixed {A} (f : A -> A) (i : nat) (l : list A) :
  (forall x, l !! i = Some x -> f x = x) -> alter f i l = l.
Proof.
  revert i. induction l as [|a l IH]; intros [|i] H; simpl; try reflexivity.
  - f_equal. now apply H.
  - f_equal. apply IH. intros x Hx. now apply H.
Qed.

Lemma existsb_false_lookup {A} (f : A -> bool) (l : list A) :
  existsb f l = false <-> forall i x, l !! i = Some x -> f x = false.
Proof.
  induction l as [|a l IH]; simpl.
  - split; [intros _ i x H; destruct i; discriminate | reflexivity].
  - rewrite orb_false_iff, IH. split.
    + intros [Ha Hl] [|i] x H; simpl in H; [now inversion H; subst | eauto].
    + intros H. split; [apply (H 0%nat); reflexivity|].
      intros i x Hx. apply (H (S i)). exact Hx.
Qed.

Lemma pauseAudio_quiet (a : AudioElement) : audioSounding (pauseAudio a) = false.
Proof. unfold pauseAudio, audioSounding. now destruct (audio_state a) eqn:E; simpl; rewrite ?E. Qed.

Lemma stopNode_quiet (n : SourceNode) : nodeSounding (stopNode n) = false.
Proof. unfold stopNode, nodeSounding. now destruct (node_state n) eqn:E; simpl; rewrite ?E. Qed.

Lemma pauseAudio_fixed (a : AudioElement) :
  audioSounding a = false -> pauseAudio a = a.
Proof. unfold pauseAudio, audioSounding. now destruct (audio_state a). Qed.

Lemma stopNode_fixed (n : SourceNode) :
  nodeSounding n = false -> stopNode n = n.
Proof. unfold stopNode, nodeSounding. now destruct (node_state n). Qed.

(** The devices after [stopAudio]. *)
Lemma stopAudio_devices (st : State) :
  synth (stopAudio st) = []
  /\ audios (stopAudio st)
     = match audioRef st with
       | Some a => alter pauseAudio a (audios st)
       | None => audios st
       end
  /\ nodes (stopAudio st)
     = match sourceNodeRef st with
       | Some n => alter stopNode n (nodes st)
       | None => nodes st
       end
  /\ audioRef (stopAudio st) = None
  /\ sourceNodeRef (stopAudio st) = None.
Proof.
  unfold stopAudio, setPlayback, pauseAt, stopAt.
  destruct st as [pb se sid ts pid ac ai ar sr sy au no ta fe rq ti al co].
  cbn. destruct ar, sr; cbn; repeat split.
Qed.

(** What [stopAudio] does. It sets isPlaying and isLoading to false, clears
    the tone label and keeps currentIndex; it empties the speech queue,
    pauses the element held by audioRef, stops the node held by
    sourceNodeRef and clears both refs, so that, when every active output
    is held by its ref, nothing sounds afterwards; every other field of the
    state is unchanged; when nothing is sounding the devices are left as
    they are and the resulting state is the same; calling it twice is
    calling it once. *)
Lemma stopAudio_effect (st : State) :
  let st' := stopAudio st in
  playback st' =
    {| isPlaying := false; isLoading := false;
       currentIndex := currentIndex (playback st); detectedEmotion := None |}
  /\ (synth st' = [] /\ audioRef st' = None /\ sourceNodeRef st' = None)
  /\ (forall a el, audioRef st = Some a -> audios st' !! a = Some el ->
                   audioSounding el = false)
  /\ (forall n nd, sourceNodeRef st = Some n -> nodes st' !! n = Some nd ->
                   nodeSounding nd = false)
  /\ (tracked st -> sounding st' = false)
  /\ (settings st' = settings st /\ settingsId st' = settingsId st
      /\ textSegments st' = textSegments st /\ pdfDataId st' = pdfDataId st
      /\ audioCache st' = audioCache st
      /\ activeIndexRef st' = activeIndexRef st
      /\ tasks st' = tasks st /\ fetches st' = fetches st
      /\ requests st' = requests st /\ timer st' = timer st
      /\ alerts st' = alerts st /\ committed st' = committed st)
  /\ (sounding st = false ->
        synth st' = synth st /\ audios st' = audios st /\ nodes st' = nodes st)
  /\ stopAudio st' = st'.
Proof.
  cbv zeta.
  destruct (stopAudio_devices st) as (Hsy & Hau & Hno & Har & Hsr).
  split; [|split; [|split; [|split; [|split; [|split; [|split]]]]]].
  - unfold stopAudio, setPlayback, pauseAt, stopAt.
    destruct st as [pb se sid ts pid ac ai ar sr sy au no ta fe rq ti al co].
    cbn. now destruct ar, sr.
  - auto.
  - intros a el Ha. rewrite Hau, Ha, list_lookup_alter_eq.
    destruct (audios st !! a) as [x|]; simpl; [|discriminate].
    intros [= <-]. apply pauseAudio_quiet.
  - intros n nd Hn. rewrite Hno, Hn, list_lookup_alter_eq.
    destruct (nodes st !! n) as [x|]; simpl; [|discriminate].
    intros [= <-]. apply stopNode_quiet.
  - intros [Ha Hn]. unfold sounding. rewrite Hsy, Hau, Hno.
    apply orb_false_iff. split; [apply orb_false_iff; split; [reflexivity|]|].
    + apply existsb_false_lookup. intros i x Hx.
      destruct (audioRef st) as [a|] eqn:Ear.
      * destruct (Nat.eq_dec i a) as [->|Hne].
        -- rewrite list_lookup_alter_eq in Hx.
           destruct (audios st !! a); simpl in Hx; [|discriminate].
           injection Hx as <-. apply pauseAudio_quiet.
        -- rewrite list_lookup_alter_ne in Hx by congruence.
           destruct (audioSounding x) eqn:E; [|reflexivity].
           specialize (Ha i x Hx E). congruence.
      * destruct (audioSounding x) eqn:E; [|reflexivity].
        specialize (Ha i x Hx E). discriminate.
    + apply existsb_false_lookup. intros i x Hx.
      destruct (sourceNodeRef st) as [n|] eqn:Esr.
      * destruct (Nat.eq_dec i n) as [->|Hne].
        -- rewrite list_lookup_alter_eq in Hx.
           destruct (nodes st !! n); simpl in Hx; [|discriminate].
           injection Hx as <-. apply stopNode_quiet.
        -- rewrite list_lookup_alter_ne in Hx by congruence.
           destruct (nodeSounding x) eqn:E; [|reflexivity].
           specialize (Hn i x Hx E). congruence.
      * destruct (nodeSounding x) eqn:E; [|reflexivity].
        specialize (Hn i x Hx E). discriminate.
  - unfold stopAudio, setPlayback, pauseAt, stopAt.
    destruct st as [pb se sid ts pid ac ai ar sr sy au no ta fe rq ti al co].
    cbn. destruct ar, sr; cbn; repeat split.
  - unfold sounding. intros Hq.
    apply orb_false_iff in Hq as [Hq Hq3]. apply orb_false_iff in Hq as [Hq1 Hq2].
    rewrite Hsy, Hau, Hno. split; [now destruct (synth st)|]. split.
    + destruct (audioRef st) as [a|]; [|reflexivity].
      apply alter_fixed. intros x Hx. apply pauseAudio_fixed.
      eapply existsb_false_lookup; eauto.
    + destruct (sourceNodeRef st) as [n|]; [|reflexivity].
      apply alter_fixed. intros x Hx. apply stopNode_fixed.
      eapply existsb_false_lookup; eauto.
  - clear. unfold stopAudio, setPlayback, pauseAt, stopAt.
    destruct st as [pb se sid ts pid ac ai ar sr sy au no ta fe rq ti al co].
    cbn. destruct ar, sr; reflexivity.
Qed.

(** With one Gemini source node sounding, held by sourceNodeRef,
    [stopAudio] silences the component. *)
Lemma stopAudio_effect_example :
  sounding Scenario.playing = true
  /\ sounding (stopAudio Scenario.playing) = false
  /\ playback (stopAudio Scenario.playing)
     = {| isPlaying := false; isLoading := false; currentIndex := 0;
          detectedEmotion := None |}
  /\ stopAudio (stopAudio Scenario.stoppedWhileLoading)
     = stopAudio Scenario.stoppedWhileLoading.
Proof.
  destruct (stopAudio_effect Scenario.playing)
    as (Hpb & _ & _ & Hnode & Hquiet & _).
  destruct (stopAudio_effect Scenario.stoppedWhileLoading)
    as (_ & _ & _ & _ & _ & _ & _ & Hidem).
  split; [vm_compute; reflexivity|]. split; [|split; [exact Hpb | exact Hidem]].
  apply Hquiet.
  assert (audios Scenario.playing = []) as Ha by (vm_compute; reflexivity).
  assert (length (nodes Scenario.playing) = 1%nat) as Hn by (vm_compute; reflexivity).
  assert (sourceNodeRef Scenario.playing = Some 0%nat) as Hr
    by (vm_compute; reflexivity).
  split.
  - intros i el H. rewrite Ha in H. destruct i; discriminate H.
  - intros i nd H _. apply lookup_lt_Some in H. rewrite Hn in H.
    rewrite Hr. f_equal. lia.
Qed.

End StopFacts.


(** ** App.tsx: one producer call per index *)

Section EntryFacts.

Import App AudioLRUCache.
Implicit Types (c : AudioLRUCache.t nat) (m : JSMap.t nat).

Lemma set_absent_app m key value :
  ~ In key (JSMap.keys m) -> JSMap.set m key value = m ++ [(key, value)].
Proof.
  induction m as [|[k v] m IH]; simpl; [reflexivity|].
  intros Hn. destruct (Z.eqb_spec k key) as [->|Hne]; [tauto|].
  f_equal. apply IH. tauto.
Qed.

Lemma keys_app m1 m2 : JSMap.keys (m1 ++ m2) = JSMap.keys m1 ++ JSMap.keys m2.
Proof. apply map_app. Qed.

Lemma get_middle (pre post : JSMap.t nat) key p :
  List.NoDup (JSMap.keys (pre ++ (key, p) :: post)) ->
  JSMap.get (pre ++ (key, p) :: post) key = Some p.
Proof.
  induction pre as [|[k v] pre IH]; simpl; intros Hnd.
  - now rewrite Z.eqb_refl.
  - apply List.NoDup_cons_iff in Hnd as [Hk Hnd].
    destruct (Z.eqb_spec k key) as [->|Hne]; [|now apply IH].
    exfalso. apply Hk. rewrite keys_app. apply in_or_app. right. now left.
Qed.

Lemma NoDup_set c key value :
  List.NoDup (keys c) -> List.NoDup (keys (set c key value)).
Proof.
  intros Hnd. rewrite keys_set by exact Hnd.
  destruct (has c key) eqn:Hhas.
  - apply NoDup_snoc; [now apply NoDup_without|]. rewrite in_without. tauto.
  - assert (~ In key (keys c)) as Hn by (rewrite <- has_iff; congruence).
    destruct (size c >=? capacity c).
    + destruct (keys c) as [|k0 ks]; simpl in *.
      * repeat constructor. tauto.
      * apply List.NoDup_cons_iff in Hnd as [_ Hnd]. apply NoDup_snoc; tauto.
    + now apply NoDup_snoc.
Qed.

Lemma recent_peek n c key p :
  List.NoDup (keys c) -> recent n c key p -> peek c key = Some p.
Proof.
  intros Hnd (pre & post & Hc & _). unfold peek, keys in *. rewrite Hc in *.
  now apply get_middle.
Qed.

Lemma recent_weaken n n' c key p :
  (n <= n')%nat -> recent n c key p -> recent n' c key p.
Proof. intros Hle (pre & post & Hc & Hl). exists pre, post. split; [exact Hc | lia]. Qed.

Lemma peek_has c key p : peek c key = Some p -> has c key = true.
Proof. unfold peek, has, JSMap.has. now intros ->. Qed.

Lemma peek_none_has c key : peek c key = None <-> has c key = false.
Proof.
  unfold peek, has, JSMap.has. destruct (JSMap.get (cache c) key); split; congruence.
Qed.

(** Storing another key leaves a recent entry in place, one position
    further from the most recent end. *)
Lemma set_fresh_recent n c key p key' value :
  List.NoDup (keys c) ->
  recent n c key p ->
  has c key' = false ->
  Z.of_nat n + 2 <= capacity c ->
  recent (S n) (set c key' value) key p.
Proof.
  intros Hnd (pre & post & Hc & Hl) Hhas Hcap.
  assert (~ In key' (keys c)) as Hn by (rewrite <- has_iff; congruence).
  unfold recent, set. unfold has in Hhas. rewrite Hhas. cbn [cache].
  unfold keys in Hn, Hnd. rewrite Hc in *.
  destruct (JSMap.size _ >=? capacity c) eqn:Hfull.
  - destruct pre as [|[k0 v0] pre'].
    + exfalso. apply Z.geb_le in Hfull. unfold JSMap.size in Hfull.
      simpl in Hfull. lia.
    + cbn [app JSMap.firstKey JSMap.delete]. rewrite Z.eqb_refl.
      rewrite set_absent_app.
      * exists pre', (post ++ [(key', value)]). rewrite <- app_assoc.
        split; [reflexivity|]. rewrite length_app. simpl. lia.
      * intros Hin. apply Hn. simpl. now right.
  - rewrite set_absent_app by exact Hn.
    exists pre, (post ++ [(key', value)]). rewrite <- app_assoc.
    split; [reflexivity|]. rewrite length_app. simpl. lia.
Qed.

(** A hit refreshes the entry: it becomes the most recent one. *)
Lemma get_hit_recent c key p :
  List.NoDup (keys c) ->
  peek c key = Some p ->
  exists c', get c key = (Some p, c')
             /\ recent 0 c' key p
             /\ List.NoDup (keys c')
             /\ capacity c' = capacity c.
Proof.
  intros Hnd Hpeek. pose proof (peek_has c key p Hpeek) as Hhas.
  unfold get. unfold has in Hhas. rewrite Hhas. unfold peek in Hpeek.
  rewrite Hpeek. cbn [negb].
  eexists. split; [reflexivity|].
  assert (~ In key (JSMap.keys (JSMap.delete (cache c) key))) as Hn.
  { rewrite keys_delete by exact Hnd. rewrite in_without. tauto. }
  split; [|split; [|reflexivity]].
  - exists (JSMap.delete (cache c) key), []. cbn [cache].
    split; [now apply set_absent_app | simpl; lia].
  - unfold keys. cbn [cache]. rewrite keys_set_absent by exact Hn.
    apply NoDup_snoc; [|exact Hn].
    rewrite keys_delete by exact Hnd. now apply NoDup_without.
Qed.

(** A newly stored entry is the most recent one. *)
Lemma set_new_recent c key p :
  has c key = false -> recent 0 (set c key p) key p.
Proof.
  intros Hhas.
  assert (~ In key (keys c)) as Hn by (rewrite <- has_iff; congruence).
  unfold recent, set. unfold has in Hhas. rewrite Hhas. cbn [cache].
  destruct (JSMap.size _ >=? capacity c).
  - destruct (cache c) as [|[k0 v0] m] eqn:Hm.
    + exists [], []. split; [reflexivity | simpl; lia].
    + cbn [JSMap.firstKey JSMap.delete]. rewrite Z.eqb_refl.
      exists m, []. split; [|simpl; lia].
      apply set_absent_app. intros Hin. apply Hn. unfold keys. rewrite Hm.
      simpl. now right.
  - exists (cache c), []. split; [now apply set_absent_app | simpl; lia].
Qed.

End EntryFacts.

Section EnsureFacts.

Import App.

Lemma calls_snoc (ts : list Task) (t : Task) (index : Z) :
  length (List.filter (fun t => task_index t =? index) (ts ++ [t]))
  = (length (List.filter (fun t => (task_index t =? index)%Z) ts)
     + (if (task_index t =? index)%Z then 1 else 0))%nat.
Proof.
  rewrite List.filter_app, length_app. simpl.
  now destruct (task_index t =? index).
Qed.

Lemma calls_alter (f : Task -> Task) (p : nat) (ts : list Task) (index : Z) :
  (forall t, task_index (f t) = task_index t) ->
  length (List.filter (fun t => task_index t =? index) (alter f p ts))
  = length (List.filter (fun t => task_index t =? index) ts).
Proof.
  intros Hf. revert p. induction ts as [|t ts IH]; intros [|p]; try reflexivity.
  - cbn [alter list_alter List.filter]. rewrite Hf.
    now destruct (task_index t =? index).
  - change (alter f (S p) (t :: ts)) with (t :: alter f p ts).
    cbn [List.filter].
    destruct (task_index t =? index); cbn [length]; now rewrite IH.
Qed.

Lemma processGeminiSentence_frame (r : Render) (index : Z) (st : State) :
  audioCache (snd (processGeminiSentence r index st)) = audioCache st.
Proof.
  unfold processGeminiSentence.
  destruct (JS.index (r_textSegments r) index) as [text|]; [|reflexivity].
  now destruct (JS.blank text).
Qed.

Lemma stopPrevious_frame (st : State) :
  audioCache (stopPrevious st) = audioCache st
  /\ tasks (stopPrevious st) = tasks st.
Proof.
  unfold stopPrevious, pauseAt, stopAt.
  destruct st as [pb se sid ts pid ac ai ar sr sy au no ta fe rq ti al co].
  cbn. now destruct ar, sr.
Qed.

(** A prefetch that stores a promise. *)
Lemma prefetch_miss (r : Render) (index : Z) (st : State) :
  index < segmentsLength (r_textSegments r) ->
  AudioLRUCache.has (audioCache st) index = false ->
  let st' := prefetchGeminiSentence r index st in
  audioCache st'
  = AudioLRUCache.set (audioCache st) index (length (tasks st))
  /\ forall i, producerCalls st' i
               = (producerCalls st i + (if (index =? i)%Z then 1 else 0))%nat.
Proof.
  intros Hlt Hhas. cbv zeta. unfold prefetchGeminiSentence.
  replace (index >=? segmentsLength (r_textSegments r)) with false
    by (symmetry; rewrite Z.geb_leb; apply Z.leb_gt; lia).
  rewrite Hhas.
  pose proof (processGeminiSentence_tasks r index st) as [Ht Hp].
  pose proof (processGeminiSentence_frame r index st) as Hc.
  destruct (processGeminiSentence r index st) as [p st1].
  cbn [fst snd] in *. subst p.
  unfold guard. cbn. rewrite Hc. split; [reflexivity|].
  intros i. unfold producerCalls. cbn. rewrite calls_alter by reflexivity.
  rewrite Ht. apply calls_snoc.
Qed.

(** A prefetch for another index keeps a recent entry and calls no
    producer for its index. *)
Lemma prefetch_other (r : Render) (index' index : Z) (n p : nat) (st : State) :
  index' <> index ->
  List.NoDup (AudioLRUCache.keys (audioCache st)) ->
  recent n (audioCache st) index p ->
  Z.of_nat n + 2 <= AudioLRUCache.capacity (audioCache st) ->
  let st' := prefetchGeminiSentence r index' st in
  List.NoDup (AudioLRUCache.keys (audioCache st'))
  /\ recent (S n) (audioCache st') index p
  /\ AudioLRUCache.capacity (audioCache st') = AudioLRUCache.capacity (audioCache st)
  /\ producerCalls st' index = producerCalls st index.
Proof.
  intros Hne Hnd Hrec Hcap. cbv zeta.
  destruct (Z.lt_ge_cases index' (segmentsLength (r_textSegments r))) as [Hlt|Hge].
  - destruct (AudioLRUCache.has (audioCache st) index') eqn:Hhas.
    + unfold prefetchGeminiSentence. rewrite Hhas.
      destruct (index' >=? _); (split; [exact Hnd|]);
        (split; [eapply recent_weaken; [|exact Hrec]; lia|]); now split.
    + destruct (prefetch_miss r index' st Hlt Hhas) as [Hc Hcalls].
      rewrite Hc, Hcalls.
      split; [now apply NoDup_set|].
      split; [now apply set_fresh_recent|].
      split; [reflexivity|].
      destruct (Z.eqb_spec index' index); [contradiction | lia].
  - unfold prefetchGeminiSentence.
    replace (index' >=? segmentsLength (r_textSegments r)) with true
      by (symmetry; apply Z.geb_le; lia).
    split; [exact Hnd|].
    split; [eapply recent_weaken; [|exact Hrec]; lia|]. now split.
Qed.

(** The cache lookup of [playSentence]: a hit returns the stored promise
    and calls no producer; a miss calls it once and stores the result. *)
Lemma lookupOrStart_spec (r : Render) (index : Z) (st : State) :
  List.NoDup (AudioLRUCache.keys (audioCache st)) ->
  let p' := fst (lookupOrStart r index st) in
  let st' := snd (lookupOrStart r index st) in
  List.NoDup (AudioLRUCache.keys (audioCache st'))
  /\ AudioLRUCache.capacity (audioCache st') = AudioLRUCache.capacity (audioCache st)
  /\ recent 0 (audioCache st') index p'
  /\ match cached st index with
     | Some p => p' = p /\ producerCalls st' index = producerCalls st index
     | None => p' = length (tasks st)
               /\ producerCalls st' index = S (producerCalls st index)
     end.
Proof.
  intros Hnd. cbv zeta. unfold lookupOrStart, cached.
  destruct (AudioLRUCache.peek (audioCache st) index) as [p|] eqn:Hpeek.
  - destruct (get_hit_recent _ _ _ Hnd Hpeek) as (c' & Hget & Hrec & Hnd' & Hcap).
    rewrite Hget. cbn. auto.
  - apply peek_none_has in Hpeek. rewrite (get_miss _ _ Hpeek).
    set (st1 := setPlayback _ _).
    pose proof (processGeminiSentence_tasks r index st1) as [Ht Hp].
    pose proof (processGeminiSentence_frame r index st1) as Hc.
    destruct (processGeminiSentence r index st1) as [p st2].
    cbn [fst snd] in *. subst p. cbn [audioCache set_audioCache].
    rewrite Hc.
    assert (audioCache st1 = audioCache st) as -> by (now destruct st).
    assert (tasks st1 = tasks st) as Ht1 by (now destruct st).
    split; [now apply NoDup_set|]. split; [reflexivity|].
    rewrite Ht1. split; [now apply set_new_recent|]. split; [reflexivity|].
    unfold producerCalls. cbn. rewrite Ht, Ht1, calls_snoc, Z.eqb_refl. lia.
Qed.

End EnsureFacts.

Section OnceFacts.

Import App.

Lemma index_in_range (segs : list JS.t) (index : Z) (text : JS.t) :
  JS.index segs index = Some text ->
  (index <? 0) || (index >=? segmentsLength segs) = false.
Proof.
  unfold JS.index, segmentsLength. intros H.
  destruct (index <? 0) eqn:E0; [discriminate|]. simpl.
  apply lookup_lt_Some in H. apply Z.ltb_ge in E0.
  rewrite Z.geb_leb. apply Z.leb_gt. lia.
Qed.

(** The Gemini branch of [playSentence], block by block. *)
Lemma playSentence_google (r : Render) (index : Z) (st : State) (text : JS.t) :
  engine (r_settings r) = google ->
  JS.index (r_textSegments r) index = Some text ->
  JS.blank text = false ->
  playSentence r index st
  = await (fst (lookupOrStart r index (stopPrevious st)))
          {| w_render := r; w_index := index |}
          (prefetchGeminiSentence r (index + 2)
             (prefetchGeminiSentence r (index + 1)
                (snd (lookupOrStart r index (stopPrevious st))))).
Proof.
  intros Heng Htext Hblank. unfold playSentence.
  rewrite (index_in_range _ _ _ Htext), Htext, Hblank, Heng.
  now destruct (lookupOrStart r index (stopPrevious st)).
Qed.

Lemma await_frame (p : nat) (w : Waiter) (st : State) (index : Z) :
  audioCache (await p w st) = audioCache st
  /\ producerCalls (await p w st) index = producerCalls st index.
Proof.
  split; [reflexivity|]. unfold producerCalls, await. cbn.
  now apply calls_alter.
Qed.

(** One request: an existing entry is returned as it is and no producer is
    called; a missing one is created by exactly one producer call. *)
Lemma ensure_step (index : Z) (st : State) (e : Ensure) :
  reachesCache index e ->
  List.NoDup (AudioLRUCache.keys (audioCache st)) ->
  3 <= AudioLRUCache.capacity (audioCache st) ->
  let st' := ensure index st e in
  List.NoDup (AudioLRUCache.keys (audioCache st'))
  /\ AudioLRUCache.capacity (audioCache st') = AudioLRUCache.capacity (audioCache st)
  /\ match cached st index with
     | Some p =>
         cached st' index = Some p
         /\ producerCalls st' index = producerCalls st index
     | None =>
         cached st' index = Some (length (tasks st))
         /\ producerCalls st' index = S (producerCalls st index)
     end.
Proof.
  intros Hreach Hnd Hcap. cbv zeta. destruct e as [r|r]; cbn [ensure].
  - cbn in Hreach. unfold cached.
    destruct (AudioLRUCache.peek (audioCache st) index) as [p|] eqn:Hpeek.
    + apply peek_has in Hpeek as Hhas.
      assert (prefetchGeminiSentence r index st = st) as ->.
      { unfold prefetchGeminiSentence. rewrite Hhas. now destruct (index >=? _). }
      rewrite Hpeek. auto.
    + apply peek_none_has in Hpeek.
      destruct (prefetch_miss r index st Hreach Hpeek) as [Hc Hcalls].
      rewrite Hc, Hcalls, Z.eqb_refl.
      split; [now apply NoDup_set|]. split; [reflexivity|].
      split; [|lia].
      eapply recent_peek; [now apply NoDup_set | now apply set_new_recent].
  - destruct Hreach as (Heng & text & Htext & Hblank).
    rewrite (playSentence_google r index st text Heng Htext Hblank).
    destruct (stopPrevious_frame st) as [Hc0 Ht0].
    set (st0 := stopPrevious st) in *.
    assert (List.NoDup (AudioLRUCache.keys (audioCache st0))) as Hnd0
      by (now rewrite Hc0).
    pose proof (lookupOrStart_spec r index st0 Hnd0) as H1. cbv zeta in H1.
    destruct H1 as (Hnd1 & Hcap1 & Hrec1 & Hlook).
    set (p' := fst (lookupOrStart r index st0)) in *.
    set (st1 := snd (lookupOrStart r index st0)) in *.
    destruct (prefetch_other r (index + 1) index 0 p' st1
                ltac:(lia) Hnd1 Hrec1 ltac:(rewrite Hcap1, Hc0; lia))
      as (Hnd2 & Hrec2 & Hcap2 & Hcalls2).
    set (st2 := prefetchGeminiSentence r (index + 1) st1) in *.
    destruct (prefetch_other r (index + 2) index 1 p' st2
                ltac:(lia) Hnd2 Hrec2 ltac:(rewrite Hcap2, Hcap1, Hc0; lia))
      as (Hnd3 & Hrec3 & Hcap3 & Hcalls3).
    set (st3 := prefetchGeminiSentence r (index + 2) st2) in *.
    destruct (await_frame p' {| w_render := r; w_index := index |} st3 index)
      as [Hc4 Hcalls4].
    unfold cached in *. rewrite Hc4, Hcalls4, Hcalls3, Hcalls2.
    split; [exact Hnd3|]. split; [congruence|].
    rewrite (recent_peek _ _ _ _ Hnd3 Hrec3).
    rewrite Hc0 in Hlook. unfold producerCalls in *. rewrite Ht0 in Hlook.
    destruct (AudioLRUCache.peek (audioCache st) index) as [p|];
      destruct Hlook as [-> Hcalls1]; auto.
Qed.

(** Requests for one index from a state whose cache has distinct keys and
    room for three entries: an entry that exists is found by every request
    and no producer is called; an entry that is missing is created by the
    first request, with one producer call, and found by the others. *)
Lemma ensure_sequence (index : Z) (st : State) (es : list Ensure) :
  3 <= AudioLRUCache.capacity (audioCache st) ->
  List.NoDup (AudioLRUCache.keys (audioCache st)) ->
  Forall (reachesCache index) es ->
  let st' := foldl (ensure index) st es in
  (forall p, cached st index = Some p ->
     cached st' index = Some p
     /\ producerCalls st' index = producerCalls st index
     /\ forall r, prefetchGeminiSentence r index st = st)
  /\ (cached st index = None -> es <> [] ->
        cached st' index = Some (length (tasks st))
        /\ producerCalls st' index = S (producerCalls st index)).
Proof.
  intros Hcap Hnd Hall. cbv zeta.
  assert (forall es st p,
             3 <= AudioLRUCache.capacity (audioCache st) ->
             List.NoDup (AudioLRUCache.keys (audioCache st)) ->
             Forall (reachesCache index) es ->
             cached st index = Some p ->
             cached (foldl (ensure index) st es) index = Some p
             /\ producerCalls (foldl (ensure index) st es) index
                = producerCalls st index) as Hhit.
  { clear. induction es as [|e es IH]; intros st p Hcap Hnd Hall Hc; [auto|].
    apply Forall_cons in Hall as [He Hall]. cbn [foldl].
    destruct (ensure_step index st e He Hnd Hcap) as (Hnd' & Hcap' & Hstep).
    rewrite Hc in Hstep. destruct Hstep as [Hc' Hcalls'].
    destruct (IH (ensure index st e) p ltac:(lia) Hnd' Hall Hc') as [H1 H2].
    split; [exact H1 | congruence]. }
  split.
  - intros p Hc. destruct (Hhit es st p Hcap Hnd Hall Hc) as [H1 H2].
    split; [exact H1|]. split; [exact H2|].
    intros r. unfold prefetchGeminiSentence.
    rewrite (peek_has _ _ _ Hc). now destruct (index >=? _).
  - intros Hc Hne. destruct es as [|e es]; [congruence|].
    apply Forall_cons in Hall as [He Hall]. cbn [foldl].
    destruct (ensure_step index st e He Hnd Hcap) as (Hnd' & Hcap' & Hstep).
    rewrite Hc in Hstep. destruct Hstep as [Hc' Hcalls'].
    destruct (Hhit es (ensure index st e) _ ltac:(lia) Hnd' Hall Hc') as [H1 H2].
    split; [exact H1 | congruence].
Qed.

End OnceFacts.

(** ** App.tsx: results that arrive late, and failures *)

Section LateFacts.

Import App.

(** A result for an index that is no longer the active one is dropped: the
    state is left exactly as it was, on fulfilment and on rejection, in the
    Gemini branch and in the OpenAI branch. *)
Lemma stale_index_result_discarded (w : Waiter) (st : State) :
  activeIndexRef st <> w_index w ->
  (forall outcome, resumeGemini w outcome st = st)
  /\ (forall outcome, resumeOpenAI w outcome st = st).
Proof.
  intros Hne. apply Z.eqb_neq in Hne.
  split; intros [v|e]; unfold resumeGemini, resumeOpenAI; now rewrite Hne.
Qed.

(** The guard on pausing reads [playback.isPlaying] of the render that
    made the callback: when that render was playing and the index is still
    the active one, the source node is created and started whatever the
    current playback record says. *)
Lemma paused_guard_reads_render (w : Waiter) (item : AudioCacheItem) (st : State) :
  activeIndexRef st = w_index w ->
  isPlaying (r_playback (w_render w)) = true ->
  let st' := resumeGemini w (Fulfilled item) st in
  nodes st' = nodes st ++ [{| node_buffer := buffer item; node_state := Started;
                              node_render := w_render w |}]
  /\ sourceNodeRef st' = Some (length (nodes st))
  /\ detectedEmotion (playback st') = Some (emotion item)
  /\ isPlaying (playback st') = isPlaying (playback st).
Proof.
  intros Hidx Hplay. cbv zeta. unfold resumeGemini.
  rewrite Hidx, Z.eqb_refl, Hplay. cbn.
  split; [|now repeat split].
  rewrite alter_app_r_alt, Nat.sub_diag by lia. reflexivity.
Qed.

Lemma resumeGemini_cache (w : Waiter) (outcome : JS.Settled AudioCacheItem)
    (st : State) :
  audioCache (resumeGemini w outcome st) = audioCache st
  /\ tasks (resumeGemini w outcome st) = tasks st.
Proof.
  unfold resumeGemini. destruct outcome as [item|e].
  - destruct (negb (activeIndexRef st =? w_index w)); [now split|].
    destruct (negb (isPlaying _)); now split.
  - destruct (activeIndexRef st =? w_index w); now split.
Qed.

Lemma resume_all_cache (ws : list Waiter) (outcome : JS.Settled AudioCacheItem)
    (st : State) :
  audioCache (foldl (fun st w => resumeGemini w outcome st) st ws) = audioCache st
  /\ tasks (foldl (fun st w => resumeGemini w outcome st) st ws) = tasks st.
Proof.
  revert st. induction ws as [|w ws IH]; intros st; [now split|].
  cbn [foldl]. destruct (IH (resumeGemini w outcome st)) as [-> ->].
  apply resumeGemini_cache.
Qed.

Lemma peek_delete (c : AudioLRUCache.t nat) (key : Z) :
  List.NoDup (AudioLRUCache.keys c) ->
  AudioLRUCache.peek (AudioLRUCache.delete c key) key = None.
Proof.
  intros Hnd. apply peek_none_has.
  destruct (AudioLRUCache.has (AudioLRUCache.delete c key) key) eqn:E;
    [|reflexivity].
  apply has_iff in E. unfold AudioLRUCache.keys, AudioLRUCache.delete in E.
  cbn [AudioLRUCache.cache] in E. rewrite keys_delete in E by exact Hnd.
  apply in_without in E. tauto.
Qed.

(** The prefetch path does remove a failed entry: when a pending promise
    stored by [prefetchGeminiSentence] rejects, its index has no entry any
    more, so the next request for it calls the producer again. *)
Lemma failed_prefetch_entry_removed (p : nat) (t : Task)
    (reply : JS.Settled AudioCacheItem) (st : State) :
  tasks st !! p = Some t ->
  task_outcome t = None ->
  task_guarded t = true ->
  isRejected (settlement t reply) = true ->
  List.NoDup (AudioLRUCache.keys (audioCache st)) ->
  cached (settle p reply st) (task_index t) = None.
Proof.
  intros Ht Hpending Hguard Hrej Hnd. unfold settle, cached.
  rewrite Ht, Hpending, Hguard, Hrej. cbn [andb].
  destruct (resume_all_cache (task_waiters t) (settlement t reply)
    (set_audioCache (AudioLRUCache.delete
       (audioCache (set_tasks (<[p:={| task_index := task_index t;
                                      task_render := task_render t;
                                      task_guarded := true;
                                      task_outcome := Some (settlement t reply);
                                      task_waiters := [] |}]> (tasks st)) st))
       (task_index t))
       (set_tasks (<[p:={| task_index := task_index t;
                          task_render := task_render t;
                          task_guarded := true;
                          task_outcome := Some (settlement t reply);
                          task_waiters := [] |}]> (tasks st)) st))) as [-> _].
  cbn. now apply peek_delete.
Qed.

(** C1 on Scenario D, where the code departs from it. A document of one
    sentence, the Gemini engine, play, the timer fires and
    [playSentence(0)] waits; stop is pressed: playback is off, nothing
    sounds, no node exists and the active index is still 0. Then the
    synthesis of index 0 resolves: isPlaying stays false, yet a source node
    is created and started, so audio sounds, and the tone label of the
    playback record is set. *)
Theorem resolution_after_stop_starts_audio :
  (isPlaying (playback Scenario.stoppedWhileLoading) = false
   /\ sounding Scenario.stoppedWhileLoading = false
   /\ nodes Scenario.stoppedWhileLoading = []
   /\ detectedEmotion (playback Scenario.stoppedWhileLoading) = None
   /\ activeIndexRef Scenario.stoppedWhileLoading = 0)
  /\ (isPlaying (playback Scenario.resolvedAfterStop) = false
      /\ sounding Scenario.resolvedAfterStop = true
      /\ map node_state (nodes Scenario.resolvedAfterStop) = [Started]
      /\ sourceNodeRef Scenario.resolvedAfterStop = Some 0%nat
      /\ detectedEmotion (playback Scenario.resolvedAfterStop)
         = Some (JS.lit "Calm")).
Proof. vm_compute. repeat split. Qed.

(** C3 on the play path, where the code departs from it. The promise of
    index 0 is created by [playSentence] (not by the prefetch helper) and
    rejects: its entry is still in the cache. Play is pressed again and
    playback is on with the timer armed; when the timer fires,
    [playSentence(0)] finds the rejected promise, the producer is not
    called again and no request leaves; the call resumes on the stored
    rejection in the same turn, which stops playback once more. *)
Theorem failed_play_entry_stays_cached :
  (map task_outcome (tasks Scenario.failedWhileLoading)
   = [Some (Rejected (JS.lit "quota exceeded"))]
   /\ map task_guarded (tasks Scenario.failedWhileLoading) = [false]
   /\ cached Scenario.failedWhileLoading 0 = Some 0%nat
   /\ producerCalls Scenario.failedWhileLoading 0 = 1%nat)
  /\ (isPlaying (playback Scenario.retrying) = true
      /\ timer Scenario.retrying = Some (render Scenario.retrying))
  /\ (producerCalls Scenario.retried 0 = 1%nat
      /\ requests Scenario.retried = requests Scenario.failedWhileLoading
      /\ cached Scenario.retried 0 = Some 0%nat
      /\ map task_outcome (tasks Scenario.retried)
         = [Some (Rejected (JS.lit "quota exceeded"))]
      /\ isPlaying (playback Scenario.retried) = false
      /\ nodes Scenario.retried = []).
Proof. vm_compute. repeat split. Qed.

(** C7 on a session where two calls of [playSentence(0)] wait on one
    promise, where the code departs from it. Both calls resume when the
    promise resolves and each starts a source node, but sourceNodeRef holds
    the second one only. [stopAudio] then sets isPlaying and isLoading to
    false, clears the tone label, keeps currentIndex and stops the node it
    holds; the first node is still started, so output is still active
    after the stop. *)
Theorem stop_leaves_unheld_source_sounding :
  (map node_state (nodes Scenario.resumedTwice) = [Started; Started]
   /\ sourceNodeRef Scenario.resumedTwice = Some 1%nat
   /\ currentIndex (playback Scenario.resumedTwice) = 0)
  /\ (Scenario.stoppedAfterTwo = commit (stopAudio Scenario.resumedTwice)
      /\ playback Scenario.stoppedAfterTwo
         = {| isPlaying := false; isLoading := false; currentIndex := 0;
              detectedEmotion := None |}
      /\ sourceNodeRef Scenario.stoppedAfterTwo = None
      /\ map node_state (nodes Scenario.stoppedAfterTwo) = [Started; Finished]
      /\ sounding Scenario.stoppedAfterTwo = true).
Proof. vm_compute. repeat split. Qed.

End LateFacts.

(** ** Invariants of the component *)

Section FrameFacts.

Import App.

Lemma sameBookkeeping_refl (st : State) : sameBookkeeping st st.
Proof. unfold sameBookkeeping. now repeat split. Qed.

Lemma sameBookkeeping_trans (st1 st2 st3 : State) :
  sameBookkeeping st1 st2 -> sameBookkeeping st2 st3 -> sameBookkeeping st1 st3.
Proof.
  unfold sameBookkeeping. intros (A1 & A2 & A3 & A4 & A5 & A6)
                                 (B1 & B2 & B3 & B4 & B5 & B6).
  repeat split; congruence.
Qed.

Lemma setPlayback_frame (f : PlaybackState -> PlaybackState) (st : State) :
  sameBookkeeping st (setPlayback f st).
Proof. unfold sameBookkeeping. now repeat split. Qed.

Lemma playNext_frame (r : Render) (st : State) : sameBookkeeping st (playNext r st).
Proof. apply setPlayback_frame. Qed.

Lemma stopAudio_frame (st : State) : sameBookkeeping st (stopAudio st).
Proof.
  unfold stopAudio, setPlayback, pauseAt, stopAt.
  destruct st as [pb se sid ts pid ac ai ar sr sy au no ta fe rq ti al co].
  cbn. bookkeeping.
Qed.

Lemma stopPrevious_bookkeeping (st : State) : sameBookkeeping st (stopPrevious st).
Proof.
  unfold stopPrevious, pauseAt, stopAt.
  destruct st as [pb se sid ts pid ac ai ar sr sy au no ta fe rq ti al co].
  cbn. bookkeeping.
Qed.

Lemma togglePlay_frame (r : Render) (st : State) : sameBookkeeping st (togglePlay r st).
Proof.
  unfold togglePlay. destruct (_ =? 0); [apply sameBookkeeping_refl|].
  destruct (isPlaying _); [apply stopAudio_frame | apply setPlayback_frame].
Qed.

Lemma seekTimeout_frame (index : Z) (st : State) :
  sameBookkeeping st (seekTimeout index st).
Proof. unfold sameBookkeeping. now repeat split. Qed.

Lemma pdfParsed_frame (data : list JS.t) (st : State) :
  sameBookkeeping st (pdfParsed data st).
Proof. unfold sameBookkeeping. now repeat split. Qed.

Lemma resumeGemini_frame (w : Waiter) (outcome : JS.Settled AudioCacheItem)
    (st : State) :
  sameBookkeeping st (resumeGemini w outcome st).
Proof. unfold resumeGemini. bookkeeping. Qed.

Lemma resumeOpenAI_frame (w : Waiter) (outcome : JS.Settled JS.t) (st : State) :
  sameBookkeeping st (resumeOpenAI w outcome st).
Proof. unfold resumeOpenAI, alert, setPlayback. bookkeeping. Qed.

Lemma settleFetch_frame (id : nat) (reply : JS.Settled JS.t) (st : State) :
  sameBookkeeping st (settleFetch id reply st).
Proof.
  unfold settleFetch. destruct (fetches st !! id) as [f|]; [|apply sameBookkeeping_refl].
  destruct (fetch_settled f); [apply sameBookkeeping_refl|].
  eapply sameBookkeeping_trans; [|apply resumeOpenAI_frame].
  unfold sameBookkeeping. now repeat split.
Qed.

Lemma playResolved_frame (a : nat) (st : State) : sameBookkeeping st (playResolved a st).
Proof. unfold playResolved, setPlayback. bookkeeping. Qed.

Lemma playRejected_frame (a : nat) (message : JS.t) (st : State) :
  sameBookkeeping st (playRejected a message st).
Proof. unfold playRejected, alert, setPlayback. bookkeeping. Qed.

Lemma audioEnded_frame (a : nat) (st : State) : sameBookkeeping st (audioEnded a st).
Proof. unfold audioEnded, playNext, setPlayback. bookkeeping. Qed.

Lemma audioError_frame (a : nat) (st : State) : sameBookkeeping st (audioError a st).
Proof. unfold audioError, setPlayback. bookkeeping. Qed.

Lemma sourceEnded_frame (s : nat) (st : State) : sameBookkeeping st (sourceEnded s st).
Proof. unfold sourceEnded, playNext, setPlayback, stopAt. bookkeeping. Qed.

Lemma utteranceEnded_frame (st : State) : sameBookkeeping st (utteranceEnded st).
Proof. unfold utteranceEnded, playNext, setPlayback. bookkeeping. Qed.

Lemma utteranceError_frame (st : State) : sameBookkeeping st (utteranceError st).
Proof. unfold utteranceError, setPlayback. bookkeeping. Qed.

(** The invariant only reads the bookkeeping. *)
Lemma Coherent_frame (st st' : State) :
  sameBookkeeping st st' -> Coherent st -> Coherent st'.
Proof.
  intros (Hc & Ht & Hti & Hco & Hse & Hid) [H1 H2 Hs H3 H4 H5 H6].
  split; unfold cached in *; rewrite ?Hc, ?Ht, ?Hti, ?Hco, ?Hse, ?Hid; assumption.
Qed.

End FrameFacts.

Section PeekFacts.

Import AudioLRUCache.
Implicit Types (c : AudioLRUCache.t nat) (m : JSMap.t nat).

Lemma get_delete_same m key :
  List.NoDup (JSMap.keys m) -> JSMap.get (JSMap.delete m key) key = None.
Proof.
  intros Hnd.
  destruct (JSMap.get (JSMap.delete m key) key) as [p|] eqn:E; [|reflexivity].
  assert (JSMap.has (JSMap.delete m key) key = true) as Hhas
    by (unfold JSMap.has; now rewrite E).
  apply has_keys in Hhas. rewrite keys_delete in Hhas by exact Hnd.
  apply in_without in Hhas. tauto.
Qed.

Lemma get_delete_some m key index p :
  List.NoDup (JSMap.keys m) ->
  JSMap.get (JSMap.delete m key) index = Some p -> JSMap.get m index = Some p.
Proof.
  intros Hnd H. destruct (Z.eq_dec index key) as [->|Hne].
  - now rewrite get_delete_same in H.
  - now rewrite get_delete_other in H.
Qed.

Lemma get_absent m key :
  ~ In key (JSMap.keys m) -> JSMap.get m key = None.
Proof.
  intros Hn. destruct (JSMap.get m key) eqn:E; [|reflexivity].
  exfalso. apply Hn. apply has_keys. unfold JSMap.has. now rewrite E.
Qed.

(** After [set], an entry is the one just stored or one that was there. *)
Lemma peek_set c key value index p :
  List.NoDup (keys c) ->
  peek (set c key value) index = Some p ->
  (index = key /\ p = value) \/ peek c index = Some p.
Proof.
  intros Hnd. unfold peek, set, keys in *. cbn [cache].
  set (m := if JSMap.has (cache c) key then _ else _).
  assert (forall i q, JSMap.get m i = Some q -> JSMap.get (cache c) i = Some q) as Hm.
  { intros i q. subst m. destruct (JSMap.has (cache c) key).
    - now apply get_delete_some.
    - destruct (JSMap.size _ >=? _); [|auto].
      destruct (JSMap.firstKey _); [now apply get_delete_some | auto]. }
  assert (~ In key (JSMap.keys m)) as Habsent.
  { subst m. destruct (JSMap.has (cache c) key) eqn:Hhas.
    - rewrite keys_delete by exact Hnd. rewrite in_without. tauto.
    - apply has_false_keys in Hhas.
      destruct (JSMap.size _ >=? _); [|exact Hhas].
      destruct (JSMap.firstKey _); [|exact Hhas].
      rewrite keys_delete by exact Hnd. rewrite in_without. tauto. }
  destruct (Z.eq_dec index key) as [->|Hne].
  - rewrite get_set_absent by exact Habsent. intros [= <-]. now left.
  - rewrite get_set_other by exact Hne. intros H. right. now apply Hm.
Qed.

(** A lookup moves an entry, it does not change what the cache maps. *)
Lemma peek_get c key index :
  List.NoDup (keys c) -> peek (snd (get c key)) index = peek c index.
Proof.
  intros Hnd. unfold get, peek, keys in *.
  destruct (JSMap.has (cache c) key) eqn:Hhas; cbn [negb]; [|reflexivity].
  destruct (JSMap.get (cache c) key) as [val|] eqn:Hget; [|reflexivity].
  cbn [snd cache].
  assert (~ In key (JSMap.keys (JSMap.delete (cache c) key))) as Habsent.
  { rewrite keys_delete by exact Hnd. rewrite in_without. tauto. }
  destruct (Z.eq_dec index key) as [->|Hne].
  - rewrite get_set_absent by exact Habsent. now rewrite Hget.
  - rewrite get_set_other by exact Hne. now apply get_delete_other.
Qed.

Lemma peek_delete_some c key index p :
  List.NoDup (keys c) ->
  peek (delete c key) index = Some p -> peek c index = Some p.
Proof. intros Hnd. unfold peek, delete. cbn [cache]. now apply get_delete_some. Qed.

Lemma NoDup_get c key : List.NoDup (keys c) -> List.NoDup (keys (snd (get c key))).
Proof.
  intros Hnd. destruct (has c key) eqn:Hhas.
  - rewrite keys_get_hit by assumption.
    apply NoDup_snoc; [now apply NoDup_without|]. rewrite in_without. tauto.
  - now rewrite get_miss.
Qed.

Lemma capacity_get c key : capacity (snd (get c key)) = capacity c.
Proof. apply (capacity_exec c (Get key)). Qed.

Lemma size_set c key value :
  List.NoDup (keys c) -> 1 <= capacity c -> size c <= capacity c ->
  size (set c key value) <= capacity c.
Proof.
  intros Hnd Hcap Hsz. rewrite !size_length in *. rewrite keys_set by exact Hnd.
  rewrite length_app. cbn [length].
  destruct (has c key) eqn:Hhas.
  - apply has_iff in Hhas.
    pose proof (length_without_present key (keys c) Hnd Hhas). lia.
  - rewrite size_length.
    destruct (Z.geb_spec (Z.of_nat (length (keys c))) (capacity c)) as [Hfull|Hroom].
    + destruct (keys c); simpl in *; lia.
    + lia.
Qed.

Lemma size_get c key :
  List.NoDup (keys c) -> size (snd (get c key)) = size c.
Proof.
  intros Hnd. destruct (has c key) eqn:Hhas.
  - rewrite !size_length, keys_get_hit by assumption.
    apply has_iff in Hhas.
    pose proof (length_without_present key (keys c) Hnd Hhas).
    rewrite length_app. cbn [length]. lia.
  - now rewrite get_miss.
Qed.

Lemma size_delete c key :
  List.NoDup (keys c) -> size (delete c key) <= size c.
Proof.
  intros Hnd. rewrite !size_length. unfold keys, delete. cbn [cache].
  rewrite keys_delete by exact Hnd.
  pose proof (length_without_le key (JSMap.keys (cache c))). lia.
Qed.

Lemma NoDup_delete c key : List.NoDup (keys c) -> List.NoDup (keys (delete c key)).
Proof.
  intros Hnd. unfold keys, delete. cbn [cache].
  rewrite keys_delete by exact Hnd. now apply NoDup_without.
Qed.

End PeekFacts.

Section CoherentFacts.

Import App.

Lemma lookup_alter_render (f : Task -> Task) (q p : nat) (ts : list Task) (t' : Task) :
  (forall t, task_render (f t) = task_render t) ->
  alter f q ts !! p = Some t' ->
  exists t, ts !! p = Some t /\ task_render t = task_render t'.
Proof.
  intros Hf H. destruct (Nat.eq_dec q p) as [->|Hne].
  - rewrite list_lookup_alter_eq in H.
    destruct (ts !! p) as [t|]; simpl in H; [|discriminate].
    injection H as <-. exists t. now rewrite Hf.
  - rewrite list_lookup_alter_ne in H by exact Hne. now exists t'.
Qed.

Lemma lookup_snoc_cases (ts : list Task) (tn t' : Task) (p : nat) :
  (ts ++ [tn]) !! p = Some t' -> ts !! p = Some t' \/ (p = length ts /\ t' = tn).
Proof.
  intros H. destruct (Nat.lt_ge_cases p (length ts)) as [Hlt|Hge].
  - left. now rewrite lookup_app_l in H.
  - right. rewrite lookup_app_r in H by exact Hge.
    destruct (p - length ts)%nat as [|k] eqn:E; simpl in H; [|destruct k; discriminate].
    injection H as <-. split; [lia | reflexivity].
Qed.

Lemma lookup_insert_render (q p : nat) (ts : list Task) (t0 tn t' : Task) :
  ts !! q = Some t0 ->
  task_render tn = task_render t0 ->
  <[q := tn]> ts !! p = Some t' ->
  exists t, ts !! p = Some t /\ task_render t = task_render t'.
Proof.
  intros Hq Hr H. destruct (Nat.eq_dec q p) as [->|Hne].
  - rewrite list_lookup_insert_eq in H by (now apply lookup_lt_Some in Hq).
    injection H as <-. now exists t0.
  - rewrite list_lookup_insert_ne in H by exact Hne. now exists t'.
Qed.

(** The invariant carries over to a state whose cache entries are old ones
    or point to promises of the committed voice, and whose promises are
    old ones (possibly with other waiters) or new ones of that voice. *)
Lemma Coherent_update (st st' : State) :
  Coherent st ->
  committed st' = committed st ->
  timer st' = timer st ->
  settings st' = settings st ->
  settingsId st' = settingsId st ->
  List.NoDup (AudioLRUCache.keys (audioCache st')) ->
  AudioLRUCache.capacity (audioCache st') = 50 ->
  AudioLRUCache.size (audioCache st') <= 50 ->
  playingWaiters (tasks st') ->
  (forall p t', tasks st' !! p = Some t' ->
     (exists t, tasks st !! p = Some t /\ task_render t = task_render t')
     \/ googleVoice (r_settings (task_render t'))
        = googleVoice (r_settings (committed st))) ->
  (forall index p, cached st' index = Some p ->
     cached st index = Some p
     \/ forall t', tasks st' !! p = Some t' ->
          googleVoice (r_settings (task_render t'))
          = googleVoice (r_settings (committed st))) ->
  Coherent st'.
Proof.
  intros [H1 H2 Hs H3 H4 H5 H6] Hco Hti Hse Hid Hnd Hcap Hsz Hpw Htasks Hcache.
  split; rewrite ?Hco, ?Hti, ?Hse, ?Hid; try assumption.
  intros index p t' Hc Ht.
  destruct (Hcache index p Hc) as [Hold|Hnew]; [|now apply Hnew].
  destruct (Htasks p t' Ht) as [(t & Hlook & Hr)|Hv]; [|exact Hv].
  rewrite <- Hr. now apply (H5 index p t).
Qed.

Lemma processGeminiSentence_rest (r : Render) (index : Z) (st : State) :
  let st1 := snd (processGeminiSentence r index st) in
  timer st1 = timer st /\ committed st1 = committed st
  /\ settings st1 = settings st /\ settingsId st1 = settingsId st.
Proof.
  cbv zeta. unfold processGeminiSentence.
  destruct (JS.index (r_textSegments r) index) as [text|]; [|now repeat split].
  destruct (JS.blank text); now repeat split.
Qed.

Lemma playingWaiters_snoc (ts : list Task) (t : Task) :
  playingWaiters ts -> task_waiters t = [] -> playingWaiters (ts ++ [t]).
Proof.
  intros Hts Ht. apply Forall_app. split; [exact Hts|].
  constructor; [|constructor]. rewrite Ht. constructor.
Qed.

(** A new promise is made by render [r] and stored under [index],
    possibly after the [.catch] of the prefetch path. *)
Lemma store_coherent (r : Render) (index : Z) (guarded : bool) (st : State) :
  Coherent st ->
  googleVoice (r_settings r) = googleVoice (r_settings (committed st)) ->
  let p := fst (processGeminiSentence r index st) in
  let st1 := snd (processGeminiSentence r index st) in
  let st2 := if guarded then guard p st1 else st1 in
  Coherent (set_audioCache (AudioLRUCache.set (audioCache st2) index p) st2).
Proof.
  intros Hcoh Hvoice. cbv zeta.
  pose proof (processGeminiSentence_tasks r index st) as [Ht Hp].
  pose proof (processGeminiSentence_frame r index st) as Hc.
  pose proof (processGeminiSentence_rest r index st) as (Hti & Hco & Hse & Hid).
  cbv zeta in Hti, Hco, Hse, Hid.
  destruct (processGeminiSentence r index st) as [p st1]. cbn [fst snd] in *.
  subst p. pose proof Hcoh as [H1 H2 Hs H3 H4 H5 H6].
  set (st2 := if guarded then guard (length (tasks st)) st1 else st1).
  assert (audioCache st2 = audioCache st) as Hc2
    by (subst st2; destruct guarded; exact Hc).
  assert (timer st2 = timer st /\ committed st2 = committed st
          /\ settings st2 = settings st /\ settingsId st2 = settingsId st)
    as (Hti2 & Hco2 & Hse2 & Hid2)
    by (subst st2; destruct guarded; now repeat split).
  assert (forall p t', tasks st2 !! p = Some t' ->
            (exists t, tasks st !! p = Some t /\ task_render t = task_render t')
            \/ task_render t' = r) as Htasks.
  { intros p t' Hl.
    assert (exists t1, tasks st1 !! p = Some t1 /\ task_render t1 = task_render t')
      as (t1 & Hl1 & Hr1).
    { subst st2. destruct guarded; [|now exists t'].
      unfold guard in Hl. cbn [tasks set_tasks] in Hl.
      eapply lookup_alter_render; [|exact Hl]. reflexivity. }
    rewrite Ht in Hl1. apply lookup_snoc_cases in Hl1 as [Hold|[_ ->]].
    - left. now exists t1.
    - right. now rewrite <- Hr1. }
  assert (playingWaiters (tasks st2)) as Hpw.
  { assert (playingWaiters (tasks st1)) as Hpw1
      by (rewrite Ht; now apply playingWaiters_snoc).
    subst st2. destruct guarded; [|exact Hpw1].
    unfold guard. cbn [tasks set_tasks].
    apply Forall_alter; [exact Hpw1|]. now intros t _ Hw. }
  apply (Coherent_update st); cbn [committed timer settings settingsId
    audioCache tasks set_audioCache]; try assumption.
  - rewrite Hc2. now apply NoDup_set.
  - now rewrite Hc2.
  - rewrite Hc2. rewrite <- H2. apply size_set; [exact H1 | lia | lia].
  - intros p t' Hl. destruct (Htasks p t' Hl) as [Hold| ->]; [now left | now right].
  - intros i p. unfold cached. cbn [audioCache set_audioCache]. rewrite Hc2.
    intros Hpeek. apply peek_set in Hpeek as [[-> ->]|Hold]; [|now left | exact H1].
    right. intros t' Hl.
    destruct (Htasks _ t' Hl) as [(t & Hlook & _)| ->]; [|exact Hvoice].
    apply lookup_lt_Some in Hlook. lia.
Qed.

Lemma prefetch_coherent (r : Render) (index : Z) (st : State) :
  Coherent st ->
  googleVoice (r_settings r) = googleVoice (r_settings (committed st)) ->
  Coherent (prefetchGeminiSentence r index st).
Proof.
  intros Hcoh Hvoice. unfold prefetchGeminiSentence.
  destruct (index >=? _); [exact Hcoh|].
  destruct (AudioLRUCache.has _ _); [exact Hcoh|].
  pose proof (store_coherent r index true st Hcoh Hvoice) as H. cbv zeta in H.
  now destruct (processGeminiSentence r index st) as [p st1].
Qed.

Lemma lookupOrStart_coherent (r : Render) (index : Z) (st : State) :
  Coherent st ->
  googleVoice (r_settings r) = googleVoice (r_settings (committed st)) ->
  Coherent (snd (lookupOrStart r index st)).
Proof.
  intros Hcoh Hvoice. unfold lookupOrStart.
  pose proof (fun i => peek_get (audioCache st) index i (coh_nodup st Hcoh))
    as Hpeek.
  pose proof (NoDup_get (audioCache st) index (coh_nodup st Hcoh)) as Hnd.
  pose proof (capacity_get (audioCache st) index) as Hcap.
  pose proof (size_get (audioCache st) index (coh_nodup st Hcoh)) as Hsz.
  destruct (AudioLRUCache.get (audioCache st) index) as [[p|] c'] eqn:Hget;
    cbn [snd] in *.
  - apply (Coherent_update st); cbn; try reflexivity; try assumption.
    + rewrite Hcap. apply (coh_capacity st Hcoh).
    + rewrite Hsz. apply (coh_size st Hcoh).
    + apply (coh_waiters st Hcoh).
    + intros q t' Hl. left. now exists t'.
    + intros i q. unfold cached. cbn. rewrite Hpeek. now left.
  - assert (c' = audioCache st) as ->.
    { unfold AudioLRUCache.get in Hget.
      destruct (negb _); [now injection Hget|].
      destruct (JSMap.get _ _); [discriminate | now injection Hget]. }
    set (st0 := setPlayback _ (set_audioCache (audioCache st) st)).
    assert (Coherent st0) as Hcoh0.
    { eapply Coherent_frame; [|exact Hcoh]. unfold sameBookkeeping. now repeat split. }
    pose proof (store_coherent r index false st0 Hcoh0 Hvoice) as H. cbv zeta in H.
    now destruct (processGeminiSentence r index st0) as [p st1].
Qed.

Lemma await_coherent (p : nat) (w : Waiter) (st : State) :
  Coherent st ->
  isPlaying (r_playback (w_render w)) = true ->
  Coherent (await p w st).
Proof.
  intros Hcoh Hplay.
  apply (Coherent_update st); cbn; try reflexivity; try apply Hcoh; try exact Hcoh.
  - apply Forall_alter; [apply Hcoh|]. intros t _ Hw. cbn.
    apply Forall_app. split; [exact Hw | now repeat constructor].
  - intros q t' Hl. left. eapply lookup_alter_render; [|exact Hl]. reflexivity.
  - intros i q Hc. now left.
Qed.

Lemma setSettings_coherent (f : AppSettings -> AppSettings) (st : State) :
  Coherent st -> Coherent (setSettings f st).
Proof.
  intros [H1 H2 Hs H3 H4 H5 H6]. split; try assumption.
  right. cbn. destruct H6 as [[-> _]|H6]; lia.
Qed.

(** [playSentence], called by a render that was playing and carries the
    committed settings, keeps the invariant. *)
Lemma playSentence_coherent (r : Render) (index : Z) (st : State) :
  Coherent st ->
  isPlaying (r_playback r) = true ->
  r_settings r = r_settings (committed st) ->
  Coherent (playSentence r index st).
Proof.
  intros Hcoh Hplay Hset. unfold playSentence.
  destruct (_ || _); [exact Hcoh|].
  destruct (JS.index _ _) as [text|]; [|exact Hcoh].
  destruct (JS.blank text).
  { eapply Coherent_frame; [apply playNext_frame | exact Hcoh]. }
  assert (Coherent (stopPrevious st)) as Hcoh0
    by (eapply Coherent_frame; [apply stopPrevious_bookkeeping | exact Hcoh]).
  assert (committed (stopPrevious st) = committed st) as Hco0
    by (apply stopPrevious_bookkeeping).
  set (st0 := stopPrevious st) in *.
  destruct (engine (r_settings r)).
  - eapply Coherent_frame; [|exact Hcoh0]. unfold sameBookkeeping. now repeat split.
  - destruct (negb _).
    + apply setSettings_coherent.
      eapply Coherent_frame; [|exact Hcoh0]. unfold sameBookkeeping. now repeat split.
    + eapply Coherent_frame; [|exact Hcoh0]. unfold sameBookkeeping. now repeat split.
  - assert (googleVoice (r_settings r)
            = googleVoice (r_settings (committed st0))) as Hv0
      by (now rewrite Hco0, Hset).
    pose proof (lookupOrStart_coherent r index st0 Hcoh0 Hv0) as Hcoh1.
    assert (committed (snd (lookupOrStart r index st0)) = committed st0) as Hco1.
    { unfold lookupOrStart.
      destruct (AudioLRUCache.get _ _) as [[p|] c']; [reflexivity|].
      set (st' := setPlayback _ _).
      pose proof (processGeminiSentence_rest r index st') as (_ & Hc & _).
      cbv zeta in Hc. now destruct (processGeminiSentence r index st'). }
    destruct (lookupOrStart r index st0) as [p st1]. cbn [snd] in *.
    assert (forall i s, Coherent s -> committed s = committed st0 ->
              Coherent (prefetchGeminiSentence r i s)
              /\ committed (prefetchGeminiSentence r i s) = committed st0) as Hpre.
    { intros i s Hs Hcs. split.
      - apply prefetch_coherent; [exact Hs | now rewrite Hcs].
      - unfold prefetchGeminiSentence. destruct (_ >=? _); [exact Hcs|].
        destruct (AudioLRUCache.has _ _); [exact Hcs|].
        pose proof (processGeminiSentence_rest r i s) as (_ & Hc & _).
        cbv zeta in Hc. destruct (processGeminiSentence r i s) as [q s1].
        cbn in *. congruence. }
    destruct (Hpre (index + 1) st1 Hcoh1 Hco1) as [Hcoh2 Hco2].
    destruct (Hpre (index + 2) _ Hcoh2 Hco2) as [Hcoh3 _].
    now apply await_coherent.
Qed.

End CoherentFacts.

Section ReachableFacts.

Import App.

Lemma timerFired_coherent (st : State) : Coherent st -> Coherent (timerFired st).
Proof.
  intros Hcoh. unfold timerFired.
  destruct (timer st) as [r|] eqn:Htimer; [|exact Hcoh].
  destruct (coh_timer st Hcoh r Htimer) as [Hplay Hset].
  assert (Coherent (set_timer None st)) as Hcoh'.
  { destruct Hcoh as [H1 H2 Hs H3 H4 H5 H6]. split; try assumption.
    intros r'. cbn. discriminate. }
  destruct (_ =? _); [|exact Hcoh'].
  now apply playSentence_coherent.
Qed.

Lemma resume_all_frame (ws : list Waiter) (outcome : JS.Settled AudioCacheItem)
    (st : State) :
  sameBookkeeping st (foldl (fun st w => resumeGemini w outcome st) st ws).
Proof.
  revert st. induction ws as [|w ws IH]; intros st; [apply sameBookkeeping_refl|].
  cbn [foldl]. eapply sameBookkeeping_trans; [apply resumeGemini_frame | apply IH].
Qed.

Lemma settle_coherent (p : nat) (reply : JS.Settled AudioCacheItem) (st : State) :
  Coherent st -> Coherent (settle p reply st).
Proof.
  intros Hcoh. unfold settle.
  destruct (tasks st !! p) as [t|] eqn:Ht; [|exact Hcoh].
  set (outcome := match task_outcome t with Some o => o | None => _ end).
  set (st1 := set_tasks _ st).
  assert (Coherent st1) as Hcoh1.
  { apply (Coherent_update st); cbn; try reflexivity; try apply Hcoh; try exact Hcoh.
    - apply Forall_insert; [apply Hcoh | constructor].
    - intros q t' Hl. left. eapply lookup_insert_render; [exact Ht | | exact Hl].
      reflexivity.
    - intros i q Hc. now left. }
  eapply Coherent_frame; [apply resume_all_frame|].
  destruct (task_outcome t); [exact Hcoh1|].
  destruct (_ && _); [|exact Hcoh1].
  apply (Coherent_update st1); cbn; try reflexivity; try apply Hcoh1.
  - apply NoDup_delete. apply Hcoh.
  - pose proof (size_delete (audioCache st) (task_index t) (coh_nodup st Hcoh)).
    pose proof (coh_size st Hcoh). lia.
  - intros q t' Hl. left. now exists t'.
  - intros i q Hc. left. unfold cached in *. cbn in *.
    eapply peek_delete_some; [apply Hcoh | exact Hc].
Qed.

Lemma clear_coherent (st : State) :
  Coherent st ->
  Coherent (set_audioCache (AudioLRUCache.clear (audioCache st)) st).
Proof.
  intros Hcoh.
  apply (Coherent_update st); cbn; try reflexivity; try apply Hcoh.
  - constructor.
  - unfold AudioLRUCache.size, JSMap.size. cbn. lia.
  - intros q t' Hl. left. now exists t'.
  - intros i q Hc. discriminate Hc.
Qed.

Lemma handleFileUpload_coherent (st : State) :
  Coherent st -> Coherent (handleFileUpload st).
Proof.
  intros Hcoh. unfold handleFileUpload.
  eapply Coherent_frame; [|apply clear_coherent].
  - unfold sameBookkeeping. now repeat split.
  - eapply Coherent_frame; [apply stopAudio_frame | exact Hcoh].
Qed.

(** Every handler and callback keeps the invariant and leaves the
    committed render alone. *)
Lemma handle_coherent (e : Event) (st : State) :
  Coherent st -> Coherent (handle e st).
Proof.
  intros Hcoh. destruct e; cbn [handle].
  - eapply Coherent_frame; [apply togglePlay_frame | exact Hcoh].
  - eapply Coherent_frame; [apply stopAudio_frame | exact Hcoh].
  - eapply Coherent_frame; [apply stopAudio_frame | exact Hcoh].
  - eapply Coherent_frame; [apply seekTimeout_frame | exact Hcoh].
  - now apply handleFileUpload_coherent.
  - eapply Coherent_frame; [apply pdfParsed_frame | exact Hcoh].
  - now apply setSettings_coherent.
  - now apply timerFired_coherent.
  - now apply settle_coherent.
  - eapply Coherent_frame; [apply settleFetch_frame | exact Hcoh].
  - eapply Coherent_frame; [apply playResolved_frame | exact Hcoh].
  - eapply Coherent_frame; [apply playRejected_frame | exact Hcoh].
  - eapply Coherent_frame; [apply audioEnded_frame | exact Hcoh].
  - eapply Coherent_frame; [apply audioError_frame | exact Hcoh].
  - eapply Coherent_frame; [apply sourceEnded_frame | exact Hcoh].
  - eapply Coherent_frame; [apply utteranceEnded_frame | exact Hcoh].
  - eapply Coherent_frame; [apply utteranceError_frame | exact Hcoh].
Qed.

(** React's commit restores the invariant for the new render, and the
    committed render is then the render of the state. *)
Lemma commit_coherent (st : State) :
  Coherent st ->
  Coherent (commit st) /\ committed (commit st) = render (commit st).
Proof.
  intros [H1 H2 Hs H3 H4 H5 H6]. unfold commit.
  set (prev := committed st). set (next := render st).
  set (st2 := if cacheDepsChanged prev next then _ else st).
  set (st3 := if playbackDepsChanged prev next then _ else st2).
  assert (tasks st2 = tasks st /\ timer st2 = timer st
          /\ settings st2 = settings st /\ settingsId st2 = settingsId st
          /\ playback st2 = playback st /\ textSegments st2 = textSegments st
          /\ pdfDataId st2 = pdfDataId st) as (T2 & Ti2 & S2 & I2 & P2 & X2 & D2)
    by (subst st2; destruct (cacheDepsChanged prev next); now repeat split).
  assert (tasks st3 = tasks st /\ audioCache st3 = audioCache st2
          /\ settings st3 = settings st /\ settingsId st3 = settingsId st
          /\ playback st3 = playback st /\ textSegments st3 = textSegments st
          /\ pdfDataId st3 = pdfDataId st) as (T3 & C3 & S3 & I3 & P3 & X3 & D3).
  { subst st3. destruct (playbackDepsChanged prev next); [|now repeat split].
    unfold playbackEffect. destruct (isPlaying _); cbn; now repeat split. }
  split.
  - split; cbn [committed audioCache tasks timer settings settingsId set_committed].
    + rewrite C3. subst st2. destruct (cacheDepsChanged prev next); [constructor | exact H1].
    + rewrite C3. subst st2. now destruct (cacheDepsChanged prev next).
    + rewrite C3. subst st2. destruct (cacheDepsChanged prev next); [|exact Hs].
      unfold AudioLRUCache.size, JSMap.size. cbn. lia.
    + now rewrite T3.
    + intros r Hr. subst st3.
      destruct (playbackDepsChanged prev next) eqn:Hdeps.
      * unfold playbackEffect in Hr.
        destruct (isPlaying (r_playback next)) eqn:Hplay; cbn in Hr.
        -- injection Hr as <-. now split.
        -- discriminate.
      * rewrite Ti2 in Hr. destruct (H4 r Hr) as [Hplay Hset].
        split; [exact Hplay|]. rewrite Hset.
        unfold playbackDepsChanged, playSentenceChanged in Hdeps.
        apply orb_false_iff in Hdeps as [_ Hdeps].
        apply negb_false_iff in Hdeps.
        apply andb_true_iff in Hdeps as [Hdeps _].
        apply andb_true_iff in Hdeps as [Hdeps _].
        apply andb_true_iff in Hdeps as [_ Hid].
        apply Nat.eqb_eq in Hid. subst prev next. cbn in Hid.
        destruct H6 as [[_ Heq]|Hlt]; [now rewrite <- Heq | lia].
    + intros index p t. unfold cached.
      cbn [audioCache tasks set_committed]. rewrite C3, T3.
      subst st2. destruct (cacheDepsChanged prev next) eqn:Hdeps.
      * discriminate.
      * intros Hc Ht. rewrite (H5 index p t Hc Ht).
        unfold cacheDepsChanged in Hdeps. apply negb_false_iff in Hdeps.
        apply andb_true_iff in Hdeps as [Hv _].
        now apply bool_decide_eq_true in Hv.
    + left. rewrite I3, S3. now split.
  - unfold render. cbn [committed playback settings settingsId textSegments
      pdfDataId set_committed]. subst next. unfold render.
    now rewrite P3, S3, I3, X3, D3.
Qed.

Lemma mounted_coherent (savedKey : JS.t) (prefersDark : bool) :
  Coherent (mounted savedKey prefersDark)
  /\ committed (mounted savedKey prefersDark) = render (mounted savedKey prefersDark).
Proof.
  split; [|reflexivity]. split; cbn.
  - constructor.
  - reflexivity.
  - unfold AudioLRUCache.size, JSMap.size. cbn. lia.
  - constructor.
  - discriminate.
  - discriminate.
  - now left.
Qed.

(** What every settlement keeps, the microtasks of a turn keep. *)
Lemma react_keeps (P : State -> Prop) (select : Task -> bool) (st : State) :
  (forall p reply s, P s -> P (settle p reply s)) ->
  P st -> P (react select st).
Proof.
  intros Hsettle. unfold react. generalize (seq 0 (length (tasks st))) as ps.
  intros ps. revert st. induction ps as [|p ps IH]; intros st Hst; [exact Hst|].
  cbn [foldl]. apply IH.
  destruct (tasks st !! p) as [t|]; [|exact Hst].
  destruct (select t); [now apply Hsettle | exact Hst].
Qed.

Lemma flush_keeps (P : State -> Prop) (st : State) :
  (forall p reply s, P s -> P (settle p reply s)) ->
  P st -> P (flush st).
Proof.
  intros Hsettle Hst. unfold flush. now apply react_keeps, react_keeps.
Qed.

Lemma flush_coherent (st : State) : Coherent st -> Coherent (flush st).
Proof. apply flush_keeps. intros p reply s. apply settle_coherent. Qed.

(** A settlement marks its promise settled, with no call parked on it,
    and leaves the other promises alone. *)
Lemma settle_tasks (p : nat) (reply : JS.Settled AudioCacheItem) (st : State) :
  tasks (settle p reply st)
  = match tasks st !! p with
    | Some t =>
        <[p := {| task_index := task_index t; task_render := task_render t;
                  task_guarded := task_guarded t;
                  task_outcome := Some (match task_outcome t with
                                        | Some o => o
                                        | None => settlement t reply
                                        end);
                  task_waiters := [] |}]> (tasks st)
    | None => tasks st
    end.
Proof.
  unfold settle. destruct (tasks st !! p) as [t|]; [|reflexivity].
  match goal with
  | |- tasks (foldl _ ?s _) = _ =>
      destruct (resume_all_cache (task_waiters t)
                  (match task_outcome t with
                   | Some o => o
                   | None => settlement t reply
                   end) s) as [_ ->]
  end.
  destruct (task_outcome t); [reflexivity|].
  now destruct (task_guarded t && isRejected (settlement t reply)).
Qed.

(** The promises after the reactions of those that [select] picks. *)
Lemma react_task (select : Task -> bool) (st : State) (q : nat) :
  tasks (react select st) !! q
  = (fun t =>
       if select t then
         {| task_index := task_index t; task_render := task_render t;
            task_guarded := task_guarded t;
            task_outcome := Some (match task_outcome t with
                                  | Some o => o
                                  | None => settlement t (Rejected (JS.lit "Empty text"))
                                  end);
            task_waiters := [] |}
       else t) <$> tasks st !! q.
Proof.
  unfold react.
  set (F := fun (st : State) (p : nat) =>
              match tasks st !! p with
              | Some t => if select t
                          then settle p (Rejected (JS.lit "Empty text")) st else st
              | None => st
              end).
  set (g := fun t : Task => if select t then _ else t).
  assert (forall n a s,
            tasks (foldl F s (seq a n)) !! q
            = (fun t => if (a <=? q)%nat && (q <? a + n)%nat then g t else t)
                <$> tasks s !! q) as H.
  { induction n as [|n IH]; intros a s.
    - cbn [seq foldl].
      replace ((a <=? q)%nat && (q <? a + 0)%nat) with false.
      + now destruct (tasks s !! q).
      + symmetry. apply andb_false_iff.
        destruct (Nat.leb_spec a q); [right; apply Nat.ltb_ge; lia | now left].
    - cbn [seq foldl]. rewrite IH.
      assert (tasks (F s a)
              = match tasks s !! a with
                | Some t => if select t then <[a := g t]> (tasks s) else tasks s
                | None => tasks s
                end) as ->.
      { unfold F. destruct (tasks s !! a) as [t|] eqn:Ht; [|reflexivity].
        subst g. cbn beta. destruct (select t) eqn:Hsel; [|reflexivity].
        rewrite settle_tasks, Ht. reflexivity. }
      destruct (Nat.eq_dec q a) as [->|Hne].
      + replace ((S a <=? a)%nat && (a <? S a + n)%nat) with false
          by (symmetry; apply andb_false_iff; left; apply Nat.leb_gt; lia).
        replace ((a <=? a)%nat && (a <? a + S n)%nat) with true
          by (symmetry; apply andb_true_iff; split;
              [apply Nat.leb_le | apply Nat.ltb_lt]; lia).
        destruct (tasks s !! a) as [t|] eqn:Ht; [|now rewrite Ht].
        subst g. cbn beta. destruct (select t) eqn:Hsel.
        * rewrite list_lookup_insert_eq by (now apply lookup_lt_Some in Ht).
          cbn. now rewrite Hsel.
        * rewrite Ht. cbn. now rewrite Hsel.
      + replace ((S a <=? q)%nat && (q <? S a + n)%nat)
          with ((a <=? q)%nat && (q <? a + S n)%nat).
        * destruct (tasks s !! a) as [t|]; [|reflexivity].
          destruct (select t); [|reflexivity].
          now rewrite list_lookup_insert_ne by congruence.
        * destruct (Nat.leb_spec a q), (Nat.leb_spec (S a) q),
            (Nat.ltb_spec q (a + S n)), (Nat.ltb_spec q (S a + n));
            try reflexivity; lia. }
  rewrite H. destruct (tasks st !! q) as [t|] eqn:Ht; [|reflexivity].
  apply lookup_lt_Some in Ht. cbn [fmap option_fmap option_map].
  replace ((0 <=? q)%nat && (q <? 0 + length (tasks st))%nat) with true;
    [reflexivity|].
  symmetry. apply andb_true_iff. split; [apply Nat.leb_le | apply Nat.ltb_lt]; lia.
Qed.

(** Reactions of promises that are not there change nothing. *)
Lemma react_none (select : Task -> bool) (st : State) :
  Forall (fun t => select t = false) (tasks st) -> react select st = st.
Proof.
  intros Hall. unfold react. generalize (seq 0 (length (tasks st))) as ps.
  induction ps as [|p ps IH]; [reflexivity|].
  cbn [foldl]. destruct (tasks st !! p) as [t|] eqn:Ht; [|exact IH].
  rewrite Forall_lookup in Hall. now rewrite (Hall p t Ht).
Qed.

(** With no microtask left, the microtasks of a turn change nothing. *)
Lemma flush_quiet_id (st : State) : quiet st -> flush st = st.
Proof.
  intros Hq. unfold flush.
  rewrite (react_none rejectedAtBirth st)
    by (eapply Forall_impl; [exact Hq | now intros t [H _]]).
  apply react_none. eapply Forall_impl; [exact Hq | now intros t [_ H]].
Qed.

(** After the microtasks of a turn none is left. *)
Lemma flush_quiet (st : State) : quiet (flush st).
Proof.
  unfold quiet. apply Forall_lookup. intros q t2 H2.
  unfold flush in H2. rewrite react_task in H2.
  destruct (tasks (react rejectedAtBirth st) !! q) as [t1|] eqn:H1; [|discriminate].
  rewrite react_task in H1.
  destruct (tasks st !! q) as [t|]; [|discriminate].
  cbn in H1, H2. injection H1 as <-. injection H2 as <-.
  destruct t as [i r g o ws]. unfold rejectedAtBirth, awaitedSettled.
  destruct o as [o|], ws as [|w ws]; cbn;
    destruct (thrown r i) as [e|] eqn:Hth; cbn; rewrite ?Hth; now split.
Qed.

Lemma quiet_tasks (st st' : State) : tasks st' = tasks st -> quiet st -> quiet st'.
Proof. unfold quiet. now intros ->. Qed.

(** In every state the component can reach, the invariant holds and React
    is at rest: the committed render is the render of the state. *)
Lemma reachable_coherent (st : State) :
  reachable st -> Coherent st /\ committed st = render st.
Proof.
  intros (savedKey & prefersDark & es & ->). unfold run.
  assert (forall es s, Coherent s /\ committed s = render s ->
            Coherent (foldl step s es)
            /\ committed (foldl step s es) = render (foldl step s es)) as H.
  { clear. induction es as [|e es IH]; intros s Hs; [exact Hs|].
    cbn [foldl]. apply IH. unfold step. apply commit_coherent.
    apply flush_coherent, handle_coherent, Hs. }
  apply H, mounted_coherent.
Qed.

Lemma commit_tasks (st : State) : tasks (commit st) = tasks st.
Proof.
  unfold commit, playbackEffect.
  destruct (cacheDepsChanged _ _), (playbackDepsChanged _ _); cbn;
    try destruct (isPlaying (playback st)); reflexivity.
Qed.

(** In every state the component can reach no microtask is left. *)
Lemma reachable_quiet (st : State) : reachable st -> quiet st.
Proof.
  intros (savedKey & prefersDark & es & ->). unfold run.
  induction es as [|e es IH] using rev_ind; [constructor|].
  rewrite foldl_app. cbn [foldl]. unfold step.
  eapply quiet_tasks; [apply commit_tasks | apply flush_quiet].
Qed.

(** A turn whose handler leaves the promises alone runs no microtask. *)
Lemma step_plain (st : State) (e : Event) :
  quiet st -> tasks (handle e st) = tasks st ->
  step st e = commit (handle e st).
Proof.
  intros Hq Ht. unfold step. rewrite flush_quiet_id; [reflexivity|].
  now apply (quiet_tasks st).
Qed.

(** In every reachable state the cache of the component holds at most 50
    entries, its capacity. *)
Lemma reachable_cache_bounded (st : State) :
  reachable st ->
  AudioLRUCache.capacity (audioCache st) = 50
  /\ AudioLRUCache.size (audioCache st) <= 50.
Proof.
  intros Hreach. destruct (reachable_coherent st Hreach) as [Hcoh _].
  split; apply Hcoh.
Qed.

(** In every reachable state: the cache has distinct keys and capacity
    50, and every promise it holds was produced under the Gemini voice
    that is configured now. *)
Lemma reachable_cache_matches_voice (st : State) :
  reachable st ->
  List.NoDup (AudioLRUCache.keys (audioCache st))
  /\ AudioLRUCache.capacity (audioCache st) = 50
  /\ cacheMatchesVoice st.
Proof.
  intros Hreach. destruct (reachable_coherent st Hreach) as [Hcoh Hrest].
  split; [apply Hcoh|]. split; [apply Hcoh|].
  intros index p t Hc Ht. rewrite (coh_voice st Hcoh index p t Hc Ht).
  now rewrite Hrest.
Qed.

(** In every reachable state, every [playSentence] call parked on a
    promise reads [playback.isPlaying] as true: the guard on pausing never
    stops a late result, only a change of the active index does. *)
Lemma reachable_waiters_playing (st : State) (p : nat) (t : Task) (w : Waiter) :
  reachable st ->
  tasks st !! p = Some t ->
  In w (task_waiters t) ->
  isPlaying (r_playback (w_render w)) = true.
Proof.
  intros Hreach Ht Hw. destruct (reachable_coherent st Hreach) as [Hcoh _].
  pose proof (coh_waiters st Hcoh) as Hpw. unfold playingWaiters in Hpw.
  rewrite Forall_lookup in Hpw. specialize (Hpw p t Ht).
  rewrite List.Forall_forall in Hpw. now apply Hpw.
Qed.

End ReachableFacts.

(** ** App.tsx: the cache and the settings *)

Section SettingsFacts.

Import App.

Lemma peek_clear (c : AudioLRUCache.t nat) (index : Z) :
  AudioLRUCache.peek (AudioLRUCache.clear c) index = None.
Proof. reflexivity. Qed.





End SettingsFacts.

(** ** App.tsx: one producer call per index, in every reachable state *)

Section OnceReachable.

Import App.

(** C4. In every state the component can reach, take requests for one
    index, through the prefetch helper or through the cache lookup of
    [playSentence], in any number and order, with nothing settling in
    between. When the cache holds an entry for the index, every request
    finds that same entry and the producer is not called for the index (a
    prefetch request changes nothing at all). When it holds none, the first
    request calls the producer once and stores its promise, and the
    following ones find it: the producer is called exactly once. *)
Theorem ensure_calls_producer_once (index : Z) (st : State) (es : list Ensure) :
  reachable st ->
  Forall (reachesCache index) es ->
  let st' := foldl (ensure index) st es in
  (forall p, cached st index = Some p ->
     cached st' index = Some p
     /\ producerCalls st' index = producerCalls st index
     /\ forall r, prefetchGeminiSentence r index st = st)
  /\ (cached st index = None -> es <> [] ->
        cached st' index = Some (length (tasks st))
        /\ producerCalls st' index = S (producerCalls st index)).
Proof.
  intros Hreach Hall.
  destruct (reachable_cache_matches_voice st Hreach) as (Hnd & Hcap & _).
  apply ensure_sequence; [lia | exact Hnd | exact Hall].
Qed.

(** The statement above on a session where sentence 0 of two is being
    synthesized: three more requests for index 0, and three requests for
    index 1, which the first [playSentence] already prefetched. *)
Lemma ensure_calls_producer_once_witness :
  let st := Scenario.loadingTwo in
  let r := render st in
  producerCalls st 0 = 1%nat
  /\ producerCalls (foldl (ensure 0) st [ByPlay r; ByPrefetch r; ByPlay r]) 0 = 1%nat
  /\ cached (foldl (ensure 0) st [ByPlay r; ByPrefetch r; ByPlay r]) 0 = Some 0%nat
  /\ producerCalls (foldl (ensure 1) st [ByPrefetch r; ByPlay r; ByPrefetch r]) 1
     = 1%nat.
Proof.
  cbv zeta.
  assert (reachable Scenario.loadingTwo) as Hreach.
  { exists [], false,
      [FileUpload; PdfParsed [JS.lit "Hello."; JS.lit "World."];
       SettingsChange (Scenario.useEngine google); TogglePlay; TimerFired].
    reflexivity. }
  assert (engine (r_settings (render Scenario.loadingTwo)) = google) as Heng
    by (vm_compute; reflexivity).
  set (r := render Scenario.loadingTwo).
  assert (reachesCache 0 (ByPlay r)) as P0.
  { split; [exact Heng|]. exists (JS.lit "Hello."). split; vm_compute; reflexivity. }
  assert (reachesCache 1 (ByPlay r)) as P1.
  { split; [exact Heng|]. exists (JS.lit "World."). split; vm_compute; reflexivity. }
  assert (reachesCache 0 (ByPrefetch r)) as Q0 by (vm_compute; reflexivity).
  assert (reachesCache 1 (ByPrefetch r)) as Q1 by (vm_compute; reflexivity).
  assert (Forall (reachesCache 0) [ByPlay r; ByPrefetch r; ByPlay r]) as Hall0.
  { constructor; [exact P0|]. constructor; [exact Q0|].
    constructor; [exact P0|]. constructor. }
  assert (Forall (reachesCache 1) [ByPrefetch r; ByPlay r; ByPrefetch r]) as Hall1.
  { constructor; [exact Q1|]. constructor; [exact P1|].
    constructor; [exact Q1|]. constructor. }
  destruct (ensure_calls_producer_once 0 Scenario.loadingTwo
              [ByPlay r; ByPrefetch r; ByPlay r] Hreach Hall0) as [Hhit _].
  destruct (ensure_calls_producer_once 1 Scenario.loadingTwo
              [ByPrefetch r; ByPlay r; ByPrefetch r] Hreach Hall1) as [Hhit1 _].
  destruct (Hhit 0%nat ltac:(vm_compute; reflexivity)) as (H1 & H2 & _).
  destruct (Hhit1 1%nat ltac:(vm_compute; reflexivity)) as (_ & H3 & _).
  assert (producerCalls Scenario.loadingTwo 0 = 1%nat) as E0
    by (vm_compute; reflexivity).
  assert (producerCalls Scenario.loadingTwo 1 = 1%nat) as E1
    by (vm_compute; reflexivity).
  split; [exact E0|]. split; [now rewrite H2|]. split; [exact H1|].
  now rewrite H3.
Defined.

End OnceReachable.

(** ** class AudioLRUCache: the bound, in the class and in the component *)

Section BoundedReachable.
Context {V : Type}.

(** C2. With a capacity of at least 1: along every sequence of operations
    on a new cache, insertions included, the size never exceeds the
    capacity and the keys are kept in the order of their last use; storing
    a key that is not in a full cache evicts the first key, the least
    recently used one, and the size stays at the capacity; after storing N
    distinct keys the cache holds the last [capacity] of them, so exactly
    [capacity] keys when N exceeds the capacity. The cache of the
    component has capacity 50 and, in every state the component can reach,
    at most 50 entries. *)
Theorem lru_cache_bounded_evicts_least_recent (cap : Z) :
  1 <= cap ->
  (forall ops : list (AudioLRUCache.op V),
      let c := AudioLRUCache.run (AudioLRUCache.new cap) ops in
      AudioLRUCache.size c <= cap
      /\ List.NoDup (AudioLRUCache.keys c)
      /\ sublist (AudioLRUCache.keys c)
                 (AudioLRUCache.recency
                    (AudioLRUCache.uses (AudioLRUCache.new cap) ops)))
  /\ (forall (ops : list (AudioLRUCache.op V)) key value,
        let c := AudioLRUCache.run (AudioLRUCache.new cap) ops in
        AudioLRUCache.has c key = false -> cap <= AudioLRUCache.size c ->
        AudioLRUCache.keys (AudioLRUCache.set c key value)
        = tail (AudioLRUCache.keys c) ++ [key]
        /\ AudioLRUCache.size (AudioLRUCache.set c key value) = cap)
  /\ (forall kvs : list (Z * V),
        List.NoDup (map fst kvs) ->
        let c := AudioLRUCache.run (AudioLRUCache.new cap) (AudioLRUCache.inserts kvs) in
        AudioLRUCache.keys c = drop (length kvs - Z.to_nat cap) (map fst kvs)
        /\ (cap < Z.of_nat (length kvs) -> AudioLRUCache.size c = cap))
  /\ (forall st, App.reachable st ->
        AudioLRUCache.capacity (App.audioCache st) = 50
        /\ AudioLRUCache.size (App.audioCache st) <= 50).
Proof.
  intros Hcap. destruct (cache_bounded (V:=V) cap Hcap) as (HA & HB & HC).
  split; [exact HA|]. split; [exact HB|]. split; [exact HC|].
  exact reachable_cache_bounded.
Qed.

End BoundedReachable.

(** The statement above at Scenario C: capacity 2, indices 0, 1 and 2
    stored in turn; the cache then holds exactly 1 and 2. *)
Lemma lru_cache_scenario_C :
  AudioLRUCache.keys
    (AudioLRUCache.run (AudioLRUCache.new 2) (AudioLRUCache.inserts Sample.scenarioC))
  = [1; 2]
  /\ AudioLRUCache.size
       (AudioLRUCache.run (AudioLRUCache.new 2) (AudioLRUCache.inserts Sample.scenarioC))
     = 2.
Proof.
  destruct (lru_cache_bounded_evicts_least_recent (V:=nat) 2 ltac:(lia))
    as (_ & _ & H & _).
  destruct (H Sample.scenarioC) as [Hk Hs].
  - repeat constructor; simpl; intuition discriminate.
  - split; [exact Hk | apply Hs; simpl; lia].
Defined.

(** ** Regular expressions *)

Section RegExpFacts.

Import RegExp.

Lemma prefix_after (p : Z -> bool) (s : JS.t) :
  s = prefixOf p s ++ afterPrefix p s.
Proof.
  induction s as [|c s IH]; simpl; [reflexivity|].
  destruct (p c); simpl; [now f_equal | reflexivity].
Qed.

Lemma prefixOf_all (p : Z -> bool) (s : JS.t) : forallb p (prefixOf p s) = true.
Proof.
  induction s as [|c s IH]; simpl; [reflexivity|].
  destruct (p c) eqn:E; simpl; [now rewrite E | reflexivity].
Qed.

Lemma afterPrefix_head (p : Z -> bool) (s : JS.t) :
  match afterPrefix p s with
  | [] => True
  | c :: _ => p c = false
  end.
Proof.
  induction s as [|c s IH]; simpl; [exact I|].
  destruct (p c) eqn:E; [exact IH | exact E].
Qed.

Lemma afterPrefix_length (p : Z -> bool) (s : JS.t) :
  (length (afterPrefix p s) <= length s)%nat.
Proof.
  induction s as [|c s IH]; simpl; [lia|].
  destruct (p c); simpl; lia.
Qed.

Lemma length_tail_neq {A} (c : A) (s : list A) :
  (length s =? length (c :: s))%nat = false.
Proof. apply Nat.eqb_neq. simpl. lia. Qed.

Lemma star_S (fuel : nat) (m : JS.t -> Continuation -> option JS.t)
    (s : JS.t) (k : Continuation) :
  star (S fuel) m s k =
    match m s (fun s' => if (length s' =? length s)%nat then None
                         else star fuel m s' k) with
    | Some e => Some e
    | None => k s
    end.
Proof. reflexivity. Qed.

Lemma class_consumes (p : Z -> bool) : consumes p (matcher (Class p)).
Proof. intros s k. reflexivity. Qed.

(** Greedy repetition of a character class when the continuation accepts
    what follows the longest run. *)
Lemma star_class_accept (p : Z -> bool) m (fuel : nat) (s : JS.t)
    (k : Continuation) (e : JS.t) :
  consumes p m ->
  (length s <= fuel)%nat ->
  k (afterPrefix p s) = Some e ->
  star fuel m s k = Some e.
Proof.
  intros Hm. revert s. induction fuel as [|fuel IH]; intros s Hlen Hk.
  - destruct s; [exact Hk | simpl in Hlen; lia].
  - rewrite star_S, Hm. destruct s as [|c s]; [exact Hk|].
    simpl in Hk. destruct (p c) eqn:E; [|exact Hk].
    rewrite length_tail_neq, (IH s); [reflexivity | simpl in Hlen; lia | exact Hk].
Qed.

(** Greedy repetition of a character class when the continuation refuses
    every input that begins inside a run: no shorter run helps. *)
Lemma star_class_refuse (p : Z -> bool) m (fuel : nat) (s : JS.t)
    (k : Continuation) :
  consumes p m ->
  (length s <= fuel)%nat ->
  (forall c s', p c = true -> k (c :: s') = None) ->
  star fuel m s k = k (afterPrefix p s).
Proof.
  intros Hm. revert s. induction fuel as [|fuel IH]; intros s Hlen Hk.
  - destruct s; [reflexivity | simpl in Hlen; lia].
  - rewrite star_S, Hm. destruct s as [|c s]; [reflexivity|].
    cbn [afterPrefix].
    destruct (p c) eqn:E; [|reflexivity].
    rewrite length_tail_neq, (IH s); [| simpl in Hlen; lia | exact Hk].
    destruct (k (afterPrefix p s)) eqn:K; [reflexivity|].
    now apply Hk.
Qed.

Lemma matcher_plus (r : RegExp.t) (s : JS.t) (k : Continuation) :
  matcher (Plus r) s k =
    matcher r s (fun s' => star (length s') (matcher r) s' k).
Proof. reflexivity. Qed.

Lemma plus_class_accept (p : Z -> bool) (c : Z) (s : JS.t)
    (k : Continuation) (e : JS.t) :
  p c = true ->
  k (afterPrefix p s) = Some e ->
  matcher (Plus (Class p)) (c :: s) k = Some e.
Proof.
  intros E Hk. rewrite matcher_plus, class_consumes, E.
  now apply (star_class_accept p); [apply class_consumes | |].
Qed.

Lemma plus_class_refuse (p : Z -> bool) (s : JS.t) (k : Continuation) :
  (forall c s', p c = true -> k (c :: s') = None) ->
  matcher (Plus (Class p)) s k =
    match s with
    | c :: s' => if p c then k (afterPrefix p s') else None
    | [] => None
    end.
Proof.
  intros Hk. rewrite matcher_plus, class_consumes.
  destruct s as [|c s]; [reflexivity|].
  destruct (p c); [|reflexivity].
  now apply (star_class_refuse p); [apply class_consumes | |].
Qed.

End RegExpFacts.

(** ** services/pdfUtils.ts: the fallback segmentation *)

Section SentenceFacts.

Import RegExp PdfUtils.

Lemma matcher_opt_quote (s : JS.t) :
  matcher (Opt (Class quote)) s Some = Some (afterQuote s).
Proof.
  destruct s as [|c s]; [reflexivity|].
  cbn [matcher afterQuote]. destruct (quote c); [|reflexivity].
  now rewrite length_tail_neq.
Qed.

(** The pattern at the head of the input: it matches exactly when the
    input begins with a character that is not a terminator, and then the
    match is the greedy one. *)
Lemma matcher_sentence (s : JS.t) :
  matcher sentencePattern s Some =
    match s with
    | c :: _ => if terminator c then None else Some (sentenceEnd s)
    | [] => None
    end.
Proof.
  unfold sentencePattern.
  change (matcher (Alt ?a ?b) s Some)
    with (match matcher a s Some with
          | Some e => Some e
          | None => matcher b s Some
          end).
  change (matcher (Seq (Seq ?a ?b) ?c) s Some)
    with (matcher a s (fun s' => matcher b s' (fun s'' => matcher c s'' Some))).
  change (matcher (Seq ?a Dollar) s Some)
    with (matcher a s (fun s' => matcher Dollar s' Some)).
  rewrite !plus_class_refuse.
  - destruct s as [|c s]; [reflexivity|].
    unfold sentenceEnd, plain. cbn [afterPrefix].
    destruct (terminator c) eqn:T; cbn [negb]; [reflexivity|].
    pose proof (afterPrefix_head (fun c => negb (terminator c)) s) as Hh.
    destruct (afterPrefix (fun c => negb (terminator c)) s) as [|c' b] eqn:B.
    + reflexivity.
    + apply negb_false_iff in Hh.
      rewrite (plus_class_accept terminator c' b _ (afterQuote (afterPrefix terminator b)));
        [| exact Hh | apply matcher_opt_quote].
      cbn [afterPrefix]. now rewrite Hh.
  - intros c s' Hc. reflexivity.
  - intros c s' Hc. cbn [matcher]. apply negb_true_iff in Hc. now rewrite Hc.
Qed.

Lemma afterQuote_split (s : JS.t) :
  exists q, s = q ++ afterQuote s /\ forallb quote q = true /\ (length q <= 1)%nat.
Proof.
  destruct s as [|c s]; [exists []; repeat split; simpl; lia|].
  simpl. destruct (quote c) eqn:Q.
  - exists [c]. simpl. rewrite Q. repeat split. lia.
  - exists []. repeat split. simpl. lia.
Qed.

(** The text up to [sentenceEnd] has the shape of a sentence. *)
Lemma sentenceEnd_split (c : Z) (s : JS.t) :
  terminator c = false ->
  exists m,
    c :: s = m ++ sentenceEnd (c :: s)
    /\ sentenceShaped m
    /\ (existsb terminator m = false -> sentenceEnd (c :: s) = []).
Proof.
  intros T. unfold sentenceEnd.
  set (body := prefixOf plain (c :: s)).
  set (rest1 := afterPrefix plain (c :: s)).
  set (stops := prefixOf terminator rest1).
  set (rest2 := afterPrefix terminator rest1).
  destruct (afterQuote_split rest2) as (q & Hq & Hqq & Hql).
  exists (body ++ stops ++ q). split; [|split].
  - rewrite <- !app_assoc, <- Hq.
    unfold rest2, stops. rewrite <- prefix_after.
    unfold rest1, body. apply prefix_after.
  - exists body, stops, q. split; [reflexivity|].
    split.
    { unfold body, plain. simpl. rewrite T. discriminate. }
    split; [apply prefixOf_all|]. split; [apply prefixOf_all|].
    split; [exact Hqq | exact Hql].
  - intros Hno. rewrite !existsb_app in Hno.
    apply orb_false_iff in Hno as [_ Hno].
    apply orb_false_iff in Hno as [Hstops _].
    assert (rest1 = []) as E1.
    { pose proof (afterPrefix_head plain (c :: s)) as Hh.
      fold rest1 in Hh. unfold stops in Hstops.
      destruct rest1 as [|c' r]; [reflexivity|].
      unfold plain in Hh. apply negb_false_iff in Hh.
      simpl in Hstops. rewrite Hh in Hstops. simpl in Hstops.
      rewrite Hh in Hstops. discriminate. }
    unfold rest2. rewrite E1. reflexivity.
Qed.

(** One search of the pattern: what is skipped is made of terminators
    only, and the match has the shape of a sentence. *)
Lemma exec_sentence (s : JS.t) :
  match exec sentencePattern s with
  | None => forallb terminator s = true
  | Some (skipped, m, rest) =>
      s = skipped ++ m ++ rest
      /\ forallb terminator skipped = true
      /\ sentenceShaped m
      /\ (existsb terminator m = false -> rest = [])
  end.
Proof.
  induction s as [|c s IH]; [reflexivity|].
  cbn [exec]. rewrite matcher_sentence.
  destruct (terminator c) eqn:T.
  - destruct (exec sentencePattern s) as [[[skipped m] rest]|].
    + destruct IH as (-> & Hsk & Hm & Hlast).
      split; [reflexivity|]. split; [simpl; now rewrite T|]. now split.
    + simpl. now rewrite T.
  - destruct (sentenceEnd_split c s T) as (m & Hsplit & Hm & Hlast).
    assert (take (length (c :: s) - length (sentenceEnd (c :: s))) (c :: s) = m) as ->.
    { revert Hsplit. generalize (sentenceEnd (c :: s)) as rest.
      intros rest ->. rewrite length_app.
      replace (length m + length rest - length rest)%nat with (length m) by lia.
      now rewrite take_app_length. }
    split; [exact Hsplit|]. split; [reflexivity|]. now split.
Qed.

Lemma filter_plain_terminators (s : JS.t) :
  forallb terminator s = true -> List.filter plain s = [].
Proof.
  induction s as [|c s IH]; simpl; [reflexivity|].
  intros H. apply andb_true_iff in H as [Hc Hs].
  unfold plain at 1. rewrite Hc. simpl. now apply IH.
Qed.

Lemma sentenceShaped_cons (m : JS.t) :
  sentenceShaped m -> exists c m', m = c :: m' /\ terminator c = false.
Proof.
  intros (body & stops & q & -> & Hb & Hplain & _).
  destruct body as [|c body]; [congruence|].
  exists c, (body ++ stops ++ q). split; [reflexivity|].
  simpl in Hplain. apply andb_true_iff in Hplain as [Hc _].
  now apply negb_true_iff in Hc.
Qed.

Lemma matches_sentence (fuel : nat) (s : JS.t) :
  (length s < fuel)%nat ->
  let ms := matches fuel sentencePattern s in
  Forall sentenceShaped ms
  /\ List.filter plain (concat ms) = List.filter plain s
  /\ sublist (concat ms) s
  /\ (forall i m, ms !! i = Some m -> (S i < length ms)%nat ->
        existsb terminator m = true)
  /\ (ms = [] <-> forallb terminator s = true).
Proof.
  revert s. induction fuel as [|fuel IH]; intros s Hlen; [lia|].
  cbn [matches]. pose proof (exec_sentence s) as Hexec.
  destruct (exec sentencePattern s) as [[[skipped m] rest]|].
  - destruct Hexec as (Hs & Hsk & Hm & Hlast).
    destruct (sentenceShaped_cons m Hm) as (c & m' & -> & Hc).
    assert (length rest < fuel)%nat as Hrest.
    { apply (f_equal (@length Z)) in Hs. rewrite !length_app in Hs.
      simpl in Hs. lia. }
    destruct (IH rest Hrest) as (Hall & Hkeep & Hsub & Hstop & Hnil).
    cbv zeta. split; [|split; [|split; [|split]]].
    + constructor; assumption.
    + cbn [concat]. rewrite List.filter_app, Hkeep, Hs, !List.filter_app.
      now rewrite (filter_plain_terminators skipped Hsk).
    + cbn [concat]. rewrite Hs.
      apply sublist_inserts_l. now apply sublist_app.
    + intros [|i] m0 Hi Hlt.
      * injection Hi as <-.
        destruct (existsb terminator (c :: m')) eqn:E; [reflexivity|].
        specialize (Hlast eq_refl). subst rest.
        simpl in Hlt. destruct fuel; simpl in Hlt; lia.
      * simpl in Hi, Hlt. apply (Hstop i); [exact Hi | lia].
    + split; [discriminate|]. intros Hterm. exfalso.
      rewrite Hs, !forallb_app in Hterm.
      apply andb_true_iff in Hterm as [_ Hterm].
      apply andb_true_iff in Hterm as [Hterm _].
      simpl in Hterm. rewrite Hc in Hterm. discriminate.
  - cbv zeta. split; [constructor|]. split.
    { simpl. symmetry. now apply filter_plain_terminators. }
    split; [apply sublist_nil_l|]. split; [intros i m Hi; discriminate|].
    split; [intros _; exact Hexec | reflexivity].
Qed.

Lemma matches_S (fuel : nat) (r : RegExp.t) (s : JS.t) :
  matches (S fuel) r s =
    match exec r s with
    | None => []
    | Some (_, m, rest) =>
        m :: match m, rest with
             | [], [] => []
             | [], _ :: rest' => matches fuel r rest'
             | _ :: _, _ => matches fuel r rest
             end
    end.
Proof. reflexivity. Qed.

(** The fuel of the global search does not matter once it exceeds the
    length of the text. *)
Lemma matches_fuel (f1 f2 : nat) (s : JS.t) :
  (length s < f1)%nat -> (length s < f2)%nat ->
  matches f1 sentencePattern s = matches f2 sentencePattern s.
Proof.
  revert f2 s. induction f1 as [|f1 IH]; intros f2 s H1 H2; [lia|].
  destruct f2 as [|f2]; [lia|].
  cbn [matches]. pose proof (exec_sentence s) as Hexec.
  destruct (exec sentencePattern s) as [[[skipped m] rest]|]; [|reflexivity].
  destruct Hexec as (Hs & _ & Hm & _).
  destruct (sentenceShaped_cons m Hm) as (c & m' & -> & _).
  f_equal. apply (f_equal (@length Z)) in Hs. rewrite !length_app in Hs.
  simpl in Hs. apply IH; lia.
Qed.

(** The matches of a text, [[]] for [null]. *)
Lemma match_g_matches (s : JS.t) :
  match match_g sentencePattern s with
  | Some raw => raw
  | None => []
  end = matches (S (length s)) sentencePattern s.
Proof. unfold match_g. now destruct (matches (S (length s)) sentencePattern s). Qed.

(** A terminator at the head of the text belongs to no match. *)
Lemma matches_skip (c : Z) (s : JS.t) :
  terminator c = true ->
  matches (S (length (c :: s))) sentencePattern (c :: s)
  = matches (S (length s)) sentencePattern s.
Proof.
  intros T. rewrite !matches_S. cbn [exec]. rewrite matcher_sentence, T.
  pose proof (exec_sentence s) as Hexec.
  destruct (exec sentencePattern s) as [[[skipped m] rest]|]; [|reflexivity].
  destruct Hexec as (Hs & _ & Hm & _).
  destruct (sentenceShaped_cons m Hm) as (c' & m' & -> & _).
  f_equal. apply (f_equal (@length Z)) in Hs. rewrite !length_app in Hs.
  simpl in Hs. apply matches_fuel; simpl; lia.
Qed.

(** Any other character begins a match, the greedy one, and the search
    goes on after it. *)
Lemma matches_take (c : Z) (s : JS.t) :
  terminator c = false ->
  exists m,
    c :: s = m ++ sentenceEnd (c :: s)
    /\ matches (S (length (c :: s))) sentencePattern (c :: s)
       = m :: matches (S (length (sentenceEnd (c :: s)))) sentencePattern
                      (sentenceEnd (c :: s)).
Proof.
  intros T. destruct (sentenceEnd_split c s T) as (m & Hsplit & Hm & _).
  exists m. split; [exact Hsplit|].
  destruct (sentenceShaped_cons m Hm) as (c' & m' & -> & _).
  rewrite matches_S. cbn [exec]. rewrite matcher_sentence, T.
  assert (take (length (c :: s) - length (sentenceEnd (c :: s))) (c :: s)
          = c' :: m') as ->.
  { revert Hsplit. generalize (sentenceEnd (c :: s)) as rest.
    intros rest ->. rewrite length_app.
    replace (length (c' :: m') + length rest - length rest)%nat
      with (length (c' :: m')) by lia.
    now rewrite take_app_length. }
  f_equal. apply (f_equal (@length Z)) in Hsplit. rewrite length_app in Hsplit.
  simpl in Hsplit. apply matches_fuel; simpl; lia.
Qed.

(** X2. The fallback segmentation, [text.match] with the sentence pattern.
    The result is [null] exactly when the text holds nothing but [.], [!]
    and [?] (or is empty). Otherwise every match is a run of other
    characters, at least one, followed by terminators and at most one
    quote; the matches are pieces of the text in their order; every
    character other than a terminator belongs to a match, so only
    terminators are ever dropped; and every match but the last holds a
    terminator. The matches are the greedy ones, found from left to right:
    a terminator at the head of the text is skipped; any other character
    begins a match, which runs over every character up to the next
    terminator, then over every terminator that follows, then over one
    quote if there is one, and the search goes on with what is left
    ([sentenceEnd]). *)
Theorem fallback_segmentation_keeps_text (text : JS.t) :
  let found t := match match_g sentencePattern t with
                 | Some raw => raw
                 | None => []
                 end in
  match match_g sentencePattern text with
  | None => forallb terminator text = true
  | Some raw =>
      Forall sentenceShaped raw
      /\ List.filter plain (concat raw) = List.filter plain text
      /\ sublist (concat raw) text
      /\ (forall i m, raw !! i = Some m -> (S i < length raw)%nat ->
            existsb terminator m = true)
  end
  /\ (match_g sentencePattern text = None <-> forallb terminator text = true)
  /\ match text with
     | [] => found text = []
     | c :: s =>
         if terminator c then found text = found s
         else exists m,
                text = m ++ sentenceEnd text
                /\ found text = m :: found (sentenceEnd text)
     end.
Proof.
  cbv zeta.
  destruct (matches_sentence (S (length text)) text)
    as (Hall & Hkeep & Hsub & Hstop & Hnil); [lia|].
  split; [|split].
  - unfold match_g.
    destruct (matches (S (length text)) sentencePattern text) as [|m ms].
    + now apply Hnil.
    + now repeat split.
  - unfold match_g. rewrite <- Hnil.
    destruct (matches (S (length text)) sentencePattern text) as [|m ms];
      split; congruence.
  - destruct text as [|c s]; [reflexivity|].
    rewrite !match_g_matches.
    destruct (terminator c) eqn:T.
    + now apply matches_skip.
    + destruct (matches_take c s T) as (m & Hsplit & Hm).
      exists m. split; [exact Hsplit | exact Hm].
Qed.

End SentenceFacts.

(** ** services/pdfUtils.ts: white space *)

Section WhitespaceFacts.

Import RegExp PdfUtils.

Lemma matcher_whitespace (s : JS.t) :
  matcher whitespacePattern s Some =
    match s with
    | c :: s' => if JS.is_space c then Some (afterPrefix JS.is_space s') else None
    | [] => None
    end.
Proof.
  destruct s as [|c s]; [reflexivity|].
  destruct (JS.is_space c) eqn:E.
  - now apply plus_class_accept.
  - unfold whitespacePattern. rewrite matcher_plus, class_consumes. now rewrite E.
Qed.

(** One search of [\s+]: the text before the first white space, the whole
    run of white space, and what follows the run. *)
Lemma exec_whitespace (s : JS.t) :
  exec whitespacePattern s =
    match afterPrefix solid s with
    | [] => None
    | c :: r => Some (prefixOf solid s, c :: prefixOf JS.is_space r,
                      afterPrefix JS.is_space r)
    end.
Proof.
  induction s as [|c s IH]; [reflexivity|].
  cbn [exec]. rewrite matcher_whitespace. cbn [afterPrefix prefixOf].
  unfold solid at 1 3. destruct (JS.is_space c) eqn:E; cbn [negb].
  - f_equal. f_equal. f_equal.
    pose proof (prefix_after JS.is_space s) as Hs.
    apply (f_equal (@length Z)) in Hs. rewrite length_app in Hs.
    cbn [length].
    replace (S (length s) - length (afterPrefix JS.is_space s))%nat
      with (S (length (prefixOf JS.is_space s))) by lia.
    cbn [take]. f_equal.
    rewrite (prefix_after JS.is_space s) at 2.
    now rewrite take_app_length.
  - rewrite IH. now destruct (afterPrefix solid s).
Qed.

Lemma singleSpaced_solid_app (pre t : JS.t) :
  forallb solid pre = true -> singleSpaced t -> singleSpaced (pre ++ t).
Proof.
  induction pre as [|c pre IH]; simpl; [tauto|].
  intros H Ht. apply andb_true_iff in H as [Hc Hpre].
  split; [|now apply IH].
  intros Hsp. unfold solid in Hc. rewrite Hsp in Hc. discriminate.
Qed.

Lemma filter_solid_prefix (s : JS.t) :
  List.filter solid (prefixOf solid s) = prefixOf solid s.
Proof.
  induction s as [|c s IH]; simpl; [reflexivity|].
  destruct (solid c) eqn:E; simpl; [|reflexivity]. now rewrite E, IH.
Qed.

Lemma filter_solid_spaces (s : JS.t) :
  List.filter solid (prefixOf JS.is_space s) = [].
Proof.
  induction s as [|c s IH]; simpl; [reflexivity|].
  destruct (JS.is_space c) eqn:E; simpl; [|reflexivity].
  unfold solid at 1. now rewrite E.
Qed.

(** What the global replacement of [\s+] by one space produces. *)
Lemma replacing_whitespace (fuel : nat) (s : JS.t) :
  (length s < fuel)%nat ->
  let t := replacing fuel whitespacePattern s [32] in
  singleSpaced t
  /\ List.filter solid t = List.filter solid s
  /\ (length t <= length s)%nat
  /\ match s with
     | [] => t = []
     | c :: _ => JS.is_space c = false -> exists t', t = c :: t'
     end.
Proof.
  revert s. induction fuel as [|fuel IH]; intros s Hlen; [lia|].
  cbn [replacing]. rewrite exec_whitespace.
  pose proof (prefix_after solid s) as Hs.
  pose proof (prefixOf_all solid s) as Hpre.
  pose proof (afterPrefix_head solid s) as Hhead.
  destruct (afterPrefix solid s) as [|c r] eqn:A.
  - cbv zeta. rewrite app_nil_r in Hs.
    split; [|split; [reflexivity|split; [lia|]]].
    + rewrite Hs, <- (app_nil_r (prefixOf solid s)).
      now apply singleSpaced_solid_app.
    + destruct s as [|c s]; [reflexivity|]. intros _. now exists s.
  - unfold solid in Hhead. apply negb_false_iff in Hhead.
    pose proof (prefix_after JS.is_space r) as Hr.
    pose proof (afterPrefix_head JS.is_space r) as Hrest.
    assert (length (afterPrefix JS.is_space r) < fuel)%nat as Hlt.
    { apply (f_equal (@length Z)) in Hs, Hr. rewrite !length_app in Hs, Hr.
      simpl in Hs. lia. }
    destruct (IH _ Hlt) as (Hsingle & Hkeep & Hshort & Hfirst).
    set (t' := replacing fuel whitespacePattern (afterPrefix JS.is_space r) [32]) in *.
    cbv zeta. split; [|split; [|split]].
    + apply singleSpaced_solid_app; [exact Hpre|].
      cbn [app singleSpaced]. split; [|exact Hsingle].
      intros _. split; [reflexivity|].
      destruct (afterPrefix JS.is_space r) as [|c' r'].
      * now rewrite Hfirst.
      * destruct (Hfirst Hrest) as [t'' ->]. exact Hrest.
    + rewrite !List.filter_app, Hkeep. cbn [List.filter].
      change (solid 32) with false. cbn [app].
      rewrite Hs at 2. rewrite List.filter_app. f_equal.
      cbn [List.filter]. unfold solid at 2. rewrite Hhead. cbn [negb].
      rewrite Hr at 2. now rewrite List.filter_app, filter_solid_spaces.
    + apply (f_equal (@length Z)) in Hs, Hr. rewrite !length_app in Hs, Hr.
      rewrite !length_app. simpl in *. lia.
    + destruct s as [|c0 s0]; [discriminate|].
      intros Hc0. cbn [prefixOf]. unfold solid at 1. rewrite Hc0. cbn [negb app].
      eauto.
Qed.

(** A text whose white space is already single spaces is left as it is. *)
Lemma replacing_singleSpaced (fuel : nat) (s : JS.t) :
  (length s < fuel)%nat ->
  singleSpaced s ->
  replacing fuel whitespacePattern s [32] = s.
Proof.
  revert s. induction fuel as [|fuel IH]; intros s Hlen Hsingle; [lia|].
  cbn [replacing]. rewrite exec_whitespace.
  pose proof (prefix_after solid s) as Hs.
  pose proof (afterPrefix_head solid s) as Hhead.
  destruct (afterPrefix solid s) as [|c r] eqn:A; [reflexivity|].
  unfold solid in Hhead. apply negb_false_iff in Hhead.
  assert (singleSpaced (c :: r)) as Hcr.
  { clear -Hs Hsingle. revert Hs Hsingle.
    generalize (prefixOf solid s) as pre. intros pre ->.
    induction pre as [|x pre IHp]; simpl; [tauto|]. intros [_ H]. now apply IHp. }
  destruct Hcr as [Hc Hr]. destruct (Hc Hhead) as [-> Hnext].
  assert (afterPrefix JS.is_space r = r) as E1.
  { destruct r as [|c' r']; [reflexivity|]. simpl. now rewrite Hnext. }
  rewrite E1, IH; [now symmetry | | exact Hr].
  apply (f_equal (@length Z)) in Hs. rewrite length_app in Hs. simpl in Hs. lia.
Qed.

Lemma replacing_S (fuel : nat) (r : RegExp.t) (s by_ : JS.t) :
  replacing (S fuel) r s by_ =
    match exec r s with
    | None => s
    | Some (skipped, m, rest) =>
        skipped ++ by_ ++
          match m, rest with
          | [], [] => []
          | [], c :: rest' => c :: replacing fuel r rest' by_
          | _ :: _, _ => replacing fuel r rest by_
          end
    end.
Proof. reflexivity. Qed.

(** The fuel of the global replacement does not matter once it exceeds
    the length of the text. *)
Lemma replacing_fuel (f1 f2 : nat) (s : JS.t) :
  (length s < f1)%nat -> (length s < f2)%nat ->
  replacing f1 whitespacePattern s [32] = replacing f2 whitespacePattern s [32].
Proof.
  revert f2 s. induction f1 as [|f1 IH]; intros f2 s H1 H2; [lia|].
  destruct f2 as [|f2]; [lia|].
  cbn [replacing]. rewrite exec_whitespace.
  pose proof (prefix_after solid s) as Hs.
  destruct (afterPrefix solid s) as [|c r]; [reflexivity|].
  pose proof (afterPrefix_length JS.is_space r) as Hr.
  apply (f_equal (@length Z)) in Hs. rewrite length_app in Hs. simpl in Hs.
  do 2 f_equal. apply IH; lia.
Qed.

(** A character that is not white space is copied. *)
Lemma cleanText_solid (c : Z) (s : JS.t) :
  JS.is_space c = false -> cleanText (c :: s) = c :: cleanText s.
Proof.
  intros E. unfold cleanText, replace_g.
  rewrite !replacing_S, !exec_whitespace. cbn [afterPrefix prefixOf].
  unfold solid at 1 3. rewrite E. cbn [negb].
  pose proof (prefix_after solid s) as Hs.
  destruct (afterPrefix solid s) as [|c' r]; [reflexivity|].
  pose proof (afterPrefix_length JS.is_space r) as Hr.
  apply (f_equal (@length Z)) in Hs. rewrite length_app in Hs. simpl in Hs.
  cbn [app]. do 3 f_equal.
  apply replacing_fuel; simpl; lia.
Qed.

(** A white-space character and the run of white space that follows it
    become one U+0020. *)
Lemma cleanText_space (c : Z) (s : JS.t) :
  JS.is_space c = true ->
  cleanText (c :: s) = 32 :: cleanText (afterPrefix JS.is_space s).
Proof.
  intros E. unfold cleanText, replace_g.
  assert (solid c = false) as Hc by (unfold solid; now rewrite E).
  rewrite replacing_S, exec_whitespace. cbn [afterPrefix prefixOf].
  rewrite Hc. cbn [app]. f_equal.
  pose proof (afterPrefix_length JS.is_space s) as Hr.
  apply replacing_fuel; simpl; lia.
Qed.

(** X1. [cleanText] leaves every character that is not white space in
    place and in order, turns every run of white space into a single
    U+0020, never makes the text longer, and changes nothing when applied
    a second time. Read from left to right: the empty text stays empty, a
    character that is not white space is copied, and a white-space
    character together with the whole run of white space that follows it
    becomes one U+0020. *)
Theorem cleanText_collapses_whitespace (pageText : JS.t) :
  let clean := cleanText pageText in
  singleSpaced clean
  /\ List.filter solid clean = List.filter solid pageText
  /\ (length clean <= length pageText)%nat
  /\ cleanText clean = clean
  /\ match pageText with
     | [] => clean = []
     | c :: s =>
         clean = if JS.is_space c
                 then 32 :: cleanText (afterPrefix JS.is_space s)
                 else c :: cleanText s
     end.
Proof.
  cbv zeta.
  destruct (replacing_whitespace (S (length pageText)) pageText)
    as (Hsingle & Hkeep & Hshort & _); [lia|].
  split; [exact Hsingle|]. split; [exact Hkeep|]. split; [exact Hshort|].
  split.
  - apply replacing_singleSpaced; [lia | exact Hsingle].
  - destruct pageText as [|c s]; [reflexivity|].
    destruct (JS.is_space c) eqn:E;
      [now apply cleanText_space | now apply cleanText_solid].
Qed.

End WhitespaceFacts.

(** ** services/pdfUtils.ts: the sentences of a page *)

Section PageFacts.

Import RegExp PdfUtils.

Lemma trimStart_suffix (s : JS.t) :
  exists pre, s = pre ++ JS.trimStart s.
Proof.
  induction s as [|c s [pre IH]]; [now exists []|].
  simpl. destruct (JS.is_space c).
  - exists (c :: pre). simpl. now f_equal.
  - now exists [].
Qed.

Lemma trimStart_fixed (s : JS.t) :
  match s with [] => True | c :: _ => JS.is_space c = false end ->
  JS.trimStart s = s.
Proof. destruct s as [|c s]; [reflexivity|]. simpl. now intros ->. Qed.

(** A trimmed string neither begins nor ends with white space. *)
Lemma trim_ends (s : JS.t) :
  match JS.trim s with [] => True | c :: _ => JS.is_space c = false end
  /\ match rev (JS.trim s) with [] => True | c :: _ => JS.is_space c = false end.
Proof.
  unfold JS.trim, JS.trimEnd.
  pose proof (trimStart_head s) as Hy.
  set (y := JS.trimStart s) in *.
  pose proof (trimStart_head (rev y)) as Hz.
  destruct (trimStart_suffix (rev y)) as [pre Hpre].
  set (z := JS.trimStart (rev y)) in *.
  split; [|now rewrite rev_involutive].
  apply (f_equal (@rev Z)) in Hpre.
  rewrite rev_involutive, rev_app_distr in Hpre.
  destruct (rev z) as [|c t]; [exact I|].
  rewrite Hpre in Hy. exact Hy.
Qed.

Lemma trim_trim (s : JS.t) : JS.trim (JS.trim s) = JS.trim s.
Proof.
  destruct (trim_ends s) as [Hhead Hlast].
  unfold JS.trim at 1. unfold JS.trimEnd.
  rewrite (trimStart_fixed (JS.trim s) Hhead).
  rewrite (trimStart_fixed (rev (JS.trim s)) Hlast).
  apply rev_involutive.
Qed.

(** What [parsePdf] keeps as a sentence: not empty, with no white space
    at either end, hence not blank. *)
Lemma kept_sentence (x : JS.t) :
  (0 <? length (JS.trim x))%nat = true ->
  JS.trim x <> []
  /\ JS.trim (JS.trim x) = JS.trim x
  /\ JS.blank (JS.trim x) = false.
Proof.
  intros Hlen. apply Nat.ltb_lt in Hlen.
  assert (JS.trim x <> []) as Hne by (destruct (JS.trim x); [simpl in Hlen; lia | discriminate]).
  split; [exact Hne|]. split; [apply trim_trim|].
  unfold JS.blank. rewrite trim_trim. now destruct (JS.trim x).
Qed.

Lemma pushTrimmed_kept (P : JS.t -> Prop) (segments acc : list JS.t) :
  (forall x, (0 <? length (JS.trim x))%nat = true -> P (JS.trim x)) ->
  Forall P acc ->
  Forall P (foldl pushTrimmed acc segments).
Proof.
  intros HP. revert acc. induction segments as [|x segments IH]; intros acc Hacc.
  - exact Hacc.
  - simpl. apply IH. unfold pushTrimmed.
    destruct (0 <? length (JS.trim x))%nat eqn:E; [|exact Hacc].
    apply Forall_app. split; [exact Hacc|]. constructor; [now apply HP | constructor].
Qed.

Lemma pageSentences_kept (segmenter : option (JS.t -> list JS.t)) (clean : JS.t) :
  Forall (fun s => s <> [] /\ JS.trim s = s /\ JS.blank s = false)
         (pageSentences segmenter clean).
Proof.
  unfold pageSentences. destruct segmenter as [segment|].
  - apply pushTrimmed_kept; [|constructor]. intros x Hx.
    destruct (kept_sentence x Hx) as (H1 & H2 & H3). now repeat split.
  - destruct (match_g sentencePattern clean) as [raw|]; [|constructor].
    apply List.Forall_forall. intros s Hs.
    apply List.filter_In in Hs as [Hin Hlen].
    apply List.in_map_iff in Hin as (x & <- & _).
    destruct (kept_sentence x Hlen) as (H1 & H2 & H3). now repeat split.
Qed.

End PageFacts.

(** ** services/pdfUtils.ts: parsePdf *)

Section ParseFacts.

Import PdfUtils.

Variable pdf : Pdf.
Variable segmenter : option (JS.t -> list JS.t).

Lemma upTo_S (n : nat) :
  sentencesUpTo pdf segmenter (S n)
  = sentencesUpTo pdf segmenter n ++ sentencesOfPage pdf segmenter (S n).
Proof.
  unfold sentencesUpTo. rewrite seq_S, map_app, concat_app. simpl.
  now rewrite app_nil_r.
Qed.

(** The loop over the pages: it fails as soon as a page cannot be read;
    otherwise it has gathered the sentences of the pages in order, and
    recorded before each page how many sentences it had so far. *)
Lemma pages_loop (n : nat) :
  match foldl (pageStep pdf segmenter) (Fulfilled ([], [])) (seq 1 n) with
  | Rejected _ =>
      exists i e, (1 <= i <= n)%nat /\ getPageText pdf i = Rejected e
  | Fulfilled (extractedSentences, pageMapping) =>
      extractedSentences = sentencesUpTo pdf segmenter n
      /\ pageMapping = map (fun i => Z.of_nat (length (sentencesUpTo pdf segmenter i))) (seq 0 n)
      /\ forall i, (1 <= i <= n)%nat ->
           exists items, getPageText pdf i = Fulfilled items
  end.
Proof.
  induction n as [|n IH].
  - simpl. split; [reflexivity|]. split; [reflexivity|]. intros i Hi. lia.
  - rewrite seq_S, foldl_app. cbn [foldl].
    destruct (foldl (pageStep pdf segmenter) (Fulfilled ([], [])) (seq 1 n))
      as [[sentences mapping]|e].
    + destruct IH as (-> & -> & Hread). cbn [pageStep].
      change (1 + n)%nat with (S n).
      destruct (getPageText pdf (S n)) as [items|e] eqn:E.
      * rewrite upTo_S. unfold sentencesOfPage. rewrite E.
        assert (forall i, (1 <= i <= S n)%nat ->
                  exists items, getPageText pdf i = Fulfilled items) as Hread'.
        { intros i Hi. destruct (Nat.eq_dec i (S n)) as [->|Hne]; [eauto|].
          apply Hread. lia. }
        rewrite seq_S, map_app. cbn [map Nat.add].
        destruct (0 <? length (sentencesOfItems segmenter items))%nat eqn:L.
        -- now repeat split.
        -- apply Nat.ltb_ge in L.
           assert (sentencesOfItems segmenter items = []) as ->
             by (destruct (sentencesOfItems segmenter items); [reflexivity | simpl in L; lia]).
           rewrite app_nil_r. now repeat split.
      * exists (S n), e. split; [lia | exact E].
    + destruct IH as (i & e' & Hi & Hrej). cbn [pageStep].
      exists i, e'. split; [lia | exact Hrej].
Qed.

Lemma parsePdf_loop (data : PdfData) :
  parsePdf (Fulfilled pdf) segmenter = Fulfilled data ->
  textSegments data = sentencesUpTo pdf segmenter (numPages pdf)
  /\ pageMapping data
     = map (fun i => Z.of_nat (length (sentencesUpTo pdf segmenter i))) (seq 0 (numPages pdf))
  /\ forall i, (1 <= i <= numPages pdf)%nat ->
       exists items, getPageText pdf i = Fulfilled items.
Proof.
  unfold parsePdf. pose proof (pages_loop (numPages pdf)) as Hloop.
  destruct (foldl (pageStep pdf segmenter) (Fulfilled ([], []))
                  (seq 1 (numPages pdf))) as [[sentences mapping]|e];
    [|discriminate].
  intros [= <-]. exact Hloop.
Qed.

Lemma upTo_split (i n : nat) :
  (i < n)%nat ->
  exists later,
    sentencesUpTo pdf segmenter n
    = sentencesUpTo pdf segmenter i
      ++ sentencesOfPage pdf segmenter (S i) ++ later.
Proof.
  intros Hi. induction n as [|n IH]; [lia|].
  destruct (Nat.eq_dec i n) as [->|Hne].
  - exists []. now rewrite app_nil_r, upTo_S.
  - destruct IH as [later IH]; [lia|].
    exists (later ++ sentencesOfPage pdf segmenter (S n)).
    now rewrite upTo_S, IH, <- !app_assoc.
Qed.

Lemma upTo_mono (i j : nat) :
  (i <= j)%nat ->
  (length (sentencesUpTo pdf segmenter i)
   <= length (sentencesUpTo pdf segmenter j))%nat.
Proof.
  induction 1 as [|j Hle IH]; [lia|].
  rewrite upTo_S, length_app. lia.
Qed.

(** The entry of a page in the mapping, and where its sentences sit. *)
Lemma pageMapping_at (data : PdfData) (i : nat) :
  parsePdf (Fulfilled pdf) segmenter = Fulfilled data ->
  (i < numPages pdf)%nat ->
  let k := length (sentencesUpTo pdf segmenter i) in
  let sentences := sentencesOfPage pdf segmenter (S i) in
  pageMapping data !! i = Some (Z.of_nat k)
  /\ (k <= length (textSegments data))%nat
  /\ take (length sentences) (drop k (textSegments data)) = sentences.
Proof.
  intros Hparse Hi. cbv zeta.
  destruct (parsePdf_loop data Hparse) as (Hsegs & Hmap & _).
  split.
  - rewrite Hmap, list_lookup_fmap, lookup_seq_lt; [reflexivity | exact Hi].
  - destruct (upTo_split i (numPages pdf) Hi) as [later Hsplit].
    rewrite Hsegs, Hsplit. split; [rewrite length_app; lia|].
    rewrite drop_app_length. now rewrite take_app_length.
Qed.

(** X3. The page mapping [parsePdf] returns with the sentences. The
    sentences are those of the pages in order. The mapping has one entry
    per page; the entry of a page is the number of sentences on the pages
    before it, so it never decreases from one page to the next and never
    exceeds the number of sentences; and the sentences of the page sit in
    [textSegments] from that index on (when the page has a sentence, the
    entry is the index of its first sentence). *)
Theorem parsePdf_page_mapping (data : PdfData) :
  parsePdf (Fulfilled pdf) segmenter = Fulfilled data ->
  textSegments data = sentencesUpTo pdf segmenter (numPages pdf)
  /\ length (pageMapping data) = numPages pdf
  /\ (forall i, (i < numPages pdf)%nat ->
        let k := length (sentencesUpTo pdf segmenter i) in
        let sentences := sentencesOfPage pdf segmenter (S i) in
        pageMapping data !! i = Some (Z.of_nat k)
        /\ (k <= length (textSegments data))%nat
        /\ take (length sentences) (drop k (textSegments data)) = sentences)
  /\ (forall i j k k', (i <= j)%nat ->
        pageMapping data !! i = Some k -> pageMapping data !! j = Some k' ->
        k <= k').
Proof.
  intros Hparse. destruct (parsePdf_loop data Hparse) as (Hsegs & Hmap & _).
  split; [exact Hsegs|]. split; [now rewrite Hmap, length_map, length_seq|].
  split; [intros i Hi; now apply pageMapping_at|].
  intros i j k k' Hij Hi Hj.
  assert (j < numPages pdf)%nat as Hjn.
  { apply lookup_lt_Some in Hj. now rewrite Hmap, length_map, length_seq in Hj. }
  destruct (pageMapping_at data i Hparse ltac:(lia)) as (Hi' & _).
  destruct (pageMapping_at data j Hparse Hjn) as (Hj' & _).
  rewrite Hi' in Hi. rewrite Hj' in Hj. injection Hi as <-. injection Hj as <-.
  apply Nat2Z.inj_le. now apply upTo_mono.
Qed.

(** X4. Every sentence [parsePdf] returns is not empty and has no white
    space at either end, whichever segmentation produced it; so no
    segment of a parsed document is blank. *)
Theorem parsePdf_sentences_never_blank (data : PdfData) :
  parsePdf (Fulfilled pdf) segmenter = Fulfilled data ->
  Forall (fun s => s <> [] /\ JS.trim s = s /\ JS.blank s = false)
         (textSegments data).
Proof.
  intros Hparse. destruct (parsePdf_loop data Hparse) as (-> & _ & _).
  unfold sentencesUpTo. apply List.Forall_forall. intros s Hs.
  apply List.in_concat in Hs as (page & Hpage & Hs).
  apply List.in_map_iff in Hpage as (i & <- & _).
  unfold sentencesOfPage in Hs.
  destruct (getPageText pdf i) as [items|e]; [|destruct Hs].
  pose proof (pageSentences_kept segmenter
                (cleanText (JS.join [32] items))) as Hkept.
  rewrite List.Forall_forall in Hkept. now apply Hkept.
Qed.

(** X5. [parsePdf] rejects when the document does not load, and for a
    loaded document exactly when the text of one of its pages cannot be
    read; a failure to read or resolve the outline is swallowed and gives
    an empty table of contents. *)
Theorem parsePdf_fails_only_on_pages :
  (forall e, parsePdf (Rejected e) segmenter = Rejected e)
  /\ ((exists data, parsePdf (Fulfilled pdf) segmenter = Fulfilled data)
      <-> (forall i, (1 <= i <= numPages pdf)%nat ->
             exists items, getPageText pdf i = Fulfilled items))
  /\ (forall data e, parsePdf (Fulfilled pdf) segmenter = Fulfilled data ->
        getOutline pdf = Rejected e -> toc data = []).
Proof.
  split; [reflexivity|]. split; [split|].
  - intros [data Hparse]. now destruct (parsePdf_loop data Hparse) as (_ & _ & H).
  - intros Hread. unfold parsePdf.
    pose proof (pages_loop (numPages pdf)) as Hloop.
    destruct (foldl (pageStep pdf segmenter) (Fulfilled ([], []))
                    (seq 1 (numPages pdf))) as [[sentences mapping]|e]; [eauto|].
    destruct Hloop as (i & e' & Hi & Hrej).
    destruct (Hread i Hi) as [items Hitems]. congruence.
  - intros data e Hparse Hout. unfold parsePdf in Hparse.
    destruct (foldl (pageStep pdf segmenter) (Fulfilled ([], []))
                    (seq 1 (numPages pdf))) as [[sentences mapping]|e'];
      [|discriminate].
    rewrite Hout in Hparse. now injection Hparse as <-.
Qed.

End ParseFacts.

(** ** App.tsx: handleTranslate *)

Section TranslateFacts.

Import Library.

Lemma slice_take_drop {A} (xs : list A) (i n : nat) :
  JS.slice xs (Z.of_nat i) (Z.of_nat (i + n)) = take n (drop i xs).
Proof.
  unfold JS.slice. rewrite Nat2Z.id.
  replace (Z.to_nat (Z.of_nat (i + n) - Z.of_nat i)) with n by lia.
  reflexivity.
Qed.

(** The chunks cut from index [i] on are the rest of the segments, 40 at
    a time. *)
Lemma chunksFrom_spec (segments : list JS.t) (fuel i : nat) :
  (length segments <= i + fuel)%nat ->
  let cs := chunksFrom fuel i segments in
  concat (map texts cs) = drop i segments
  /\ (forall k c, cs !! k = Some c ->
        start c = (i + BATCH_SIZE * k)%nat
        /\ texts c = take BATCH_SIZE (drop (start c) segments)
        /\ (start c < length segments)%nat).
Proof.
  revert i. induction fuel as [|fuel IH]; intros i Hlen; cbv zeta.
  - simpl. split; [|intros k c Hk; discriminate].
    symmetry. apply drop_ge. lia.
  - cbn [chunksFrom]. destruct (i <? length segments)%nat eqn:E.
    + apply Nat.ltb_lt in E.
      destruct (IH (i + BATCH_SIZE)%nat) as [Hcat Hat]; [unfold BATCH_SIZE; lia|].
      split.
      * cbn [map concat texts]. rewrite Hcat, slice_take_drop.
        rewrite <- drop_drop. apply take_drop.
      * intros [|k] c Hk.
        -- injection Hk as <-. cbn [start texts].
           rewrite slice_take_drop. split; [lia|]. split; [reflexivity | exact E].
        -- destruct (Hat k c Hk) as (Hs & Ht & Hl).
           split; [lia|]. now split.
    + apply Nat.ltb_ge in E. simpl. split; [|intros k c Hk; discriminate].
      symmetry. now apply drop_ge.
Qed.

Lemma chunksOf_lookup (segments : list JS.t) (k : nat) (c : Chunk) :
  chunksOf segments !! k = Some c ->
  start c = (40 * k)%nat
  /\ texts c = take 40 (drop (40 * k) segments)
  /\ (40 * k < length segments)%nat
  /\ forall j text, texts c !! j = Some text ->
       segments !! (start c + j)%nat = Some text.
Proof.
  unfold chunksOf.
  destruct (chunksFrom_spec segments (length segments) 0) as [_ Hat]; [lia|].
  intros Hk. destruct (Hat k c Hk) as (Hs & Ht & Hl).
  rewrite Nat.add_0_l in Hs. unfold BATCH_SIZE in *.
  split; [exact Hs|]. split; [now rewrite <- Hs|]. split; [now rewrite <- Hs|].
  intros j text Hj. rewrite Ht in Hj.
  apply lookup_take_Some in Hj as [Hj _].
  now rewrite lookup_drop in Hj.
Qed.

(** X6. The chunks [handleTranslate] sends to [translateBatch]: put end to
    end they are the segments of the document, each sentence once and in
    order; chunk number [k] starts at index [40 * k] and holds the 40
    segments from there on, fewer for the last chunk, never none. *)
Theorem handleTranslate_chunks_partition (segments : list JS.t) :
  let cs := chunksOf segments in
  concat (map texts cs) = segments
  /\ (forall k c, cs !! k = Some c ->
        start c = (40 * k)%nat
        /\ texts c = take 40 (drop (40 * k) segments)
        /\ (1 <= length (texts c) <= 40)%nat
        /\ forall j text, texts c !! j = Some text ->
             segments !! (start c + j)%nat = Some text).
Proof.
  cbv zeta.
  split.
  - unfold chunksOf.
    now destruct (chunksFrom_spec segments (length segments) 0) as [Hcat _]; [lia|].
  - intros k c Hk. destruct (chunksOf_lookup segments k c Hk) as (Hs & Ht & Hl & Hseg).
    split; [exact Hs|]. split; [exact Ht|]. split; [|exact Hseg].
    rewrite Ht, length_take, length_drop. lia.
Qed.

Lemma writeBack_length (start j : nat) (translated segments : list JS.t) :
  length (writeBack start j translated segments) = length segments.
Proof.
  revert j segments. induction translated as [|t rest IH]; intros j segments;
    [reflexivity|].
  cbn [writeBack]. rewrite IH.
  destruct (start + j <? length segments)%nat; [apply length_insert | reflexivity].
Qed.

(** The inner loop leaves alone what lies outside the reply. *)
Lemma writeBack_outside (start j : nat) (translated segments : list JS.t) (i : nat) :
  (i < start + j \/ start + j + length translated <= i)%nat ->
  writeBack start j translated segments !! i = segments !! i.
Proof.
  revert j segments. induction translated as [|t rest IH]; intros j segments Hi;
    [reflexivity|].
  cbn [writeBack]. rewrite IH by (simpl in Hi; lia).
  destruct (start + j <? length segments)%nat; [|reflexivity].
  apply list_lookup_insert_ne. simpl in Hi. lia.
Qed.

(** The inner loop writes the reply over the segments that exist. *)
Lemma writeBack_inside (start j : nat) (translated segments : list JS.t)
    (i : nat) (x : JS.t) :
  (start + j <= i)%nat -> (i < length segments)%nat ->
  translated !! (i - (start + j))%nat = Some x ->
  writeBack start j translated segments !! i = Some x.
Proof.
  revert j segments. induction translated as [|t rest IH]; intros j segments Hle Hlt Hx;
    [discriminate|].
  cbn [writeBack].
  destruct (Nat.eq_dec i (start + j)%nat) as [->|Hne].
  - rewrite writeBack_outside by lia.
    rewrite Nat.sub_diag in Hx. injection Hx as ->.
    apply Nat.ltb_lt in Hlt. rewrite Hlt.
    apply list_lookup_insert_eq. now apply Nat.ltb_lt.
  - apply IH; [lia | |].
    + destruct (start + j <? length segments)%nat;
        [now rewrite length_insert | exact Hlt].
    + replace (i - (start + j))%nat with (S (i - (start + S j))) in Hx by lia.
      exact Hx.
Qed.

Lemma translateChunks_length
    (translateBatch : list JS.t -> JS.Settled (list JS.t))
    (cs : list Chunk) (current new : list JS.t) :
  translateChunks translateBatch cs current = Fulfilled new ->
  length new = length current.
Proof.
  revert current. induction cs as [|c cs IH]; intros current H.
  - now injection H as <-.
  - cbn [translateChunks] in H.
    destruct (translateBatch (texts c)) as [t|e]; [|discriminate].
    rewrite (IH _ H). apply writeBack_length.
Qed.

(** The loop over the chunks when no reply is longer than its chunk:
    outside the chunks nothing changes, and inside a chunk each segment
    becomes the element of the reply at its offset, if there is one. *)
Lemma translateChunks_spec
    (translateBatch : list JS.t -> JS.Settled (list JS.t))
    (cs : list Chunk) (current new : list JS.t) :
  translateChunks translateBatch cs current = Fulfilled new ->
  apart cs ->
  Forall (fun c => (start c + length (texts c) <= length current)%nat) cs ->
  (forall c t, In c cs -> translateBatch (texts c) = Fulfilled t ->
     (length t <= length (texts c))%nat) ->
  (forall i, Forall (fun c => (i < start c \/ start c + length (texts c) <= i)%nat) cs ->
     new !! i = current !! i)
  /\ (forall c, In c cs ->
        exists t, translateBatch (texts c) = Fulfilled t
          /\ forall j, (j < length (texts c))%nat ->
               new !! (start c + j)%nat
               = match t !! j with
                 | Some x => Some x
                 | None => current !! (start c + j)%nat
                 end).
Proof.
  revert current. induction cs as [|c cs IH]; intros current H Hapart Hin Hshort.
  - injection H as <-. split; [reflexivity|]. intros c [].
  - cbn [translateChunks] in H.
    destruct (translateBatch (texts c)) as [t|e] eqn:E; [|discriminate].
    destruct Hapart as [Hafter Hapart].
    apply Forall_cons in Hin as [Hc Hin].
    assert (length t <= length (texts c))%nat as Ht by (apply Hshort; [now left | exact E]).
    destruct (IH _ H Hapart) as [Hout Hat].
    { rewrite writeBack_length. exact Hin. }
    { intros c' t' Hc'. apply Hshort. now right. }
    split.
    + intros i Hi. apply Forall_cons in Hi as [Hic Hi].
      rewrite (Hout i Hi). apply writeBack_outside. lia.
    + intros c' [<-|Hc'].
      * exists t. split; [exact E|]. intros j Hj.
        rewrite Hout.
        2:{ apply List.Forall_forall. intros c' Hc'.
            rewrite List.Forall_forall in Hafter. specialize (Hafter c' Hc'). lia. }
        destruct (t !! j) as [x|] eqn:X.
        -- apply writeBack_inside; [lia | lia |].
           now replace (start c + j - (start c + 0))%nat with j by lia.
        -- apply writeBack_outside. apply lookup_ge_None in X. lia.
      * destruct (Hat c' Hc') as (t' & E' & Hj'). exists t'. split; [exact E'|].
        intros j Hj. rewrite (Hj' j Hj).
        destruct (t' !! j); [reflexivity|].
        apply writeBack_outside.
        rewrite List.Forall_forall in Hafter. specialize (Hafter c' Hc'). lia.
Qed.

Lemma apart_by_index (cs : list Chunk) :
  (forall k k' c c', cs !! k = Some c -> cs !! k' = Some c' -> (k < k')%nat ->
     (start c + length (texts c) <= start c')%nat) ->
  apart cs.
Proof.
  induction cs as [|c cs IH]; intros H; [exact I|].
  split.
  - apply List.Forall_forall. intros c' Hc'.
    apply list_elem_of_In, list_elem_of_lookup in Hc' as [k' Hk'].
    apply (H 0%nat (S k') c c'); [reflexivity | exact Hk' | lia].
  - apply IH. intros k k' c1 c2 H1 H2 Hlt.
    apply (H (S k) (S k') c1 c2); [exact H1 | exact H2 | lia].
Qed.

Lemma chunksOf_apart (segments : list JS.t) :
  apart (chunksOf segments)
  /\ Forall (fun c => (start c + length (texts c) <= length segments)%nat)
            (chunksOf segments).
Proof.
  pose proof (chunksOf_lookup segments) as Hat.
  split.
  - apply apart_by_index. intros k k' c c' Hk Hk' Hlt.
    destruct (Hat k c Hk) as (Hs & Ht & _).
    destruct (Hat k' c' Hk') as (Hs' & _).
    rewrite Ht, length_take, length_drop. lia.
  - apply List.Forall_forall. intros c Hc.
    apply list_elem_of_In, list_elem_of_lookup in Hc as [k Hk].
    destruct (Hat k c Hk) as (Hs & Ht & Hl).
    rewrite Ht, length_take, length_drop. lia.
Qed.

(** X7. The segments [handleTranslate] builds. Whatever [translateBatch]
    answers, the translated document has as many segments as the original
    one. When no answer is longer than the chunk it answers for, each
    segment is replaced by the element of the answer at its place in the
    chunk, and keeps its original text when the answer is too short to
    have one. *)
Theorem handleTranslate_keeps_length_and_order
    (translateBatch : list JS.t -> JS.Settled (list JS.t))
    (segments new : list JS.t) :
  translateSegments translateBatch segments = Fulfilled new ->
  length new = length segments
  /\ ((forall c t, In c (chunksOf segments) ->
         translateBatch (texts c) = Fulfilled t ->
         (length t <= length (texts c))%nat) ->
      forall c, In c (chunksOf segments) ->
        exists t, translateBatch (texts c) = Fulfilled t
          /\ forall j text, texts c !! j = Some text ->
               new !! (start c + j)%nat = Some (default text (t !! j))).
Proof.
  unfold translateSegments. intros H.
  split; [now apply translateChunks_length in H|].
  intros Hshort c Hc.
  destruct (chunksOf_apart segments) as [Hapart Hin].
  destruct (translateChunks_spec _ _ _ _ H Hapart Hin Hshort) as [_ Hat].
  destruct (Hat c Hc) as (t & E & Hj). exists t. split; [exact E|].
  intros j text Htext. rewrite Hj by (now apply lookup_lt_Some in Htext).
  destruct (t !! j); [reflexivity|]. simpl.
  apply list_elem_of_In, list_elem_of_lookup in Hc as [k Hk].
  destruct (chunksOf_lookup segments k c Hk) as (_ & _ & _ & Hseg). now apply Hseg.
Qed.

Lemma translateChunks_rejects
    (translateBatch : list JS.t -> JS.Settled (list JS.t))
    (cs : list Chunk) (current : list JS.t) :
  (exists e, translateChunks translateBatch cs current = Rejected e)
  <-> (exists c e, In c cs /\ translateBatch (texts c) = Rejected e).
Proof.
  revert current. induction cs as [|c cs IH]; intros current.
  - split; [intros [e H]; discriminate | intros (c & e & [] & _)].
  - cbn [translateChunks].
    destruct (translateBatch (texts c)) as [t|e] eqn:E.
    + rewrite IH. split.
      * intros (c' & e' & Hc' & He'). exists c', e'. split; [now right | exact He'].
      * intros (c' & e' & [<-|Hc'] & He'); [congruence|]. now exists c', e'.
    + split; [|eauto]. intros _. exists c, e. split; [now left | exact E].
Qed.

(** What the end of the loop over the chunks does to the state [d] it
    finds. *)
Lemma translated_outcome (r : App.Render)
    (translateBatch : list JS.t -> JS.Settled (list JS.t)) (d : State) :
  let d' := translated r translateBatch d in
  isTranslating d' = false
  /\ ((exists c e, In c (chunksOf (App.r_textSegments r))
                   /\ translateBatch (texts c) = Rejected e) ->
      App.textSegments (app d') = App.textSegments (app d)
      /\ App.playback (app d') = App.playback (app d)
      /\ App.audioCache (app d') = App.audioCache (app d)
      /\ App.alerts (app d')
         = App.alerts (app d) ++ [JS.lit "Translation failed. Please try again."])
  /\ ((forall c, In c (chunksOf (App.r_textSegments r)) ->
         exists t, translateBatch (texts c) = Fulfilled t) ->
      translateSegments translateBatch (App.r_textSegments r)
      = Fulfilled (App.textSegments (app d'))
      /\ App.currentIndex (App.playback (app d')) = 0
      /\ App.isPlaying (App.playback (app d')) = App.isPlaying (App.playback (app d))
      /\ App.isLoading (App.playback (app d')) = App.isLoading (App.playback (app d))
      /\ App.detectedEmotion (App.playback (app d'))
         = App.detectedEmotion (App.playback (app d))
      /\ AudioLRUCache.keys (App.audioCache (app d')) = []
      /\ App.alerts (app d') = App.alerts (app d)).
Proof.
  cbv zeta. unfold translated.
  pose proof (translateChunks_rejects translateBatch
                (chunksOf (App.r_textSegments r)) (App.r_textSegments r)) as Hrej.
  fold (translateSegments translateBatch (App.r_textSegments r)) in Hrej.
  destruct (translateSegments translateBatch (App.r_textSegments r)) as [new|e].
  - split; [reflexivity|]. split.
    + intros Hfail. apply Hrej in Hfail as [e He]. discriminate.
    + intros _. now repeat split.
  - split; [reflexivity|]. split.
    + intros _. now repeat split.
    + intros Hall. destruct Hrej as [(c & e' & Hc & He) _]; [eauto|].
      destruct (Hall c Hc) as [t Ht]. congruence.
Qed.

(** What [stopAudio] leaves of the state. *)
Lemma stopAudio_outcome (st : App.State) :
  let st' := App.stopAudio st in
  App.playback st'
  = {| App.isPlaying := false; App.isLoading := false;
       App.currentIndex := App.currentIndex (App.playback st);
       App.detectedEmotion := None |}
  /\ App.synth st' = []
  /\ App.audioRef st' = None
  /\ App.sourceNodeRef st' = None
  /\ App.textSegments st' = App.textSegments st
  /\ App.audioCache st' = App.audioCache st
  /\ App.alerts st' = App.alerts st.
Proof.
  cbv zeta. unfold App.stopAudio, App.setPlayback, App.pauseAt, App.stopAt.
  destruct st as [pb se sid ts pid ac ai ar sr sy au no ta fe rq ti al co].
  destruct ar, sr; cbn; now repeat split.
Qed.

(** X8. [handleTranslate], from the click to the end of the loop over the
    chunks. With no segments the click does nothing. Otherwise the click
    sets the translating flag and stops the audio at once, before any
    chunk is sent: playback is off and not loading, the tone is
    forgotten, the speech queue is empty and the audio refs are cleared,
    while the current index, the segments, the cache and the alerts stay.
    The document is then translated all or nothing. When [translateBatch]
    rejects for one chunk, the segments and the cache are those of before
    the click, also for the chunks already translated, the playback
    record is the stopped one, and one alert is shown. When it answers
    for every chunk, the segments are replaced, the current index goes
    back to 0 with playback still off, the cache is emptied and no alert
    is shown. In both cases the translating flag is cleared. The last
    part says the same of the end of the loop in any state [d1] the
    component is in by then (the user may have started playback again):
    relative to [d1], a rejection changes the alerts and the flag only,
    and a success the segments, the current index, the cache and the
    flag. *)
Theorem handleTranslate_all_or_nothing (r : App.Render)
    (translateBatch : list JS.t -> JS.Settled (list JS.t)) (d : State) :
  let rejects := exists c e, In c (chunksOf (App.r_textSegments r))
                             /\ translateBatch (texts c) = Rejected e in
  let answers := forall c, In c (chunksOf (App.r_textSegments r)) ->
                           exists t, translateBatch (texts c) = Fulfilled t in
  let failure := JS.lit "Translation failed. Please try again." in
  match handleTranslate r d with
  | None => App.r_textSegments r = []
  | Some d0 =>
      App.r_textSegments r <> []
      /\ isTranslating d0 = true
      /\ App.playback (app d0)
         = {| App.isPlaying := false; App.isLoading := false;
              App.currentIndex := App.currentIndex (App.playback (app d));
              App.detectedEmotion := None |}
      /\ App.synth (app d0) = []
      /\ App.audioRef (app d0) = None
      /\ App.sourceNodeRef (app d0) = None
      /\ App.textSegments (app d0) = App.textSegments (app d)
      /\ App.audioCache (app d0) = App.audioCache (app d)
      /\ App.alerts (app d0) = App.alerts (app d)
      /\ let d' := translated r translateBatch d0 in
         isTranslating d' = false
         /\ (rejects ->
             App.textSegments (app d') = App.textSegments (app d)
             /\ App.playback (app d') = App.playback (app d0)
             /\ App.audioCache (app d') = App.audioCache (app d)
             /\ App.alerts (app d') = App.alerts (app d) ++ [failure])
         /\ (answers ->
             translateSegments translateBatch (App.r_textSegments r)
             = Fulfilled (App.textSegments (app d'))
             /\ App.playback (app d')
                = {| App.isPlaying := false; App.isLoading := false;
                     App.currentIndex := 0; App.detectedEmotion := None |}
             /\ AudioLRUCache.keys (App.audioCache (app d')) = []
             /\ App.alerts (app d') = App.alerts (app d))
  end
  /\ forall d1,
       let d' := translated r translateBatch d1 in
       isTranslating d' = false
       /\ (rejects ->
           App.textSegments (app d') = App.textSegments (app d1)
           /\ App.playback (app d') = App.playback (app d1)
           /\ App.audioCache (app d') = App.audioCache (app d1)
           /\ App.alerts (app d') = App.alerts (app d1) ++ [failure])
       /\ (answers ->
           translateSegments translateBatch (App.r_textSegments r)
           = Fulfilled (App.textSegments (app d'))
           /\ App.currentIndex (App.playback (app d')) = 0
           /\ App.isPlaying (App.playback (app d'))
              = App.isPlaying (App.playback (app d1))
           /\ AudioLRUCache.keys (App.audioCache (app d')) = []
           /\ App.alerts (app d') = App.alerts (app d1)).
Proof.
  cbv zeta. split.
  - unfold handleTranslate.
    destruct (App.r_textSegments r) as [|s segs] eqn:Hsegs; [reflexivity|].
    cbn [length Nat.eqb]. rewrite <- Hsegs.
    set (d0 := with_app App.stopAudio (setIsTranslating true d)).
    destruct (stopAudio_outcome (app d))
      as (Hplay & Hsynth & Haudio & Hnode & Htext & Hcache & Halerts).
    change (app d0) with (App.stopAudio (app d)).
    destruct (translated_outcome r translateBatch d0)
      as (Hflag & Hfail & Hdone).
    change (app d0) with (App.stopAudio (app d)) in Hfail, Hdone.
    split; [congruence|]. split; [reflexivity|].
    split; [exact Hplay|]. split; [exact Hsynth|]. split; [exact Haudio|].
    split; [exact Hnode|]. split; [exact Htext|]. split; [exact Hcache|].
    split; [exact Halerts|]. split; [exact Hflag|]. split.
    + intros Hrej. destruct (Hfail Hrej) as (H1 & H2 & H3 & H4).
      split; [congruence|]. split; [exact H2|]. split; congruence.
    + intros Hall.
      destruct (Hdone Hall) as (H1 & H2 & H3 & H4 & H5 & H6 & H7).
      split; [exact H1|]. split; [|split; [exact H6 | congruence]].
      rewrite Hplay in H3, H4, H5.
      destruct (App.playback (app (translated r translateBatch d0)))
        as [playing loading index tone].
      cbn [App.isPlaying App.isLoading App.currentIndex App.detectedEmotion]
        in H2, H3, H4, H5.
      congruence.
  - intros d1.
    destruct (translated_outcome r translateBatch d1) as (Hflag & Hfail & Hdone).
    split; [exact Hflag|]. split; [exact Hfail|].
    intros Hall. destruct (Hdone Hall) as (H1 & H2 & H3 & _ & _ & H6 & H7).
    now repeat split.
Qed.

End TranslateFacts.

(** ** App.tsx: handleNavigate *)

Section NavigateFacts.

Import PdfUtils Library.

(** X9. Navigation in a document loaded from [parsePdf]. For a page of the
    document (numbered from 0, as pdf.js numbers them), [handleNavigate]
    stops the audio and schedules a seek to the number of sentences on
    the pages before it; when the timeout runs, playback is on at that
    index, and if the page has a sentence the segment at that index is
    its first sentence. For any other page index (negative, -1 included,
    or past the last page) [handleNavigate] does nothing. *)
Theorem handleNavigate_seeks_first_sentence
    (pdf : Pdf) (segmenter : option (JS.t -> list JS.t)) (data : PdfData)
    (d : State) (innerWidth : Z) :
  parsePdf (Fulfilled pdf) segmenter = Fulfilled data ->
  let loaded := fileParsed false (Fulfilled data) d in
  (forall i, (i < numPages pdf)%nat ->
     let k := Z.of_nat (length (sentencesUpTo pdf segmenter i)) in
     let '(seek, d') := handleNavigate (Z.of_nat i) innerWidth loaded in
     seek = Some k
     /\ app d' = App.stopAudio (app loaded)
     /\ App.playback (App.seekTimeout k (app d'))
        = {| App.isPlaying := true; App.isLoading := false;
             App.currentIndex := k; App.detectedEmotion := None |}
     /\ forall s, head (sentencesOfPage pdf segmenter (S i)) = Some s ->
          JS.index (App.textSegments (App.seekTimeout k (app d'))) k = Some s)
  /\ (forall p, p < 0 \/ Z.of_nat (numPages pdf) <= p ->
        handleNavigate p innerWidth loaded = (None, loaded)).
Proof.
  intros Hparse. cbv zeta.
  pose proof (pageMapping_at pdf segmenter data) as Hat.
  assert (length (PdfUtils.pageMapping data) = numPages pdf) as Hlen.
  { destruct (parsePdf_loop pdf segmenter data Hparse) as (_ & -> & _).
    now rewrite length_map, length_seq. }
  assert (pageMapping (fileParsed false (Fulfilled data) d) = PdfUtils.pageMapping data)
    as Hmap.
  { unfold fileParsed. now destruct (0 <? length (PdfUtils.toc data))%nat. }
  assert (App.textSegments (app (fileParsed false (Fulfilled data) d))
          = textSegments data) as Htext.
  { unfold fileParsed. now destruct (0 <? length (PdfUtils.toc data))%nat. }
  split.
  - intros i Hi. destruct (Hat i Hparse Hi) as (Hk & Hle & Htake).
    unfold handleNavigate, JS.index. rewrite Hmap.
    destruct (Z.of_nat i <? 0) eqn:Neg; [apply Z.ltb_lt in Neg; lia|].
    rewrite Nat2Z.id, Hk.
    split; [reflexivity|].
    split; [now destruct (innerWidth <? 768)|].
    split; [reflexivity|].
    intros s Hs.
    assert (App.textSegments (App.seekTimeout
              (Z.of_nat (length (sentencesUpTo pdf segmenter i)))
              (app (if innerWidth <? 768
                    then setIsMobileMenuOpen false
                           (with_app App.stopAudio (fileParsed false (Fulfilled data) d))
                    else with_app App.stopAudio (fileParsed false (Fulfilled data) d))))
            = textSegments data) as ->.
    { rewrite <- Htext. destruct (innerWidth <? 768); cbn;
        destruct (App.audioRef _), (App.sourceNodeRef _); reflexivity. }
    destruct (Z.of_nat (length (sentencesUpTo pdf segmenter i)) <? 0) eqn:Neg';
      [apply Z.ltb_lt in Neg'; lia|].
    rewrite Nat2Z.id.
    destruct (sentencesOfPage pdf segmenter (S i)) as [|s0 rest]; [discriminate|].
    injection Hs as ->.
    apply (f_equal (fun l => l !! 0%nat)) in Htake.
    rewrite lookup_take_lt, lookup_drop, Nat.add_0_r in Htake by (simpl; lia).
    exact Htake.
  - intros p Hp. unfold handleNavigate, JS.index. rewrite Hmap.
    destruct (p <? 0) eqn:Neg; [reflexivity|].
    apply Z.ltb_ge in Neg.
    rewrite (lookup_ge_None_2 (PdfUtils.pageMapping data) (Z.to_nat p));
      [reflexivity | lia].
Qed.

End NavigateFacts.

(** ** The statements above on a concrete document *)

Section BookFacts.

Import PdfUtils Library.

(** The page mapping of the three-page document: the third page begins
    at sentence 2, which is its only sentence. *)
Lemma parsePdf_page_mapping_witness :
  length (PdfUtils.pageMapping Book.parsed) = 3%nat
  /\ PdfUtils.pageMapping Book.parsed !! 2%nat = Some 2
  /\ take 1 (drop 2 (textSegments Book.parsed)) = [JS.lit "The end"].
Proof.
  destruct (parsePdf_page_mapping Book.threePages None Book.parsed
              ltac:(vm_compute; reflexivity)) as (_ & Hlen & Hat & _).
  destruct (Hat 2%nat ltac:(vm_compute; lia)) as (Hk & _ & Htake).
  split; [exact Hlen|]. vm_compute in Hk, Htake. vm_compute.
  split; [exact Hk | exact Htake].
Defined.

(** The sentences of the three-page document are not blank. *)
Lemma parsePdf_sentences_never_blank_witness :
  Forall (fun s => s <> [] /\ JS.trim s = s /\ JS.blank s = false)
         [JS.lit "Hello world."; JS.lit "How are you?"; JS.lit "The end"].
Proof.
  exact (parsePdf_sentences_never_blank Book.threePages None Book.parsed
           ltac:(vm_compute; reflexivity)).
Defined.

(** Two segments and a service that answers for the first one only: the
    first segment is translated, the second keeps its text. *)
Lemma handleTranslate_keeps_length_and_order_witness :
  translateSegments Book.firstOnly [JS.lit "Hello."; JS.lit "World."]
  = Fulfilled [JS.lit "[Hello.]"; JS.lit "World."]
  /\ length [JS.lit "[Hello.]"; JS.lit "World."] = 2%nat.
Proof.
  assert (translateSegments Book.firstOnly [JS.lit "Hello."; JS.lit "World."]
          = Fulfilled [JS.lit "[Hello.]"; JS.lit "World."]) as H
    by (vm_compute; reflexivity).
  split; [exact H|].
  now destruct (handleTranslate_keeps_length_and_order _ _ _ H) as [Hlen _].
Defined.

(** Navigation to the third page of the three-page document, in a narrow
    window: the seek goes to sentence 2, [The end]. *)
Lemma handleNavigate_seeks_first_sentence_witness :
  let loaded := fileParsed false (Fulfilled Book.parsed) (mounted [] false) in
  fst (handleNavigate 2 500 loaded) = Some 2
  /\ handleNavigate 3 500 loaded = (None, loaded)
  /\ handleNavigate (-1) 500 loaded = (None, loaded).
Proof.
  cbv zeta.
  destruct (handleNavigate_seeks_first_sentence Book.threePages None Book.parsed
              (mounted [] false) 500 ltac:(vm_compute; reflexivity))
    as [Hin Hout].
  specialize (Hin 2%nat ltac:(vm_compute; lia)).
  split; [|split; apply Hout; vm_compute; [right | left]; congruence].
  cbv zeta in Hin. change (Z.of_nat 2) with 2 in Hin.
  destruct (handleNavigate 2 500 _) as [seek d'].
  destruct Hin as (-> & _). vm_compute. reflexivity.
Defined.

End BookFacts.

(** ** class AudioLRUCache: the cache as a map *)

Section CacheMapFacts.
Context {V : Type}.
Import AudioLRUCache.
Implicit Types (c : AudioLRUCache.t V) (m : JSMap.t V) (o : op V).

Lemma keys_NoDup_set c key value :
  List.NoDup (keys c) -> List.NoDup (keys (set c key value)).
Proof.
  intros Hnd. rewrite keys_set by exact Hnd.
  destruct (has c key) eqn:Hhas.
  - apply NoDup_snoc; [now apply NoDup_without|]. rewrite in_without. tauto.
  - assert (~ In key (keys c)) as Hn by (rewrite <- has_iff; congruence).
    destruct (size c >=? capacity c).
    + destruct (keys c) as [|k0 ks]; simpl in *.
      * repeat constructor. tauto.
      * apply List.NoDup_cons_iff in Hnd as [_ Hnd]. apply NoDup_snoc; tauto.
    + now apply NoDup_snoc.
Qed.

Lemma keys_NoDup_get c key :
  List.NoDup (keys c) -> List.NoDup (keys (snd (get c key))).
Proof.
  intros Hnd. destruct (has c key) eqn:Hhas.
  - rewrite keys_get_hit by assumption.
    apply NoDup_snoc; [now apply NoDup_without|]. rewrite in_without. tauto.
  - now rewrite get_miss.
Qed.

Lemma keys_NoDup_exec c o :
  List.NoDup (keys c) -> List.NoDup (keys (exec c o)).
Proof.
  intros Hnd. destruct o as [k|k v|k|k|]; cbn [exec].
  - now apply keys_NoDup_get.
  - now apply keys_NoDup_set.
  - exact Hnd.
  - unfold keys, delete. cbn [cache]. rewrite keys_delete by exact Hnd.
    now apply NoDup_without.
  - constructor.
Qed.

Lemma keys_NoDup_run c (ops : list (op V)) :
  List.NoDup (keys c) -> List.NoDup (keys (run c ops)).
Proof.
  revert c. induction ops as [|o ops IH]; intros c Hnd; [exact Hnd|].
  apply (IH (exec c o)). now apply keys_NoDup_exec.
Qed.

Lemma map_get_delete_same m key :
  List.NoDup (JSMap.keys m) -> JSMap.get (JSMap.delete m key) key = None.
Proof.
  intros Hnd.
  destruct (JSMap.get (JSMap.delete m key) key) as [p|] eqn:E; [|reflexivity].
  assert (JSMap.has (JSMap.delete m key) key = true) as Hhas
    by (unfold JSMap.has; now rewrite E).
  apply has_keys in Hhas. rewrite keys_delete in Hhas by exact Hnd.
  apply in_without in Hhas. tauto.
Qed.

Lemma map_get_set_same m key value :
  JSMap.get (JSMap.set m key value) key = Some value.
Proof.
  induction m as [|[k v] m IH]; simpl; [now rewrite Z.eqb_refl|].
  destruct (Z.eqb_spec k key) as [->|Hne]; simpl.
  - now rewrite Z.eqb_refl.
  - destruct (Z.eqb_spec k key); [contradiction | exact IH].
Qed.

Lemma peek_set_same c key value : peek (set c key value) key = Some value.
Proof. unfold peek, set. cbn [cache]. apply map_get_set_same. Qed.

(** [get] returns what is stored and does not change what is stored. *)
Lemma get_peek c key :
  List.NoDup (keys c) ->
  fst (get c key) = peek c key
  /\ forall k, peek (snd (get c key)) k = peek c k.
Proof.
  intros Hnd. unfold get, peek, JSMap.has.
  destruct (JSMap.get (cache c) key) as [val|] eqn:E; cbn [negb fst snd cache];
    [|now split].
  split; [reflexivity|]. intros k.
  destruct (Z.eq_dec k key) as [->|Hne].
  - now rewrite map_get_set_same.
  - now rewrite get_set_other, get_delete_other.
Qed.

(** X10. The cache read as a map, at any point of any sequence of
    operations on a new cache and for any capacity. A value stored by
    [set] is what [get] returns next. [get] on a key that is not there
    returns [undefined] and leaves the cache as it is; on a key that is
    there it returns the stored value; and no [get] changes what is
    stored under any key. After [delete] the key is gone and the other
    keys hold what they held. [set] leaves the other keys alone, except
    for the one it evicts: the first key, when the key stored is new and
    the cache is full. After [clear] no key is there. *)
Theorem lru_cache_reads_as_a_map (cap : Z) (ops : list (op V))
    (key : Z) (value : V) :
  let c := run (new cap) ops in
  fst (get (set c key value) key) = Some value
  /\ (has c key = false -> get c key = (None, c))
  /\ fst (get c key) = peek c key
  /\ (forall k, peek (snd (get c key)) k = peek c k)
  /\ (fst (get (delete c key) key) = None
      /\ has (delete c key) key = false
      /\ forall k, k <> key -> peek (delete c key) k = peek c k)
  /\ (forall k, k <> key ->
        peek (set c key value) k = peek c k
        \/ (has c key = false /\ capacity c <= size c
            /\ head (keys c) = Some k /\ peek (set c key value) k = None))
  /\ (forall k, peek (clear c) k = None /\ has (clear c) k = false).
Proof.
  cbv zeta. set (c := run (new cap) ops).
  assert (List.NoDup (keys c)) as Hnd by (apply keys_NoDup_run; constructor).
  split.
  { destruct (get_peek (set c key value) key) as [-> _];
      [now apply keys_NoDup_set | apply peek_set_same]. }
  split; [apply get_miss|].
  destruct (get_peek c key Hnd) as [Hget Hkeep].
  split; [exact Hget|]. split; [exact Hkeep|].
  assert (peek (delete c key) key = None) as Hgone.
  { unfold peek, delete. cbn [cache]. now apply map_get_delete_same. }
  split; [split; [|split]|split].
  - destruct (get_peek (delete c key) key) as [-> _]; [|exact Hgone].
    unfold keys, delete. cbn [cache]. rewrite keys_delete by exact Hnd.
    now apply NoDup_without.
  - unfold has, JSMap.has. unfold peek in Hgone. now rewrite Hgone.
  - intros k Hk. unfold peek, delete. cbn [cache]. now apply get_delete_other.
  - intros k Hk. unfold peek, set. cbn [cache].
    rewrite get_set_other by exact Hk.
    unfold has. destruct (JSMap.has (cache c) key) eqn:Hhas.
    + left. now apply get_delete_other.
    + destruct (JSMap.size (cache c) >=? capacity c) eqn:Hfull; [|now left].
      unfold keys, JSMap.firstKey.
      destruct (cache c) as [|[k0 v0] m] eqn:Hc; [now left|].
      destruct (Z.eq_dec k k0) as [->|Hne].
      * right. split; [reflexivity|].
        split; [unfold size; rewrite Hc; apply Z.geb_le in Hfull; lia|].
        split; [reflexivity|].
        apply map_get_delete_same. unfold keys in Hnd. now rewrite Hc in Hnd.
      * left. now apply get_delete_other.
  - intros k. split; reflexivity.
Qed.

End CacheMapFacts.

(** ** class AudioLRUCache: what was used last stays *)

Section CacheRecencyFacts.
Context {V : Type}.
Import AudioLRUCache Observe.
Implicit Types (c : AudioLRUCache.t V) (m : JSMap.t V) (o : op V).

Lemma map_set_absent m key value :
  ~ In key (JSMap.keys m) -> JSMap.set m key value = m ++ [(key, value)].
Proof.
  induction m as [|[k v] m IH]; simpl; [reflexivity|].
  intros Hn. destruct (Z.eqb_spec k key) as [->|Hne]; [tauto|].
  f_equal. apply IH. tauto.
Qed.

Lemma map_get_middle (pre post : JSMap.t V) key value :
  List.NoDup (JSMap.keys (pre ++ (key, value) :: post)) ->
  JSMap.get (pre ++ (key, value) :: post) key = Some value.
Proof.
  induction pre as [|[k v] pre IH]; simpl; intros Hnd.
  - now rewrite Z.eqb_refl.
  - apply List.NoDup_cons_iff in Hnd as [Hk Hnd].
    destruct (Z.eqb_spec k key) as [->|Hne]; [|now apply IH].
    exfalso. apply Hk. unfold JSMap.keys. rewrite map_app.
    apply in_or_app. right. now left.
Qed.

Lemma map_delete_length m key : (length (JSMap.delete m key) <= length m)%nat.
Proof.
  induction m as [|[k v] m IH]; simpl; [lia|].
  destruct (k =? key); simpl; lia.
Qed.

(** Deleting another key around an entry leaves the entry in place, with
    no more entries after it. *)
Lemma map_delete_around (pre post : JSMap.t V) key value k :
  k <> key ->
  exists pre' post',
    JSMap.delete (pre ++ (key, value) :: post) k = pre' ++ (key, value) :: post'
    /\ (length post' <= length post)%nat.
Proof.
  intros Hne. induction pre as [|[k0 v0] pre (pre' & post' & IH & Hlen)].
  - simpl. destruct (Z.eqb_spec key k) as [->|_]; [contradiction|].
    exists [], (JSMap.delete post k). split; [reflexivity | apply map_delete_length].
  - simpl. destruct (k0 =? k).
    + exists pre, post. split; [reflexivity | lia].
    + exists ((k0, v0) :: pre'), post'. simpl. now rewrite IH.
Qed.

Lemma map_delete_absent m key :
  List.NoDup (JSMap.keys m) -> ~ In key (JSMap.keys (JSMap.delete m key)).
Proof. intros Hnd. rewrite keys_delete by exact Hnd. rewrite in_without. tauto. Qed.

(** Deleting a key and storing it again moves it behind the entry. *)
Lemma refresh_around c key value n k v :
  List.NoDup (keys c) ->
  heldBehind n c key value ->
  k <> key ->
  heldBehind (S n)
    {| cache := JSMap.set (JSMap.delete (cache c) k) k v; capacity := capacity c |}
    key value.
Proof.
  intros Hnd (pre & post & Hc & Hlen) Hne.
  destruct (map_delete_around pre post key value k Hne) as (pre' & post' & Hd & Hl).
  exists pre', (post' ++ [(k, v)]). cbn [cache].
  rewrite map_set_absent by (now apply map_delete_absent).
  rewrite Hc, Hd, <- app_assoc. split; [reflexivity|].
  rewrite length_app. simpl. lia.
Qed.

(** One operation on another key pushes the entry back by one place at
    most, as long as the capacity leaves room for it. *)
Lemma spared_step c o key value n :
  List.NoDup (keys c) ->
  heldBehind n c key value ->
  spares key o ->
  Z.of_nat n + 2 <= capacity c ->
  heldBehind (S n) (exec c o) key value.
Proof.
  intros Hnd Hheld Hsp Hcap.
  assert (heldBehind (S n) c key value) as Hsame.
  { destruct Hheld as (pre & post & Hc & Hlen). exists pre, post. split; [exact Hc | lia]. }
  destruct o as [k|k v|k|k|]; cbn [exec spares] in *; [| | exact Hsame | |destruct Hsp].
  - unfold get, JSMap.has.
    destruct (JSMap.get (cache c) k) as [val|] eqn:E; cbn [negb snd];
      [|exact Hsame].
    now apply refresh_around.
  - unfold set. destruct (JSMap.has (cache c) k) eqn:Hhas.
    + now apply refresh_around.
    + assert (~ In k (JSMap.keys (cache c))) as Hnk by (now apply has_false_keys).
      destruct Hheld as (pre & post & Hc & Hlen).
      destruct (JSMap.size (cache c) >=? capacity c) eqn:Hfull.
      * apply Z.geb_le in Hfull. unfold JSMap.size in Hfull.
        rewrite Hc, length_app in Hfull. cbn [length] in Hfull.
        destruct pre as [|[k0 v0] pre]; [simpl in Hfull; lia|].
        rewrite Hc. cbn [app JSMap.firstKey JSMap.delete]. rewrite Z.eqb_refl.
        exists pre, (post ++ [(k, v)]). cbn [cache].
        rewrite map_set_absent.
        -- rewrite <- app_assoc. split; [reflexivity|].
           rewrite length_app. simpl. lia.
        -- intros Hin. apply Hnk. rewrite Hc. simpl. now right.
      * exists pre, (post ++ [(k, v)]). cbn [cache].
        rewrite map_set_absent by exact Hnk.
        rewrite Hc, <- app_assoc. split; [reflexivity|].
        rewrite length_app. simpl. lia.
  - destruct Hheld as (pre & post & Hc & Hlen).
    destruct (map_delete_around pre post key value k Hsp) as (pre' & post' & Hd & Hl).
    exists pre', post'. unfold delete. cbn [cache]. rewrite Hc, Hd.
    split; [reflexivity | lia].
Qed.

Lemma spared_run c (ops : list (op V)) key value n :
  List.NoDup (keys c) ->
  heldBehind n c key value ->
  Forall (spares key) ops ->
  Z.of_nat n + Z.of_nat (length ops) + 1 <= capacity c ->
  peek (run c ops) key = Some value.
Proof.
  revert c n. induction ops as [|o ops IH]; intros c n Hnd Hheld Hall Hcap.
  - destruct Hheld as (pre & post & Hc & _). unfold peek. cbn [run foldl].
    rewrite Hc. apply map_get_middle. unfold keys in Hnd. now rewrite Hc in Hnd.
  - apply Forall_cons in Hall as [Ho Hall]. cbn [length] in Hcap.
    apply (IH (exec c o) (S n)).
    + now apply keys_NoDup_exec.
    + apply spared_step; [exact Hnd | exact Hheld | exact Ho | lia].
    + exact Hall.
    + rewrite capacity_exec. lia.
Qed.

(** X11. What was used last stays. At any point of any sequence of
    operations on a new cache: after [set(key, value)], and after a
    [get(key)] that finds [value], the entry is still there with that
    value after any [capacity - 1] further operations that are [get],
    [set], [has] or [delete] on other keys. *)
Theorem lru_recent_entry_survives (cap : Z) (ops later : list (op V))
    (key : Z) (value : V) :
  let c := run (new cap) ops in
  Forall (spares key) later ->
  Z.of_nat (length later) + 1 <= cap ->
  peek (run (set c key value) later) key = Some value
  /\ (peek c key = Some value ->
      peek (run (snd (get c key)) later) key = Some value).
Proof.
  cbv zeta. set (c := run (new cap) ops). intros Hall Hlen.
  assert (List.NoDup (keys c)) as Hnd by (apply keys_NoDup_run; constructor).
  assert (capacity c = cap) as Hcap by (unfold c; now rewrite capacity_run).
  split.
  - apply (spared_run _ _ _ _ 0); [now apply keys_NoDup_set | | exact Hall |].
    + unfold set.
      set (m := if JSMap.has (cache c) key then JSMap.delete (cache c) key
                else if JSMap.size (cache c) >=? capacity c
                     then match JSMap.firstKey (cache c) with
                          | Some firstKey => JSMap.delete (cache c) firstKey
                          | None => cache c
                          end
                     else cache c).
      assert (~ In key (JSMap.keys m)) as Hn.
      { subst m. destruct (JSMap.has (cache c) key) eqn:Hhas.
        - now apply map_delete_absent.
        - apply has_false_keys in Hhas.
          destruct (JSMap.size (cache c) >=? capacity c); [|exact Hhas].
          destruct (JSMap.firstKey (cache c)) as [k0|]; [|exact Hhas].
          rewrite keys_delete by exact Hnd. rewrite in_without. tauto. }
      exists m, []. cbn [cache]. rewrite (map_set_absent m key value Hn).
      split; [reflexivity | simpl; lia].
    + rewrite capacity_set. lia.
  - intros Hpeek. unfold peek in Hpeek.
    apply (spared_run _ _ _ _ 0); [now apply keys_NoDup_get | | exact Hall |].
    + unfold get, JSMap.has. rewrite Hpeek. cbn [negb snd].
      exists (JSMap.delete (cache c) key), []. cbn [cache].
      rewrite map_set_absent by (now apply map_delete_absent).
      split; [reflexivity | simpl; lia].
    + unfold get, JSMap.has. rewrite Hpeek. cbn [negb snd capacity]. lia.
Qed.

(** X12. A capacity of 0 or less does not make the cache empty: [set]
    always stores its entry, so after any [set] the cache holds exactly
    the key just stored, and it never holds more than one key. *)
Theorem lru_capacity_zero_keeps_one (cap : Z) (ops : list (op V)) :
  cap <= 0 ->
  let c := run (new cap) ops in
  (length (keys c) <= 1)%nat
  /\ forall key value, keys (set c key value) = [key].
Proof.
  intros Hcap. cbv zeta.
  assert (forall c, capacity c <= 0 -> (length (keys c) <= 1)%nat ->
            forall key value, keys (set c key value) = [key]) as Hset.
  { intros c Hc Hone key value. unfold keys, set, JSMap.has, JSMap.size in *.
    cbn [cache].
    destruct (cache c) as [|[k0 v0] [|e m]]; [| |simpl in Hone; lia].
    - cbn. destruct (_ >=? capacity c); reflexivity.
    - cbn [JSMap.get]. destruct (Z.eqb_spec k0 key) as [->|Hne].
      + cbn. now rewrite Z.eqb_refl.
      + replace (Z.of_nat (length [(k0, v0)]) >=? capacity c) with true
          by (symmetry; apply Z.geb_le; simpl; lia).
        cbn. now rewrite Z.eqb_refl. }
  assert (forall ops c, capacity c <= 0 -> (length (keys c) <= 1)%nat ->
            (length (keys (run c ops)) <= 1)%nat) as Hrun.
  { clear ops. induction ops as [|o ops IH]; intros c Hc Hone; [exact Hone|].
    apply (IH (exec c o)); [now rewrite capacity_exec|].
    destruct o as [k|k v|k|k|]; cbn [exec].
    - unfold get, JSMap.has.
      destruct (JSMap.get (cache c) k) as [val|] eqn:E; cbn [negb snd]; [|exact Hone].
      unfold keys in *. cbn [cache].
      destruct (cache c) as [|[k0 v0] [|e m]]; [discriminate| |simpl in Hone; lia].
      simpl in E. destruct (Z.eqb_spec k0 k) as [->|]; [|discriminate].
      simpl. rewrite Z.eqb_refl. simpl. lia.
    - rewrite (Hset c Hc Hone). simpl. lia.
    - exact Hone.
    - unfold keys, delete in *. cbn [cache]. unfold JSMap.keys in *.
      rewrite length_map in *. pose proof (map_delete_length (cache c) k). lia.
    - simpl. lia. }
  assert (length (keys (run (new cap) ops)) <= 1)%nat as Hone
    by (apply Hrun; simpl; lia).
  split; [exact Hone|].
  apply Hset; [now rewrite capacity_run | exact Hone].
Qed.

End CacheRecencyFacts.

(** The two statements above on caches of promise numbers. *)

Section CacheExamples.

Import AudioLRUCache.

(** Capacity 3 and the keys 0, 1, 2 stored: after [get(0)] finds its
    value, two more keys can be stored and key 0 is still there. *)
Lemma lru_recent_entry_survives_witness :
  let c := run (new 3) [Set_ 0 10%nat; Set_ 1 11%nat; Set_ 2 12%nat] in
  peek (run (snd (get c 0)) [Set_ 3 13%nat; Set_ 4 14%nat]) 0 = Some 10%nat
  /\ peek (run c [Set_ 3 13%nat; Set_ 4 14%nat]) 0 = None.
Proof.
  cbv zeta. split; [|vm_compute; reflexivity].
  destruct (lru_recent_entry_survives (V:=nat) 3
              [Set_ 0 10%nat; Set_ 1 11%nat; Set_ 2 12%nat]
              [Set_ 3 13%nat; Set_ 4 14%nat] 0 10%nat) as [_ H].
  - repeat constructor; simpl; discriminate.
  - simpl. lia.
  - apply H. vm_compute. reflexivity.
Defined.

(** Capacity 0 and two keys stored: the cache holds the second one. *)
Lemma lru_capacity_zero_keeps_one_witness :
  keys (run (new 0) [Set_ 0 10%nat; Set_ 1 11%nat]) = [1].
Proof.
  destruct (lru_capacity_zero_keeps_one (V:=nat) 0 [Set_ 0 10%nat] ltac:(lia))
    as [_ H].
  exact (H 1 11%nat).
Defined.

End CacheExamples.

(** ** services/gemini.ts: decoding loses nothing *)

Section LosslessFacts.

Import Gemini.

Lemma byte_of_Z_inj (a b : byte) :
  Z.of_N (Byte.to_N a) = Z.of_N (Byte.to_N b) -> a = b.
Proof.
  intros H. apply N2Z.inj in H.
  apply (f_equal Byte.of_N) in H. rewrite !Byte.of_to_N in H. congruence.
Qed.

(** Two byte pairs with the same 16-bit value are the same pair. *)
Lemma int16le_inj (lo hi lo' hi' : byte) :
  int16le lo hi = int16le lo' hi' -> lo = lo' /\ hi = hi'.
Proof.
  unfold int16le. intros H.
  pose proof (byte_range lo). pose proof (byte_range hi).
  pose proof (byte_range lo'). pose proof (byte_range hi').
  destruct (_ <? 32768) eqn:E1 in H; destruct (_ <? 32768) eqn:E2 in H;
    try apply Z.ltb_lt in E1; try apply Z.ltb_ge in E1;
    try apply Z.ltb_lt in E2; try apply Z.ltb_ge in E2;
    (split; apply byte_of_Z_inj; lia).
Qed.

(** What [decodeGeminiAudio] fulfils with, given the buffer it asks for. *)
Lemma decodeGeminiAudio_value (audioData : list byte) (ctx : AudioContext) :
  allocates ctx (byteLength audioData / 2) ->
  decodeGeminiAudio audioData ctx
  = Fulfilled {| sampleRate := 24000; numberOfChannels := 1;
                 channelData :=
                   map (sampleAt audioData)
                       (seq 0 (Z.to_nat (byteLength audioData / 2))) |}.
Proof.
  unfold allocates, decodeGeminiAudio, byteLength. intros Halloc.
  rewrite Halloc. cbn [channelData sampleRate numberOfChannels].
  set (n := Z.to_nat (Z.of_nat (length audioData) / 2)).
  assert (2 * n <= length audioData)%nat as Hbytes.
  { pose proof (Z.mul_div_le (Z.of_nat (length audioData)) 2).
    assert (0 <= Z.of_nat (length audioData) / 2) by (apply Z.div_pos; lia).
    lia. }
  rewrite decode_loop by (rewrite ?length_replicate; lia).
  now rewrite drop_replicate, Nat.sub_diag, app_nil_r.
Qed.

(** X13. Decoding loses nothing. If two byte arrays of even length decode
    to the same audio buffer (each with the buffer it asks for), they are
    the same array: every sample determines its two bytes. *)
Theorem decodeGeminiAudio_lossless (a b : list byte) (ctx : AudioContext) :
  allocates ctx (byteLength a / 2) ->
  allocates ctx (byteLength b / 2) ->
  byteLength a mod 2 = 0 ->
  byteLength b mod 2 = 0 ->
  decodeGeminiAudio a ctx = decodeGeminiAudio b ctx ->
  a = b.
Proof.
  intros Ha Hb Ea Eb H.
  rewrite (decodeGeminiAudio_value a ctx Ha),
          (decodeGeminiAudio_value b ctx Hb) in H.
  injection H as H. unfold byteLength in *.
  assert (length a = length b) as Hlen.
  { apply (f_equal (@length Q)) in H. rewrite !length_map, !length_seq in H.
    pose proof (Z.div_mod (Z.of_nat (length a)) 2 ltac:(lia)).
    pose proof (Z.div_mod (Z.of_nat (length b)) 2 ltac:(lia)).
    assert (0 <= Z.of_nat (length a) / 2) by (apply Z.div_pos; lia).
    assert (0 <= Z.of_nat (length b) / 2) by (apply Z.div_pos; lia).
    lia. }
  assert (forall i, (2 * i + 1 < length a)%nat ->
            a !! (2 * i)%nat = b !! (2 * i)%nat
            /\ a !! S (2 * i) = b !! S (2 * i)) as Hpair.
  { intros i Hi.
    assert (i < Z.to_nat (Z.of_nat (length a) / 2))%nat as Hin.
    { pose proof (Z.div_mod (Z.of_nat (length a)) 2 ltac:(lia)). lia. }
    apply (f_equal (fun l => l !! i)) in H.
    rewrite !list_lookup_fmap in H.
    rewrite lookup_seq_lt in H by exact Hin.
    rewrite lookup_seq_lt in H by (rewrite <- Hlen; exact Hin).
    cbn [fmap option_fmap option_map Nat.add] in H. injection H as H.
    unfold sampleAt in H.
    destruct (lookup_lt_is_Some_2 a (2 * i)) as [lo Hlo]; [lia|].
    destruct (lookup_lt_is_Some_2 a (S (2 * i))) as [hi Hhi]; [lia|].
    destruct (lookup_lt_is_Some_2 b (2 * i)) as [lo' Hlo']; [lia|].
    destruct (lookup_lt_is_Some_2 b (S (2 * i))) as [hi' Hhi']; [lia|].
    rewrite Hlo, Hhi, Hlo', Hhi' in H. injection H as H.
    apply int16le_inj in H as [-> ->]. now rewrite Hlo, Hhi, Hlo', Hhi'. }
  apply list_eq. intros j.
  destruct (Nat.lt_ge_cases j (length a)) as [Hj|Hj].
  - assert (exists i, (j = 2 * i \/ j = S (2 * i)) /\ 2 * i + 1 < length a)%nat
      as (i & Hji & Hi).
    { exists (j / 2)%nat.
      pose proof (Nat.div_mod_eq j 2). pose proof (Nat.mod_upper_bound j 2).
      pose proof (Z.div_mod (Z.of_nat (length a)) 2 ltac:(lia)).
      assert (Z.of_nat (length a) = 2 * (Z.of_nat (length a) / 2)) by lia.
      split; lia. }
    destruct (Hpair i Hi) as [H0 H1]. destruct Hji as [->| ->]; assumption.
  - rewrite !lookup_ge_None_2; [reflexivity | lia | lia].
Qed.

(** The statement above on the four bytes 00 80 ff 7f. *)
Lemma decodeGeminiAudio_lossless_witness :
  decodeGeminiAudio Sample.extremePcm webAudio
  = decodeGeminiAudio [x00; x80; xff; x7f] webAudio
  /\ Sample.extremePcm = [x00; x80; xff; x7f].
Proof.
  split; [reflexivity|].
  apply (decodeGeminiAudio_lossless Sample.extremePcm [x00; x80; xff; x7f] webAudio);
    reflexivity.
Defined.

End LosslessFacts.

(** ** services/gemini.ts: the prompt of detectEmotion *)

Section PromptFacts.

Import Gemini Observe.

Lemma quotes_app (s t : JS.t) : quotes (s ++ t) = (quotes s + quotes t)%nat.
Proof. unfold quotes. now rewrite List.filter_app, length_app. Qed.

Lemma quotes_replaceQuotes (s : JS.t) : quotes (JS.replaceQuotes s) = 0%nat.
Proof.
  unfold quotes, JS.replaceQuotes. induction s as [|c s IH]; [reflexivity|].
  simpl. destruct (Z.eqb_spec c JS.dquote) as [->|Hne]; simpl; [exact IH|].
  destruct (Z.eqb_spec c JS.dquote); [contradiction | exact IH].
Qed.

Lemma quotes_join_replaced (xs : list JS.t) :
  quotes (JS.join [32] (map JS.replaceQuotes xs)) = 0%nat.
Proof.
  induction xs as [|x xs IH]; [reflexivity|].
  destruct xs as [|y xs]; [apply quotes_replaceQuotes|].
  change (quotes (JS.replaceQuotes x ++ [32]
                  ++ JS.join [32] (map JS.replaceQuotes (y :: xs))) = 0%nat).
  now rewrite !quotes_app, quotes_replaceQuotes, IH.
Qed.

(** X14. The prompt of [detectEmotion] holds a fixed number of double
    quotes, whatever the sentences contain: the two around the words
    Target Sentence, the two that delimit the target sentence, and two
    more around each of the previous sentence and the upcoming context
    when it is not empty. No double quote of the text reaches the prompt,
    so the text cannot close the field it is quoted in. *)
Theorem detectEmotion_prompt_quotes_are_fixed
    (text : JS.t) (previousText : option JS.t) (upcomingContext : list JS.t) :
  let safePrevious :=
    match previousText with
    | Some p => JS.replaceQuotes p
    | None => []
    end in
  let safeUpcoming := JS.join [32] (map JS.replaceQuotes upcomingContext) in
  detectEmotionPrompt text previousText upcomingContext
  = emotionPrompt safePrevious (JS.replaceQuotes text) safeUpcoming
  /\ quotes safePrevious = 0%nat
  /\ quotes (JS.replaceQuotes text) = 0%nat
  /\ quotes safeUpcoming = 0%nat
  /\ quotes (detectEmotionPrompt text previousText upcomingContext)
     = (4 + (if JS.truthy safePrevious then 2 else 0)
          + (if JS.truthy safeUpcoming then 2 else 0))%nat.
Proof.
  cbv zeta.
  assert (detectEmotionPrompt text previousText upcomingContext
          = emotionPrompt
              match previousText with
              | Some p => JS.replaceQuotes p
              | None => []
              end
              (JS.replaceQuotes text)
              (JS.join [32] (map JS.replaceQuotes upcomingContext))) as Hprompt.
  { unfold detectEmotionPrompt. destruct previousText as [[|c p]|]; reflexivity. }
  assert (quotes match previousText with
                 | Some p => JS.replaceQuotes p
                 | None => []
                 end = 0%nat) as Hprev
    by (destruct previousText; [apply quotes_replaceQuotes | reflexivity]).
  split; [exact Hprompt|]. split; [exact Hprev|].
  split; [apply quotes_replaceQuotes|]. split; [apply quotes_join_replaced|].
  rewrite Hprompt. unfold emotionPrompt.
  generalize dependent (match previousText with
                        | Some p => JS.replaceQuotes p
                        | None => []
                        end).
  intros safePrevious _ Hprev.
  pose proof (quotes_replaceQuotes text) as Htext.
  pose proof (quotes_join_replaced upcomingContext) as Hup.
  generalize dependent (JS.replaceQuotes text). intros safeText Htext.
  generalize dependent (JS.join [32] (map JS.replaceQuotes upcomingContext)).
  intros safeUpcoming Hup.
  rewrite !quotes_app.
  destruct (JS.truthy safePrevious), (JS.truthy safeUpcoming);
    rewrite ?quotes_app, ?Hprev, ?Htext, ?Hup;
    repeat match goal with
           | |- context [quotes (JS.lit ?s)] =>
               let n := eval vm_compute in (quotes (JS.lit s)) in
               change (quotes (JS.lit s)) with n
           end;
    reflexivity.
Qed.

End PromptFacts.

(** ** App.tsx: what processGeminiSentence settles with *)

Section SynthesisFacts.

Import Gemini App.

Lemma detectEmotion_label (ai : Backend) (text : JS.t) (previousText : option JS.t)
    (upcomingContext : list JS.t) :
  exists emotion,
    detectEmotion ai text previousText upcomingContext = Fulfilled emotion
    /\ emotion <> [].
Proof.
  unfold detectEmotion.
  destruct (generateText ai emotionModel _) as [[txt|]|e].
  - destruct (JS.trim txt) as [|c t] eqn:E; simpl.
    + exists Neutral. split; [reflexivity | discriminate].
    + exists (c :: t). split; [reflexivity | discriminate].
  - exists Neutral. split; [reflexivity | discriminate].
  - exists Neutral. split; [reflexivity | discriminate].
Qed.

Lemma webAudio_allocates (n : Z) : 1 <= n -> allocates webAudio n.
Proof.
  intros Hn. unfold allocates, webAudio. cbn [createBuffer].
  now replace (1 <=? n) with true by (symmetry; apply Z.leb_le; lia).
Qed.

(** X15. The three awaited steps of [processGeminiSentence], with a Web
    Audio context. The tone detection never makes the synthesis fail: it
    always yields a label that is not empty. The outcome then follows the
    speech call alone: its rejection is passed on; no audio gives the
    error No audio returned from Gemini; audio of fewer than two bytes
    cannot be decoded, because the context refuses a buffer of no frame;
    any other audio gives a mono buffer at 24000 Hz with one sample per
    two bytes, together with the label. *)
Theorem processGeminiSentence_outcome (ai : Backend) (r : Render)
    (index : Z) (text : JS.t) :
  let previousText :=
    if index >? 0 then JS.index (r_textSegments r) (index - 1) else None in
  let upcomingContext := JS.slice (r_textSegments r) (index + 1) (index + 6) in
  let result := synthesize ai webAudio r index text in
  exists label,
    detectEmotion ai text previousText upcomingContext = Fulfilled label
    /\ label <> []
    /\ match generateGeminiSpeech ai text (googleVoice (r_settings r)) label with
       | Rejected e => result = Rejected e
       | Fulfilled None => result = Rejected (JS.lit "No audio returned from Gemini")
       | Fulfilled (Some audioData) =>
           if byteLength audioData <? 2
           then result = Rejected (JS.lit "NotSupportedError")
           else exists buf,
                  result = Fulfilled {| buffer := buf; emotion := label |}
                  /\ sampleRate buf = 24000
                  /\ numberOfChannels buf = 1
                  /\ Z.of_nat (length (channelData buf)) = byteLength audioData / 2
       end.
Proof.
  cbv zeta. unfold synthesize.
  destruct (detectEmotion_label ai text
              (if index >? 0 then JS.index (r_textSegments r) (index - 1) else None)
              (JS.slice (r_textSegments r) (index + 1) (index + 6)))
    as (label & -> & Hne).
  exists label. split; [reflexivity|]. split; [exact Hne|].
  destruct (generateGeminiSpeech ai text (googleVoice (r_settings r)) label)
    as [[audioData|]|e]; [|reflexivity|reflexivity].
  destruct (byteLength audioData <? 2) eqn:Short.
  - apply Z.ltb_lt in Short. unfold decodeGeminiAudio, webAudio. cbn [createBuffer].
    assert (byteLength audioData / 2 = 0) as ->.
    { apply Z.div_small. unfold byteLength in *. lia. }
    reflexivity.
  - apply Z.ltb_ge in Short.
    assert (1 <= byteLength audioData / 2) as Hn.
    { apply Z.div_le_lower_bound; lia. }
    rewrite (decodeGeminiAudio_value audioData webAudio (webAudio_allocates _ Hn)).
    eexists. split; [reflexivity|]. cbn [sampleRate numberOfChannels channelData].
    split; [reflexivity|]. split; [reflexivity|].
    rewrite length_map, length_seq. lia.
Qed.

End SynthesisFacts.

(** ** App.tsx: the refs, the timer and the speech queue along a session *)

Section FollowFacts.

Import App Session.

Lemma follows_refl (st : State) : follows st st.
Proof. unfold follows. repeat split; auto. Qed.

Lemma follows_trans (st1 st2 st3 : State) :
  follows st1 st2 -> follows st2 st3 -> follows st1 st3.
Proof.
  intros (A1 & C1 & T1 & S1 & D1 & E1) (A2 & C2 & T2 & S2 & D2 & E2).
  unfold follows. split; [congruence|]. split; [congruence|].
  split; [destruct T1, T2; [left | right | right | right]; congruence|].
  split; [auto|]. split.
  - destruct D1 as [[D1 D1']|D1], D2 as [[D2 D2']|D2];
      [left; split; congruence | right; lia | right; lia | right; lia].
  - destruct E1 as [[E1 E1']|E1], E2 as [[E2 E2']|E2];
      [left; split; congruence | right; lia | right; lia | right; lia].
Qed.

Lemma setPlayback_follows (f : PlaybackState -> PlaybackState) (st : State) :
  follows st (setPlayback f st).
Proof. following. Qed.

Lemma set_playback_follows (v : PlaybackState) (st : State) :
  follows st (set_playback v st).
Proof. following. Qed.

Lemma stopAudio_follows (st : State) : follows st (stopAudio st).
Proof.
  unfold stopAudio, setPlayback, pauseAt, stopAt.
  destruct st as [pb se sid ts pid ac ai ar sr sy au no ta fe rq ti al co].
  destruct ar, sr; unfold follows; cbn; repeat split; auto.
Qed.

Lemma stopPrevious_follows (st : State) : follows st (stopPrevious st).
Proof.
  unfold stopPrevious, pauseAt, stopAt.
  destruct st as [pb se sid ts pid ac ai ar sr sy au no ta fe rq ti al co].
  destruct ar, sr; unfold follows; cbn; repeat split; auto.
Qed.

Lemma stopPrevious_synth (st : State) : synth (stopPrevious st) = [].
Proof.
  unfold stopPrevious, pauseAt, stopAt.
  destruct st as [pb se sid ts pid ac ai ar sr sy au no ta fe rq ti al co].
  now destruct ar, sr.
Qed.

Lemma playNext_follows (r : Render) (st : State) : follows st (playNext r st).
Proof. apply setPlayback_follows. Qed.

Lemma processGeminiSentence_follows (r : Render) (index : Z) (st : State) :
  follows st (snd (processGeminiSentence r index st)).
Proof. unfold processGeminiSentence. following. Qed.

Lemma prefetch_follows (r : Render) (index : Z) (st : State) :
  follows st (prefetchGeminiSentence r index st).
Proof.
  unfold prefetchGeminiSentence.
  destruct (index >=? _); [apply follows_refl|].
  destruct (AudioLRUCache.has _ _); [apply follows_refl|].
  pose proof (processGeminiSentence_follows r index st) as H.
  destruct (processGeminiSentence r index st) as [p st1]. cbn [snd] in H.
  eapply follows_trans; [exact H|]. following.
Qed.

Lemma lookupOrStart_follows (r : Render) (index : Z) (st : State) :
  follows st (snd (lookupOrStart r index st)).
Proof.
  unfold lookupOrStart.
  destruct (AudioLRUCache.get (audioCache st) index) as [[p|] cache]; cbn [snd].
  - following.
  - set (st1 := setPlayback _ _).
    assert (follows st st1) as H1 by (subst st1; following).
    pose proof (processGeminiSentence_follows r index st1) as H2.
    destruct (processGeminiSentence r index st1) as [p st2]. cbn [snd] in *.
    eapply follows_trans; [exact H1|]. eapply follows_trans; [exact H2|]. following.
Qed.

Lemma await_follows (p : nat) (w : Waiter) (st : State) : follows st (await p w st).
Proof. following. Qed.

Lemma setSettings_follows (f : AppSettings -> AppSettings) (st : State) :
  follows st (setSettings f st).
Proof.
  unfold follows, setSettings. cbn. repeat split; auto.
Qed.

Lemma alert_follows (message : JS.t) (st : State) : follows st (alert message st).
Proof. following. Qed.

(** [playSentence] leaves at most one utterance in the speech queue. *)
Lemma playSentence_follows (r : Render) (index : Z) (st : State) :
  follows st (playSentence r index st).
Proof.
  unfold playSentence.
  destruct ((index <? 0) || (index >=? _)); [apply follows_refl|].
  destruct (JS.index (r_textSegments r) index) as [text|]; [|apply follows_refl].
  destruct (JS.blank text); [apply playNext_follows|].
  pose proof (stopPrevious_follows st) as H0.
  pose proof (stopPrevious_synth st) as Hs.
  set (st0 := stopPrevious st) in *.
  destruct (engine (r_settings r)).
  - (* browser *)
    destruct H0 as (A & C & T & _ & D & E). unfold follows.
    cbn. rewrite Hs. cbn. repeat split; auto.
  - (* openai *)
    eapply follows_trans; [exact H0|].
    destruct (negb (JS.truthy _)).
    + eapply follows_trans; [apply alert_follows | apply setSettings_follows].
    + following.
  - (* google *)
    pose proof (lookupOrStart_follows r index st0) as H1.
    destruct (lookupOrStart r index st0) as [p st1]. cbn [snd] in H1.
    eapply follows_trans; [exact H0|]. eapply follows_trans; [exact H1|].
    eapply follows_trans; [apply prefetch_follows|].
    eapply follows_trans; [apply prefetch_follows|]. apply await_follows.
Qed.

Lemma timerFired_follows (st : State) : follows st (timerFired st).
Proof.
  unfold timerFired. destruct (timer st) as [r|] eqn:Ht; [|apply follows_refl].
  assert (follows st (set_timer None st)) as H0.
  { unfold follows. cbn. repeat split; auto. }
  destruct (_ =? _); [|exact H0].
  eapply follows_trans; [exact H0 | apply playSentence_follows].
Qed.

Lemma resumeGemini_follows (w : Waiter) (outcome : JS.Settled AudioCacheItem)
    (st : State) :
  follows st (resumeGemini w outcome st).
Proof. unfold resumeGemini. following. Qed.

Lemma resume_all_follows (ws : list Waiter) (outcome : JS.Settled AudioCacheItem)
    (st : State) :
  follows st (foldl (fun st w => resumeGemini w outcome st) st ws).
Proof.
  revert st. induction ws as [|w ws IH]; intros st; [apply follows_refl|].
  cbn [foldl]. eapply follows_trans; [apply resumeGemini_follows | apply IH].
Qed.

Lemma settle_follows (p : nat) (reply : JS.Settled AudioCacheItem) (st : State) :
  follows st (settle p reply st).
Proof.
  unfold settle. destruct (tasks st !! p) as [t|]; [|apply follows_refl].
  eapply follows_trans; [|apply resume_all_follows].
  destruct (task_outcome t); [following|].
  destruct (task_guarded t && isRejected _); following.
Qed.

Lemma settleFetch_follows (id : nat) (reply : JS.Settled JS.t) (st : State) :
  follows st (settleFetch id reply st).
Proof. unfold settleFetch, resumeOpenAI. following. Qed.

(** Every handler and callback. *)
Lemma handle_follows (e : Event) (st : State) : follows st (handle e st).
Proof.
  destruct e; cbn [handle].
  - unfold togglePlay. destruct (_ =? 0); [apply follows_refl|].
    destruct (isPlaying _); [apply stopAudio_follows | apply setPlayback_follows].
  - apply stopAudio_follows.
  - apply stopAudio_follows.
  - apply set_playback_follows.
  - unfold handleFileUpload. eapply follows_trans; [apply stopAudio_follows|].
    following.
  - unfold pdfParsed, follows, setPlayback. cbn. repeat split; auto.
  - apply setSettings_follows.
  - apply timerFired_follows.
  - apply settle_follows.
  - apply settleFetch_follows.
  - unfold playResolved. following.
  - unfold playRejected. following.
  - unfold audioEnded, playNext. following.
  - unfold audioError. following.
  - unfold sourceEnded, playNext, stopAt. following.
  - unfold utteranceEnded, playNext.
    destruct (synth st) as [|u rest] eqn:Hs; [apply follows_refl|].
    unfold follows. cbn. rewrite Hs. repeat split; auto. simpl. lia.
  - unfold utteranceError.
    destruct (synth st) as [|u rest] eqn:Hs; [apply follows_refl|].
    unfold follows. cbn. rewrite Hs. repeat split; auto. simpl. lia.
Qed.

End FollowFacts.

Section SteadyFacts.

Import App Session.

Lemma agree_refl (r : Render) : agree r r.
Proof. unfold agree. now repeat split. Qed.

Lemma follows_steady (st st' : State) : follows st st' -> Steady st -> Steady st'.
Proof.
  intros (A & C & T & S & D & E) [Hs Ht Ha Hd He].
  split.
  - auto.
  - intros r Hr. rewrite A, C. apply Ht.
    destruct T as [T|T]; [now rewrite <- T | congruence].
  - rewrite A, C. exact Ha.
  - rewrite C. destruct D as [[D1 D2]|D]; [now rewrite D1, D2|].
    right. destruct Hd as [[Hd _]|Hd]; lia.
  - rewrite C. destruct E as [[E1 E2]|E]; [now rewrite E1, E2|].
    right. destruct He as [[He _]|He]; lia.
Qed.

Lemma handle_steady (e : Event) (st : State) : Steady st -> Steady (handle e st).
Proof. apply follows_steady, handle_follows. Qed.

(** The microtasks of a turn. *)
Lemma flush_follows (st : State) : follows st (flush st).
Proof.
  apply (flush_keeps (follows st)); [|apply follows_refl].
  intros p reply s Hs. eapply follows_trans; [exact Hs | apply settle_follows].
Qed.

(** What React's commit leaves in place. *)
Lemma commit_fields (st : State) :
  synth (commit st) = synth st
  /\ playback (commit st) = playback st
  /\ settings (commit st) = settings st
  /\ settingsId (commit st) = settingsId st
  /\ textSegments (commit st) = textSegments st
  /\ pdfDataId (commit st) = pdfDataId st
  /\ committed (commit st) = render st
  /\ (if playbackDepsChanged (committed st) (render st)
      then timer (commit st)
           = (if isPlaying (playback st) then Some (render st) else None)
           /\ (isPlaying (playback st) = true ->
               activeIndexRef (commit st) = currentIndex (playback st))
      else timer (commit st) = timer st
           /\ activeIndexRef (commit st) = activeIndexRef st).
Proof.
  unfold commit, playbackEffect.
  destruct (cacheDepsChanged (committed st) (render st));
    destruct (playbackDepsChanged (committed st) (render st));
    cbn; destruct (isPlaying (playback st)); cbn; repeat split; auto; discriminate.
Qed.

(** When the dependencies of the playback effect did not change, the two
    renders agree, given that identities tell the document and the
    settings. *)
Lemma unchanged_agree (prev next : Render) :
  playbackDepsChanged prev next = false ->
  currentIndex (r_playback prev) = currentIndex (r_playback next)
  /\ isPlaying (r_playback prev) = isPlaying (r_playback next)
  /\ r_pdfDataId prev = r_pdfDataId next
  /\ r_settingsId prev = r_settingsId next.
Proof.
  unfold playbackDepsChanged, playSentenceChanged. intros H.
  apply orb_false_iff in H as [H H3]. apply orb_false_iff in H as [H1 H2].
  apply negb_false_iff in H1, H2, H3.
  apply andb_true_iff in H3 as [H3 _]. apply andb_true_iff in H3 as [H3 _].
  apply andb_true_iff in H3 as [H3 H4].
  apply Z.eqb_eq in H1. apply Bool.eqb_prop in H2.
  apply Nat.eqb_eq in H3, H4. now repeat split.
Qed.

Lemma commit_steady (st : State) :
  Steady st -> Steady (commit st) /\ committed (commit st) = render (commit st).
Proof.
  intros [Hs Ht Ha Hd He].
  destruct (commit_fields st) as (Sy & Pb & Se & Si & Ts & Pi & Co & Hdeps).
  assert (committed (commit st) = render (commit st)) as Hrest.
  { rewrite Co. unfold render. now rewrite Pb, Se, Si, Ts, Pi. }
  split; [|exact Hrest]. split.
  - now rewrite Sy.
  - intros r Hr. rewrite Co.
    destruct (playbackDepsChanged (committed st) (render st)) eqn:Hch.
    + destruct Hdeps as [Hti Hact]. rewrite Hti in Hr.
      destruct (isPlaying (playback st)) eqn:Hplay; [|discriminate].
      injection Hr as <-. split; [apply agree_refl|]. split; [exact Hplay|].
      now apply Hact.
    + destruct Hdeps as [Hti Hact]. rewrite Hti in Hr. rewrite Hact.
      destruct (Ht r Hr) as ((G1 & G2 & G3 & G4 & G5 & G6) & Hplay & Hidx).
      destruct (unchanged_agree _ _ Hch) as (U1 & U2 & U3 & U4).
      cbn in U1, U2, U3, U4.
      split; [|now split]. unfold agree.
      cbn [render r_playback r_textSegments r_settings r_pdfDataId r_settingsId].
      split; [congruence|]. split; [congruence|].
      split; [destruct Hd as [[_ Hd]|Hd]; [congruence | lia]|].
      split; [destruct He as [[_ He]|He]; [congruence | lia]|].
      split; congruence.
  - rewrite Co. cbn [render r_playback]. intros Hplay.
    destruct (playbackDepsChanged (committed st) (render st)) eqn:Hch.
    + destruct Hdeps as [_ Hact]. now apply Hact.
    + destruct Hdeps as [_ Hact]. rewrite Hact.
      destruct (unchanged_agree _ _ Hch) as (U1 & U2 & _). cbn in U1, U2.
      rewrite <- U1. apply Ha. now rewrite U2.
  - left. rewrite Co. cbn [render r_pdfDataId r_textSegments]. now rewrite Pi, Ts.
  - left. rewrite Co. cbn [render r_settingsId r_settings]. now rewrite Si, Se.
Qed.

Lemma mounted_steady (savedKey : JS.t) (prefersDark : bool) :
  Steady (mounted savedKey prefersDark).
Proof.
  split; cbn; auto; try discriminate.
Qed.

(** In every state the component can reach, [Steady] holds and React is
    at rest. *)
Lemma reachable_steady (st : State) :
  reachable st -> Steady st /\ committed st = render st.
Proof.
  intros (savedKey & prefersDark & es & ->). unfold run.
  assert (forall es s, Steady s /\ committed s = render s ->
            Steady (foldl step s es)
            /\ committed (foldl step s es) = render (foldl step s es)) as H.
  { clear. induction es as [|e es IH]; intros s Hs; [exact Hs|].
    cbn [foldl]. apply IH. unfold step. apply commit_steady.
    apply (follows_steady (handle e s)); [apply flush_follows|].
    apply handle_steady, Hs. }
  apply H. split; [apply mounted_steady | reflexivity].
Qed.

(** The handlers that leave the promises alone. *)
Lemma handle_tasks (e : Event) (st : State) :
  match e with TimerFired | Settle _ _ => False | _ => True end ->
  tasks (handle e st) = tasks st.
Proof.
  destruct e; try contradiction; intros _; cbn [handle];
    unfold togglePlay, handleSentenceClick, seekTimeout, handleFileUpload, pdfParsed,
      setSettings, settleFetch, resumeOpenAI, playResolved, playRejected,
      audioEnded, audioError, sourceEnded, utteranceEnded, utteranceError,
      playNext, stopAudio, setPlayback, alert, pauseAt, stopAt;
    repeat match goal with
           | |- context [match ?x with _ => _ end] => destruct x
           end; reflexivity.
Qed.

Lemma playSentence_tasks (r : Render) (index : Z) (st : State) :
  engine (r_settings r) <> google ->
  tasks (playSentence r index st) = tasks st.
Proof.
  intros Heng. unfold playSentence.
  destruct ((index <? 0) || _); [reflexivity|].
  destruct (JS.index _ index) as [text|]; [|reflexivity].
  destruct (JS.blank text); [reflexivity|].
  destruct (stopPrevious_frame st) as [_ Ht].
  destruct (engine (r_settings r)); [| |congruence].
  - unfold speakBrowser, setPlayback. cbn. exact Ht.
  - destruct (negb _); unfold setSettings, alert, setPlayback; cbn; exact Ht.
Qed.

Lemma reachable_step (st : State) (e : Event) :
  reachable st -> reachable (step st e).
Proof.
  intros (savedKey & prefersDark & es & ->).
  exists savedKey, prefersDark, (es ++ [e]). unfold run. now rewrite foldl_app.
Qed.

(** A turn from a reachable state whose handler leaves the promises
    alone runs no microtask. *)
Lemma step_quietly (st : State) (e : Event) :
  reachable st -> tasks (handle e st) = tasks st ->
  step st e = commit (handle e st).
Proof. intros Hreach. apply step_plain. now apply reachable_quiet. Qed.

End SteadyFacts.

(** ** App.tsx: the playback effect *)

Section EffectFacts.

Import App Session.

(** X16. In every state the component can reach, the speech queue of the
    browser holds at most one utterance: [playSentence] cancels what is
    queued before it speaks, so two sentences are never queued together. *)
Theorem reachable_speech_queue_at_most_one (st : State) :
  reachable st -> (length (synth st) <= 1)%nat.
Proof. intros Hreach. now destruct (reachable_steady st Hreach) as [[Hs _ _ _ _] _]. Qed.

(** An armed timer, in a state the component can reach. *)
Lemma armed_timer (st : State) (r : Render) :
  reachable st ->
  timer st = Some r ->
  isPlaying (playback st) = true
  /\ isPlaying (r_playback r) = true
  /\ currentIndex (r_playback r) = currentIndex (playback st)
  /\ r_textSegments r = textSegments st
  /\ r_settings r = settings st
  /\ activeIndexRef st = currentIndex (playback st)
  /\ timerFired st
     = playSentence r (currentIndex (playback st)) (set_timer None st).
Proof.
  intros Hreach Hr.
  destruct (reachable_steady st Hreach) as [[_ Ht _ _ _] Hrest].
  rewrite Hrest in Ht.
  destruct (Ht r Hr) as ((G1 & G2 & G3 & G4 & _) & Hplay & Hidx).
  cbn [render r_playback r_textSegments r_settings] in G1, G2, G3, G4.
  split; [congruence|]. split; [exact Hplay|]. split; [exact G1|].
  split; [exact G3|]. split; [exact G4|]. split; [congruence|].
  unfold timerFired. rewrite Hr. cbn [activeIndexRef set_timer].
  rewrite Hidx, Z.eqb_refl. now rewrite G1.
Qed.

(** A settlement leaves no microtask. *)
Lemma settle_quiet (p : nat) (reply : JS.Settled AudioCacheItem) (st : State) :
  quiet st -> quiet (settle p reply st).
Proof.
  unfold quiet. rewrite settle_tasks. intros Hq.
  destruct (tasks st !! p) as [t|]; [|exact Hq].
  apply Forall_insert; [exact Hq | now split].
Qed.

(** Only the timer's turn has microtasks to run. *)
Lemma step_settled (st : State) (e : Event) :
  reachable st -> e <> TimerFired -> step st e = commit (handle e st).
Proof.
  intros Hreach He. unfold step. rewrite flush_quiet_id; [reflexivity|].
  pose proof (reachable_quiet st Hreach) as Hq.
  destruct e; try congruence;
    try (apply (quiet_tasks st); [apply handle_tasks; exact I | exact Hq]).
  cbn [handle]. now apply settle_quiet.
Qed.

(** The timer under another engine than Gemini makes no promise. *)
Lemma timerFired_plain (st : State) :
  reachable st -> engine (settings st) <> google ->
  tasks (handle TimerFired st) = tasks st.
Proof.
  intros Hreach Heng. cbn [handle].
  destruct (timer st) as [r|] eqn:Hr; [|unfold timerFired; now rewrite Hr].
  destruct (armed_timer st r Hreach Hr) as (_ & _ & _ & _ & Hset & _ & ->).
  rewrite playSentence_tasks; [reflexivity | now rewrite Hset].
Qed.

(** X17. The playback effect keeps the active index and its timer current,
    in every state the component can reach. While playback is on, the
    active index is the current index. When the timer is armed, playback
    is on, the render the timer closes over has the current index, the
    current segments and the current settings, and the active index is
    that index: so the check the timer makes before it calls
    [playSentence] always passes, and the call is for the current index. *)
Theorem reachable_timer_is_current (st : State) :
  reachable st ->
  (isPlaying (playback st) = true -> activeIndexRef st = currentIndex (playback st))
  /\ (forall r, timer st = Some r ->
        isPlaying (playback st) = true
        /\ isPlaying (r_playback r) = true
        /\ currentIndex (r_playback r) = currentIndex (playback st)
        /\ r_textSegments r = textSegments st
        /\ r_settings r = settings st
        /\ activeIndexRef st = currentIndex (playback st)
        /\ timerFired st
           = playSentence r (currentIndex (playback st)) (set_timer None st)).
Proof.
  intros Hreach.
  destruct (reachable_steady st Hreach) as [[_ _ Ha _ _] Hrest].
  rewrite Hrest in Ha. cbn [render r_playback] in Ha.
  split; [exact Ha|]. intros r Hr. now apply armed_timer.
Qed.

End EffectFacts.

(** ** App.tsx: reading with the browser engine *)

Section BrowserFacts.

Import App Session.

(** The browser branch of [playSentence]. *)
Lemma playSentence_browser (r : Render) (index : Z) (st : State) (text : JS.t) :
  engine (r_settings r) = browser ->
  JS.index (r_textSegments r) index = Some text ->
  JS.blank text = false ->
  playSentence r index st
  = speakBrowser r text
      (setPlayback (fun prev =>
         {| isPlaying := isPlaying prev; isLoading := isLoading prev;
            currentIndex := currentIndex prev; detectedEmotion := None |})
         (stopPrevious st)).
Proof.
  intros Heng Htext Hblank. unfold playSentence.
  now rewrite (index_in_range _ _ _ Htext), Htext, Hblank, Heng.
Qed.

(** What the block that stops the previous audio leaves in place. *)
Lemma stopPrevious_fields (st : State) :
  let st' := stopPrevious st in
  playback st' = playback st /\ settings st' = settings st
  /\ settingsId st' = settingsId st /\ textSegments st' = textSegments st
  /\ pdfDataId st' = pdfDataId st /\ audioCache st' = audioCache st
  /\ activeIndexRef st' = activeIndexRef st /\ tasks st' = tasks st
  /\ fetches st' = fetches st /\ requests st' = requests st
  /\ timer st' = timer st /\ alerts st' = alerts st
  /\ committed st' = committed st /\ synth st' = [].
Proof.
  cbv zeta. unfold stopPrevious, pauseAt, stopAt.
  destruct st as [pb se sid ts pid ac ai ar sr sy au no ta fe rq ti al co].
  destruct ar, sr; cbn; now repeat split.
Qed.

Lemma deps_unchanged (prev next : Render) :
  currentIndex (r_playback prev) = currentIndex (r_playback next) ->
  isPlaying (r_playback prev) = isPlaying (r_playback next) ->
  r_pdfDataId prev = r_pdfDataId next ->
  r_settingsId prev = r_settingsId next ->
  r_textSegments prev = r_textSegments next ->
  playbackDepsChanged prev next = false.
Proof.
  intros H1 H2 H3 H4 H5. unfold playbackDepsChanged, playSentenceChanged.
  rewrite H1, H2, H3, H4, H5, Z.eqb_refl, !Nat.eqb_refl, Z.eqb_refl.
  now destruct (isPlaying (r_playback next)).
Qed.

Lemma cache_deps_unchanged (prev next : Render) :
  r_settings prev = r_settings next -> cacheDepsChanged prev next = false.
Proof.
  intros H. unfold cacheDepsChanged. rewrite H.
  now rewrite !bool_decide_eq_true_2.
Qed.

Lemma deps_changed_index (prev next : Render) :
  currentIndex (r_playback prev) <> currentIndex (r_playback next) ->
  playbackDepsChanged prev next = true.
Proof.
  intros H. unfold playbackDepsChanged.
  apply Z.eqb_neq in H. now rewrite H.
Qed.

Lemma deps_changed_playing (prev next : Render) :
  isPlaying (r_playback prev) <> isPlaying (r_playback next) ->
  playbackDepsChanged prev next = true.
Proof.
  intros H. unfold playbackDepsChanged.
  destruct (Bool.eqb (isPlaying (r_playback prev)) (isPlaying (r_playback next))) eqn:E.
  - apply Bool.eqb_prop in E. contradiction.
  - cbn. now rewrite orb_true_r.
Qed.

(** The timer fires under the browser engine: what the callback leaves
    before React commits. *)
Lemma timerFired_browser (st : State) (r : Render) (text : JS.t) :
  reachable st ->
  timer st = Some r ->
  engine (settings st) = browser ->
  JS.index (textSegments st) (currentIndex (playback st)) = Some text ->
  JS.blank text = false ->
  let st' := timerFired st in
  synth st' = [{| utt_text := text; utt_render := r |}]
  /\ playback st'
     = {| isPlaying := true; isLoading := isLoading (playback st);
          currentIndex := currentIndex (playback st); detectedEmotion := None |}
  /\ timer st' = None
  /\ settings st' = settings st /\ settingsId st' = settingsId st
  /\ textSegments st' = textSegments st /\ pdfDataId st' = pdfDataId st
  /\ activeIndexRef st' = activeIndexRef st /\ committed st' = committed st
  /\ requests st' = requests st /\ fetches st' = fetches st
  /\ alerts st' = alerts st /\ audioCache st' = audioCache st.
Proof.
  intros Hreach Hr Heng Htext Hblank. cbv zeta.
  destruct (armed_timer st r Hreach Hr) as (Hplay & _ & _ & Hsegs & Hset & _ & ->).
  rewrite (playSentence_browser r _ _ text);
    [| now rewrite Hset | now rewrite Hsegs | exact Hblank].
  destruct (stopPrevious_fields (set_timer None st))
    as (P & S1 & S2 & T1 & T2 & C & A & _ & F & R & Ti & Al & Co & Sy).
  unfold speakBrowser, setPlayback. cbn. rewrite Sy, P, S1, S2, T1, T2, C, A, F, R, Ti, Al, Co.
  cbn. rewrite Hplay. now repeat split.
Qed.

(** X18. Reading with the browser engine, in every state the component
    can reach with the timer armed and a current segment that is not
    blank. When the timer fires, exactly the current segment is handed to
    the speech synthesis, as the only utterance; no network request is
    made and no alert shown; playback stays on at the same index. When
    the utterance ends, the queue is empty and playback advances as
    [playNext] says: to the next index, with the timer armed for it and
    the active index set to it, or, after the last segment, to index 0
    with playback off and no timer. *)
Theorem browser_engine_reads_current_segment (st : State) (r : Render) (text : JS.t) :
  reachable st ->
  timer st = Some r ->
  engine (settings st) = browser ->
  JS.index (textSegments st) (currentIndex (playback st)) = Some text ->
  JS.blank text = false ->
  let st1 := step st TimerFired in
  let st2 := step st1 UtteranceEnded in
  let next := currentIndex (playback st) + 1 in
  (synth st1 = [{| utt_text := text; utt_render := r |}]
   /\ isPlaying (playback st1) = true
   /\ currentIndex (playback st1) = currentIndex (playback st)
   /\ requests st1 = requests st
   /\ alerts st1 = alerts st)
  /\ synth st2 = []
  /\ (if next <? segmentsLength (textSegments st)
      then isPlaying (playback st2) = true
           /\ currentIndex (playback st2) = next
           /\ timer st2 = Some (render st2)
           /\ activeIndexRef st2 = next
      else isPlaying (playback st2) = false
           /\ currentIndex (playback st2) = 0
           /\ timer st2 = None).
Proof.
  intros Hreach Hr Heng Htext Hblank. cbv zeta.
  destruct (reachable_steady st Hreach) as [_ Hrest].
  destruct (armed_timer st r Hreach Hr) as (Hplay & _ & _ & Hsegs & _ & _ & _).
  destruct (timerFired_browser st r text Hreach Hr Heng Htext Hblank)
    as (Sy & Pb & Ti & Se & Si & Ts & Pi & Ai & Co & Rq & Fe & Al & Ca).
  set (h1 := timerFired st) in *.
  destruct (commit_fields h1) as (Sy1 & Pb1 & Se1 & Si1 & Ts1 & Pi1 & Co1 & Hd1).
  assert (playbackDepsChanged (committed h1) (render h1) = false) as Hsame.
  { rewrite Co, Hrest. apply deps_unchanged; cbn; rewrite ?Pb, ?Pi, ?Si, ?Ts; auto. }
  rewrite Hsame in Hd1. destruct Hd1 as [Ti1 Ai1].
  pose proof (reachable_step st TimerFired Hreach) as Hreach1.
  rewrite (step_quietly st TimerFired Hreach) in *
    by (apply timerFired_plain; [exact Hreach | rewrite Heng; discriminate]).
  cbn [handle] in *. fold h1 in Hreach1 |- *.
  set (st1 := commit h1) in *.
  assert (requests st1 = requests st /\ alerts st1 = alerts st) as [Rq1 Al1].
  { subst st1. unfold commit, playbackEffect.
    destruct (cacheDepsChanged _ _), (playbackDepsChanged _ _);
      cbn; destruct (isPlaying (playback h1)); cbn; now split. }
  split.
  { rewrite Sy1, Sy, Pb1, Pb. now repeat split. }
  rewrite (step_quietly st1 UtteranceEnded Hreach1) by (now apply handle_tasks).
  cbn [handle]. unfold utteranceEnded. rewrite Sy1, Sy.
  cbn [utt_render].
  set (h2 := playNext r (set_synth [] st1)).
  assert (synth h2 = [] /\ playback h2
          = advance (segmentsLength (textSegments st)) (playback st1)
          /\ committed h2 = committed st1 /\ pdfDataId h2 = pdfDataId st1
          /\ settingsId h2 = settingsId st1 /\ textSegments h2 = textSegments st1)
    as (Sy2 & Pb2 & Co2 & Pi2 & Si2 & Ts2).
  { subst h2. unfold playNext, setPlayback. cbn. now rewrite Hsegs. }
  destruct (commit_fields h2) as (Sy3 & Pb3 & Se3 & Si3 & Ts3 & Pi3 & Co3 & Hd3).
  rewrite Sy3, Sy2. split; [reflexivity|].
  assert (committed h2 = render st1) as Co2'.
  { rewrite Co2. subst st1. rewrite Co1. unfold render.
    now rewrite Pb1, Se1, Si1, Ts1, Pi1. }
  rewrite Pb3. rewrite Pb2. rewrite Pb1. rewrite Pb.
  unfold advance. cbn [currentIndex isPlaying].
  destruct (currentIndex (playback st) + 1 <? segmentsLength (textSegments st)) eqn:E.
  - cbn [currentIndex isPlaying].
    rewrite (deps_changed_index (committed h2) (render h2)) in Hd3.
    2:{ rewrite Co2'. cbn [render r_playback].
        rewrite Pb2. rewrite Pb1. rewrite Pb. unfold advance.
        cbn [currentIndex]. rewrite E. cbn [currentIndex]. lia. }
    destruct Hd3 as [Ti3 Ai3].
    assert (isPlaying (playback h2) = true) as Hp2.
    { rewrite Pb2. rewrite Pb1. rewrite Pb. unfold advance. cbn [currentIndex].
      now rewrite E. }
    rewrite Hp2 in Ti3. specialize (Ai3 Hp2).
    split; [reflexivity|]. split; [reflexivity|]. split.
    + rewrite Ti3. f_equal. unfold render. now rewrite Pb3, Se3, Si3, Ts3, Pi3.
    + rewrite Ai3. rewrite Pb2. rewrite Pb1. rewrite Pb. unfold advance.
      cbn [currentIndex]. now rewrite E.
  - cbn [currentIndex isPlaying].
    rewrite (deps_changed_playing (committed h2) (render h2)) in Hd3.
    2:{ rewrite Co2'. cbn [render r_playback].
        rewrite Pb2. rewrite Pb1. rewrite Pb. unfold advance.
        cbn [currentIndex]. rewrite E. cbn [isPlaying]. discriminate. }
    destruct Hd3 as [Ti3 _].
    assert (isPlaying (playback h2) = false) as Hp2.
    { rewrite Pb2. rewrite Pb1. rewrite Pb. unfold advance. cbn [currentIndex].
      now rewrite E. }
    rewrite Hp2 in Ti3. now repeat split.
Qed.

End BrowserFacts.

(** ** App.tsx: the OpenAI engine without a key; pause and resume *)

Section ControlFacts.

Import App Session.

(** What React's commit does to the cache, and what else it leaves. *)
Lemma commit_rest (st : State) :
  alerts (commit st) = alerts st
  /\ requests (commit st) = requests st
  /\ fetches (commit st) = fetches st
  /\ tasks (commit st) = tasks st
  /\ audios (commit st) = audios st
  /\ nodes (commit st) = nodes st
  /\ audioRef (commit st) = audioRef st
  /\ sourceNodeRef (commit st) = sourceNodeRef st
  /\ audioCache (commit st)
     = (if cacheDepsChanged (committed st) (render st)
        then AudioLRUCache.clear (audioCache st) else audioCache st).
Proof.
  unfold commit, playbackEffect.
  destruct (cacheDepsChanged (committed st) (render st));
    destruct (playbackDepsChanged (committed st) (render st));
    cbn; destruct (isPlaying (playback st)); cbn; now repeat split.
Qed.

Lemma render_commit (st : State) : render (commit st) = render st.
Proof.
  destruct (commit_fields st) as (_ & Pb & Se & Si & Ts & Pi & _).
  unfold render. now rewrite Pb, Se, Si, Ts, Pi.
Qed.

Lemma deps_changed_settings (prev next : Render) :
  r_settingsId prev <> r_settingsId next ->
  playbackDepsChanged prev next = true.
Proof.
  intros H. unfold playbackDepsChanged, playSentenceChanged.
  apply Nat.eqb_neq in H. rewrite H.
  rewrite andb_false_r. cbn. now rewrite !orb_true_r.
Qed.

(** X19. The OpenAI engine without an API key, in every state the
    component can reach with the timer armed and a current segment that
    is not blank. When the timer fires, one alert asks for the key, the
    engine is set to the browser engine and nothing else in the settings
    changes, no request is sent, the cache is emptied, playback stays on
    at the same index and the timer is armed again; when it fires again
    the segment is spoken by the browser engine. *)
Theorem openai_without_key_falls_back (st : State) (r : Render) (text : JS.t) :
  reachable st ->
  timer st = Some r ->
  engine (settings st) = openai ->
  openaiKey (settings st) = [] ->
  JS.index (textSegments st) (currentIndex (playback st)) = Some text ->
  JS.blank text = false ->
  let st1 := step st TimerFired in
  alerts st1 = alerts st ++ [JS.lit "Please add your OpenAI API Key in Settings."]
  /\ engine (settings st1) = browser
  /\ Scenario.useEngine browser (settings st) = settings st1
  /\ requests st1 = requests st
  /\ fetches st1 = fetches st
  /\ AudioLRUCache.keys (audioCache st1) = []
  /\ isPlaying (playback st1) = true
  /\ currentIndex (playback st1) = currentIndex (playback st)
  /\ timer st1 = Some (render st1)
  /\ synth (step st1 TimerFired)
     = [{| utt_text := text; utt_render := render st1 |}].
Proof.
  intros Hreach Hr Heng Hkey Htext Hblank. cbv zeta.
  destruct (reachable_steady st Hreach) as [_ Hrest].
  destruct (armed_timer st r Hreach Hr) as (Hplay & _ & _ & Hsegs & Hset & _ & Hfired).
  assert (Hh1 : handle TimerFired st
          = setSettings (Scenario.useEngine browser)
              (alert (JS.lit "Please add your OpenAI API Key in Settings.")
                 (stopPrevious (set_timer None st)))).
  { cbn [handle]. rewrite Hfired. unfold playSentence.
    rewrite Hsegs, (index_in_range _ _ _ Htext), Htext, Hblank, Hset, Heng, Hkey.
    reflexivity. }
  destruct (stopPrevious_fields (set_timer None st))
    as (P & S1 & S2 & T1 & T2 & C & A & _ & F & R & Ti & Al & Co & Sy).
  set (h1 := handle TimerFired st) in *.
  assert (alerts h1 = alerts st ++ [JS.lit "Please add your OpenAI API Key in Settings."]
          /\ settings h1 = Scenario.useEngine browser (settings st)
          /\ settingsId h1 = S (settingsId st)
          /\ playback h1 = playback st /\ requests h1 = requests st
          /\ fetches h1 = fetches st /\ committed h1 = committed st
          /\ textSegments h1 = textSegments st)
    as (Al1 & Se1 & Si1 & Pb1 & Rq1 & Fe1 & Co1 & Ts1).
  { rewrite Hh1. unfold setSettings, alert. cbn.
    rewrite Al, S1, S2, P, R, F, Co, T1. now repeat split. }
  pose proof (reachable_step st TimerFired Hreach) as Hreach1.
  rewrite (step_quietly st TimerFired Hreach) in *
    by (apply timerFired_plain; [exact Hreach | rewrite Heng; discriminate]).
  fold h1 in Hreach1 |- *.
  destruct (commit_fields h1) as (Sy2 & Pb2 & Se2 & Si2 & Ts2 & Pi2 & Co2 & Hd2).
  destruct (commit_rest h1) as (Al2 & Rq2 & Fe2 & _ & _ & _ & _ & _ & Ca2).
  rewrite (deps_changed_settings (committed h1) (render h1)) in Hd2.
  2:{ rewrite Co1, Hrest. cbn [render r_settingsId]. rewrite Si1. lia. }
  destruct Hd2 as [Ti2 _]. rewrite Pb1, Hplay in Ti2.
  assert (cacheDepsChanged (committed h1) (render h1) = true) as Hcache.
  { rewrite Co1, Hrest. unfold cacheDepsChanged. cbn [render r_settings].
    rewrite Se1. cbn [Scenario.useEngine engine]. rewrite Heng.
    rewrite (bool_decide_eq_false_2 (openai = browser)) by discriminate.
    now rewrite andb_false_r. }
  rewrite Hcache in Ca2.
  split; [now rewrite Al2|]. split; [now rewrite Se2, Se1|].
  split; [now rewrite Se2, Se1|]. split; [now rewrite Rq2|].
  split; [now rewrite Fe2|]. split; [now rewrite Ca2|].
  split; [now rewrite Pb2, Pb1|]. split; [now rewrite Pb2, Pb1|].
  split; [now rewrite Ti2, render_commit|].
  destruct (timerFired_browser (commit h1) (render (commit h1)) text Hreach1)
    as (Sy3 & _).
  - now rewrite Ti2, render_commit.
  - now rewrite Se2, Se1.
  - now rewrite Ts2, Ts1, Pb2, Pb1.
  - exact Hblank.
  - rewrite (step_quietly (commit h1) TimerFired Hreach1)
      by (apply timerFired_plain; [exact Hreach1 | rewrite Se2, Se1; discriminate]).
    cbn [handle].
    destruct (commit_fields (timerFired (commit h1))) as (E & _).
    rewrite E. exact Sy3.
Qed.

(** What [stopAudio] leaves in place, and what it sets. *)
Lemma stopAudio_fields (st : State) :
  let st' := stopAudio st in
  playback st'
  = {| isPlaying := false; isLoading := false;
       currentIndex := currentIndex (playback st); detectedEmotion := None |}
  /\ settings st' = settings st /\ settingsId st' = settingsId st
  /\ textSegments st' = textSegments st /\ pdfDataId st' = pdfDataId st
  /\ activeIndexRef st' = activeIndexRef st /\ committed st' = committed st
  /\ timer st' = timer st /\ synth st' = []
  /\ audioRef st' = None /\ sourceNodeRef st' = None.
Proof.
  cbv zeta. unfold stopAudio, setPlayback, pauseAt, stopAt.
  destruct st as [pb se sid ts pid ac ai ar sr sy au no ta fe rq ti al co].
  destruct ar, sr; cbn; now repeat split.
Qed.

(** X20. Pause and resume, in every state the component can reach with a
    document loaded and playback on. The play button stops the audio:
    playback is off, nothing is queued for speech, no timer is armed, and
    the current index is kept. Pressing it again turns playback on at
    that same index (at index 0 if the index was -1), arms the timer for
    it and makes it the active index. *)
Theorem pause_then_play_resumes_at_the_same_index (st : State) :
  reachable st ->
  textSegments st <> [] ->
  isPlaying (playback st) = true ->
  let st1 := step st TogglePlay in
  let st2 := step st1 TogglePlay in
  let index := currentIndex (playback st) in
  (isPlaying (playback st1) = false
   /\ currentIndex (playback st1) = index
   /\ synth st1 = [] /\ timer st1 = None
   /\ audioRef st1 = None /\ sourceNodeRef st1 = None)
  /\ isPlaying (playback st2) = true
  /\ currentIndex (playback st2) = (if index =? -1 then 0 else index)
  /\ timer st2 = Some (render st2)
  /\ activeIndexRef st2 = currentIndex (playback st2).
Proof.
  intros Hreach Hdoc Hplay. cbv zeta.
  destruct (reachable_steady st Hreach) as [_ Hrest].
  assert ((segmentsLength (textSegments st) =? 0) = false) as Hlen.
  { apply Z.eqb_neq. unfold segmentsLength. destruct (textSegments st); [congruence|].
    simpl. lia. }
  (* pause *)
  assert (handle TogglePlay st = stopAudio st) as Hh1.
  { cbn [handle]. unfold togglePlay. rewrite Hrest. cbn [render r_textSegments r_playback].
    now rewrite Hlen, Hplay. }
  destruct (stopAudio_fields st) as (Pb & Se & Si & Ts & Pi & Ai & Co & Ti & Sy & Ar & Sr).
  pose proof (reachable_step st TogglePlay Hreach) as Hreach1.
  rewrite (step_quietly st TogglePlay Hreach) in * by (now apply handle_tasks).
  rewrite Hh1 in *. set (h1 := stopAudio st) in *.
  destruct (commit_fields h1) as (Sy1 & Pb1 & Se1 & Si1 & Ts1 & Pi1 & Co1 & Hd1).
  destruct (commit_rest h1) as (_ & _ & _ & _ & _ & _ & Ar1 & Sr1 & _).
  rewrite (deps_changed_playing (committed h1) (render h1)) in Hd1.
  2:{ rewrite Co, Hrest. cbn [render r_playback]. rewrite Pb, Hplay. discriminate. }
  destruct Hd1 as [Ti1 _]. rewrite Pb in Ti1. cbn [isPlaying] in Ti1.
  set (st1 := commit h1) in *.
  assert (committed st1 = render st1) as Hrest1.
  { subst st1. now rewrite Co1, render_commit. }
  split.
  { rewrite Pb1, Pb, Sy1, Sy, Ti1, Ar1, Ar, Sr1, Sr. now repeat split. }
  (* play *)
  rewrite (step_quietly st1 TogglePlay Hreach1) by (now apply handle_tasks).
  cbn [handle]. unfold togglePlay. rewrite Hrest1.
  cbn [render r_textSegments r_playback].
  rewrite Ts1. rewrite Ts. rewrite Hlen. rewrite Pb1. rewrite Pb. cbn [isPlaying].
  set (h2 := setPlayback _ st1).
  assert (playback h2
          = {| isPlaying := true; isLoading := false;
               currentIndex := if currentIndex (playback st) =? -1 then 0
                               else currentIndex (playback st);
               detectedEmotion := None |}
          /\ committed h2 = committed st1) as [Pb2 Co2].
  { subst h2. unfold setPlayback. cbn [playback committed set_playback].
    rewrite Pb1. rewrite Pb. now split. }
  destruct (commit_fields h2) as (_ & Pb3 & _ & _ & _ & _ & _ & Hd3).
  rewrite (deps_changed_playing (committed h2) (render h2)) in Hd3.
  2:{ rewrite Co2, Hrest1. cbn [render r_playback]. rewrite Pb1, Pb, Pb2. discriminate. }
  destruct Hd3 as [Ti3 Ai3]. rewrite Pb2 in Ti3, Ai3. cbn [isPlaying currentIndex] in *.
  rewrite Pb3, Pb2. cbn [isPlaying currentIndex].
  split; [reflexivity|]. split; [reflexivity|].
  split; [now rewrite Ti3, render_commit | now apply Ai3].
Qed.

End ControlFacts.

(** ** App.tsx: results that arrive late *)

Section DroppedFacts.

Import App Session.

Lemma resume_all_stale (ws : list Waiter) (outcome : JS.Settled AudioCacheItem)
    (st : State) :
  Forall (fun w => w_index w <> activeIndexRef st) ws ->
  foldl (fun st w => resumeGemini w outcome st) st ws = st.
Proof.
  induction ws as [|w ws IH]; intros Hall; [reflexivity|].
  apply Forall_cons in Hall as [Hw Hall]. cbn [foldl].
  destruct (stale_index_result_discarded w st) as [-> _]; [congruence|].
  now apply IH.
Qed.

(** What the handler of a stale result leaves in place. *)
Lemma stale_handle (st : State) (e : Event) :
  stale st e ->
  let h := handle e st in
  playback h = playback st /\ settings h = settings st
  /\ settingsId h = settingsId st /\ textSegments h = textSegments st
  /\ pdfDataId h = pdfDataId st /\ committed h = committed st
  /\ timer h = timer st /\ activeIndexRef h = activeIndexRef st
  /\ synth h = synth st /\ audios h = audios st /\ nodes h = nodes st
  /\ audioRef h = audioRef st /\ sourceNodeRef h = sourceNodeRef st
  /\ alerts h = alerts st /\ requests h = requests st.
Proof.
  destruct e; cbn [stale]; try contradiction; intros Hstale; cbv zeta; cbn [handle].
  - unfold settle. destruct (tasks st !! itemPromise) as [t|] eqn:Ht;
      [|now repeat split].
    specialize (Hstale t eq_refl).
    rewrite resume_all_stale.
    + destruct (task_outcome t);
        [|destruct (task_guarded t && isRejected (settlement t reply))];
        cbn; now repeat split.
    + destruct (task_outcome t);
        [|destruct (task_guarded t && isRejected (settlement t reply))];
        exact Hstale.
  - unfold settleFetch. destruct (fetches st !! id) as [f|] eqn:Hf;
      [|now repeat split].
    specialize (Hstale f eq_refl).
    destruct (fetch_settled f); [now repeat split|].
    destruct (stale_index_result_discarded (fetch_waiter f)
                (set_fetches (<[id := {| fetch_waiter := fetch_waiter f;
                                         fetch_settled := true |}]> (fetches st)) st))
      as [_ ->]; [cbn; congruence|].
    cbn. now repeat split.
Qed.

(** X21. A result that arrives for another sentence than the active one is
    dropped, in every state the component can reach, for both remote
    engines and on fulfilment as on rejection. When a synthesis promise
    settles and no [playSentence] call parked on it is for the active
    index, or when a speech request of the OpenAI engine settles that was
    made for another index, the turn changes nothing a user sees or
    hears: the playback record, the timer, the active index, the speech
    queue, the audio elements, the source nodes, the refs, the alerts and
    the requests sent are as before. *)
Theorem late_result_for_another_index_is_dropped (st : State) (e : Event) :
  reachable st ->
  stale st e ->
  let st' := step st e in
  playback st' = playback st
  /\ timer st' = timer st /\ activeIndexRef st' = activeIndexRef st
  /\ synth st' = synth st /\ audios st' = audios st /\ nodes st' = nodes st
  /\ audioRef st' = audioRef st /\ sourceNodeRef st' = sourceNodeRef st
  /\ alerts st' = alerts st /\ requests st' = requests st
  /\ settings st' = settings st /\ textSegments st' = textSegments st.
Proof.
  intros Hreach Hstale. cbv zeta.
  rewrite step_settled; [|exact Hreach | intros ->; contradiction].
  destruct (reachable_steady st Hreach) as [_ Hrest].
  destruct (stale_handle st e Hstale)
    as (Pb & Se & Si & Ts & Pi & Co & Ti & Ai & Sy & Au & No & Ar & Sr & Al & Rq).
  set (h := handle e st) in *.
  destruct (commit_fields h) as (Sy1 & Pb1 & Se1 & _ & Ts1 & _ & _ & Hd).
  destruct (commit_rest h) as (Al1 & Rq1 & _ & _ & Au1 & No1 & Ar1 & Sr1 & _).
  rewrite deps_unchanged in Hd.
  2-6: rewrite Co, Hrest; cbn [render r_playback r_pdfDataId r_settingsId r_textSegments];
       congruence.
  destruct Hd as [Ti1 Ai1].
  repeat split; congruence.
Qed.

End DroppedFacts.

(** ** App.tsx: prefetching *)

Section PrefetchFacts.

Import App.

Lemma commit_cached_none (st : State) (index : Z) :
  cached st index = None -> cached (commit st) index = None.
Proof.
  intros H. unfold cached.
  destruct (commit_rest st) as (_ & _ & _ & _ & _ & _ & _ & _ & ->).
  destruct (cacheDepsChanged _ _); [reflexivity | exact H].
Qed.

(** X22. A prefetch that fails is retried. In every state the component can
    reach, when a pending promise stored by [prefetchGeminiSentence]
    rejects (the service fails, or the segment is blank), its index has no
    cache entry any more after the turn; and the next prefetch for that
    index calls the producer again, once, and stores the new promise. *)
Theorem failed_prefetch_is_retried (st : State) (p : nat) (t : Task)
    (reply : JS.Settled AudioCacheItem) (r : Render) :
  reachable st ->
  tasks st !! p = Some t ->
  task_outcome t = None ->
  task_guarded t = true ->
  isRejected (settlement t reply) = true ->
  let index := task_index t in
  let st' := step st (Settle p reply) in
  cached st' index = None
  /\ (index < segmentsLength (r_textSegments r) ->
      let st'' := prefetchGeminiSentence r index st' in
      cached st'' index = Some (length (tasks st'))
      /\ producerCalls st'' index = S (producerCalls st' index)).
Proof.
  intros Hreach Ht Hpending Hguard Hrej. cbv zeta.
  destruct (reachable_cache_matches_voice st Hreach) as (Hnd & _ & _).
  assert (cached (step st (Settle p reply)) (task_index t) = None) as Hnone.
  { rewrite step_settled; [|exact Hreach | discriminate].
    cbn [handle]. apply commit_cached_none.
    now apply failed_prefetch_entry_removed. }
  split; [exact Hnone|]. intros Hlt.
  assert (List.NoDup (AudioLRUCache.keys (audioCache (step st (Settle p reply)))))
    as Hnd' by (apply reachable_cache_matches_voice; now apply reachable_step).
  apply peek_none_has in Hnone.
  destruct (prefetch_miss r (task_index t) _ Hlt Hnone) as [Hc Hcalls].
  split.
  - unfold cached. rewrite Hc.
    eapply recent_peek; [now apply NoDup_set | now apply set_new_recent].
  - rewrite Hcalls, Z.eqb_refl. lia.
Qed.

End PrefetchFacts.

(** ** App.tsx: what [playSentence] leaves in the cache *)

Section AheadFacts.

Import App Session.

Lemma peek_set_room (c : AudioLRUCache.t nat) (key k : Z) (value : nat) :
  AudioLRUCache.size c < AudioLRUCache.capacity c ->
  k <> key ->
  AudioLRUCache.peek (AudioLRUCache.set c key value) k = AudioLRUCache.peek c k.
Proof.
  intros Hroom Hne. unfold AudioLRUCache.peek, AudioLRUCache.set.
  cbn [AudioLRUCache.cache]. rewrite get_set_other by exact Hne.
  destruct (JSMap.has (AudioLRUCache.cache c) key).
  - now apply get_delete_other.
  - unfold AudioLRUCache.size in Hroom.
    replace (JSMap.size (AudioLRUCache.cache c) >=? AudioLRUCache.capacity c)
      with false; [reflexivity|].
    symmetry. rewrite Z.geb_leb. apply Z.leb_gt. exact Hroom.
Qed.

Lemma size_set_le (c : AudioLRUCache.t nat) (key : Z) (value : nat) :
  List.NoDup (AudioLRUCache.keys c) ->
  AudioLRUCache.size (AudioLRUCache.set c key value) <= AudioLRUCache.size c + 1.
Proof.
  intros Hnd. rewrite !size_length, keys_set by exact Hnd.
  rewrite length_app. cbn [length].
  destruct (AudioLRUCache.has c key).
  - pose proof (length_without_le key (AudioLRUCache.keys c)). lia.
  - destruct (_ >=? _); [|lia].
    destruct (AudioLRUCache.keys c); cbn [tail length]; lia.
Qed.

(** The cache after the lookup of [playSentence]. *)
Lemma lookupOrStart_cache (r : Render) (index : Z) (st : State) :
  audioCache (snd (lookupOrStart r index st))
  = (if AudioLRUCache.has (audioCache st) index
     then snd (AudioLRUCache.get (audioCache st) index)
     else AudioLRUCache.set (audioCache st) index (length (tasks st))).
Proof.
  destruct (AudioLRUCache.has (audioCache st) index) eqn:Hhas.
  - unfold lookupOrStart.
    destruct (AudioLRUCache.get (audioCache st) index) as [[p|] c'] eqn:G;
      [reflexivity|].
    exfalso. unfold AudioLRUCache.get in G. unfold AudioLRUCache.has in Hhas.
    rewrite Hhas in G. cbn [negb] in G. unfold JSMap.has in Hhas.
    destruct (JSMap.get _ index); discriminate.
  - unfold lookupOrStart. rewrite (get_miss _ _ Hhas).
    set (st1 := setPlayback _ _).
    pose proof (processGeminiSentence_tasks r index st1) as [_ Hp].
    pose proof (processGeminiSentence_frame r index st1) as Hc.
    destruct (processGeminiSentence r index st1) as [p st2].
    cbn [fst snd] in *. subst p. cbn [audioCache set_audioCache]. rewrite Hc.
    now destruct st.
Qed.

(** With room in the cache, the lookup evicts nothing. *)
Lemma lookupOrStart_keeps (r : Render) (index : Z) (st : State) :
  List.NoDup (AudioLRUCache.keys (audioCache st)) ->
  let st' := snd (lookupOrStart r index st) in
  AudioLRUCache.size (audioCache st') <= AudioLRUCache.size (audioCache st) + 1
  /\ (forall k, k <> index -> cached st k = None -> cached st' k = None)
  /\ (AudioLRUCache.size (audioCache st) < AudioLRUCache.capacity (audioCache st) ->
      forall k p, cached st k = Some p -> cached st' k = Some p).
Proof.
  intros Hnd. cbv zeta. unfold cached. rewrite lookupOrStart_cache.
  destruct (AudioLRUCache.has (audioCache st) index) eqn:Hhas.
  - rewrite size_get by exact Hnd. split; [lia|].
    split; intros; now rewrite peek_get.
  - split; [now apply size_set_le|]. split.
    + intros k Hne Hk.
      destruct (AudioLRUCache.peek (AudioLRUCache.set _ _ _) k) as [q|] eqn:E;
        [|reflexivity].
      apply peek_set in E; [|exact Hnd]. destruct E as [[-> _]|E]; congruence.
    + intros Hroom k p Hk. rewrite peek_set_room; [exact Hk | exact Hroom |].
      intros ->. apply peek_has in Hk. congruence.
Qed.

(** A prefetch stores an entry for its index when the index is in the
    document; with room in the cache it evicts nothing. *)
Lemma prefetch_keeps (r : Render) (index : Z) (st : State) :
  List.NoDup (AudioLRUCache.keys (audioCache st)) ->
  let st' := prefetchGeminiSentence r index st in
  List.NoDup (AudioLRUCache.keys (audioCache st'))
  /\ AudioLRUCache.capacity (audioCache st') = AudioLRUCache.capacity (audioCache st)
  /\ AudioLRUCache.size (audioCache st') <= AudioLRUCache.size (audioCache st) + 1
  /\ (index < segmentsLength (r_textSegments r) -> cached st' index <> None)
  /\ (index < segmentsLength (r_textSegments r) -> cached st index = None ->
      recent 0 (audioCache st') index (length (tasks st)))
  /\ (AudioLRUCache.size (audioCache st) < AudioLRUCache.capacity (audioCache st) ->
      forall k p, cached st k = Some p -> cached st' k = Some p).
Proof.
  intros Hnd. cbv zeta. unfold cached.
  destruct (Z.lt_ge_cases index (segmentsLength (r_textSegments r))) as [Hlt|Hge].
  - destruct (AudioLRUCache.has (audioCache st) index) eqn:Hhas.
    + assert (prefetchGeminiSentence r index st = st) as ->.
      { unfold prefetchGeminiSentence. rewrite Hhas. now destruct (index >=? _). }
      split; [exact Hnd|]. split; [reflexivity|]. split; [lia|].
      split; [intros _ E; apply peek_none_has in E; congruence|].
      split; [intros _ E; apply peek_none_has in E; congruence|]. auto.
    + destruct (prefetch_miss r index st Hlt Hhas) as [Hc _]. rewrite Hc.
      split; [now apply NoDup_set|]. split; [reflexivity|].
      split; [now apply size_set_le|].
      split; [intros _; now rewrite peek_set_same|].
      split; [intros _ _; now apply set_new_recent|].
      intros Hroom k p Hk. rewrite peek_set_room; [exact Hk | exact Hroom |].
      intros ->. apply peek_has in Hk. congruence.
  - assert (prefetchGeminiSentence r index st = st) as ->.
    { unfold prefetchGeminiSentence.
      replace (index >=? segmentsLength (r_textSegments r)) with true
        by (symmetry; apply Z.geb_le; lia).
      reflexivity. }
    split; [exact Hnd|]. split; [reflexivity|]. split; [lia|].
    split; [lia|]. split; [lia|]. auto.
Qed.

End AheadFacts.

(** ** App.tsx: the microtasks and the cache *)

Section MicrotaskCacheFacts.

Import App Session.

(** What a settlement does to the cache: the [.catch] of the prefetch
    path deletes the entry of a promise that rejects. *)
Lemma settle_cache (p : nat) (reply : JS.Settled AudioCacheItem) (st : State) :
  audioCache (settle p reply st)
  = match tasks st !! p with
    | Some t =>
        match task_outcome t with
        | None =>
            if task_guarded t && isRejected (settlement t reply)
            then AudioLRUCache.delete (audioCache st) (task_index t)
            else audioCache st
        | Some _ => audioCache st
        end
    | None => audioCache st
    end.
Proof.
  unfold settle. destruct (tasks st !! p) as [t|]; [|reflexivity].
  match goal with
  | |- audioCache (foldl _ ?s _) = _ =>
      destruct (resume_all_cache (task_waiters t)
                  (match task_outcome t with
                   | Some o => o
                   | None => settlement t reply
                   end) s) as [-> _]
  end.
  destruct (task_outcome t); [reflexivity|].
  now destruct (task_guarded t && isRejected (settlement t reply)).
Qed.

Lemma settle_settings (p : nat) (reply : JS.Settled AudioCacheItem) (st : State) :
  settings (settle p reply st) = settings st
  /\ committed (settle p reply st) = committed st.
Proof.
  unfold settle. destruct (tasks st !! p) as [t|]; [|now split].
  match goal with
  | |- settings (foldl _ ?s ?ws) = _ /\ _ =>
      destruct (resume_all_frame ws
                  (match task_outcome t with
                   | Some o => o
                   | None => settlement t reply
                   end) s) as (_ & _ & _ & -> & -> & _)
  end.
  destruct (task_outcome t); [now split|].
  now destruct (task_guarded t && isRejected (settlement t reply)).
Qed.

Lemma flush_settings (st : State) :
  settings (flush st) = settings st /\ committed (flush st) = committed st.
Proof.
  apply (flush_keeps (fun s => settings s = settings st
                               /\ committed s = committed st)); [|now split].
  intros p reply s [<- <-]. apply settle_settings.
Qed.

(** A promise that was rejected when it was made rejects. *)
Lemma rejectedAtBirth_rejects (t : Task) (reply : JS.Settled AudioCacheItem) :
  rejectedAtBirth t = true ->
  task_outcome t = None /\ isRejected (settlement t reply) = true.
Proof.
  unfold rejectedAtBirth, thrown, settlement.
  destruct (task_outcome t); [discriminate|].
  destruct (JS.index _ _) as [text|]; [|now split].
  destruct (JS.blank text); [now split | discriminate].
Qed.

(** The cache after the reactions of the promises that [select] picks:
    the entries of the picked promises that are pending, came through
    [.catch] and reject are deleted. *)
Lemma react_cache (select : Task -> bool) (st : State) :
  audioCache (react select st)
  = foldl AudioLRUCache.delete (audioCache st)
      (map task_index
         (List.filter
            (fun t => select t
                      && match task_outcome t with
                         | None =>
                             task_guarded t
                             && isRejected
                                  (settlement t (Rejected (JS.lit "Empty text")))
                         | Some _ => false
                         end)
            (tasks st))).
Proof.
  unfold react.
  set (F := fun (st : State) (p : nat) =>
              match tasks st !! p with
              | Some t => if select t
                          then settle p (Rejected (JS.lit "Empty text")) st else st
              | None => st
              end).
  set (d := fun t : Task => select t && _).
  assert (forall n a s,
            audioCache (foldl F s (seq a n))
            = foldl AudioLRUCache.delete (audioCache s)
                (map task_index (List.filter d (take n (drop a (tasks s))))))
    as H.
  { induction n as [|n IH]; intros a s; [reflexivity|].
    cbn [seq foldl]. rewrite IH.
    destruct (tasks s !! a) as [t|] eqn:Ht.
    - assert (F s a = if select t
                      then settle a (Rejected (JS.lit "Empty text")) s else s)
        as -> by (unfold F; now rewrite Ht).
      rewrite (drop_S _ _ _ Ht). cbn [take List.filter].
      subst d. cbn beta. destruct (select t) eqn:Hsel; [|reflexivity].
      rewrite settle_tasks, settle_cache, Ht.
      rewrite drop_insert_lt by lia. cbn [andb].
      destruct (task_outcome t); [reflexivity|].
      now destruct (task_guarded t && isRejected _).
    - assert (F s a = s) as -> by (unfold F; now rewrite Ht).
      apply lookup_ge_None in Ht.
      rewrite (drop_ge (tasks s) a), (drop_ge (tasks s) (S a)) by lia.
      now rewrite !take_nil. }
  rewrite H, drop_0. now rewrite firstn_all.
Qed.

(** Deleting keys: the other keys keep their entries, the deleted ones
    have none. *)
Lemma peek_deletes_other (c : AudioLRUCache.t nat) (ks : list Z) (k : Z) :
  ~ In k ks ->
  AudioLRUCache.peek (foldl AudioLRUCache.delete c ks) k = AudioLRUCache.peek c k.
Proof.
  revert c. induction ks as [|j ks IH]; intros c Hk; [reflexivity|].
  cbn [foldl]. rewrite IH by (intros H; apply Hk; now right).
  unfold AudioLRUCache.peek, AudioLRUCache.delete. cbn [AudioLRUCache.cache].
  apply get_delete_other. intros ->. apply Hk. now left.
Qed.

Lemma peek_deletes_none (c : AudioLRUCache.t nat) (ks : list Z) (k : Z) :
  List.NoDup (AudioLRUCache.keys c) ->
  AudioLRUCache.peek c k = None ->
  AudioLRUCache.peek (foldl AudioLRUCache.delete c ks) k = None.
Proof.
  revert c. induction ks as [|j ks IH]; intros c Hnd Hk; [exact Hk|].
  cbn [foldl]. apply IH; [now apply NoDup_delete|].
  destruct (AudioLRUCache.peek (AudioLRUCache.delete c j) k) as [p|] eqn:E;
    [|reflexivity].
  apply peek_delete_some in E; [congruence | exact Hnd].
Qed.

Lemma peek_deletes_in (c : AudioLRUCache.t nat) (ks : list Z) (k : Z) :
  List.NoDup (AudioLRUCache.keys c) ->
  In k ks ->
  AudioLRUCache.peek (foldl AudioLRUCache.delete c ks) k = None.
Proof.
  revert c. induction ks as [|j ks IH]; intros c Hnd Hk; [destruct Hk|].
  cbn [foldl]. destruct (Z.eq_dec j k) as [->|Hne].
  - apply peek_deletes_none; [now apply NoDup_delete | now apply peek_delete].
  - apply IH; [now apply NoDup_delete|]. destruct Hk; [contradiction | assumption].
Qed.

End MicrotaskCacheFacts.

(** ** App.tsx: the timer's turn with the Gemini engine *)

Section WindowFacts.

Import App Session.

Lemma processGeminiSentence_settings (r : Render) (index : Z) (st : State) :
  settings (snd (processGeminiSentence r index st)) = settings st
  /\ committed (snd (processGeminiSentence r index st)) = committed st.
Proof.
  unfold processGeminiSentence.
  destruct (JS.index (r_textSegments r) index) as [text|]; [|now split].
  now destruct (JS.blank text).
Qed.

Lemma prefetch_settings (r : Render) (index : Z) (st : State) :
  settings (prefetchGeminiSentence r index st) = settings st
  /\ committed (prefetchGeminiSentence r index st) = committed st.
Proof.
  unfold prefetchGeminiSentence.
  destruct (index >=? _); [now split|].
  destruct (AudioLRUCache.has _ _); [now split|].
  pose proof (processGeminiSentence_settings r index st) as H.
  destruct (processGeminiSentence r index st) as [p st1]. exact H.
Qed.

Lemma lookupOrStart_settings (r : Render) (index : Z) (st : State) :
  settings (snd (lookupOrStart r index st)) = settings st
  /\ committed (snd (lookupOrStart r index st)) = committed st.
Proof.
  unfold lookupOrStart.
  destruct (AudioLRUCache.get (audioCache st) index) as [[p|] c]; [now split|].
  set (st1 := setPlayback _ _).
  pose proof (processGeminiSentence_settings r index st1) as H.
  destruct (processGeminiSentence r index st1) as [p st2]. exact H.
Qed.

(** The promises [prefetchGeminiSentence] adds: one, pending, when the
    index is in the document and has no entry. *)
Lemma prefetch_tasks (r : Render) (index : Z) (st : State) :
  tasks (prefetchGeminiSentence r index st)
  = tasks st
    ++ (if (index <? segmentsLength (r_textSegments r))
           && negb (AudioLRUCache.has (audioCache st) index)
        then [{| task_index := index; task_render := r; task_guarded := true;
                 task_outcome := None; task_waiters := [] |}]
        else []).
Proof.
  unfold prefetchGeminiSentence. rewrite Z.geb_leb.
  destruct (Z.leb_spec (segmentsLength (r_textSegments r)) index) as [Hge|Hlt].
  - replace (index <? _) with false by (symmetry; apply Z.ltb_ge; lia).
    cbn. now rewrite app_nil_r.
  - replace (index <? _) with true by (symmetry; apply Z.ltb_lt; lia).
    destruct (AudioLRUCache.has (audioCache st) index); cbn [negb andb];
      [now rewrite app_nil_r|].
    pose proof (processGeminiSentence_tasks r index st) as [Ht Hp].
    destruct (processGeminiSentence r index st) as [p st1].
    cbn [fst snd] in *. subst p. unfold guard. cbn. rewrite Ht.
    rewrite alter_app_r_alt, Nat.sub_diag by lia. reflexivity.
Qed.

(** The promise the lookup of [playSentence] adds did not go through
    [.catch]. *)
Lemma lookupOrStart_tasks (r : Render) (index : Z) (st : State) :
  exists news,
    tasks (snd (lookupOrStart r index st)) = tasks st ++ news
    /\ Forall (fun t => task_guarded t = false) news.
Proof.
  unfold lookupOrStart.
  destruct (AudioLRUCache.get (audioCache st) index) as [[p|] c].
  - exists []. cbn. now rewrite app_nil_r.
  - set (st1 := setPlayback _ _).
    pose proof (processGeminiSentence_tasks r index st1) as [Ht _].
    destruct (processGeminiSentence r index st1) as [p st2].
    cbn [fst snd] in *. eexists. cbn. rewrite Ht.
    split; [subst st1; now destruct st|]. now repeat constructor.
Qed.

(** The cache after [prefetchGeminiSentence]. *)
Lemma prefetch_cache (r : Render) (index : Z) (st : State) :
  audioCache (prefetchGeminiSentence r index st)
  = (if (index <? segmentsLength (r_textSegments r))
        && negb (AudioLRUCache.has (audioCache st) index)
     then AudioLRUCache.set (audioCache st) index (length (tasks st))
     else audioCache st).
Proof.
  destruct (Z.ltb_spec index (segmentsLength (r_textSegments r))) as [Hlt|Hge].
  - destruct (AudioLRUCache.has (audioCache st) index) eqn:Hhas; cbn [negb andb].
    + unfold prefetchGeminiSentence. rewrite Hhas. now destruct (index >=? _).
    + now destruct (prefetch_miss r index st Hlt Hhas) as [-> _].
  - unfold prefetchGeminiSentence.
    replace (index >=? segmentsLength (r_textSegments r)) with true
      by (symmetry; apply Z.geb_le; lia).
    reflexivity.
Qed.

Lemma filter_alter_map {A B} (f : A -> A) (d : A -> bool) (g : A -> B)
    (i : nat) (l : list A) :
  (forall x, d (f x) = d x) -> (forall x, g (f x) = g x) ->
  map g (List.filter d (alter f i l)) = map g (List.filter d l).
Proof.
  intros Hd Hg. revert i. induction l as [|x l IH]; intros [|i]; try reflexivity.
  - cbn [alter list_alter List.filter]. rewrite Hd.
    destruct (d x); cbn [map]; now rewrite ?Hg.
  - change (alter f (S i) (x :: l)) with (x :: alter f i l).
    cbn [List.filter]. destruct (d x); cbn [map]; now rewrite IH.
Qed.

Lemma filter_none {A} (d : A -> bool) (l : list A) :
  Forall (fun x => d x = false) l -> List.filter d l = [].
Proof.
  induction 1 as [|x l Hx _ IH]; [reflexivity|]. cbn. now rewrite Hx.
Qed.

(** The cache after the timer's turn with the Gemini engine: what
    [playSentence] leaves, less the entries it made for look-ahead
    segments that are blank, which the [.catch] of the prefetch deletes
    in the same turn. *)
Lemma timerFired_google (st : State) (r : Render) (text : JS.t) :
  reachable st ->
  timer st = Some r ->
  engine (settings st) = google ->
  JS.index (textSegments st) (currentIndex (playback st)) = Some text ->
  JS.blank text = false ->
  let index := currentIndex (playback st) in
  let s1 := snd (lookupOrStart r index (stopPrevious (set_timer None st))) in
  let s2 := prefetchGeminiSentence r (index + 1) s1 in
  let s3 := prefetchGeminiSentence r (index + 2) s2 in
  let rejected (k : Z) (s : State) :=
    if (k <? segmentsLength (r_textSegments r))
       && negb (AudioLRUCache.has (audioCache s) k)
       && match thrown r k with Some _ => true | None => false end
    then [k] else [] in
  audioCache (step st TimerFired)
  = foldl AudioLRUCache.delete (audioCache s3)
          (rejected (index + 1) s1 ++ rejected (index + 2) s2).
Proof.
  intros Hreach Hr Heng Htext Hblank. cbv zeta.
  destruct (reachable_steady st Hreach) as [_ Hrest].
  pose proof (reachable_quiet st Hreach) as Hquiet.
  destruct (armed_timer st r Hreach Hr) as (_ & _ & _ & Hsegs & Hset & _ & Hfired).
  unfold step. cbn [handle]. rewrite Hfired.
  rewrite (playSentence_google r _ _ text);
    [| now rewrite Hset | now rewrite Hsegs | exact Hblank].
  set (index := currentIndex (playback st)).
  set (s0 := stopPrevious (set_timer None st)).
  set (s1 := snd (lookupOrStart r index s0)).
  set (s2 := prefetchGeminiSentence r (index + 1) s1).
  set (s3 := prefetchGeminiSentence r (index + 2) s2).
  set (s4 := await _ _ s3).
  (* React's commit leaves the cache *)
  destruct (commit_rest (flush s4)) as (_ & _ & _ & _ & _ & _ & _ & _ & ->).
  assert (settings s4 = settings st /\ committed s4 = committed st) as [Hs Hc].
  { subst s4. unfold await. cbn [settings committed set_tasks].
    subst s3. destruct (prefetch_settings r (index + 2) s2) as [-> ->].
    subst s2. destruct (prefetch_settings r (index + 1) s1) as [-> ->].
    subst s1. destruct (lookupOrStart_settings r index s0) as [-> ->].
    subst s0. destruct (stopPrevious_fields (set_timer None st))
      as (_ & -> & _ & _ & _ & _ & _ & _ & _ & _ & _ & _ & -> & _).
    now split. }
  destruct (flush_settings s4) as [Hfs Hfc].
  rewrite cache_deps_unchanged
    by (rewrite Hfc, Hc, Hrest; cbn [render r_settings]; now rewrite Hfs, Hs).
  (* the microtasks *)
  unfold flush. rewrite react_cache.
  rewrite (filter_none _ (tasks (react rejectedAtBirth s4))).
  2:{ apply Forall_forall. intros t _. unfold awaitedSettled.
      destruct (task_outcome t); [|reflexivity]. now destruct (task_waiters t). }
  cbn [map foldl]. rewrite react_cache.
  assert (audioCache s4 = audioCache s3) as -> by reflexivity.
  f_equal.
  (* the promises of the turn *)
  set (d := fun t : Task => rejectedAtBirth t && _).
  assert (forall t, task_guarded t = false -> d t = false) as Hbare.
  { intros t Hg. subst d. cbn beta. rewrite Hg.
    destruct (task_outcome t); cbn; now rewrite andb_false_r. }
  assert (tasks s4 = alter (fun t =>
            {| task_index := task_index t; task_render := task_render t;
               task_guarded := task_guarded t; task_outcome := task_outcome t;
               task_waiters := task_waiters t
                               ++ [{| w_render := r; w_index := index |}] |})
            (fst (lookupOrStart r index s0)) (tasks s3)) as -> by reflexivity.
  rewrite filter_alter_map; [|intros t; reflexivity | intros t; reflexivity].
  subst s3. rewrite prefetch_tasks. subst s2. rewrite prefetch_tasks.
  destruct (lookupOrStart_tasks r index s0) as (news & Hnews & Hbares).
  unfold s1 at 1. rewrite Hnews.
  assert (tasks s0 = tasks st) as ->
    by (subst s0; now destruct (stopPrevious_frame (set_timer None st)) as [_ ->]).
  rewrite !List.filter_app, !map_app.
  rewrite (filter_none d (tasks st)).
  2:{ eapply Forall_impl; [exact Hquiet|]. intros t [Hb _]. subst d. cbn beta.
      now rewrite Hb. }
  rewrite (filter_none d news)
    by (eapply Forall_impl; [exact Hbares | exact Hbare]).
  cbn [map app].
  assert (forall k (c : bool),
            map task_index
              (List.filter d
                 (if c then [{| task_index := k; task_render := r;
                                task_guarded := true; task_outcome := None;
                                task_waiters := [] |}]
                  else []))
            = (if c && match thrown r k with Some _ => true | None => false end
               then [k] else [])) as Hone.
  { intros k [|]; [|reflexivity]. cbn [List.filter andb]. subst d. cbn beta.
    unfold rejectedAtBirth, settlement, thrown. cbn.
    destruct (JS.index (r_textSegments r) k) as [t|]; [|reflexivity].
    now destruct (JS.blank t). }
  now rewrite !Hone.
Qed.

(** X23. What the timer's turn leaves in the cache with the Gemini engine,
    in every state the component can reach with the timer armed and a
    current segment that is not blank. After the turn the current index
    has an entry. A look-ahead index, one or two ahead, whose segment is
    not blank has an entry: always for the index two ahead; for the index
    one ahead if it had none before or if the cache held at most 47
    entries. A look-ahead index whose segment is blank and that had no
    entry has none after the turn: the promise made for it rejects at
    once and its [.catch] deletes the entry. With at most 47 entries in
    the cache, no entry that was there is lost. *)
Theorem gemini_play_caches_current_and_ahead (st : State) (r : Render) (text : JS.t) :
  reachable st ->
  timer st = Some r ->
  engine (settings st) = google ->
  JS.index (textSegments st) (currentIndex (playback st)) = Some text ->
  JS.blank text = false ->
  let index := currentIndex (playback st) in
  let st1 := step st TimerFired in
  cached st1 index <> None
  /\ (forall k ahead,
        k = index + 1 \/ k = index + 2 ->
        JS.index (textSegments st) k = Some ahead ->
        (JS.blank ahead = false ->
         k = index + 2 \/ cached st k = None
         \/ AudioLRUCache.size (audioCache st) + 3 <= 50 ->
         cached st1 k <> None)
        /\ (JS.blank ahead = true -> cached st k = None -> cached st1 k = None))
  /\ (AudioLRUCache.size (audioCache st) + 3 <= 50 ->
      forall k p, cached st k = Some p -> cached st1 k = Some p).
Proof.
  intros Hreach Hr Heng Htext Hblank. cbv zeta.
  pose proof (timerFired_google st r text Hreach Hr Heng Htext Hblank) as Hcache.
  cbv zeta in Hcache. unfold cached. rewrite Hcache. clear Hcache.
  destruct (armed_timer st r Hreach Hr) as (_ & _ & _ & Hsegs & _ & _ & _).
  destruct (reachable_coherent st Hreach) as [[Hnd Hcap Hsize _ _ _ _] _].
  rewrite <- Hsegs.
  set (index := currentIndex (playback st)).
  set (s0 := stopPrevious (set_timer None st)).
  assert (audioCache s0 = audioCache st) as Hc0.
  { subst s0. now destruct (stopPrevious_frame (set_timer None st)) as [-> _]. }
  assert (forall k, cached s0 k = AudioLRUCache.peek (audioCache st) k) as Hk0
    by (intros k; unfold cached; now rewrite Hc0).
  rewrite <- Hc0 in Hnd, Hcap, Hsize.
  destruct (lookupOrStart_spec r index s0 Hnd) as (Hnd1 & Hcap1 & Hrec1 & _).
  destruct (lookupOrStart_keeps r index s0 Hnd) as (Hsz1 & Hnone1 & Hkeep1).
  set (s1 := snd (lookupOrStart r index s0)) in *.
  destruct (prefetch_keeps r (index + 1) s1 Hnd1)
    as (Hnd2 & Hcap2 & Hsz2 & Hin2 & Hnew2 & Hkeep2).
  destruct (prefetch_other r (index + 1) index 0 _ s1 ltac:(lia) Hnd1 Hrec1
              ltac:(rewrite Hcap1, Hcap; lia)) as (_ & Hrec2 & _ & _).
  pose proof (prefetch_miss r (index + 1) s1) as Hmiss2.
  set (s2 := prefetchGeminiSentence r (index + 1) s1) in *.
  destruct (prefetch_keeps r (index + 2) s2 Hnd2)
    as (Hnd3 & Hcap3 & Hsz3 & Hin3 & _ & Hkeep3).
  destruct (prefetch_other r (index + 2) index 1 _ s2 ltac:(lia) Hnd2 Hrec2
              ltac:(rewrite Hcap2, Hcap1, Hcap; lia)) as (_ & Hrec3 & _ & _).
  set (s3 := prefetchGeminiSentence r (index + 2) s2) in *.
  unfold cached in Hin2, Hin3, Hkeep1, Hkeep2, Hkeep3, Hnone1.
  rewrite Hc0 in Hsz1, Hkeep1, Hnone1.
  assert (AudioLRUCache.capacity (audioCache st) = 50) as Hcapst
    by (rewrite <- Hc0; exact Hcap).
  (* the entries the microtasks delete *)
  set (ks := _ ++ _).
  assert (forall k, In k ks ->
            (k = index + 1
             /\ AudioLRUCache.has (audioCache s1) k = false
             \/ k = index + 2
                /\ AudioLRUCache.has (audioCache s2) k = false)
            /\ k < segmentsLength (r_textSegments r)
            /\ thrown r k <> None) as Hks.
  { intros k Hk. subst ks. apply in_app_or in Hk.
    destruct Hk as [Hk|Hk];
      [ destruct (index + 1 <? _) eqn:E1 | destruct (index + 2 <? _) eqn:E1 ];
      try (now destruct Hk);
      cbn [andb] in Hk;
      match type of Hk with
      | In _ (if negb (AudioLRUCache.has ?c ?j) && ?b then _ else _) =>
          destruct (AudioLRUCache.has c j) eqn:E2; [now destruct Hk|];
          cbn [negb andb] in Hk
      end;
      match type of Hk with
      | In _ (if match thrown ?r ?j with _ => _ end then _ else _) =>
          destruct (thrown r j) eqn:E3; [|now destruct Hk]
      end;
      destruct Hk as [<-|[]]; apply Z.ltb_lt in E1;
      (split; [auto | split; [exact E1 | congruence]]). }
  assert (forall k t, JS.index (r_textSegments r) k = Some t ->
            k < segmentsLength (r_textSegments r)
            /\ thrown r k = (if JS.blank t then Some (JS.lit "Empty text") else None))
    as Hseg.
  { intros k t Hk. split; [|unfold thrown; now rewrite Hk].
    pose proof (index_in_range _ _ _ Hk) as Hin.
    apply orb_false_iff in Hin as [_ Hin]. rewrite Z.geb_leb in Hin.
    now apply Z.leb_gt in Hin. }
  assert (forall k p, AudioLRUCache.size (audioCache st) + 3 <= 50 ->
            AudioLRUCache.peek (audioCache st) k = Some p ->
            AudioLRUCache.peek (audioCache s1) k = Some p
            /\ AudioLRUCache.peek (audioCache s2) k = Some p
            /\ AudioLRUCache.peek (audioCache s3) k = Some p) as Hkeep.
  { intros k p Hroom Hk.
    assert (AudioLRUCache.peek (audioCache s1) k = Some p) as H1
      by (apply Hkeep1; [rewrite Hcapst; lia | exact Hk]).
    assert (AudioLRUCache.peek (audioCache s2) k = Some p) as H2
      by (apply Hkeep2; [rewrite Hcap1, Hcap; lia | exact H1]).
    split; [exact H1|]. split; [exact H2|].
    apply Hkeep3; [rewrite Hcap2, Hcap1, Hcap; lia | exact H2]. }
  split; [|split].
  - (* the current index *)
    rewrite peek_deletes_other.
    + now rewrite (recent_peek _ _ _ _ Hnd3 Hrec3).
    + intros Hk. destruct (Hks _ Hk) as ([[E _]|[E _]] & _); lia.
  - intros k ahead Hahead Hindex.
    destruct (Hseg k ahead Hindex) as [Hlt Hth].
    split.
    + (* a look-ahead segment that is not blank *)
      intros Hsolid Hcond. rewrite Hsolid in Hth.
      rewrite peek_deletes_other
        by (intros Hk; destruct (Hks _ Hk) as (_ & _ & Hk'); congruence).
      destruct Hahead as [->| ->]; [|now apply Hin3].
      destruct Hcond as [Hcond|[Hfresh|Hroom]]; [lia| |].
      * assert (recent 0 (audioCache s2) (index + 1) (length (tasks s1))) as Hr2.
        { apply Hnew2; [exact Hlt|]. unfold cached. apply Hnone1; [lia | exact Hfresh]. }
        destruct (prefetch_other r (index + 2) (index + 1) 0 _ s2 ltac:(lia) Hnd2 Hr2
                    ltac:(rewrite Hcap2, Hcap1, Hcap; lia)) as (_ & Hr3 & _ & _).
        fold s3 in Hr3. now rewrite (recent_peek _ _ _ _ Hnd3 Hr3).
      * specialize (Hin2 Hlt).
        destruct (AudioLRUCache.peek (audioCache s2) (index + 1)) as [q|] eqn:E;
          [|congruence].
        rewrite (Hkeep3 ltac:(rewrite Hcap2, Hcap1, Hcap; lia) _ _ E). discriminate.
    + (* a look-ahead segment that is blank *)
      intros Hblank' Hfresh. rewrite Hblank' in Hth.
      apply peek_deletes_in; [exact Hnd3|]. subst ks. apply in_or_app.
      apply Z.ltb_lt in Hlt.
      destruct Hahead as [->| ->]; [left | right]; rewrite Hth, Hlt; cbn [andb].
      * assert (AudioLRUCache.has (audioCache s1) (index + 1) = false) as ->
          by (apply peek_none_has, Hnone1; [lia | exact Hfresh]).
        now left.
      * assert (AudioLRUCache.has (audioCache s2) (index + 2) = false) as ->.
        { apply peek_none_has.
          assert (AudioLRUCache.peek (audioCache s1) (index + 2) = None) as H1
            by (apply Hnone1; [lia | exact Hfresh]).
          destruct (AudioLRUCache.peek (audioCache s2) (index + 2)) as [q|] eqn:E;
            [|reflexivity].
          subst s2. rewrite prefetch_cache in E.
          destruct (_ && _) in E; [|congruence].
          apply peek_set in E; [|exact Hnd1]. destruct E as [[E _]|E]; [lia|congruence]. }
        now left.
  - (* with room nothing is lost *)
    intros Hroom k p Hk. destruct (Hkeep k p Hroom Hk) as (H1 & H2 & H3).
    rewrite peek_deletes_other; [exact H3|].
    intros Hin. destruct (Hks _ Hin) as ([[_ E]|[_ E]] & _);
      apply peek_none_has in E; congruence.
Qed.

End WindowFacts.

(** ** The theorems on listening sessions *)

Section ListeningFacts.

Import App Session.

Lemma listening_reachable (es : list Event) : reachable (run (mounted [] false) es).
Proof. now exists [], false, es. Qed.

(** While the first sentence is spoken, the queue holds one utterance. *)
Lemma reachable_speech_queue_at_most_one_witness :
  synth Listening.speaking <> []
  /\ (length (synth Listening.speaking) <= 1)%nat.
Proof.
  split; [vm_compute; discriminate|].
  apply reachable_speech_queue_at_most_one, listening_reachable.
Defined.

(** After play was pressed the timer is armed for index 0, the active
    index. *)
Lemma reachable_timer_is_current_witness :
  let st := Listening.armed in
  timer st = Some (render st)
  /\ activeIndexRef st = 0
  /\ timerFired st = playSentence (render st) 0 (set_timer None st).
Proof.
  cbv zeta.
  destruct (reachable_timer_is_current Listening.armed (listening_reachable _))
    as [Hactive Htimer].
  assert (timer Listening.armed = Some (render Listening.armed)) as Hr
    by (vm_compute; reflexivity).
  destruct (Htimer _ Hr) as (_ & _ & _ & _ & _ & _ & Hfired).
  split; [exact Hr|]. split; [|exact Hfired].
  rewrite Hactive; vm_compute; reflexivity.
Defined.

(** The browser engine speaks [Hello.] and, when the utterance ends,
    goes on to index 1. *)
Lemma browser_engine_reads_current_segment_witness :
  let st := Listening.armed in
  let st1 := step st TimerFired in
  let st2 := step st1 UtteranceEnded in
  synth st1 = [{| utt_text := JS.lit "Hello."; utt_render := render st |}]
  /\ synth st2 = []
  /\ currentIndex (playback st2) = 1
  /\ activeIndexRef st2 = 1.
Proof.
  cbv zeta.
  destruct (browser_engine_reads_current_segment Listening.armed
              (render Listening.armed) (JS.lit "Hello.")
              (listening_reachable _)
              ltac:(vm_compute; reflexivity) ltac:(vm_compute; reflexivity)
              ltac:(vm_compute; reflexivity) ltac:(vm_compute; reflexivity))
    as ((Hsynth & _) & Hqueue & Hnext).
  cbv zeta in Hnext.
  replace (currentIndex (playback Listening.armed) + 1
           <? segmentsLength (textSegments Listening.armed)) with true in Hnext
    by (vm_compute; reflexivity).
  destruct Hnext as (_ & Hidx & _ & Hact).
  split; [exact Hsynth|]. split; [exact Hqueue|].
  split; [rewrite Hidx | rewrite Hact]; vm_compute; reflexivity.
Defined.

(** Without a key the OpenAI engine alerts once and the browser engine
    speaks [Hello.] instead. *)
Lemma openai_without_key_falls_back_witness :
  let st := Listening.keyless in
  let st1 := step st TimerFired in
  engine (settings st) = openai
  /\ alerts st1 = [JS.lit "Please add your OpenAI API Key in Settings."]
  /\ engine (settings st1) = browser
  /\ requests st1 = []
  /\ synth (step st1 TimerFired)
     = [{| utt_text := JS.lit "Hello."; utt_render := render st1 |}].
Proof.
  cbv zeta.
  destruct (openai_without_key_falls_back Listening.keyless
              (render Listening.keyless) (JS.lit "Hello.")
              (listening_reachable _)
              ltac:(vm_compute; reflexivity) ltac:(vm_compute; reflexivity)
              ltac:(vm_compute; reflexivity) ltac:(vm_compute; reflexivity)
              ltac:(vm_compute; reflexivity))
    as (Hal & Heng & _ & Hrq & _ & _ & _ & _ & _ & Hsynth).
  split; [vm_compute; reflexivity|].
  split; [rewrite Hal; vm_compute; reflexivity|].
  split; [exact Heng|].
  split; [rewrite Hrq; vm_compute; reflexivity | exact Hsynth].
Defined.

(** Pause while the first sentence is spoken, then play again: index 0
    both times. *)
Lemma pause_then_play_resumes_at_the_same_index_witness :
  let st := Listening.speaking in
  let st1 := step st TogglePlay in
  let st2 := step st1 TogglePlay in
  (isPlaying (playback st) = true /\ currentIndex (playback st) = 0)
  /\ (isPlaying (playback st1) = false /\ synth st1 = [])
  /\ isPlaying (playback st2) = true
  /\ currentIndex (playback st2) = 0
  /\ activeIndexRef st2 = 0.
Proof.
  cbv zeta.
  destruct (pause_then_play_resumes_at_the_same_index Listening.speaking
              (listening_reachable _)
              ltac:(vm_compute; discriminate) ltac:(vm_compute; reflexivity))
    as ((Hoff & _ & Hqueue & _) & Hon & Hidx & _ & Hact).
  split; [split; vm_compute; reflexivity|].
  split; [now split|]. split; [exact Hon|].
  assert (currentIndex (playback (step (step Listening.speaking TogglePlay) TogglePlay))
          = 0) as H0 by (rewrite Hidx; vm_compute; reflexivity).
  split; [exact H0 | now rewrite Hact].
Defined.

(** The synthesis of sentence 0 arrives after sentence 1 was clicked:
    no source node is made and the playback record stays on index 1. *)
Lemma late_result_for_another_index_is_dropped_witness :
  let st := Listening.skipped in
  let st' := step st (Settle 0%nat (Fulfilled Scenario.calm)) in
  (exists t, tasks st !! 0%nat = Some t
             /\ map w_index (task_waiters t) = [0]
             /\ task_outcome t = None)
  /\ activeIndexRef st = 1
  /\ playback st' = playback st
  /\ nodes st' = []
  /\ sourceNodeRef st' = None.
Proof.
  cbv zeta.
  destruct (late_result_for_another_index_is_dropped Listening.skipped
              (Settle 0%nat (Fulfilled Scenario.calm)) (listening_reachable _))
    as (Hpb & _ & _ & _ & _ & Hno & _ & Hsr & _).
  { intros t Ht. vm_compute in Ht. injection Ht as <-.
    repeat constructor. vm_compute. discriminate. }
  split; [eexists; split; [vm_compute; reflexivity | split; reflexivity]|].
  split; [vm_compute; reflexivity|]. split; [exact Hpb|].
  split; [rewrite Hno | rewrite Hsr]; vm_compute; reflexivity.
Defined.

(** The prefetch of sentence 1 fails while sentence 0 is loading: its
    entry is gone, and the next prefetch starts a second synthesis. *)
Lemma failed_prefetch_is_retried_witness :
  let st := Listening.geminiLoading in
  let st' := step st (Settle 1%nat (Rejected (JS.lit "quota exceeded"))) in
  cached st 1 = Some 1%nat
  /\ cached st' 1 = None
  /\ cached (prefetchGeminiSentence (render st') 1 st') 1 = Some 3%nat
  /\ producerCalls (prefetchGeminiSentence (render st') 1 st') 1 = 2%nat.
Proof.
  cbv zeta.
  set (reply := Rejected (JS.lit "quota exceeded")).
  set (st' := step Listening.geminiLoading (Settle 1%nat reply)).
  destruct (failed_prefetch_is_retried Listening.geminiLoading 1%nat
              Listening.prefetchOfSecond reply (render st')
              (listening_reachable _)
              ltac:(vm_compute; reflexivity) ltac:(reflexivity)
              ltac:(reflexivity) ltac:(reflexivity))
    as (Hnone & Hnext).
  cbv zeta in Hnext. cbn [task_index Listening.prefetchOfSecond] in Hnone, Hnext.
  fold reply in Hnone, Hnext. fold st' in Hnone, Hnext.
  destruct (Hnext ltac:(vm_compute; reflexivity)) as [Hc Hcalls].
  split; [vm_compute; reflexivity|]. split; [exact Hnone|].
  split; [rewrite Hc | rewrite Hcalls]; vm_compute; reflexivity.
Defined.

(** Three segments, the second one blank, and the Gemini engine: after
    the timer's turn for index 0 the cache holds promises for 0 and 2 and
    none for 1. *)
Lemma gemini_play_caches_current_and_ahead_witness :
  let st := Listening.gappyArmed in
  let st1 := step st TimerFired in
  AudioLRUCache.keys (audioCache st) = []
  /\ cached st1 0 <> None
  /\ cached st1 1 = None
  /\ cached st1 2 <> None.
Proof.
  cbv zeta.
  destruct (gemini_play_caches_current_and_ahead Listening.gappyArmed
              (render Listening.gappyArmed) (JS.lit "Hello.")
              (listening_reachable _)
              ltac:(vm_compute; reflexivity) ltac:(vm_compute; reflexivity)
              ltac:(vm_compute; reflexivity) ltac:(vm_compute; reflexivity))
    as (H0 & Hahead & _).
  cbv zeta in H0, Hahead.
  change (currentIndex (playback Listening.gappyArmed)) with 0 in H0, Hahead.
  destruct (Hahead 1 (JS.lit " ") ltac:(now left) ltac:(vm_compute; reflexivity))
    as [_ H1].
  destruct (Hahead 2 (JS.lit "Bye.") ltac:(now right) ltac:(vm_compute; reflexivity))
    as [H2 _].
  split; [vm_compute; reflexivity|]. split; [exact H0|].
  split; [apply H1; vm_compute; reflexivity|].
  apply H2; [vm_compute; reflexivity | now left].
Defined.

End ListeningFacts.

(** ** App.tsx: recording *)

Section RecordingFacts.

Import PdfUtils Library.

Lemma terminators_not_blank (s : JS.t) :
  s <> [] -> forallb terminator s = true -> (0 <? length (JS.trim s))%nat = true.
Proof.
  intros Hne Hall. apply Nat.ltb_lt.
  destruct (JS.trim s) as [|c t] eqn:E; [|simpl; lia].
  apply trim_nil in E. destruct s as [|c s]; [congruence|].
  simpl in Hall, E. apply andb_true_iff in Hall as [Hc _].
  apply andb_true_iff in E as [Hs _].
  unfold terminator in Hc. unfold JS.is_space in Hs.
  exfalso.
  assert (c = 46 \/ c = 33 \/ c = 63) as Hcases by lia.
  destruct Hcases as [->|[->| ->]]; vm_compute in Hs; discriminate.
Qed.

Lemma transcriptSentences_kept (segmenter : option (JS.t -> list JS.t))
    (text : JS.t) :
  text <> [] ->
  Forall (fun s => s <> [] /\ JS.trim s = s /\ JS.blank s = false)
         (transcriptSentences segmenter text).
Proof.
  intros Hne. pose proof (pageSentences_kept segmenter text) as Hpage.
  unfold transcriptSentences. unfold pageSentences in Hpage.
  destruct segmenter as [segment|]; [exact Hpage|].
  destruct (RegExp.match_g sentencePattern text) as [raw|] eqn:E; [exact Hpage|].
  constructor; [|constructor].
  assert (forallb terminator text = true) as Hall.
  { unfold RegExp.match_g in E.
    destruct (matches_sentence (S (length text)) text ltac:(lia))
      as (_ & _ & _ & _ & Hnil).
    cbv zeta in Hnil. apply Hnil.
    destruct (RegExp.matches _ _ _); [reflexivity | discriminate]. }
  pose proof (kept_sentence text (terminators_not_blank text Hne Hall))
    as (H1 & H2 & H3).
  now repeat split.
Qed.

Lemma blank_segments_dropped (raw : list JS.t) :
  (forall m, In m raw -> forallb JS.is_space m = true) ->
  List.filter (fun s => (0 <? length s)%nat) (map JS.trim raw) = [].
Proof.
  induction raw as [|m raw IH]; intros Hall; [reflexivity|].
  cbn [map List.filter].
  replace (JS.trim m) with (@nil Z) by (symmetry; apply trim_nil, Hall; now left).
  cbn. apply IH. intros m' Hin. apply Hall. now right.
Qed.

(** Without a segmenter, a transcript of white space gives no sentence. *)
Lemma blank_transcript_sentences (text : JS.t) :
  text <> [] -> JS.blank text = true -> transcriptSentences None text = [].
Proof.
  intros Hne Hblank. apply blank_spec in Hblank. unfold transcriptSentences.
  destruct (matches_sentence (S (length text)) text ltac:(lia))
    as (_ & _ & Hsub & _ & Hnil).
  cbv zeta in Hsub, Hnil. unfold RegExp.match_g.
  destruct (RegExp.matches (S (length text)) sentencePattern text) as [|m ms] eqn:E.
  - exfalso. assert (forallb terminator text = true) as Hall by now apply Hnil.
    pose proof (terminators_not_blank text Hne Hall) as Hlen.
    apply trim_nil in Hblank. rewrite Hblank in Hlen. discriminate.
  - apply blank_segments_dropped. intros m' Hin.
    apply forallb_forall. intros c Hc.
    rewrite forallb_forall in Hblank. apply Hblank.
    apply list_elem_of_In. eapply elem_of_sublist; [|exact Hsub].
    apply list_elem_of_In. apply in_concat. now exists m'.
Qed.

(** X24. A transcript is appended to the document. When [transcribeAudio]
    resolves, the sentences of the transcript come after the segments
    there are, which keep their indices, and none of them is empty or
    blank or has white space at its ends; an empty transcript adds
    nothing, and without [Intl.Segmenter] neither does one of white space
    only. The page mapping is kept, or becomes [[0]] when it was empty
    and a sentence is added. The current index becomes 0 when a sentence
    is added and the render that started the recording had index -1, and
    is left alone otherwise. The processing flag is cleared. When
    [transcribeAudio] rejects, nothing changes: the processing flag stays
    as it was. *)
Theorem transcript_is_appended (r : App.Render)
    (segmenter : option (JS.t -> list JS.t)) (text : JS.t) (d : State) :
  let d' := transcribed r segmenter (Fulfilled text) d in
  let news := if JS.truthy text then transcriptSentences segmenter text else [] in
  App.textSegments (app d') = App.textSegments (app d) ++ news
  /\ Forall (fun s => s <> [] /\ JS.trim s = s /\ JS.blank s = false) news
  /\ (segmenter = None -> JS.blank text = true -> news = [])
  /\ pageMapping d'
     = match news, pageMapping d with
       | _ :: _, [] => [0]
       | _, _ => pageMapping d
       end
  /\ App.currentIndex (App.playback (app d'))
     = match news with
       | _ :: _ => if App.currentIndex (App.r_playback r) =? -1 then 0
                   else App.currentIndex (App.playback (app d))
       | [] => App.currentIndex (App.playback (app d))
       end
  /\ App.isPlaying (App.playback (app d')) = App.isPlaying (App.playback (app d))
  /\ isProcessing d' = false
  /\ forall e, transcribed r segmenter (Rejected e) d = d.
Proof.
  cbv zeta.
  assert (segmenter = None -> JS.blank text = true ->
          (if JS.truthy text then transcriptSentences segmenter text else []) = [])
    as Hblank.
  { intros -> Hb. destruct text as [|c text]; [reflexivity|]. cbn [JS.truthy].
    now apply blank_transcript_sentences. }
  unfold transcribed.
  destruct (JS.truthy text) eqn:Htruthy.
  - pose proof (transcriptSentences_kept segmenter text
                  ltac:(destruct text; [discriminate | congruence])) as Hkept.
    destruct (transcriptSentences segmenter text) as [|s news] eqn:E.
    + cbn. rewrite app_nil_r. repeat split; auto.
    + cbn [length Nat.ltb Nat.leb].
      destruct (App.currentIndex (App.r_playback r) =? -1); cbn;
        (split; [reflexivity|]); (split; [exact Hkept|]);
        (split; [exact Hblank|]);
        destruct (pageMapping d); cbn; now repeat split.
  - cbn. rewrite app_nil_r. repeat split; auto.
Qed.

End RecordingFacts.

(** ** App.tsx: seeking *)

Section SeekFacts.

Import App Session.

(** A state at rest with playback off has no timer armed after a turn
    that stops the audio. *)
Lemma stopAudio_turn (st : State) :
  reachable st ->
  let st1 := commit (stopAudio st) in
  playback st1
  = {| isPlaying := false; isLoading := false;
       currentIndex := currentIndex (playback st); detectedEmotion := None |}
  /\ timer st1 = None /\ synth st1 = []
  /\ audioRef st1 = None /\ sourceNodeRef st1 = None
  /\ textSegments st1 = textSegments st
  /\ committed st1 = render st1.
Proof.
  intros Hreach. cbv zeta.
  destruct (reachable_steady st Hreach) as [_ Hrest].
  destruct (stopAudio_fields st) as (Pb & Se & Si & Ts & Pi & Ai & Co & Ti & Sy & Ar & Sr).
  set (h := stopAudio st) in *.
  destruct (commit_fields h) as (Sy1 & Pb1 & _ & _ & Ts1 & _ & Co1 & Hd).
  destruct (commit_rest h) as (_ & _ & _ & _ & _ & _ & Ar1 & Sr1 & _).
  rewrite Pb1, Pb, Sy1, Sy, Ar1, Ar, Sr1, Sr, Ts1, Ts, Co1, render_commit.
  repeat split.
  destruct (playbackDepsChanged (committed h) (render h)) eqn:Hch.
  - destruct Hd as [-> _]. now rewrite Pb.
  - destruct Hd as [-> _]. rewrite Ti.
    destruct (timer st) as [r|] eqn:Hr; [|reflexivity].
    destruct (armed_timer st r Hreach Hr) as (Hplay & _).
    rewrite deps_changed_playing in Hch; [discriminate|].
    rewrite Co, Hrest. cbn [render r_playback]. rewrite Pb, Hplay. discriminate.
Qed.

(** The 50 ms timeout of a click, with playback off. *)
Lemma seekTimeout_turn (st : State) (index : Z) :
  committed st = render st ->
  isPlaying (playback st) = false ->
  let st' := commit (seekTimeout index st) in
  playback st'
  = {| isPlaying := true; isLoading := false; currentIndex := index;
       detectedEmotion := None |}
  /\ timer st' = Some (render st')
  /\ activeIndexRef st' = index
  /\ synth st' = synth st
  /\ textSegments st' = textSegments st.
Proof.
  intros Hrest Hoff. cbv zeta.
  assert (playback (seekTimeout index st)
          = {| isPlaying := true; isLoading := false; currentIndex := index;
               detectedEmotion := None |}
          /\ committed (seekTimeout index st) = committed st
          /\ synth (seekTimeout index st) = synth st
          /\ textSegments (seekTimeout index st) = textSegments st)
    as (Pb & Co & Sy & Ts) by (unfold seekTimeout; now destruct st).
  destruct (commit_fields (seekTimeout index st))
    as (Sy1 & Pb1 & _ & _ & Ts1 & _ & _ & Hd).
  rewrite (deps_changed_playing (committed (seekTimeout index st))
             (render (seekTimeout index st))) in Hd.
  2:{ rewrite Co, Hrest. cbn [render r_playback]. rewrite Hoff, Pb. discriminate. }
  destruct Hd as [Ti Ai]. rewrite Pb in Ti, Ai.
  rewrite Pb1, Pb, Ti, render_commit, Sy1, Sy, Ts1, Ts.
  split; [reflexivity|]. split; [reflexivity|]. split; [|now split].
  now apply Ai.
Qed.

(** The timer fires for an index outside the document. *)
Lemma timerFired_outside (st : State) :
  reachable st ->
  timer st = Some (render st) ->
  currentIndex (playback st) < 0
  \/ segmentsLength (textSegments st) <= currentIndex (playback st) ->
  let st' := step st TimerFired in
  playback st' = playback st
  /\ timer st' = None /\ synth st' = synth st
  /\ tasks st' = tasks st /\ requests st' = requests st
  /\ fetches st' = fetches st /\ alerts st' = alerts st.
Proof.
  intros Hreach Hr Hout. cbv zeta.
  destruct (reachable_steady st Hreach) as [_ Hrest].
  destruct (armed_timer st _ Hreach Hr) as (_ & _ & _ & _ & _ & _ & Hfired).
  assert (timerFired st = set_timer None st) as Hh.
  { rewrite Hfired. unfold playSentence.
    replace ((currentIndex (playback st) <? 0)
             || (currentIndex (playback st)
                 >=? segmentsLength (r_textSegments (render st)))) with true;
      [reflexivity|].
    symmetry. apply orb_true_iff. cbn [render r_textSegments].
    destruct Hout as [Hneg|Hpast]; [left; now apply Z.ltb_lt|].
    right. apply Z.geb_le. exact Hpast. }
  rewrite (step_quietly st TimerFired Hreach) by (cbn [handle]; now rewrite Hh).
  cbn [handle]. rewrite Hh.
  destruct (commit_fields (set_timer None st)) as (Sy & Pb & _ & _ & _ & _ & _ & Hd).
  destruct (commit_rest (set_timer None st)) as (Al & Rq & Fe & Ta & _).
  rewrite deps_unchanged in Hd.
  2-6: cbn [committed set_timer]; rewrite Hrest; reflexivity.
  destruct Hd as [Ti _].
  rewrite Pb, Ti, Sy, Al, Rq, Fe, Ta. now repeat split.
Qed.

(** X25. A click on a sentence, in every state the component can reach.
    The click stops the audio: playback is off, nothing is queued for
    speech and no timer is armed. When the 50 ms timeout fires, playback
    is on at the clicked index, the timer is armed for it and it is the
    active index. The index is not checked: for one outside the document
    playback stays on when the timer fires, but nothing is spoken,
    requested or synthesized, and no timer is armed any more. *)
Theorem sentence_click_seeks (st : State) (index : Z) :
  reachable st ->
  let st1 := step st SentenceClick in
  let st2 := step st1 (SeekTimeout index) in
  let st3 := step st2 TimerFired in
  (isPlaying (playback st1) = false
   /\ currentIndex (playback st1) = currentIndex (playback st)
   /\ synth st1 = [] /\ timer st1 = None)
  /\ playback st2
     = {| isPlaying := true; isLoading := false; currentIndex := index;
          detectedEmotion := None |}
  /\ timer st2 = Some (render st2)
  /\ activeIndexRef st2 = index
  /\ (index < 0 \/ segmentsLength (textSegments st) <= index ->
      playback st3 = playback st2
      /\ timer st3 = None /\ synth st3 = []
      /\ tasks st3 = tasks st2 /\ requests st3 = requests st2
      /\ fetches st3 = fetches st2 /\ alerts st3 = alerts st2).
Proof.
  intros Hreach. cbv zeta.
  pose proof (reachable_step _ SentenceClick Hreach) as Hreach1.
  rewrite (step_settled st SentenceClick Hreach) in * by discriminate.
  cbn [handle] in *. unfold handleSentenceClick in *.
  destruct (stopAudio_turn st Hreach) as (Pb1 & Ti1 & Sy1 & _ & _ & Ts1 & Co1).
  generalize dependent (commit (stopAudio st)). clear Hreach.
  intros st1 Hreach1 Pb1 Ti1 Sy1 Ts1 Co1.
  split; [rewrite Pb1; now repeat split|].
  pose proof (reachable_step _ (SeekTimeout index) Hreach1) as Hreach2.
  rewrite (step_settled st1 (SeekTimeout index) Hreach1) in * by discriminate.
  cbn [handle] in *.
  destruct (seekTimeout_turn st1 index Co1 ltac:(now rewrite Pb1))
    as (Pb2 & Ti2 & Ai2 & Sy2 & Ts2).
  generalize dependent (commit (seekTimeout index st1)). clear Hreach1.
  intros st2 Hreach2 Pb2 Ti2 Ai2 Sy2 Ts2.
  split; [exact Pb2|]. split; [exact Ti2|]. split; [exact Ai2|].
  intros Hout.
  destruct (timerFired_outside st2 Hreach2 Ti2) as (Pb3 & Ti3 & Sy3 & Rest).
  { rewrite Pb2, Ts2, Ts1. exact Hout. }
  split; [exact Pb3|]. split; [exact Ti3|]. split; [|exact Rest].
  now rewrite Sy3, Sy2.
Qed.

(** While the first of three sentences is spoken, a click seeks to index
    3, past the end: playback is on at index 3 and nothing is spoken. *)
Lemma sentence_click_seeks_witness :
  let st2 := step (step Listening.speaking SentenceClick) (SeekTimeout 3) in
  let st3 := step st2 TimerFired in
  segmentsLength (textSegments Listening.speaking) = 3
  /\ activeIndexRef st2 = 3
  /\ playback st3
     = {| isPlaying := true; isLoading := false; currentIndex := 3;
          detectedEmotion := None |}
  /\ synth st3 = [] /\ timer st3 = None.
Proof.
  cbv zeta.
  destruct (sentence_click_seeks Listening.speaking 3 (listening_reachable _))
    as (_ & Hpb & _ & Hact & Hout).
  destruct (Hout ltac:(right; vm_compute; discriminate))
    as (Hpb3 & Hti & Hsy & _).
  split; [vm_compute; reflexivity|]. split; [exact Hact|].
  split; [now rewrite Hpb3, Hpb | now split].
Defined.

End SeekFacts.
